(** * Number-to-string conversion of duk_numconv.c

    A shallow embedding of the Dragon4 variant of [duk_numconv.c]
    (limited bigint arithmetic, double decomposition, prepare, scale,
    generate, output formatting, top-level dispatcher), and the
    properties of it that the specification states. *)

From Stdlib Require Import ZArith List Lia Bool String Ascii.
From stdpp Require Import base list.
Import ListNotations.
Local Open Scope Z_scope.

(** ** Machine integers

    [uint32_t] and [uint64_t] values are integers with the wrap-around
    written out.  The [int] variables of the source ([e], [k], [d],
    [count], [pos], limb counts) stay within a few thousand and are plain
    integers. *)

Definition wrap32 (a : Z) : Z := a mod 2 ^ 32.
Definition wrap64 (a : Z) : Z := a mod 2 ^ 64.

(** ** Limited functionality bigint

    [duk_bigint] is [{ int n; uint32_t v[BI_MAX_PARTS]; }], limbs low to
    high.  No function of the source reads a limb at an index [>= n], so a
    bigint is modelled by the list of its [n] live limbs [v[0..n)]:
    [x->n] is the length of the list and [x->v[i]] is [limb x i].  The
    destination of an operation is never one of its operands in the
    source, so an operation is a function from its operands to the new
    value of its destination.  The capacity [BI_MAX_PARTS] is the
    caller's responsibility in the source ([DUK_ASSERT] only) and is not
    modelled. *)

Definition BI_MAX_PARTS : Z := 35.

Abbreviation duk_bigint := (list Z).

Definition limb (x : duk_bigint) (i : nat) : Z := nth i x 0.

(** [(x->n == 0) || (x->v[x->n - 1] != 0)] *)
Definition bi_is_normalized (x : duk_bigint) : bool :=
  (length x =? 0)%nat || negb (limb x (length x - 1) =? 0).

(** The loop of [bi_normalize]: [m] is [i + 1]; the result is the final
    [i + 1]. *)
Fixpoint bi_normalize_loop (x : duk_bigint) (m : nat) : nat :=
  match m with
  | O => O
  | S i => if limb x i =? 0 then bi_normalize_loop x i else m
  end.

Definition bi_normalize (x : duk_bigint) : duk_bigint :=
  firstn (bi_normalize_loop x (length x)) x.

(** [y <- x]: the [n] live limbs are copied. *)
Definition bi_copy (x : duk_bigint) : duk_bigint := x.

Definition bi_set_small (v : Z) : duk_bigint :=
  if v =? 0 then [] else [v].

(** The loop of [bi_add], with [x] the longer operand: [todo] iterations
    remain, [i] is the loop index, [z] holds [z->v[0..i)]. *)
Fixpoint bi_add_loop (x y : duk_bigint) (todo i : nat) (tmp : Z)
    (z : list Z) : list Z * Z :=
  match todo with
  | O => (z, tmp)
  | S todo' =>
      let tmp := wrap64 (tmp + limb x i) in
      let tmp := if (i <? length y)%nat then wrap64 (tmp + limb y i) else tmp in
      bi_add_loop x y todo' (S i) (Z.shiftr tmp 32)
        (z ++ [Z.land tmp 0xffffffff])
  end.

(** [z <- x+y] *)
Definition bi_add (x y : duk_bigint) : duk_bigint :=
  let '(x, y) := if (length x <? length y)%nat then (y, x) else (x, y) in
  let '(z, tmp) := bi_add_loop x y (length x) 0 0 [] in
  if negb (tmp =? 0) then z ++ [wrap32 tmp] else z.

(** The loop of [bi_sub]; [tmp] is an [int64_t] that stays in [-1, 0]
    between iterations, [>> 32] on it is the arithmetic shift. *)
Fixpoint bi_sub_loop (x y : duk_bigint) (todo i : nat) (tmp : Z)
    (z : list Z) : list Z * Z :=
  match todo with
  | O => (z, tmp)
  | S todo' =>
      let tx := limb x i in
      let ty := if (i <? length y)%nat then limb y i else 0 in
      let tmp := tx - ty + tmp in
      bi_sub_loop x y todo' (S i) (Z.shiftr tmp 32)
        (z ++ [Z.land tmp 0xffffffff])
  end.

(** [z <- x-y], require [x >= y] *)
Definition bi_sub (x y : duk_bigint) : duk_bigint :=
  bi_normalize (fst (bi_sub_loop x y (length x) 0 0 [])).

(** The inner loop of [bi_mul] for row [i]: [z->v[i+j]] is read and
    written in place. *)
Fixpoint bi_mul_inner (xi : Z) (y : duk_bigint) (i todo j : nat) (tmp : Z)
    (z : list Z) : list Z * Z :=
  match todo with
  | O => (z, tmp)
  | S todo' =>
      let tmp := wrap64 (tmp + wrap64 (wrap64 (xi * limb y j) + limb z (i + j))) in
      bi_mul_inner xi y i todo' (S j) (Z.shiftr tmp 32)
        (<[(i + j)%nat := Z.land tmp 0xffffffff]> z)
  end.

Fixpoint bi_mul_outer (x y : duk_bigint) (todo i : nat) (z : list Z) : list Z :=
  match todo with
  | O => z
  | S todo' =>
      let '(z, tmp) := bi_mul_inner (limb x i) y i (length y) 0 0 z in
      let ij := (i + length y)%nat in
      let z := if tmp >? 0 then <[ij := wrap32 (limb z ij + wrap32 tmp)]> z else z in
      bi_mul_outer x y todo' (S i) z
  end.

(** [z <- x*y] *)
Definition bi_mul (x y : duk_bigint) : duk_bigint :=
  let nz := (length x + length y)%nat in
  if (nz =? 0)%nat then []
  else bi_normalize (bi_mul_outer x y (length x) 0 (repeat 0 nz)).

(** [z <- x*y] for a [uint32_t] [y] *)
Definition bi_mul_small (x : duk_bigint) (y : Z) : duk_bigint :=
  let tmp := if y =? 0 then [] else [y] in
  bi_mul x tmp.

(** The loop of [bi_compare] on equal lengths: [m] is [i + 1]. *)
Fixpoint bi_compare_loop (x y : duk_bigint) (m : nat) : Z :=
  match m with
  | O => 0
  | S i =>
      let tx := limb x i in
      let ty := limb y i in
      if tx >? ty then 1
      else if tx <? ty then -1
      else bi_compare_loop x y i
  end.

Definition bi_compare (x y : duk_bigint) : Z :=
  if (length y <? length x)%nat then 1
  else if (length x <? length y)%nat then -1
  else bi_compare_loop x y (length x).

Definition bi_is_even (x : duk_bigint) : bool :=
  (length x =? 0)%nat || (Z.land (limb x 0) 0x01 =? 0).

Definition bi_is_2to52 (x : duk_bigint) : bool :=
  (length x =? 2)%nat && (limb x 0 =? 0) && (limb x 1 =? Z.shiftl 1 (52 - 32)).

(** [x <- (1<<y)]; [/] and [%] of C truncate towards zero. *)
Definition bi_twoexp (y : Z) : duk_bigint :=
  let n := Z.quot y 32 + 1 in
  let r := Z.rem y 32 in
  <[Z.to_nat (n - 1) := wrap32 (Z.shiftl 1 r)]> (repeat 0 (Z.to_nat n)).

(** The number a bigint stands for. *)
Fixpoint bi_val (x : duk_bigint) : Z :=
  match x with
  | [] => 0
  | d :: x' => d + 2 ^ 32 * bi_val x'
  end.

(** ** IEEE-754 doubles

    A [double] is its 64-bit pattern
    [seeeeeee eeeeffff ffffffff ... ffffffff], an integer in
    [[0, 2^64)].  The source reads it through a union with
    [uint32_t v[2]] and takes [v[0]] for the low word (its platform
    assumption), which is how [dbl_v0] and [dbl_v1] split it. *)

Definition dbl : Type := Z.

Definition dbl_v0 (x : dbl) : Z := Z.land x 0xffffffff.
Definition dbl_v1 (x : dbl) : Z := Z.land (Z.shiftr x 32) 0xffffffff.

Definition dbl_sign (x : dbl) : Z := Z.land (Z.shiftr x 63) 1.
Definition dbl_expfield (x : dbl) : Z := Z.land (Z.shiftr x 52) 0x7ff.
Definition dbl_fraction (x : dbl) : Z := Z.land x 0xfffffffffffff.

Inductive fpclass : Type :=
  FP_NAN | FP_INFINITE | FP_ZERO | FP_SUBNORMAL | FP_NORMAL.

(** [fpclassify(x)] of <math.h> *)
Definition fpclassify (x : dbl) : fpclass :=
  if dbl_expfield x =? 0x7ff then
    if dbl_fraction x =? 0 then FP_INFINITE else FP_NAN
  else if dbl_expfield x =? 0 then
    if dbl_fraction x =? 0 then FP_ZERO else FP_SUBNORMAL
  else FP_NORMAL.

Definition fpclass_eqb (a b : fpclass) : bool :=
  match a, b with
  | FP_NAN, FP_NAN | FP_INFINITE, FP_INFINITE | FP_ZERO, FP_ZERO
  | FP_SUBNORMAL, FP_SUBNORMAL | FP_NORMAL, FP_NORMAL => true
  | _, _ => false
  end.

(** [x < 0]: false for NaN and for both zeros. *)
Definition dbl_ltb_zero (x : dbl) : bool :=
  (dbl_sign x =? 1) && negb (fpclass_eqb (fpclassify x) FP_NAN)
  && negb (fpclass_eqb (fpclassify x) FP_ZERO).

(** [-x] flips the sign bit. *)
Definition dbl_neg (x : dbl) : dbl := Z.lxor x (Z.shiftl 1 63).

(** A finite double is [dbl_m x * 2 ^ dbl_q x] in absolute value. *)
Definition dbl_m (x : dbl) : Z :=
  if dbl_expfield x =? 0 then dbl_fraction x else dbl_fraction x + 2 ^ 52.
Definition dbl_q (x : dbl) : Z :=
  (if dbl_expfield x =? 0 then 1 else dbl_expfield x) - 1075.

(** The integer part of a finite non-negative double. *)
Definition dbl_trunc (x : dbl) : Z :=
  if 0 <=? dbl_q x then dbl_m x * 2 ^ dbl_q x
  else dbl_m x / 2 ^ (- dbl_q x).

(** [(unsigned int) x] for a finite non-negative [x]: the integer part
    when it fits 32 bits.  Otherwise C leaves the conversion undefined
    ([None]). *)
Definition dbl_to_uint (x : dbl) : option Z :=
  if dbl_trunc x <? 2 ^ 32 then Some (dbl_trunc x) else None.

(** [((double) uval) == x] for a finite non-negative [x]: every
    [unsigned int] is a double, so the test compares the two numbers
    exactly. *)
Definition uint_eq_dbl (uval : Z) (x : dbl) : bool :=
  if 0 <=? dbl_q x then uval =? dbl_m x * 2 ^ dbl_q x
  else uval * 2 ^ (- dbl_q x) =? dbl_m x.

(** ** Conversion context *)

Definition IEEE_DOUBLE_EXP_BIAS : Z := 1023.
Definition IEEE_DOUBLE_EXP_MIN : Z := -1022.

(** [duk_numconv_stringify_ctx].  [out_buf] holds the characters written
    into the array so far, so [out_p] is [out_buf] plus its length as
    long as it points into the array; the flags [low_ok], [high_ok] and
    [out_first] are [int]s used as truth values. *)
Module NC.
Record ctx : Type := mk {
  f : duk_bigint; r : duk_bigint; s : duk_bigint;
  mp : duk_bigint; mm : duk_bigint; t1 : duk_bigint; t2 : duk_bigint;
  x : dbl;
  e : Z;
  B : Z;
  k : Z;
  low_ok : bool;
  high_ok : bool;
  out_buf : list ascii;
  out_first : bool
}.

Definition set_f v c := mk v (r c) (s c) (mp c) (mm c) (t1 c) (t2 c)
  (x c) (e c) (B c) (k c) (low_ok c) (high_ok c) (out_buf c) (out_first c).
Definition set_r v c := mk (f c) v (s c) (mp c) (mm c) (t1 c) (t2 c)
  (x c) (e c) (B c) (k c) (low_ok c) (high_ok c) (out_buf c) (out_first c).
Definition set_s v c := mk (f c) (r c) v (mp c) (mm c) (t1 c) (t2 c)
  (x c) (e c) (B c) (k c) (low_ok c) (high_ok c) (out_buf c) (out_first c).
Definition set_mp v c := mk (f c) (r c) (s c) v (mm c) (t1 c) (t2 c)
  (x c) (e c) (B c) (k c) (low_ok c) (high_ok c) (out_buf c) (out_first c).
Definition set_mm v c := mk (f c) (r c) (s c) (mp c) v (t1 c) (t2 c)
  (x c) (e c) (B c) (k c) (low_ok c) (high_ok c) (out_buf c) (out_first c).
Definition set_t1 v c := mk (f c) (r c) (s c) (mp c) (mm c) v (t2 c)
  (x c) (e c) (B c) (k c) (low_ok c) (high_ok c) (out_buf c) (out_first c).
Definition set_t2 v c := mk (f c) (r c) (s c) (mp c) (mm c) (t1 c) v
  (x c) (e c) (B c) (k c) (low_ok c) (high_ok c) (out_buf c) (out_first c).
Definition set_e v c := mk (f c) (r c) (s c) (mp c) (mm c) (t1 c) (t2 c)
  (x c) v (B c) (k c) (low_ok c) (high_ok c) (out_buf c) (out_first c).
Definition set_k v c := mk (f c) (r c) (s c) (mp c) (mm c) (t1 c) (t2 c)
  (x c) (e c) (B c) v (low_ok c) (high_ok c) (out_buf c) (out_first c).
Definition set_low_ok v c := mk (f c) (r c) (s c) (mp c) (mm c) (t1 c) (t2 c)
  (x c) (e c) (B c) (k c) v (high_ok c) (out_buf c) (out_first c).
Definition set_high_ok v c := mk (f c) (r c) (s c) (mp c) (mm c) (t1 c) (t2 c)
  (x c) (e c) (B c) (k c) (low_ok c) v (out_buf c) (out_first c).
Definition set_out_buf v c := mk (f c) (r c) (s c) (mp c) (mm c) (t1 c) (t2 c)
  (x c) (e c) (B c) (k c) (low_ok c) (high_ok c) v (out_first c).
Definition set_out_first v c := mk (f c) (r c) (s c) (mp c) (mm c) (t1 c) (t2 c)
  (x c) (e c) (B c) (k c) (low_ok c) (high_ok c) (out_buf c) v.
End NC.

Abbreviation duk_numconv_stringify_ctx := NC.ctx.

(** [sizeof(out_buf)] for [char out_buf[512]]. *)
Definition sizeof_out_buf : nat := 512.

(** The condition of the [DUK_ASSERT] in [NUMCONV_PUTCHAR]:
    [out_p < out_buf + sizeof(out_buf)]. *)
Definition out_p_in_out_buf (nc : NC.ctx) : bool :=
  (length (NC.out_buf nc) <? sizeof_out_buf)%nat.

(** [*((nc_ctx)->out_p++) = (x)].  Nothing but the [DUK_ASSERT] keeps
    [out_p] within the array: when its condition fails the write goes
    past the end of the array, which is undefined in C.  The array of
    the model then stays as it is, full, and the call has no result
    (see [duk_numconv_stringify]). *)
Definition NUMCONV_PUTCHAR (nc : NC.ctx) (c : ascii) : NC.ctx :=
  if out_p_in_out_buf nc
  then NC.set_out_buf (NC.out_buf nc ++ [c]) nc
  else nc.

(** [char digits[36]] *)
Definition digits : list ascii :=
  ["0"; "1"; "2"; "3"; "4"; "5"; "6"; "7"; "8"; "9";
   "a"; "b"; "c"; "d"; "e"; "f"; "g"; "h"; "i"; "j";
   "k"; "l"; "m"; "n"; "o"; "p"; "q"; "r"; "s"; "t";
   "u"; "v"; "w"; "x"; "y"; "z"]%char.

(** [digits[d]].  The table has 36 entries; an index outside it reads
    past the array in C, and reads the NUL character here. *)
Definition digits_at (d : Z) : ascii :=
  if d <? 0 then "000"%char else nth (Z.to_nat d) digits "000"%char.

(** [x <- x-y] and [x <- x*y] through a temporary: the pair is the new
    [x] and the new temporary. *)
Definition bi_sub_copy (x y : duk_bigint) : duk_bigint * duk_bigint :=
  let t := bi_sub x y in (bi_copy t, t).

Definition bi_mul_small_copy (x : duk_bigint) (y : Z) : duk_bigint * duk_bigint :=
  let t := bi_mul_small x y in (bi_copy t, t).

(** ** Double decomposition *)

Definition dragon4_convert_double (nc : NC.ctx) : NC.ctx :=
  let u_v0 := dbl_v0 (NC.x nc) in
  let u_v1 := dbl_v1 (NC.x nc) in
  let f0 := u_v0 in
  let f1 := Z.land u_v1 0x000fffff in
  let exp := Z.land (Z.shiftr u_v1 20) 0x07ff in
  if exp =? 0 then
    NC.set_e (IEEE_DOUBLE_EXP_MIN - 52) (NC.set_f [f0; f1] nc)
  else
    NC.set_e (exp - IEEE_DOUBLE_EXP_BIAS - 52)
      (NC.set_f [f0; Z.lor f1 0x00100000] nc).

(** ** Prepare *)

Definition dragon4_prepare (nc : NC.ctx) : NC.ctx :=
  let nc :=
    if bi_is_even (NC.f nc)
    then NC.set_high_ok true (NC.set_low_ok true nc)
    else NC.set_high_ok false (NC.set_low_ok false nc) in
  if NC.e nc >=? 0 then
    if bi_is_2to52 (NC.f nc) then
      let nc := NC.set_t1 (bi_twoexp (NC.e nc + 2)) nc in
      let nc := NC.set_r (bi_mul (NC.f nc) (NC.t1 nc)) nc in
      let nc := NC.set_s (bi_set_small 4) nc in
      let nc := NC.set_mp (bi_twoexp (NC.e nc + 1)) nc in
      NC.set_mm (bi_twoexp (NC.e nc)) nc
    else
      let nc := NC.set_t1 (bi_twoexp (NC.e nc + 1)) nc in
      let nc := NC.set_r (bi_mul (NC.f nc) (NC.t1 nc)) nc in
      let nc := NC.set_s (bi_set_small 2) nc in
      let nc := NC.set_t1 (bi_twoexp (NC.e nc)) nc in
      let nc := NC.set_mp (bi_copy (NC.t1 nc)) nc in
      NC.set_mm (bi_copy (NC.t1 nc)) nc
  else
    if (NC.e nc >? IEEE_DOUBLE_EXP_MIN) && bi_is_2to52 (NC.f nc) then
      let nc := NC.set_r (bi_mul_small (NC.f nc) 4) nc in
      let nc := NC.set_s (bi_twoexp (2 - NC.e nc)) nc in
      let nc := NC.set_mp (bi_set_small 2) nc in
      NC.set_mm (bi_set_small 1) nc
    else
      let nc := NC.set_r (bi_mul_small (NC.f nc) 2) nc in
      let nc := NC.set_s (bi_twoexp (1 - NC.e nc)) nc in
      let nc := NC.set_mp (bi_set_small 1) nc in
      NC.set_mm (bi_set_small 1) nc.

(** ** Scale

    The [for (;;)] loops of the source are functions on a [fuel] that
    bounds the number of iterations; [None] is a loop that has not
    finished within the bound.  The radix [B] is an [int] and the
    factor of [bi_mul_small] a [uint32_t]: the call converts it, which
    is [wrap32]. *)

(** The first loop of [dragon4_scale] ("inc k"). *)
Fixpoint dragon4_scale_inc (fuel : nat) (nc : NC.ctx) (k : Z)
    : option (NC.ctx * Z) :=
  match fuel with
  | O => None
  | S fuel' =>
      let nc := NC.set_t1 (bi_add (NC.r nc) (NC.mp nc)) nc in
      if bi_compare (NC.t1 nc) (NC.s nc) >=? (if NC.high_ok nc then 0 else 1)
      then
        let '(s', t) := bi_mul_small_copy (NC.s nc) (wrap32 (NC.B nc)) in
        let nc := NC.set_s s' (NC.set_t1 t nc) in
        dragon4_scale_inc fuel' nc (k + 1)
      else Some (nc, k)
  end.

(** The second loop of [dragon4_scale] ("dec k"). *)
Fixpoint dragon4_scale_dec (fuel : nat) (nc : NC.ctx) (k : Z)
    : option (NC.ctx * Z) :=
  match fuel with
  | O => None
  | S fuel' =>
      let nc := NC.set_t1 (bi_add (NC.r nc) (NC.mp nc)) nc in
      let nc := NC.set_t2 (bi_mul_small (NC.t1 nc) (wrap32 (NC.B nc))) nc in
      if bi_compare (NC.t2 nc) (NC.s nc) <=? (if NC.high_ok nc then -1 else 0)
      then
        let '(r', t) := bi_mul_small_copy (NC.r nc) (wrap32 (NC.B nc)) in
        let nc := NC.set_r r' (NC.set_t1 t nc) in
        let '(mp', t) := bi_mul_small_copy (NC.mp nc) (wrap32 (NC.B nc)) in
        let nc := NC.set_mp mp' (NC.set_t1 t nc) in
        let '(mm', t) := bi_mul_small_copy (NC.mm nc) (wrap32 (NC.B nc)) in
        let nc := NC.set_mm mm' (NC.set_t1 t nc) in
        dragon4_scale_dec fuel' nc (k - 1)
      else Some (nc, k)
  end.

Definition dragon4_scale (fuel : nat) (nc : NC.ctx) : option NC.ctx :=
  match dragon4_scale_inc fuel nc 0 with
  | None => None
  | Some (nc, k) =>
      if k >? 0 then Some (NC.set_k k nc)
      else
        match dragon4_scale_dec fuel nc k with
        | None => None
        | Some (nc, k) => Some (NC.set_k k nc)
        end
  end.

(** ** Output *)

(** [for (i = 0; i > nc_ctx->k; i--) NUMCONV_PUTCHAR(nc_ctx, '0')]: one
    character for each of [i = 0, -1, ..., k + 1]. *)
Definition putchar_zeros (n : Z) (nc : NC.ctx) : NC.ctx :=
  Nat.iter (Z.to_nat n) (fun nc => NUMCONV_PUTCHAR nc "0"%char) nc.

Definition dragon4_output (nc : NC.ctx) (d n : Z) : NC.ctx :=
  let pos := NC.k nc - n in
  let nc :=
    if (pos <=? 0) && NC.out_first nc then
      let nc := NUMCONV_PUTCHAR nc "0"%char in
      let nc := NUMCONV_PUTCHAR nc "."%char in
      putchar_zeros (- NC.k nc) nc
    else if pos =? 0 then NUMCONV_PUTCHAR nc "."%char
    else nc in
  let nc := NUMCONV_PUTCHAR nc (digits_at d) in
  NC.set_out_first false nc.

(** The loop of [dragon4_finish] writes a ['0'] and decrements [pos]
    until [pos <= 0]. *)
Definition dragon4_finish (nc : NC.ctx) (n : Z) : NC.ctx :=
  if NC.k nc >=? 1 then
    let pos := NC.k nc - n in
    putchar_zeros pos nc
  else nc.

(** ** Generate *)

(** The "dummy subtraction loop": [t1 <- t1 - s] while [t1 >= s],
    counting in [d]. *)
Fixpoint dragon4_divloop (fuel : nat) (nc : NC.ctx) (d : Z)
    : option (NC.ctx * Z) :=
  match fuel with
  | O => None
  | S fuel' =>
      if bi_compare (NC.t1 nc) (NC.s nc) <? 0 then Some (nc, d)
      else
        let '(t1', t) := bi_sub_copy (NC.t1 nc) (NC.s nc) in
        let nc := NC.set_t1 t1' (NC.set_t2 t nc) in
        dragon4_divloop fuel' nc (d + 1)
  end.

(** [&nc_ctx->high_ok], the address of a member of the live context, as
    the condition of [?:]: never a null pointer, whatever the flag
    holds. *)
Definition addr_high_ok_nonnull (nc : NC.ctx) : bool := true.

(** One round of the loop of [dragon4_generate], up to the branch on the
    termination conditions: the context, the quotient digit [d], [tc1]
    and [tc2]. *)
Definition dragon4_generate_round (fuel : nat) (nc : NC.ctx)
    : option (NC.ctx * Z * bool * bool) :=
  let nc := NC.set_t1 (bi_mul_small (NC.r nc) (wrap32 (NC.B nc))) nc in
  match dragon4_divloop fuel nc 0 with
  | None => None
  | Some (nc, d) =>
      let nc := NC.set_r (bi_copy (NC.t1 nc)) nc in
      let '(mp', t) := bi_mul_small_copy (NC.mp nc) (wrap32 (NC.B nc)) in
      let nc := NC.set_mp mp' (NC.set_t2 t nc) in
      let '(mm', t) := bi_mul_small_copy (NC.mm nc) (wrap32 (NC.B nc)) in
      let nc := NC.set_mm mm' (NC.set_t2 t nc) in
      let tc1 :=
        bi_compare (NC.r nc) (NC.mm nc) <=? (if NC.low_ok nc then 0 else -1) in
      let nc := NC.set_t1 (bi_add (NC.r nc) (NC.mp nc)) nc in
      let tc2 :=
        bi_compare (NC.t1 nc) (NC.s nc) >=?
          (if addr_high_ok_nonnull nc then 0 else 1) in
      Some (nc, d, tc1, tc2)
  end.

(** The loop of [dragon4_generate].  Besides the context and [count] it
    returns the calls it made to [dragon4_output], oldest first, each as
    the pair of the quotient digit [d] of that round and the digit index
    passed. *)
Fixpoint dragon4_generate_loop (fuel : nat) (nc : NC.ctx) (count : Z)
    : option (NC.ctx * Z * list (Z * Z)) :=
  match fuel with
  | O => None
  | S fuel' =>
      match dragon4_generate_round (S fuel') nc with
      | None => None
      | Some (nc, d, tc1, tc2) =>
          if tc1 then
            if tc2 then
              let nc := NC.set_t1 (bi_mul_small (NC.r nc) 2) nc in
              if bi_compare (NC.t1 nc) (NC.s nc) <? 0 then
                Some (dragon4_output nc d count, count + 1, [(d, d)])
              else
                Some (dragon4_output nc (d + 1) count, count + 1, [(d, d + 1)])
            else
              Some (dragon4_output nc d count, count + 1, [(d, d)])
          else
            if tc2 then
              Some (dragon4_output nc (d + 1) count, count + 1, [(d, d + 1)])
            else
              let nc := dragon4_output nc d count in
              match dragon4_generate_loop fuel' nc (count + 1) with
              | None => None
              | Some (nc, count, calls) => Some (nc, count, (d, d) :: calls)
              end
      end
  end.

Definition dragon4_generate (fuel : nat) (nc : NC.ctx)
    : option (NC.ctx * list (Z * Z)) :=
  match dragon4_generate_loop fuel nc 0 with
  | None => None
  | Some (nc, count, calls) => Some (dragon4_finish nc count, calls)
  end.

(** ** Exposed number-to-string API *)

(** The built-in strings that [duk_numconv_stringify] pushes by index. *)
Inductive stridx : Type :=
  | DUK_STRIDX_NAN
  | DUK_STRIDX_MINUS_INFINITY
  | DUK_STRIDX_INFINITY
  | DUK_STRIDX_ZERO.

(** What a call hands to the value stack: the call made and its
    arguments. *)
Inductive pushed : Type :=
  | duk_push_hstring_stridx (i : stridx)
  | duk_push_sprintf (neg : bool) (uval : Z)
  | duk_push_string (out_buf : list ascii).

Definition nc_init (x : dbl) (radix : Z) : NC.ctx :=
  NC.mk [] [] [] [] [] [] [] x 0 radix 0 false false [] true.

(** The result is the push the call ends with.  [None] is a call with
    no such result: a loop that has not finished within [fuel], or a
    write past the end of [out_buf].  The writes go to consecutive
    bytes, so all of them are within the array exactly when the last
    one is, that of the terminating NUL: when the condition of its
    [DUK_ASSERT] holds. *)
Definition duk_numconv_stringify (fuel : nat) (x : dbl) (radix digits : Z)
    : option pushed :=
  let c := fpclassify x in
  let '(x, neg) := if dbl_ltb_zero x then (dbl_neg x, true) else (x, false) in
  match c with
  | FP_NAN => Some (duk_push_hstring_stridx DUK_STRIDX_NAN)
  | FP_INFINITE =>
      if neg then Some (duk_push_hstring_stridx DUK_STRIDX_MINUS_INFINITY)
      else Some (duk_push_hstring_stridx DUK_STRIDX_INFINITY)
  | FP_ZERO => Some (duk_push_hstring_stridx DUK_STRIDX_ZERO)
  | _ =>
      let fast :=
        if radix =? 10 then
          match dbl_to_uint x with
          | Some uval => if uint_eq_dbl uval x then Some uval else None
          | None => None
          end
        else None in
      match fast with
      | Some uval => Some (duk_push_sprintf neg uval)
      | None =>
          let nc := nc_init x radix in
          let nc := dragon4_convert_double nc in
          let nc := dragon4_prepare nc in
          match dragon4_scale fuel nc with
          | None => None
          | Some nc =>
              let nc := if neg then NUMCONV_PUTCHAR nc "-"%char else nc in
              match dragon4_generate fuel nc with
              | None => None
              | Some (nc, _) =>
                  if out_p_in_out_buf nc then
                    let nc := NUMCONV_PUTCHAR nc "000"%char in
                    Some (duk_push_string (NC.out_buf nc))
                  else None
              end
          end
      end
  end.

(** Modelled from the spec: the string table behind
    [duk_push_hstring_stridx] is not part of this file; the spec names the
    literals [NaN], [Infinity], [-Infinity] and [0]. *)
Definition stridx_literal (i : stridx) : list ascii :=
  match i with
  | DUK_STRIDX_NAN => ["N"; "a"; "N"]
  | DUK_STRIDX_MINUS_INFINITY => ["-"; "I"; "n"; "f"; "i"; "n"; "i"; "t"; "y"]
  | DUK_STRIDX_INFINITY => ["I"; "n"; "f"; "i"; "n"; "i"; "t"; "y"]
  | DUK_STRIDX_ZERO => ["0"]
  end%char.

(** The decimal digits of an [unsigned int], most significant first;
    ten rounds cover 32 bits. *)
Fixpoint fmt_u_loop (rounds : nat) (u : Z) (acc : list ascii) : list ascii :=
  match rounds with
  | O => acc
  | S rounds' =>
      let acc := digits_at (u mod 10) :: acc in
      if u / 10 =? 0 then acc else fmt_u_loop rounds' (u / 10) acc
  end.

(** Modelled from the spec: [duk_push_sprintf] is not part of this file;
    with the format ["%s%u"] it is the "standard integer-to-decimal
    conversion with optional [-]" of the spec. *)
Definition fmt_su (neg : bool) (uval : Z) : list ascii :=
  (if neg then ["-"%char] else []) ++ fmt_u_loop 10 uval [].

(** A NUL-terminated buffer read as a C string. *)
Fixpoint c_str (buf : list ascii) : list ascii :=
  match buf with
  | [] => []
  | c :: buf' => if Ascii.eqb c "000"%char then [] else c :: c_str buf'
  end.

(** The characters of the string a call leaves on the value stack. *)
Definition pushed_chars (p : pushed) : list ascii :=
  match p with
  | duk_push_hstring_stridx i => stridx_literal i
  | duk_push_sprintf neg uval => fmt_su neg uval
  | duk_push_string buf => c_str buf
  end.

Definition pushed_string (p : pushed) : string :=
  string_of_list_ascii (pushed_chars p).

(** The string [duk_numconv_stringify] produces, when it returns. *)
Definition stringify_to_string (fuel : nat) (x : dbl) (radix : Z) : option string :=
  option_map pushed_string (duk_numconv_stringify fuel x radix 0).

(** ** Vocabulary of the statements *)

(** Every limb is a [uint32_t]. *)
Definition limbs_ok (x : duk_bigint) : Prop :=
  Forall (fun d => 0 <= d < 2 ^ 32) x.

(** A bigint as the operations expect it: 32-bit limbs, normalized. *)
Definition bi_wf (x : duk_bigint) : Prop :=
  limbs_ok x /\ bi_is_normalized x = true.

(** The weight of limb [i]. *)
Definition wt (i : nat) : Z := 2 ^ (32 * Z.of_nat i).

(** A finite, non-zero, positive double. *)
Definition dbl_is_finite_pos (x : dbl) : bool :=
  (0 <=? x) && (x <? 2 ^ 63) &&
  (fpclass_eqb (fpclassify x) FP_NORMAL
   || fpclass_eqb (fpclassify x) FP_SUBNORMAL).

(** The context [duk_numconv_stringify] hands to [dragon4_scale]. *)
Definition dragon4_start (x : dbl) (radix : Z) : NC.ctx :=
  dragon4_prepare (dragon4_convert_double (nc_init x radix)).

(** The numbers held in [r], [s], [m+] and [m-]. *)
Definition R (nc : NC.ctx) : Z := bi_val (NC.r nc).
Definition S_ (nc : NC.ctx) : Z := bi_val (NC.s nc).
Definition MP (nc : NC.ctx) : Z := bi_val (NC.mp nc).
Definition MM (nc : NC.ctx) : Z := bi_val (NC.mm nc).

(** The invariant of scale and generate on the context. *)
Record nc_ok (nc : NC.ctx) : Prop := mk_nc_ok {
  ok_r : bi_wf (NC.r nc);
  ok_s : bi_wf (NC.s nc);
  ok_mp : bi_wf (NC.mp nc);
  ok_mm : bi_wf (NC.mm nc);
  ok_s_pos : 0 < S_ nc;
  ok_mp_pos : 0 < MP nc;
  ok_mm_pos : 0 < MM nc;
  ok_B : 2 <= NC.B nc <= 36
}.

(** What scale and generate leave alone, but for the output buffer. *)
Definition same_params (nc nc' : NC.ctx) : Prop :=
  NC.B nc' = NC.B nc /\ NC.low_ok nc' = NC.low_ok nc /\
  NC.high_ok nc' = NC.high_ok nc /\ NC.x nc' = NC.x nc /\
  NC.e nc' = NC.e nc /\ NC.f nc' = NC.f nc.

Definition same_out (nc nc' : NC.ctx) : Prop :=
  NC.out_buf nc' = NC.out_buf nc /\ NC.out_first nc' = NC.out_first nc.

(** [r + m+] is an odd multiple of a power of two times a power of the
    radix, and [s] a power of two times a power of the radix. *)
Definition shape (F : Z) (nc : NC.ctx) : Prop :=
  exists a b i j, 0 <= a /\ 0 <= b /\ 0 <= i /\ 0 <= j /\
    R nc + MP nc = (2 * F + 1) * 2 ^ a * NC.B nc ^ j /\
    S_ nc = 2 ^ b * NC.B nc ^ i.

(** The bounds that scale leaves on [r + m+] against [s]. *)
Definition scaled (nc : NC.ctx) : Prop :=
  if NC.high_ok nc
  then S_ nc <= NC.B nc * (R nc + MP nc) /\ R nc + MP nc < S_ nc
  else S_ nc < NC.B nc * (R nc + MP nc) /\ R nc + MP nc <= S_ nc.

(** What scale did to [r], [s], [m+] and [m-] of [nc0] for the [k] it
    found: [s] is multiplied by [B^k] when [k > 0], the other three by
    [B^(-k)] when [k <= 0]. *)
Definition scaled_from (nc0 nc : NC.ctx) : Prop :=
  let B := NC.B nc0 in
  let k := NC.k nc in
  (0 < k /\ R nc = R nc0 /\ MP nc = MP nc0 /\ MM nc = MM nc0 /\
   S_ nc = S_ nc0 * B ^ k) \/
  (k <= 0 /\ S_ nc = S_ nc0 /\ R nc = R nc0 * B ^ (- k) /\
   MP nc = MP nc0 * B ^ (- k) /\ MM nc = MM nc0 * B ^ (- k)).

(** One context is the other but for the output buffer and its flag. *)
Definition same_but_out (nc nc' : NC.ctx) : Prop :=
  NC.f nc' = NC.f nc /\ NC.r nc' = NC.r nc /\ NC.s nc' = NC.s nc /\
  NC.mp nc' = NC.mp nc /\ NC.mm nc' = NC.mm nc /\
  NC.t1 nc' = NC.t1 nc /\ NC.t2 nc' = NC.t2 nc /\
  NC.x nc' = NC.x nc /\ NC.e nc' = NC.e nc /\ NC.B nc' = NC.B nc /\
  NC.k nc' = NC.k nc /\ NC.low_ok nc' = NC.low_ok nc /\
  NC.high_ok nc' = NC.high_ok nc.

(** Of the characters [l] written through [out_p], from the start of
    [out_buf] on, those that lie within the array. *)
Definition out_cut (l : list ascii) : list ascii := firstn sizeof_out_buf l.

(** The characters [dragon4_output] writes before a digit. *)
Definition zero_or_dot (c : ascii) : Prop := c = "0"%char \/ c = "."%char.

(** One context is the other but for the scratch bigints [t1], [t2]. *)
Definition same_but_scratch (nc nc' : NC.ctx) : Prop :=
  NC.f nc' = NC.f nc /\ NC.r nc' = NC.r nc /\ NC.s nc' = NC.s nc /\
  NC.mp nc' = NC.mp nc /\ NC.mm nc' = NC.mm nc /\
  NC.x nc' = NC.x nc /\ NC.e nc' = NC.e nc /\ NC.B nc' = NC.B nc /\
  NC.k nc' = NC.k nc /\ NC.low_ok nc' = NC.low_ok nc /\
  NC.high_ok nc' = NC.high_ok nc /\ NC.out_buf nc' = NC.out_buf nc /\
  NC.out_first nc' = NC.out_first nc.

(** A call of [dragon4_output] recorded as [(d, p)]: the quotient digit
    [d] of the round and the index [p] passed. *)
Definition call_ok (B : Z) (c : Z * Z) : Prop :=
  0 <= fst c <= B - 1 /\ (snd c = fst c \/ snd c = fst c + 1).

Definition call_plain (c : Z * Z) : Prop := snd c = fst c.

(** A finite, non-zero double of either sign. *)
Definition dbl_is_finite_nonzero (x : dbl) : bool :=
  (0 <=? x) && (x <? 2 ^ 64) &&
  (fpclass_eqb (fpclassify x) FP_NORMAL
   || fpclass_eqb (fpclassify x) FP_SUBNORMAL).

(** The digit indices of a list of calls all denote a table entry. *)
Definition in_table (p : Z) : Prop := 0 <= p <= 35.

(** [|x| = n] for a finite double [x] and an integer [n]: the magnitude
    is [dbl_m x * 2 ^ dbl_q x], whatever the sign bit. *)
Definition dbl_abs_is (x : dbl) (n : Z) : Prop :=
  if 0 <=? dbl_q x then n = dbl_m x * 2 ^ dbl_q x
  else n * 2 ^ (- dbl_q x) = dbl_m x.

(** The value of a decimal digit character, and of a decimal numeral. *)
Definition dec_digit (c : ascii) : Z := Z.of_nat (nat_of_ascii c) - 48.

Definition is_dec_digit (c : ascii) : Prop := 0 <= dec_digit c <= 9.

Definition dec_val (l : list ascii) : Z :=
  fold_left (fun a c => 10 * a + dec_digit c) l 0.

(** [B^k * a <= b] and [B^k * a < b] for an exponent [k] of either sign,
    cleared of denominators. *)
Definition pow_le (B k a b : Z) : Prop :=
  B ^ Z.max 0 k * a <= B ^ Z.max 0 (- k) * b.

Definition pow_lt (B k a b : Z) : Prop :=
  B ^ Z.max 0 k * a < B ^ Z.max 0 (- k) * b.

(** [b <= B^k * a] and [b < B^k * a]. *)
Definition le_pow (B k a b : Z) : Prop :=
  B ^ Z.max 0 (- k) * b <= B ^ Z.max 0 k * a.

Definition lt_pow (B k a b : Z) : Prop :=
  B ^ Z.max 0 (- k) * b < B ^ Z.max 0 k * a.

(** [B^(k-1) * s <= h < B^k * s], the lower comparison strict and the
    upper one not when [high_ok] is false. *)
Definition scale_bounds (B k : Z) (high_ok : bool) (h s : Z) : Prop :=
  if high_ok
  then pow_le B (k - 1) s h /\ lt_pow B k s h
  else pow_lt B (k - 1) s h /\ le_pow B k s h.

(** The double [2 * f] with [2 * f + 1 = 7^19] and [f] odd: in radix 7
    its upper boundary [r + m+] is a power of the radix. *)
Definition tie_radix7 : dbl := 0x43443F9E0D2D93EB.

(** The fast-path test of [duk_numconv_stringify] on the magnitude. *)
Definition fast_path (x : dbl) (radix : Z) : option Z :=
  if radix =? 10 then
    match dbl_to_uint x with
    | Some uval => if uint_eq_dbl uval x then Some uval else None
    | None => None
    end
  else None.

(** The magnitude that [duk_numconv_stringify] converts. *)
Definition dbl_abs (x : dbl) : dbl := if dbl_ltb_zero x then dbl_neg x else x.

(** Projections of updated contexts. *)
Ltac nc_cbn :=
  cbn [NC.f NC.r NC.s NC.mp NC.mm NC.t1 NC.t2 NC.x NC.e NC.B NC.k
       NC.low_ok NC.high_ok NC.out_buf NC.out_first
       NC.set_f NC.set_r NC.set_s NC.set_mp NC.set_mm NC.set_t1 NC.set_t2
       NC.set_e NC.set_k NC.set_low_ok NC.set_high_ok NC.set_out_buf
       NC.set_out_first] in *.

(** ** Further definitions *)

(** [return (x->n == 0)]; compiled out in the source ([#if 0]). *)
Definition bi_is_zero (x : duk_bigint) : bool := (length x =? 0)%nat.

(** The number a list of digit indices denotes in radix [B], most
    significant first. *)
Fixpoint digits_val (B : Z) (l : list Z) : Z :=
  match l with
  | [] => 0
  | d :: l' => d * B ^ Z.of_nat (length l') + digits_val B l'
  end.

(** A digit string laid out in fixed notation with [k] digits before the
    point: [0.], [-k] zeros and the digits when [k <= 0]; the digits
    padded with zeros up to [k] places when they are at most [k]; the
    digits with a point after the first [k] otherwise. *)
Definition digits_layout (k : Z) (ds : list ascii) : list ascii :=
  if k <=? 0 then
    ["0"; "."]%char ++ repeat "0"%char (Z.to_nat (- k)) ++ ds
  else if Z.of_nat (length ds) <=? k then
    ds ++ repeat "0"%char (Z.to_nat (k - Z.of_nat (length ds)))
  else
    firstn (Z.to_nat k) ds ++ ["."%char] ++ skipn (Z.to_nat k) ds.

(** The digit characters of a list of calls of [dragon4_output]. *)
Definition call_chars (calls : list (Z * Z)) : list ascii :=
  map (fun c => digits_at (snd c)) calls.

(** The low termination condition of generate on the numbers a round
    leaves: [r <= m-], strict when [low_ok] is false. *)
Definition low_end (low_ok : bool) (r mm : Z) : Prop :=
  if low_ok then r <= mm else r < mm.

(** Digits with [pos] places left before the point: the point comes
    after the first [pos] digits when there are more, at the front when
    [pos = 0], and not at all when [pos < 0] (the point is already
    written). *)
Definition digits_point (pos : Z) (ds : list ascii) : list ascii :=
  if pos <? 0 then ds
  else
    firstn (Z.to_nat pos) ds ++
    (if pos <? Z.of_nat (length ds)
     then "."%char :: skipn (Z.to_nat pos) ds else []).

(** The context with [pre] written before what its output buffer
    holds, as far as the array goes. *)
Definition prepend (pre : list ascii) (nc : NC.ctx) : NC.ctx :=
  NC.set_out_buf (out_cut (pre ++ NC.out_buf nc)) nc.

(** [P * B^j] is within half a unit in the last place of [m * 2^q]:
    [(m - 1/2) * 2^q <= P * B^j <= (m + 1/2) * 2^q], cleared of
    denominators. *)
Definition within_half_ulp (m q B P j : Z) : Prop :=
  (2 * m - 1) * 2 ^ Z.max 0 q * B ^ Z.max 0 (- j)
    <= 2 * P * 2 ^ Z.max 0 (- q) * B ^ Z.max 0 j /\
  2 * P * 2 ^ Z.max 0 (- q) * B ^ Z.max 0 j
    <= (2 * m + 1) * 2 ^ Z.max 0 q * B ^ Z.max 0 (- j).

(** A small context for examples: [r / s = 100 / 300] with gaps
    [m+ / s = m- / s = 1 / 300], radix 10, [k = 0], nothing written. *)
Definition third_ctx : NC.ctx :=
  NC.mk [] [100] [300] [1] [1] [] [] 0 0 10 0 true true [] true.

(** * Properties of the bigint operations *)

Section Weights.

Lemma wt_0 : wt 0 = 1.
Proof. reflexivity. Qed.

Lemma wt_S i : wt (S i) = 2 ^ 32 * wt i.
Proof.
  unfold wt. rewrite Nat2Z.inj_succ.
  replace (32 * Z.succ (Z.of_nat i)) with (32 + 32 * Z.of_nat i) by lia.
  rewrite Z.pow_add_r by lia. reflexivity.
Qed.

Lemma wt_pos i : 0 < wt i.
Proof. unfold wt. apply Z.pow_pos_nonneg; lia. Qed.

Lemma wt_add i j : wt (i + j) = wt i * wt j.
Proof.
  unfold wt. rewrite Nat2Z.inj_add, Z.mul_add_distr_l, Z.pow_add_r by lia.
  reflexivity.
Qed.

Lemma wt_mono i j : (i <= j)%nat -> wt i <= wt j.
Proof. intros H. unfold wt. apply Z.pow_le_mono_r; lia. Qed.

End Weights.

Section Limbs.

Lemma limbs_ok_nil : limbs_ok [].
Proof. constructor. Qed.

Lemma limbs_ok_cons d x :
  limbs_ok (d :: x) <-> 0 <= d < 2 ^ 32 /\ limbs_ok x.
Proof. unfold limbs_ok. apply Forall_cons_iff. Qed.

Lemma limbs_ok_app x y : limbs_ok (x ++ y) <-> limbs_ok x /\ limbs_ok y.
Proof. unfold limbs_ok. apply Forall_app. Qed.

Lemma limb_nil i : limb [] i = 0.
Proof. unfold limb. destruct i; reflexivity. Qed.

Lemma limb_overflow x i : (length x <= i)%nat -> limb x i = 0.
Proof. intros H. unfold limb. apply nth_overflow. exact H. Qed.

Lemma limb_range x i : limbs_ok x -> 0 <= limb x i < 2 ^ 32.
Proof.
  intros Hx. revert i. induction Hx as [|d x Hd _ IH]; intros i.
  - rewrite limb_nil. lia.
  - destruct i as [|i]; [exact Hd | apply IH].
Qed.

Lemma limb_app_l x y i : (i < length x)%nat -> limb (x ++ y) i = limb x i.
Proof. intros H. unfold limb. apply app_nth1. exact H. Qed.

Lemma limb_app_r x y i :
  (length x <= i)%nat -> limb (x ++ y) i = limb y (i - length x).
Proof. intros H. unfold limb. apply app_nth2. lia. Qed.

Lemma limb_insert_eq (z : list Z) i a :
  (i < length z)%nat -> limb (<[i:=a]> z) i = a.
Proof.
  revert i. induction z as [|d z IH]; intros i H; simpl in H; [lia|].
  destruct i as [|i]; simpl; [reflexivity | apply IH; lia].
Qed.

Lemma limb_insert_ne (z : list Z) i j a :
  i <> j -> limb (<[i:=a]> z) j = limb z j.
Proof.
  revert i j. induction z as [|d z IH]; intros i j H; [reflexivity|].
  destruct i as [|i], j as [|j]; simpl; try reflexivity; try congruence.
  apply IH. congruence.
Qed.

Lemma limbs_ok_insert (z : list Z) i a :
  limbs_ok z -> 0 <= a < 2 ^ 32 -> limbs_ok (<[i:=a]> z).
Proof.
  intros Hz Ha. revert i. induction Hz as [|d z Hd Hz IH]; intros i.
  - destruct i; constructor.
  - destruct i as [|i]; simpl; apply limbs_ok_cons; split; auto.
Qed.

Lemma limbs_ok_repeat n : limbs_ok (repeat 0 n).
Proof. induction n; simpl; constructor; [lia | assumption]. Qed.

Lemma limbs_ok_firstn n x : limbs_ok x -> limbs_ok (firstn n x).
Proof.
  intros Hx. revert n. induction Hx as [|d x Hd Hx IH]; intros [|n];
    simpl; try apply limbs_ok_nil.
  apply limbs_ok_cons. split; [exact Hd | apply IH].
Qed.

Lemma limb_repeat n i : limb (repeat 0 n) i = 0.
Proof.
  revert i. induction n as [|n IH]; intros i; simpl.
  - apply limb_nil.
  - destruct i; [reflexivity | apply IH].
Qed.

End Limbs.

Section Value.

Lemma bi_val_app x y : bi_val (x ++ y) = bi_val x + wt (length x) * bi_val y.
Proof.
  induction x as [|d x IH]; simpl length; simpl app; simpl bi_val.
  - rewrite wt_0. lia.
  - rewrite IH, wt_S. ring.
Qed.

Lemma bi_val_snoc x a : bi_val (x ++ [a]) = bi_val x + wt (length x) * a.
Proof. rewrite bi_val_app. simpl. f_equal. lia. Qed.

Lemma bi_val_range x : limbs_ok x -> 0 <= bi_val x < wt (length x).
Proof.
  induction 1 as [|d x Hd Hx IH]; simpl length; simpl bi_val.
  - rewrite wt_0. lia.
  - rewrite wt_S. lia.
Qed.

Lemma bi_val_skipn x i :
  bi_val (skipn i x) = limb x i + 2 ^ 32 * bi_val (skipn (S i) x).
Proof.
  revert i. induction x as [|d x IH]; intros i.
  - rewrite !skipn_nil, limb_nil. simpl. lia.
  - destruct i as [|i].
    + reflexivity.
    + change (skipn (S i) (d :: x)) with (skipn i x).
      change (skipn (S (S i)) (d :: x)) with (skipn (S i) x).
      change (limb (d :: x) (S i)) with (limb x i). apply IH.
Qed.

Lemma bi_val_skipn_all x i : (length x <= i)%nat -> bi_val (skipn i x) = 0.
Proof. intros H. rewrite skipn_all2 by exact H. reflexivity. Qed.

Lemma bi_val_firstn_S x i :
  bi_val (firstn (S i) x) = bi_val (firstn i x) + wt i * limb x i.
Proof.
  revert i. induction x as [|d x IH]; intros i.
  - rewrite !firstn_nil, limb_nil. simpl. lia.
  - destruct i as [|i].
    + simpl. rewrite wt_0. unfold limb. simpl. lia.
    + change (firstn (S (S i)) (d :: x)) with (d :: firstn (S i) x).
      change (firstn (S i) (d :: x)) with (d :: firstn i x).
      change (limb (d :: x) (S i)) with (limb x i).
      simpl bi_val. rewrite IH, wt_S. ring.
Qed.

Lemma bi_val_insert (z : list Z) i a :
  (i < length z)%nat ->
  bi_val (<[i:=a]> z) = bi_val z + wt i * (a - limb z i).
Proof.
  revert i. induction z as [|d z IH]; intros i H; simpl in H; [lia|].
  destruct i as [|i].
  - simpl. rewrite wt_0. unfold limb. simpl. lia.
  - change (<[S i:=a]> (d :: z)) with (d :: <[i:=a]> z).
    change (limb (d :: z) (S i)) with (limb z i).
    simpl bi_val. rewrite IH by lia. rewrite wt_S. ring.
Qed.

Lemma bi_val_repeat n : bi_val (repeat 0 n) = 0.
Proof. induction n as [|n IH]; simpl; [reflexivity | rewrite IH; lia]. Qed.

(** Limbs that are zero from index [m] on do not count. *)
Lemma bi_val_firstn_zeros x m :
  (forall i, (m <= i)%nat -> limb x i = 0) ->
  bi_val (firstn m x) = bi_val x.
Proof.
  revert m. induction x as [|d x IH]; intros m H.
  - rewrite firstn_nil. reflexivity.
  - destruct m as [|m].
    + simpl firstn. simpl bi_val.
      assert (Hd : d = 0) by (apply (H 0%nat); lia).
      assert (Hx : bi_val x = 0).
      { rewrite <- (IH 0%nat); [reflexivity|].
        intros i _. apply (H (S i)). lia. }
      lia.
    + simpl. f_equal. f_equal. apply IH. intros i Hi. apply (H (S i)). lia.
Qed.

End Value.

Section MachineWords.

Lemma land_mask32 a : Z.land a 0xffffffff = a mod 2 ^ 32.
Proof. change 0xffffffff with (Z.ones 32). apply Z.land_ones. lia. Qed.

Lemma shiftr32 a : Z.shiftr a 32 = a / 2 ^ 32.
Proof. apply Z.shiftr_div_pow2. lia. Qed.

Lemma wrap64_small a : 0 <= a < 2 ^ 64 -> wrap64 a = a.
Proof. intros H. unfold wrap64. apply Z.mod_small. exact H. Qed.

Lemma wrap32_small a : 0 <= a < 2 ^ 32 -> wrap32 a = a.
Proof. intros H. unfold wrap32. apply Z.mod_small. exact H. Qed.

Lemma split32 a : a = 2 ^ 32 * (a / 2 ^ 32) + a mod 2 ^ 32.
Proof. apply Z.div_mod. lia. Qed.

Lemma mod32_range a : 0 <= a mod 2 ^ 32 < 2 ^ 32.
Proof. apply Z.mod_pos_bound. lia. Qed.

End MachineWords.

Section Normalize.

Lemma bi_normalize_loop_le x m : (bi_normalize_loop x m <= m)%nat.
Proof.
  induction m as [|i IH]; simpl; [lia|].
  destruct (limb x i =? 0); lia.
Qed.

Lemma bi_normalize_loop_zeros x m i :
  (bi_normalize_loop x m <= i < m)%nat -> limb x i = 0.
Proof.
  induction m as [|j IH]; simpl; [lia|].
  destruct (limb x j =? 0) eqn:E; [|lia].
  intros H. destruct (Nat.eq_dec i j) as [->|Hne]; [lia|].
  apply IH. lia.
Qed.

Lemma bi_normalize_loop_top x m j :
  bi_normalize_loop x m = S j -> limb x j <> 0.
Proof.
  induction m as [|i IH]; simpl; [discriminate|].
  destruct (limb x i =? 0) eqn:E; [exact IH|].
  intros H. injection H as <-. lia.
Qed.

Lemma length_bi_normalize x :
  length (bi_normalize x) = bi_normalize_loop x (length x).
Proof.
  unfold bi_normalize. rewrite length_firstn.
  pose proof (bi_normalize_loop_le x (length x)). lia.
Qed.

Lemma length_bi_normalize_le x : (length (bi_normalize x) <= length x)%nat.
Proof. rewrite length_bi_normalize. apply bi_normalize_loop_le. Qed.

Lemma bi_normalize_val x : bi_val (bi_normalize x) = bi_val x.
Proof.
  unfold bi_normalize. apply bi_val_firstn_zeros. intros i Hi.
  destruct (Nat.lt_ge_cases i (length x)) as [Hlt|Hge].
  - apply (bi_normalize_loop_zeros x (length x)). lia.
  - apply limb_overflow. exact Hge.
Qed.

Lemma bi_normalize_limbs_ok x : limbs_ok x -> limbs_ok (bi_normalize x).
Proof. apply limbs_ok_firstn. Qed.

Lemma limb_firstn x n i : (i < n)%nat -> limb (firstn n x) i = limb x i.
Proof.
  revert n i. induction x as [|d x IH]; intros n i H.
  - rewrite firstn_nil. reflexivity.
  - destruct n as [|n]; [lia|]. destruct i as [|i]; [reflexivity|].
    simpl. apply IH. lia.
Qed.

Lemma bi_normalize_normalized x : bi_is_normalized (bi_normalize x) = true.
Proof.
  unfold bi_is_normalized. rewrite length_bi_normalize.
  destruct (bi_normalize_loop x (length x)) as [|j] eqn:E; [reflexivity|].
  simpl. replace (j - 0)%nat with j by lia.
  unfold bi_normalize. rewrite E, limb_firstn by lia.
  apply bi_normalize_loop_top in E.
  destruct (limb x j =? 0) eqn:E0; [lia | reflexivity].
Qed.

Lemma bi_normalize_wf x : limbs_ok x -> bi_wf (bi_normalize x).
Proof.
  intros H. split; [apply bi_normalize_limbs_ok, H | apply bi_normalize_normalized].
Qed.

End Normalize.

Section Normalized.

Lemma bi_val_top x i :
  length x = S i -> bi_val x = bi_val (firstn i x) + wt i * limb x i.
Proof.
  intros H. rewrite <- bi_val_firstn_S, <- H, firstn_all. reflexivity.
Qed.

Lemma normalized_nil : bi_is_normalized [] = true.
Proof. reflexivity. Qed.

Lemma normalized_top x i :
  length x = S i -> bi_is_normalized x = negb (limb x i =? 0).
Proof.
  intros H. unfold bi_is_normalized. rewrite H. simpl.
  replace (i - 0)%nat with i by lia. reflexivity.
Qed.

(** A normalized bigint of [n > 0] limbs is at least [wt (n - 1)]. *)
Lemma bi_wf_lower x i : bi_wf x -> length x = S i -> wt i <= bi_val x.
Proof.
  intros [Hx Hn] Hl. rewrite (normalized_top x i Hl) in Hn.
  rewrite (bi_val_top x i Hl).
  pose proof (limb_range x i Hx).
  pose proof (bi_val_range (firstn i x) (limbs_ok_firstn i x Hx)).
  pose proof (wt_pos i).
  destruct (limb x i =? 0) eqn:E; [discriminate|].
  assert (1 <= limb x i) by lia. nia.
Qed.

Lemma limbs_lower_wf x i :
  limbs_ok x -> length x = S i -> wt i <= bi_val x -> bi_wf x.
Proof.
  intros Hx Hl Hv. split; [exact Hx|].
  rewrite (normalized_top x i Hl). rewrite (bi_val_top x i Hl) in Hv.
  pose proof (bi_val_range (firstn i x) (limbs_ok_firstn i x Hx)) as Hr.
  rewrite length_firstn, Hl in Hr.
  replace (Nat.min i (S i)) with i in Hr by lia.
  destruct (limb x i =? 0) eqn:E; [|reflexivity].
  apply Z.eqb_eq in E. rewrite E in Hv. lia.
Qed.

Lemma bi_wf_nil : bi_wf [].
Proof. split; [apply limbs_ok_nil | reflexivity]. Qed.

Lemma bi_wf_pos x : bi_wf x -> x <> [] -> 0 < bi_val x.
Proof.
  intros H Hne. destruct (length x) as [|i] eqn:E.
  - destruct x; [congruence | discriminate].
  - pose proof (bi_wf_lower x i H E). pose proof (wt_pos i). lia.
Qed.

Lemma bi_wf_zero x : bi_wf x -> bi_val x = 0 -> x = [].
Proof.
  intros H Hv. destruct x as [|d x]; [reflexivity|].
  assert (Hne : d :: x <> []) by discriminate.
  pose proof (bi_wf_pos (d :: x) H Hne). lia.
Qed.

(** Among normalized bigints the longer one is the larger one. *)
Lemma bi_wf_length_lt x y :
  bi_wf x -> bi_wf y -> (length x < length y)%nat -> bi_val x < bi_val y.
Proof.
  intros Hx Hy Hl. destruct (length y) as [|j] eqn:Ey; [lia|].
  pose proof (bi_wf_lower y j Hy Ey).
  pose proof (bi_val_range x (proj1 Hx)).
  pose proof (wt_mono (length x) j). lia.
Qed.

Lemma bi_wf_val_le_length x y :
  bi_wf x -> bi_wf y -> bi_val x <= bi_val y -> (length x <= length y)%nat.
Proof.
  intros Hx Hy Hv. destruct (Nat.le_gt_cases (length x) (length y)); [assumption|].
  pose proof (bi_wf_length_lt y x Hy Hx). lia.
Qed.

End Normalized.

Section SetSmall.

Lemma bi_set_small_val v : bi_val (bi_set_small v) = v.
Proof.
  unfold bi_set_small. destruct (v =? 0) eqn:E; simpl; lia.
Qed.

Lemma bi_set_small_wf v : 0 <= v < 2 ^ 32 -> bi_wf (bi_set_small v).
Proof.
  intros H. unfold bi_set_small. destruct (v =? 0) eqn:E.
  - apply bi_wf_nil.
  - split.
    + apply limbs_ok_cons. split; [exact H | apply limbs_ok_nil].
    + unfold bi_is_normalized, limb. simpl. rewrite E. reflexivity.
Qed.

End SetSmall.

Section TwoExp.

Variable y : Z.
Hypothesis Hy : 0 <= y.

Lemma twoexp_shape :
  bi_twoexp y =
    <[Z.to_nat (Z.quot y 32) := 2 ^ (y mod 32)]>
      (repeat 0 (S (Z.to_nat (Z.quot y 32)))).
Proof.
  unfold bi_twoexp. rewrite Z.rem_mod_nonneg by lia.
  pose proof (Z.quot_pos y 32 Hy ltac:(lia)).
  pose proof (Z.mod_pos_bound y 32 ltac:(lia)).
  replace (Z.quot y 32 + 1 - 1) with (Z.quot y 32) by lia.
  replace (Z.to_nat (Z.quot y 32 + 1)) with (S (Z.to_nat (Z.quot y 32))) by lia.
  rewrite Z.shiftl_1_l. rewrite wrap32_small; [reflexivity|].
  split; [apply Z.pow_nonneg; lia|]. apply Z.pow_lt_mono_r; lia.
Qed.

Lemma length_bi_twoexp : length (bi_twoexp y) = S (Z.to_nat (Z.quot y 32)).
Proof. rewrite twoexp_shape, length_insert, repeat_length. reflexivity. Qed.

Lemma bi_twoexp_val : bi_val (bi_twoexp y) = 2 ^ y.
Proof.
  rewrite twoexp_shape, bi_val_insert by (rewrite repeat_length; lia).
  rewrite bi_val_repeat, limb_repeat. unfold wt.
  pose proof (Z.quot_pos y 32 Hy ltac:(lia)).
  pose proof (Z.mod_pos_bound y 32 ltac:(lia)).
  rewrite Z2Nat.id by lia. rewrite Z.quot_div_nonneg in * by lia.
  rewrite Z.sub_0_r, Z.add_0_l, <- Z.pow_add_r by lia.
  f_equal. pose proof (Z.div_mod y 32). lia.
Qed.

Lemma bi_twoexp_wf : bi_wf (bi_twoexp y).
Proof.
  pose proof (Z.mod_pos_bound y 32 ltac:(lia)) as Hm.
  assert (Hr : 0 < 2 ^ (y mod 32) < 2 ^ 32).
  { split; [apply Z.pow_pos_nonneg; lia | apply Z.pow_lt_mono_r; lia]. }
  split.
  - rewrite twoexp_shape. apply limbs_ok_insert; [apply limbs_ok_repeat | lia].
  - rewrite (normalized_top _ _ length_bi_twoexp), twoexp_shape.
    rewrite limb_insert_eq by (rewrite repeat_length; lia).
    destruct (2 ^ (y mod 32) =? 0) eqn:E; [lia | reflexivity].
Qed.

End TwoExp.

Section Add.

Lemma bi_add_loop_spec x y :
  limbs_ok x -> limbs_ok y -> (length y <= length x)%nat ->
  forall todo i tmp z,
    length z = i -> (i + todo)%nat = length x -> 0 <= tmp <= 1 -> limbs_ok z ->
    exists z' tmp',
      bi_add_loop x y todo i tmp z = (z', tmp') /\
      length z' = length x /\ limbs_ok z' /\ 0 <= tmp' <= 1 /\
      bi_val z' + wt (length x) * tmp' =
        bi_val z + wt i * (tmp + bi_val (skipn i x) + bi_val (skipn i y)).
Proof.
  intros Hx Hy Hlen todo.
  induction todo as [|todo IH]; intros i tmp z Hz Hi Htmp Hzok.
  - exists z, tmp. simpl.
    rewrite !bi_val_skipn_all by lia.
    replace (length x) with i by lia.
    repeat split; try assumption; try lia.
  - simpl bi_add_loop.
    pose proof (limb_range x i Hx) as Hxi.
    pose proof (limb_range y i Hy) as Hyi.
    rewrite (wrap64_small (tmp + limb x i)) by lia.
    set (T := tmp + limb x i + limb y i).
    assert (HT : (if (i <? length y)%nat
                  then wrap64 T else tmp + limb x i) = T).
    { destruct (i <? length y)%nat eqn:E.
      - apply wrap64_small. unfold T. lia.
      - apply Nat.ltb_ge in E. unfold T. rewrite (limb_overflow y i E). lia. }
    rewrite HT, land_mask32, shiftr32.
    pose proof (mod32_range T) as Hmod.
    assert (Hdiv : 0 <= T / 2 ^ 32 <= 1).
    { split; [apply Z.div_pos; lia|].
      assert (T / 2 ^ 32 < 2); [|lia].
      apply Z.div_lt_upper_bound; lia. }
    destruct (IH (S i) (T / 2 ^ 32) (z ++ [T mod 2 ^ 32]))
      as (z' & tmp' & Heq & Hl' & Hok' & Ht' & Hval).
    + rewrite length_app. simpl. lia.
    + lia.
    + exact Hdiv.
    + apply limbs_ok_app. split; [exact Hzok|].
      apply limbs_ok_cons. split; [exact Hmod | apply limbs_ok_nil].
    + exists z', tmp'. rewrite Heq.
      repeat split; try assumption; try lia.
      rewrite Hval, bi_val_snoc, Hz, wt_S.
      rewrite (bi_val_skipn x i), (bi_val_skipn y i).
      pose proof (split32 T). unfold T in *. nia.
Qed.

Lemma bi_add_ordered x y :
  limbs_ok x -> limbs_ok y -> (length y <= length x)%nat ->
  exists z tmp,
    bi_add_loop x y (length x) 0 0 [] = (z, tmp) /\
    length z = length x /\ limbs_ok z /\ 0 <= tmp <= 1 /\
    bi_val z + wt (length x) * tmp = bi_val x + bi_val y.
Proof.
  intros Hx Hy Hl.
  destruct (bi_add_loop_spec x y Hx Hy Hl (length x) 0%nat 0 [])
    as (z & tmp & Heq & Hlz & Hok & Ht & Hv);
    try reflexivity; try lia; try apply limbs_ok_nil.
  exists z, tmp. repeat split; try assumption; try lia.
  rewrite Hv, wt_0, !skipn_O. change (bi_val []) with 0. lia.
Qed.

Lemma bi_add_spec x y :
  limbs_ok x -> limbs_ok y ->
  let n := Nat.max (length x) (length y) in
  limbs_ok (bi_add x y) /\ bi_val (bi_add x y) = bi_val x + bi_val y /\
  (length (bi_add x y) = n \/
   (length (bi_add x y) = S n /\ wt n <= bi_val (bi_add x y))).
Proof.
  intros Hx Hy n.
  assert (Hgen : forall a b, limbs_ok a -> limbs_ok b ->
            (length b <= length a)%nat ->
            let '(z, tmp) := bi_add_loop a b (length a) 0 0 [] in
            let r := if negb (tmp =? 0) then z ++ [wrap32 tmp] else z in
            limbs_ok r /\ bi_val r = bi_val a + bi_val b /\
            (length r = length a \/
             (length r = S (length a) /\ wt (length a) <= bi_val r))).
  { intros a b Ha Hb Hl.
    destruct (bi_add_ordered a b Ha Hb Hl)
      as (z & tmp & Heq & Hlz & Hok & Ht & Hv).
    rewrite Heq. destruct (tmp =? 0) eqn:E0; simpl.
    - apply Z.eqb_eq in E0. subst tmp. repeat split; try assumption; lia.
    - apply Z.eqb_neq in E0. assert (tmp = 1) by lia. subst tmp.
      rewrite wrap32_small by lia.
      pose proof (bi_val_range z Hok).
      rewrite bi_val_snoc, Hlz, length_app. simpl length. repeat split.
      + apply limbs_ok_app. split; [exact Hok|].
        apply limbs_ok_cons. split; [lia | apply limbs_ok_nil].
      + lia.
      + right. split; lia. }
  subst n. unfold bi_add. destruct (length x <? length y)%nat eqn:E.
  - apply Nat.ltb_lt in E. specialize (Hgen y x Hy Hx ltac:(lia)).
    destruct (bi_add_loop y x (length y) 0 0 []) as [z tmp].
    cbv beta iota zeta in Hgen |- *.
    replace (Nat.max (length x) (length y)) with (length y) by lia.
    destruct Hgen as (H1 & H2 & H3).
    repeat split; [exact H1 | etransitivity; [exact H2 | apply Z.add_comm] | exact H3].
  - apply Nat.ltb_ge in E. specialize (Hgen x y Hx Hy E).
    destruct (bi_add_loop x y (length x) 0 0 []) as [z tmp].
    cbv beta iota zeta in Hgen |- *.
    replace (Nat.max (length x) (length y)) with (length x) by lia. exact Hgen.
Qed.

Lemma bi_add_val x y :
  limbs_ok x -> limbs_ok y -> bi_val (bi_add x y) = bi_val x + bi_val y.
Proof. intros Hx Hy. apply (bi_add_spec x y Hx Hy). Qed.

End Add.

Section AddWf.

Lemma bi_add_wf x y : bi_wf x -> bi_wf y -> bi_wf (bi_add x y).
Proof.
  intros Hx Hy.
  destruct (bi_add_spec x y (proj1 Hx) (proj1 Hy)) as (Hok & Hv & Hl).
  pose proof (bi_val_range x (proj1 Hx)) as Rx.
  pose proof (bi_val_range y (proj1 Hy)) as Ry.
  destruct Hl as [Hl | [Hl Hw]].
  - destruct (Nat.max (length x) (length y)) as [|i] eqn:E.
    + destruct (bi_add x y); [apply bi_wf_nil | discriminate].
    + apply (limbs_lower_wf _ i Hok Hl). rewrite Hv.
      destruct (Nat.max_spec (length x) (length y)) as [[_ Hm]|[_ Hm]];
        rewrite E in Hm; symmetry in Hm.
      * pose proof (bi_wf_lower y i Hy Hm). lia.
      * pose proof (bi_wf_lower x i Hx Hm). lia.
  - apply (limbs_lower_wf _ _ Hok Hl Hw).
Qed.

End AddWf.

Section Sub.

Lemma bi_sub_loop_spec x y :
  limbs_ok x -> limbs_ok y -> (length y <= length x)%nat ->
  forall todo i tmp z,
    length z = i -> (i + todo)%nat = length x -> -1 <= tmp <= 0 -> limbs_ok z ->
    exists z' tmp',
      bi_sub_loop x y todo i tmp z = (z', tmp') /\
      length z' = length x /\ limbs_ok z' /\ -1 <= tmp' <= 0 /\
      bi_val z' + wt (length x) * tmp' =
        bi_val z + wt i * (tmp + bi_val (skipn i x) - bi_val (skipn i y)).
Proof.
  intros Hx Hy Hlen todo.
  induction todo as [|todo IH]; intros i tmp z Hz Hi Htmp Hzok.
  - exists z, tmp. simpl.
    rewrite !bi_val_skipn_all by lia.
    replace (length x) with i by lia.
    repeat split; try assumption; try lia.
  - simpl bi_sub_loop.
    pose proof (limb_range x i Hx) as Hxi.
    pose proof (limb_range y i Hy) as Hyi.
    assert (Hty : (if (i <? length y)%nat then limb y i else 0) = limb y i).
    { destruct (i <? length y)%nat eqn:E; [reflexivity|].
      apply Nat.ltb_ge in E. rewrite (limb_overflow y i E). reflexivity. }
    rewrite Hty, land_mask32, shiftr32.
    set (T := limb x i - limb y i + tmp).
    pose proof (mod32_range T) as Hmod.
    assert (Hdiv : -1 <= T / 2 ^ 32 <= 0).
    { split.
      - apply Z.div_le_lower_bound; unfold T; lia.
      - assert (T / 2 ^ 32 < 1); [|lia].
        apply Z.div_lt_upper_bound; unfold T; lia. }
    destruct (IH (S i) (T / 2 ^ 32) (z ++ [T mod 2 ^ 32]))
      as (z' & tmp' & Heq & Hl' & Hok' & Ht' & Hval).
    + rewrite length_app. simpl. lia.
    + lia.
    + exact Hdiv.
    + apply limbs_ok_app. split; [exact Hzok|].
      apply limbs_ok_cons. split; [exact Hmod | apply limbs_ok_nil].
    + exists z', tmp'. rewrite Heq.
      repeat split; try assumption; try lia.
      rewrite Hval, bi_val_snoc, Hz, wt_S.
      rewrite (bi_val_skipn x i), (bi_val_skipn y i).
      pose proof (split32 T). unfold T in *. nia.
Qed.

(** [z <- x-y] is exact when [x >= y]. *)
Lemma bi_sub_spec x y :
  bi_wf x -> bi_wf y -> bi_val y <= bi_val x ->
  bi_wf (bi_sub x y) /\ bi_val (bi_sub x y) = bi_val x - bi_val y.
Proof.
  intros Hx Hy Hle.
  pose proof (bi_wf_val_le_length y x Hy Hx Hle) as Hlen.
  destruct (bi_sub_loop_spec x y (proj1 Hx) (proj1 Hy) Hlen
              (length x) 0%nat 0 [])
    as (z & tmp & Heq & Hlz & Hok & Ht & Hv);
    try reflexivity; try lia; try apply limbs_ok_nil.
  unfold bi_sub. rewrite Heq. simpl fst.
  split; [apply bi_normalize_wf, Hok|].
  rewrite bi_normalize_val.
  rewrite wt_0, !skipn_O in Hv. change (bi_val []) with 0 in Hv.
  pose proof (bi_val_range z Hok) as Hr. rewrite Hlz in Hr.
  pose proof (wt_pos (length x)).
  assert (tmp = 0) by nia. subst tmp. lia.
Qed.

End Sub.

Section Mul.

Variables (xi : Z) (y : duk_bigint) (i nz : nat).
Hypothesis Hxi : 0 <= xi < 2 ^ 32.
Hypothesis Hy : limbs_ok y.
Hypothesis Hnz : (i + length y < nz)%nat.

Lemma bi_mul_inner_spec :
  forall todo j tmp z,
    (j + todo)%nat = length y -> 0 <= tmp < 2 ^ 32 ->
    limbs_ok z -> length z = nz ->
    exists z' tmp',
      bi_mul_inner xi y i todo j tmp z = (z', tmp') /\
      length z' = nz /\ limbs_ok z' /\ 0 <= tmp' < 2 ^ 32 /\
      bi_val z' + wt (i + length y) * tmp' =
        bi_val z + wt (i + j) * (tmp + xi * bi_val (skipn j y)) /\
      (forall m, (i + length y <= m)%nat -> limb z' m = limb z m).
Proof.
  induction todo as [|todo IH]; intros j tmp z Hj Htmp Hz Hlz.
  - exists z, tmp. simpl.
    rewrite bi_val_skipn_all by lia.
    replace (length y) with j by lia.
    repeat split; try assumption; try lia.
  - cbn [bi_mul_inner].
    pose proof (limb_range y j Hy) as Hyj.
    pose proof (limb_range z (i + j) Hz) as Hzij.
    assert (Hprod : 0 <= xi * limb y j <= (2 ^ 32 - 1) * (2 ^ 32 - 1)) by nia.
    rewrite (wrap64_small (xi * limb y j)) by lia.
    rewrite (wrap64_small (xi * limb y j + limb z (i + j))) by lia.
    rewrite (wrap64_small (tmp + _)) by lia.
    rewrite land_mask32, shiftr32.
    set (T := tmp + (xi * limb y j + limb z (i + j))).
    pose proof (mod32_range T) as Hmod.
    assert (Hdiv : 0 <= T / 2 ^ 32 < 2 ^ 32).
    { split; [apply Z.div_pos; unfold T; lia|].
      apply Z.div_lt_upper_bound; unfold T; lia. }
    destruct (IH (S j) (T / 2 ^ 32) (<[(i + j)%nat := T mod 2 ^ 32]> z))
      as (z' & tmp' & Heq & Hl' & Hok' & Ht' & Hval & Hhigh).
    + lia.
    + exact Hdiv.
    + apply limbs_ok_insert; assumption.
    + rewrite length_insert. exact Hlz.
    + exists z', tmp'. rewrite Heq.
      repeat split; try assumption; try lia.
      * rewrite Hval, bi_val_insert by lia.
        replace (i + S j)%nat with (S (i + j)) by lia.
        rewrite wt_S, (bi_val_skipn y j).
        pose proof (split32 T). unfold T in *. nia.
      * intros m Hm. rewrite Hhigh by exact Hm.
        apply limb_insert_ne. lia.
Qed.

End Mul.

Section MulOuter.

Variables x y : duk_bigint.
Hypothesis Hx : limbs_ok x.
Hypothesis Hy : limbs_ok y.

Lemma bi_mul_outer_spec :
  forall todo i z,
    (i + todo)%nat = length x -> limbs_ok z ->
    length z = (length x + length y)%nat ->
    (forall m, (i + length y <= m)%nat -> limb z m = 0) ->
    let z' := bi_mul_outer x y todo i z in
    length z' = (length x + length y)%nat /\ limbs_ok z' /\
    bi_val z' = bi_val z + wt i * bi_val (skipn i x) * bi_val y.
Proof.
  induction todo as [|todo IH]; intros i z Hi Hz Hlz Hzero; cbn [bi_mul_outer].
  - rewrite bi_val_skipn_all by lia. repeat split; try assumption. lia.
  - pose proof (limb_range x i Hx) as Hxi.
    destruct (bi_mul_inner_spec (limb x i) y i (length x + length y) Hxi Hy
                ltac:(lia) (length y) 0%nat 0 z)
      as (z1 & tmp1 & Heq & Hl1 & Hok1 & Ht1 & Hv1 & Hhigh1);
      try assumption; try lia.
    rewrite Heq.
    set (ij := (i + length y)%nat) in *.
    set (z2 := if tmp1 >? 0
               then <[ij := wrap32 (limb z1 ij + wrap32 tmp1)]> z1 else z1).
    assert (Hz1ij : limb z1 ij = 0).
    { rewrite Hhigh1 by lia. apply Hzero. lia. }
    assert (H2 : length z2 = (length x + length y)%nat /\ limbs_ok z2 /\
                 bi_val z2 = bi_val z1 + wt ij * tmp1 /\
                 (forall m, (S ij <= m)%nat -> limb z2 m = limb z1 m)).
    { subst z2. destruct (tmp1 >? 0) eqn:E.
      - rewrite Hz1ij, (wrap32_small tmp1), Z.add_0_l, (wrap32_small tmp1) by lia.
        repeat split.
        + rewrite length_insert. exact Hl1.
        + apply limbs_ok_insert; assumption.
        + rewrite bi_val_insert by (subst ij; lia). rewrite Hz1ij. lia.
        + intros m Hm. apply limb_insert_ne. lia.
      - assert (tmp1 = 0) by lia. subst tmp1.
        repeat split; try assumption. lia. }
    destruct H2 as (Hl2 & Hok2 & Hv2 & Hhigh2).
    destruct (IH (S i) z2) as (Hl' & Hok' & Hv'); try assumption; try lia.
    + intros m Hm. rewrite Hhigh2 by (subst ij; lia).
      rewrite Hhigh1 by (subst ij; lia). apply Hzero. lia.
    + repeat split; try assumption.
      rewrite Hv', Hv2. rewrite (bi_val_skipn x i), wt_S.
      rewrite Nat.add_0_r, skipn_O in Hv1. nia.
Qed.

Lemma bi_mul_spec :
  bi_wf (bi_mul x y) /\ bi_val (bi_mul x y) = bi_val x * bi_val y /\
  (length (bi_mul x y) <= length x + length y)%nat.
Proof.
  unfold bi_mul. destruct (length x + length y =? 0)%nat eqn:E.
  - apply Nat.eqb_eq in E.
    assert (x = []) by (destruct x; [reflexivity | simpl in E; lia]).
    subst x. simpl. repeat split; try apply limbs_ok_nil; lia.
  - destruct (bi_mul_outer_spec (length x) 0%nat
                (repeat 0 (length x + length y)))
      as (Hl & Hok & Hv).
    + lia.
    + apply limbs_ok_repeat.
    + apply repeat_length.
    + intros m _. apply limb_repeat.
    + split; [apply bi_normalize_wf, Hok|]. split.
      * rewrite bi_normalize_val, Hv, bi_val_repeat, wt_0, skipn_O. lia.
      * pose proof (length_bi_normalize_le
                      (bi_mul_outer x y (length x) 0
                         (repeat 0 (length x + length y)))).
        lia.
Qed.

End MulOuter.

Section MulSmall.

Lemma bi_mul_small_spec x v :
  limbs_ok x -> 0 <= v < 2 ^ 32 ->
  bi_wf (bi_mul_small x v) /\ bi_val (bi_mul_small x v) = bi_val x * v /\
  (length (bi_mul_small x v) <= S (length x))%nat.
Proof.
  intros Hx Hv. unfold bi_mul_small.
  assert (Hy : limbs_ok (if v =? 0 then [] else [v])).
  { destruct (v =? 0); [apply limbs_ok_nil|].
    apply limbs_ok_cons. split; [exact Hv | apply limbs_ok_nil]. }
  destruct (bi_mul_spec x _ Hx Hy) as (Hwf & Hval & Hlen).
  split; [exact Hwf|]. split.
  - rewrite Hval. destruct (v =? 0) eqn:E; simpl; lia.
  - destruct (v =? 0); simpl in Hlen; lia.
Qed.

End MulSmall.

Section Compare.

Lemma bi_val_firstn_lt x i : limbs_ok x -> 0 <= bi_val (firstn i x) < wt i.
Proof.
  intros Hx. pose proof (bi_val_range _ (limbs_ok_firstn i x Hx)) as H.
  rewrite length_firstn in H.
  pose proof (wt_mono (Nat.min i (length x)) i ltac:(lia)). lia.
Qed.

Lemma bi_compare_loop_spec x y m :
  limbs_ok x -> limbs_ok y ->
  let c := bi_compare_loop x y m in
  let vx := bi_val (firstn m x) in
  let vy := bi_val (firstn m y) in
  (c = 1 /\ vy < vx) \/ (c = 0 /\ vx = vy) \/ (c = -1 /\ vx < vy).
Proof.
  intros Hx Hy. induction m as [|i IH]; cbn zeta.
  - right. left. split; reflexivity.
  - cbn [bi_compare_loop]. rewrite !bi_val_firstn_S.
    pose proof (bi_val_firstn_lt x i Hx). pose proof (bi_val_firstn_lt y i Hy).
    pose proof (wt_pos i).
    destruct (limb x i >? limb y i) eqn:E1.
    + left. split; [reflexivity|]. nia.
    + destruct (limb x i <? limb y i) eqn:E2.
      * right. right. split; [reflexivity|]. nia.
      * assert (Heq : limb x i = limb y i) by lia. rewrite Heq.
        cbn zeta in IH. lia.
Qed.

(** [bi_compare] orders normalized bigints as the numbers they stand
    for. *)
Lemma bi_compare_spec x y :
  bi_wf x -> bi_wf y ->
  (bi_compare x y = 1 /\ bi_val y < bi_val x) \/
  (bi_compare x y = 0 /\ bi_val x = bi_val y) \/
  (bi_compare x y = -1 /\ bi_val x < bi_val y).
Proof.
  intros Hx Hy. unfold bi_compare.
  destruct (length y <? length x)%nat eqn:E1.
  - apply Nat.ltb_lt in E1. left. split; [reflexivity|].
    apply bi_wf_length_lt; assumption.
  - destruct (length x <? length y)%nat eqn:E2.
    + apply Nat.ltb_lt in E2. right. right. split; [reflexivity|].
      apply bi_wf_length_lt; assumption.
    + apply Nat.ltb_ge in E1, E2.
      assert (Hl : length x = length y) by lia.
      pose proof (bi_compare_loop_spec x y (length x) (proj1 Hx) (proj1 Hy)) as H.
      cbn zeta in H. rewrite firstn_all in H.
      replace (firstn (length x) y) with y in H
        by (rewrite Hl, firstn_all; reflexivity).
      exact H.
Qed.

Lemma bi_compare_ge0 x y :
  bi_wf x -> bi_wf y -> (bi_compare x y >=? 0) = (bi_val y <=? bi_val x).
Proof.
  intros Hx Hy. destruct (bi_compare_spec x y Hx Hy) as [[-> H]|[[-> H]|[-> H]]];
    destruct (bi_val y <=? bi_val x) eqn:E; try reflexivity; lia.
Qed.

Lemma bi_compare_ge1 x y :
  bi_wf x -> bi_wf y -> (bi_compare x y >=? 1) = (bi_val y <? bi_val x).
Proof.
  intros Hx Hy. destruct (bi_compare_spec x y Hx Hy) as [[-> H]|[[-> H]|[-> H]]];
    destruct (bi_val y <? bi_val x) eqn:E; try reflexivity; lia.
Qed.

Lemma bi_compare_le0 x y :
  bi_wf x -> bi_wf y -> (bi_compare x y <=? 0) = (bi_val x <=? bi_val y).
Proof.
  intros Hx Hy. destruct (bi_compare_spec x y Hx Hy) as [[-> H]|[[-> H]|[-> H]]];
    destruct (bi_val x <=? bi_val y) eqn:E; try reflexivity; lia.
Qed.

Lemma bi_compare_lem1 x y :
  bi_wf x -> bi_wf y -> (bi_compare x y <=? -1) = (bi_val x <? bi_val y).
Proof.
  intros Hx Hy. destruct (bi_compare_spec x y Hx Hy) as [[-> H]|[[-> H]|[-> H]]];
    destruct (bi_val x <? bi_val y) eqn:E; try reflexivity; lia.
Qed.

Lemma bi_compare_lt0 x y :
  bi_wf x -> bi_wf y -> (bi_compare x y <? 0) = (bi_val x <? bi_val y).
Proof.
  intros Hx Hy. destruct (bi_compare_spec x y Hx Hy) as [[-> H]|[[-> H]|[-> H]]];
    destruct (bi_val x <? bi_val y) eqn:E; try reflexivity; lia.
Qed.

End Compare.

Section Parity.

Lemma bi_is_even_spec x : limbs_ok x -> bi_is_even x = Z.even (bi_val x).
Proof.
  intros Hx. destruct x as [|d x]; [reflexivity|].
  unfold bi_is_even. simpl length. simpl orb.
  change (limb (d :: x) 0) with d. simpl bi_val.
  change 1 with (Z.ones 1). rewrite Z.land_ones by lia.
  change (2 ^ 1) with 2. rewrite Z.even_add_mul_even by (exists (2 ^ 31); reflexivity).
  rewrite Zmod_even. destruct (Z.even d); reflexivity.
Qed.

Lemma bi_is_2to52_spec x :
  bi_is_2to52 x = true -> bi_val x = 2 ^ 52 /\ bi_wf x.
Proof.
  unfold bi_is_2to52. intros H.
  apply andb_true_iff in H as [H H3]. apply andb_true_iff in H as [H1 H2].
  apply Nat.eqb_eq in H1. apply Z.eqb_eq in H2, H3.
  destruct x as [|a [|b [|c x]]]; try discriminate.
  unfold limb in H2, H3. simpl in H2, H3.
  change (Z.shiftl 1 (52 - 32)) with 1048576 in H3. subst a b.
  split; [reflexivity|]. split; [|reflexivity].
  repeat (apply limbs_ok_cons; split; [lia|]). apply limbs_ok_nil.
Qed.

Lemma bi_is_2to52_val x :
  limbs_ok x -> length x = 2%nat -> bi_is_2to52 x = (bi_val x =? 2 ^ 52).
Proof.
  intros Hx Hl. destruct x as [|a [|b [|c x]]]; try discriminate.
  apply limbs_ok_cons in Hx as [Ha Hx]. apply limbs_ok_cons in Hx as [Hb _].
  unfold bi_is_2to52, limb. simpl.
  change (Z.shiftl 1 (52 - 32)) with 1048576.
  destruct (a =? 0) eqn:E1; destruct (b =? 1048576) eqn:E2;
    destruct (a + 4294967296 * (b + 4294967296 * 0) =? 4503599627370496) eqn:E3;
    try reflexivity; lia.
Qed.

End Parity.

(** * Double decomposition and prepare *)

Section Convert.

Lemma land_mask (a : Z) (n : Z) : 0 <= n -> Z.land a (Z.ones n) = a mod 2 ^ n.
Proof. apply Z.land_ones. Qed.

Lemma shiftr_div a n : 0 <= n -> Z.shiftr a n = a / 2 ^ n.
Proof. apply Z.shiftr_div_pow2. Qed.

Lemma lor_hidden_bit a : 0 <= a < 2 ^ 20 -> Z.lor a 0x00100000 = a + 2 ^ 20.
Proof.
  intros Ha. pose proof (Z.add_lor_land a 0x00100000) as H.
  assert (Hl : Z.land a 0x00100000 = 0).
  { rewrite <- (Z.mod_small a (2 ^ 20)) by exact Ha.
    rewrite <- Z.land_ones by lia. rewrite <- Z.land_assoc. 
    change (Z.land (Z.ones 20) 1048576) with 0. apply Z.land_0_r. }
  rewrite Hl in H. change (2 ^ 20) with 1048576. lia.
Qed.

Variable x : dbl.
Hypothesis Hx : dbl_is_finite_pos x = true.

Lemma dbl_range : 0 <= x < 2 ^ 63.
Proof.
  unfold dbl_is_finite_pos in Hx.
  apply andb_true_iff in Hx as [H _]. apply andb_true_iff in H as [H1 H2].
  lia.
Qed.

Lemma dbl_fields :
  dbl_v0 x = x mod 2 ^ 32 /\
  dbl_v1 x = x / 2 ^ 32 /\
  dbl_fraction x = x mod 2 ^ 52 /\
  dbl_expfield x = x / 2 ^ 52.
Proof.
  pose proof dbl_range as Hr.
  unfold dbl_v0, dbl_v1, dbl_fraction, dbl_expfield.
  change 0xffffffff with (Z.ones 32). change 0xfffffffffffff with (Z.ones 52).
  change 0x7ff with (Z.ones 11).
  rewrite !land_mask, !shiftr_div by lia.
  repeat split.
  - apply Z.mod_small. split; [apply Z.div_pos; lia|].
    apply Z.div_lt_upper_bound; lia.
  - apply Z.mod_small. split; [apply Z.div_pos; lia|].
    apply Z.div_lt_upper_bound; lia.
Qed.

Lemma dbl_class :
  0 <= dbl_expfield x < 2047 /\
  (dbl_expfield x = 0 -> dbl_fraction x <> 0).
Proof.
  pose proof dbl_range as Hr.
  destruct dbl_fields as (_ & _ & Hf & He).
  unfold dbl_is_finite_pos in Hx.
  apply andb_true_iff in Hx as [_ Hc].
  unfold fpclassify in Hc.
  assert (0 <= dbl_expfield x < 2048).
  { rewrite He. split; [apply Z.div_pos; lia|].
    apply Z.div_lt_upper_bound; lia. }
  destruct (dbl_expfield x =? 2047) eqn:E1.
  - destruct (dbl_fraction x =? 0); discriminate.
  - split; [lia|]. intros E0. rewrite E0 in Hc. simpl in Hc.
    destruct (dbl_fraction x =? 0) eqn:E2; [discriminate | lia].
Qed.

Lemma dbl_m_q_range :
  0 < dbl_m x < 2 ^ 53 /\ -1074 <= dbl_q x <= 971.
Proof.
  destruct dbl_class as (He & Hz). destruct dbl_fields as (_ & _ & Hf & _).
  pose proof (Z.mod_pos_bound x (2 ^ 52) ltac:(lia)) as Hm.
  unfold dbl_m, dbl_q. rewrite Hf in *.
  destruct (dbl_expfield x =? 0) eqn:E; lia.
Qed.

Variable radix : Z.

Lemma convert_double_length :
  length (NC.f (dragon4_convert_double (nc_init x radix))) = 2%nat.
Proof.
  unfold dragon4_convert_double. destruct (Z.land _ _ =? 0); reflexivity.
Qed.

Lemma convert_double_spec :
  let nc := dragon4_convert_double (nc_init x radix) in
  limbs_ok (NC.f nc) /\ bi_val (NC.f nc) = dbl_m x /\
  NC.e nc = dbl_q x /\ NC.B nc = radix /\
  NC.out_buf nc = [] /\ NC.out_first nc = true /\ NC.x nc = x.
Proof.
  pose proof dbl_range as Hr.
  destruct dbl_fields as (H0 & H1 & Hf & He).
  unfold dragon4_convert_double. cbn [NC.x nc_init].
  change 0x000fffff with (Z.ones 20). change 0x07ff with (Z.ones 11).
  rewrite !land_mask, !shiftr_div by lia.
  rewrite H0, H1.
  assert (Hexp : x / 2 ^ 32 / 2 ^ 20 mod 2 ^ 11 = dbl_expfield x).
  { rewrite He. rewrite Z.div_div by lia. change (2 ^ 32 * 2 ^ 20) with (2 ^ 52).
    apply Z.mod_small. split; [apply Z.div_pos; lia|].
    apply Z.div_lt_upper_bound; lia. }
  rewrite Hexp.
  assert (Hlo : 0 <= x mod 2 ^ 32 < 2 ^ 32) by (apply Z.mod_pos_bound; lia).
  assert (Hhi : 0 <= (x / 2 ^ 32) mod 2 ^ 20 < 2 ^ 20)
    by (apply Z.mod_pos_bound; lia).
  assert (Hfr : x mod 2 ^ 32 + 2 ^ 32 * ((x / 2 ^ 32) mod 2 ^ 20) = x mod 2 ^ 52).
  { change (2 ^ 52) with (2 ^ 32 * 2 ^ 20).
    rewrite Z.rem_mul_r by lia. reflexivity. }
  unfold dbl_m, dbl_q, IEEE_DOUBLE_EXP_MIN, IEEE_DOUBLE_EXP_BIAS.
  destruct (dbl_expfield x =? 0) eqn:E; cbn.
  - repeat split; try lia.
    repeat (apply limbs_ok_cons; split; [lia|]). apply limbs_ok_nil.
  - rewrite lor_hidden_bit by exact Hhi. repeat split; try lia.
    repeat (apply limbs_ok_cons; split; [lia|]). apply limbs_ok_nil.
Qed.

End Convert.

Section Prepare.

Variable x : dbl.
Hypothesis Hx : dbl_is_finite_pos x = true.
Variable radix : Z.
Hypothesis Hradix : 2 <= radix <= 36.

Lemma pow2_pos n : 0 <= n -> 0 < 2 ^ n.
Proof. intros H. apply Z.pow_pos_nonneg; lia. Qed.

Lemma prepare_spec :
  let nc := dragon4_start x radix in
  nc_ok nc /\ shape (dbl_m x) nc /\
  NC.high_ok nc = Z.even (dbl_m x) /\ NC.low_ok nc = Z.even (dbl_m x) /\
  NC.B nc = radix /\ NC.out_buf nc = [] /\ NC.out_first nc = true.
Proof.
  destruct (convert_double_spec x Hx radix)
    as (Hf & Hfv & He & HB & Hbuf & Hfirst & _).
  destruct (dbl_m_q_range x Hx) as (HF & HE).
  unfold dragon4_start, dragon4_prepare.
  set (nc0 := dragon4_convert_double (nc_init x radix)) in *.
  rewrite (bi_is_even_spec _ Hf), Hfv.
  set (nc1 := if Z.even (dbl_m x)
              then NC.set_high_ok true (NC.set_low_ok true nc0)
              else NC.set_high_ok false (NC.set_low_ok false nc0)).
  assert (H1 : NC.f nc1 = NC.f nc0 /\ NC.e nc1 = NC.e nc0 /\
               NC.B nc1 = NC.B nc0 /\ NC.out_buf nc1 = NC.out_buf nc0 /\
               NC.out_first nc1 = NC.out_first nc0 /\
               NC.high_ok nc1 = Z.even (dbl_m x) /\
               NC.low_ok nc1 = Z.even (dbl_m x)).
  { subst nc1. destruct (Z.even (dbl_m x)); nc_cbn; repeat split. }
  destruct H1 as (E1 & E2 & E3 & E4 & E5 & E6 & E7).
  rewrite E1, E2, He. unfold IEEE_DOUBLE_EXP_MIN.
  pose proof (bi_mul_small_spec (NC.f nc0) 4 Hf ltac:(lia)) as (M4w & M4v & _).
  pose proof (bi_mul_small_spec (NC.f nc0) 2 Hf ltac:(lia)) as (M2w & M2v & _).
  destruct (dbl_q x >=? 0) eqn:Ge.
  - assert (Hq : 0 <= dbl_q x) by lia.
    pose proof (bi_twoexp_wf (dbl_q x) Hq) as W0.
    pose proof (bi_twoexp_wf (dbl_q x + 1) ltac:(lia)) as W1.
    pose proof (bi_twoexp_wf (dbl_q x + 2) ltac:(lia)) as W2.
    pose proof (bi_twoexp_val (dbl_q x) Hq) as V0.
    pose proof (bi_twoexp_val (dbl_q x + 1) ltac:(lia)) as V1.
    pose proof (bi_twoexp_val (dbl_q x + 2) ltac:(lia)) as V2.
    pose proof (pow2_pos (dbl_q x) Hq) as P0.
    rewrite Z.pow_add_r in V1, V2 by lia.
    destruct (bi_is_2to52 (NC.f nc0)) eqn:T52; nc_cbn.
    + rewrite ?E1, ?E2, ?He.
      pose proof (bi_mul_spec (NC.f nc0) (bi_twoexp (dbl_q x + 2)) Hf (proj1 W2))
        as (Mw & Mv & _).
      split; [|split].
      * constructor; unfold R, S_, MP, MM; nc_cbn;
          rewrite ?bi_set_small_val, ?V0, ?V1, ?V2;
          first [assumption | apply bi_set_small_wf; lia | lia].
      * exists (dbl_q x + 1), 2, 0, 0. unfold R, S_, MP; nc_cbn.
        rewrite Mv, V1, V2, Hfv, bi_set_small_val, Z.pow_add_r by lia.
        repeat split; lia.
      * repeat split; congruence.
    + rewrite ?E1, ?E2, ?He. unfold bi_copy.
      pose proof (bi_mul_spec (NC.f nc0) (bi_twoexp (dbl_q x + 1)) Hf (proj1 W1))
        as (Mw & Mv & _).
      split; [|split].
      * constructor; unfold R, S_, MP, MM; nc_cbn;
          rewrite ?bi_set_small_val, ?V0, ?V1, ?V2;
          first [assumption | apply bi_set_small_wf; lia | lia].
      * exists (dbl_q x), 1, 0, 0. unfold R, S_, MP; nc_cbn.
        rewrite Mv, V0, V1, Hfv, bi_set_small_val.
        repeat split; lia.
      * repeat split; congruence.
  - assert (Hq : dbl_q x < 0) by lia.
    pose proof (bi_twoexp_wf (1 - dbl_q x) ltac:(lia)) as W1.
    pose proof (bi_twoexp_wf (2 - dbl_q x) ltac:(lia)) as W2.
    pose proof (bi_twoexp_val (1 - dbl_q x) ltac:(lia)) as V1.
    pose proof (bi_twoexp_val (2 - dbl_q x) ltac:(lia)) as V2.
    pose proof (pow2_pos (1 - dbl_q x) ltac:(lia)) as P1.
    pose proof (pow2_pos (2 - dbl_q x) ltac:(lia)) as P2.
    destruct ((dbl_q x >? -1022) && bi_is_2to52 (NC.f nc0)) eqn:T52; nc_cbn.
    + rewrite ?E1, ?E2, ?He.
      split; [|split].
      * constructor; unfold R, S_, MP, MM; nc_cbn;
          rewrite ?bi_set_small_val, ?V1, ?V2, ?M4v, ?Hfv;
          first [assumption | apply bi_set_small_wf; lia | lia].
      * exists 1, (2 - dbl_q x), 0, 0. unfold R, S_, MP; nc_cbn.
        rewrite M4v, V2, Hfv, bi_set_small_val.
        repeat split; lia.
      * repeat split; congruence.
    + rewrite ?E1, ?E2, ?He.
      split; [|split].
      * constructor; unfold R, S_, MP, MM; nc_cbn;
          rewrite ?bi_set_small_val, ?V1, ?V2, ?M2v, ?Hfv;
          first [assumption | apply bi_set_small_wf; lia | lia].
      * exists 0, (1 - dbl_q x), 0, 0. unfold R, S_, MP; nc_cbn.
        rewrite M2v, V1, Hfv, bi_set_small_val.
        repeat split; lia.
      * repeat split; congruence.
Qed.

(** The case prepare selects for a negative exponent: unequal gaps
    exactly when [e > IEEE_DOUBLE_EXP_MIN] and [f = 2^52]. *)
Lemma prepare_negative_exponent :
  dbl_q x < 0 ->
  let nc := dragon4_start x radix in
  if (dbl_q x >? -1022) && (dbl_m x =? 2 ^ 52)
  then R nc = dbl_m x * 4 /\ S_ nc = 2 ^ (2 - dbl_q x) /\
       MP nc = 2 /\ MM nc = 1
  else R nc = dbl_m x * 2 /\ S_ nc = 2 ^ (1 - dbl_q x) /\
       MP nc = 1 /\ MM nc = 1.
Proof.
  intros Hq.
  destruct (convert_double_spec x Hx radix) as (Hf & Hfv & He & _).
  pose proof (convert_double_length x radix) as Hlen.
  unfold dragon4_start, dragon4_prepare.
  set (nc0 := dragon4_convert_double (nc_init x radix)) in *.
  set (nc1 := if bi_is_even (NC.f nc0) then _ else _).
  assert (H1 : NC.f nc1 = NC.f nc0 /\ NC.e nc1 = NC.e nc0)
    by (subst nc1; destruct (bi_is_even (NC.f nc0)); split; reflexivity).
  destruct H1 as (E1 & E2).
  rewrite E1, E2, He, (bi_is_2to52_val _ Hf Hlen), Hfv.
  unfold IEEE_DOUBLE_EXP_MIN.
  destruct (dbl_q x >=? 0) eqn:Ge; [lia|].
  pose proof (bi_mul_small_spec (NC.f nc0) 4 Hf ltac:(lia)) as (_ & M4v & _).
  pose proof (bi_mul_small_spec (NC.f nc0) 2 Hf ltac:(lia)) as (_ & M2v & _).
  destruct ((dbl_q x >? -1022) && (dbl_m x =? 2 ^ 52));
    unfold R, S_, MP, MM; nc_cbn; rewrite ?E1, ?E2, ?He.
  - rewrite M4v, Hfv, bi_twoexp_val by lia. repeat split.
  - rewrite M2v, Hfv, bi_twoexp_val by lia. repeat split.
Qed.

End Prepare.

(** * Scale *)

Section Scale.

Lemma same_params_refl nc : same_params nc nc.
Proof. repeat split. Qed.

Lemma same_params_trans a b c :
  same_params a b -> same_params b c -> same_params a c.
Proof.
  unfold same_params. intros (A1 & A2 & A3 & A4 & A5 & A6)
    (B1 & B2 & B3 & B4 & B5 & B6).
  repeat split; congruence.
Qed.

Lemma same_out_trans a b c : same_out a b -> same_out b c -> same_out a c.
Proof. unfold same_out. intros [A1 A2] [B1 B2]. split; congruence. Qed.

Lemma radix_limb nc : nc_ok nc -> 0 <= NC.B nc < 2 ^ 32.
Proof. intros H. pose proof (ok_B nc H). lia. Qed.

Lemma dragon4_scale_inc_eq fuel nc k :
  dragon4_scale_inc (S fuel) nc k =
    let nc := NC.set_t1 (bi_add (NC.r nc) (NC.mp nc)) nc in
    if bi_compare (NC.t1 nc) (NC.s nc) >=? (if NC.high_ok nc then 0 else 1)
    then
      let '(s', t) := bi_mul_small_copy (NC.s nc) (wrap32 (NC.B nc)) in
      let nc := NC.set_s s' (NC.set_t1 t nc) in
      dragon4_scale_inc fuel nc (k + 1)
    else Some (nc, k).
Proof. reflexivity. Qed.

Lemma scale_inc_spec n :
  forall nc k,
    nc_ok nc -> R nc + MP nc < S_ nc * 2 ^ Z.of_nat n ->
    exists nc' k',
      dragon4_scale_inc (S n) nc k = Some (nc', k') /\
      nc_ok nc' /\ same_params nc nc' /\ same_out nc nc' /\
      k <= k' /\
      NC.r nc' = NC.r nc /\ NC.mp nc' = NC.mp nc /\ NC.mm nc' = NC.mm nc /\
      S_ nc' = S_ nc * NC.B nc ^ (k' - k) /\
      (if NC.high_ok nc then R nc + MP nc < S_ nc'
       else R nc + MP nc <= S_ nc') /\
      (k < k' ->
       if NC.high_ok nc then S_ nc' <= NC.B nc * (R nc + MP nc)
       else S_ nc' < NC.B nc * (R nc + MP nc)).
Proof.
  induction n as [|n IH]; intros nc k Hok Hfuel.
  all: pose proof (ok_B nc Hok) as HB;
    pose proof (ok_s_pos nc Hok) as Hs; pose proof (ok_mp_pos nc Hok) as Hmp;
    pose proof (bi_add_wf _ _ (ok_r nc Hok) (ok_mp nc Hok)) as Hwt;
    pose proof (bi_add_val _ _ (proj1 (ok_r nc Hok)) (proj1 (ok_mp nc Hok))) as Hvt;
    pose proof (bi_mul_small_spec (NC.s nc) (NC.B nc) (proj1 (ok_s nc Hok))
                  (radix_limb nc Hok)) as (Hws & Hvs & _);
    rewrite dragon4_scale_inc_eq; cbn zeta; nc_cbn;
    unfold bi_mul_small_copy, bi_copy; nc_cbn;
    rewrite ?(wrap32_small _ (radix_limb nc Hok));
    fold (R nc) (MP nc) in Hvt; fold (S_ nc) in Hvs.
  all: assert (Hcmp :
      (bi_compare (bi_add (NC.r nc) (NC.mp nc)) (NC.s nc) >=?
         (if NC.high_ok nc then 0 else 1))
      = (if NC.high_ok nc then S_ nc <=? R nc + MP nc else S_ nc <? R nc + MP nc))
    by (destruct (NC.high_ok nc);
        [rewrite (bi_compare_ge0 _ _ Hwt (ok_s nc Hok))
        | rewrite (bi_compare_ge1 _ _ Hwt (ok_s nc Hok))];
        rewrite Hvt; reflexivity);
    rewrite Hcmp.
  all: assert (Hexit :
      (if NC.high_ok nc then S_ nc <=? R nc + MP nc else S_ nc <? R nc + MP nc)
        = false ->
      exists nc' k',
        Some (NC.set_t1 (bi_add (NC.r nc) (NC.mp nc)) nc, k) = Some (nc', k') /\
        nc_ok nc' /\ same_params nc nc' /\ same_out nc nc' /\ k <= k' /\
        NC.r nc' = NC.r nc /\ NC.mp nc' = NC.mp nc /\ NC.mm nc' = NC.mm nc /\
        S_ nc' = S_ nc * NC.B nc ^ (k' - k) /\
        (if NC.high_ok nc then R nc + MP nc < S_ nc'
         else R nc + MP nc <= S_ nc') /\
        (k < k' ->
         if NC.high_ok nc then S_ nc' <= NC.B nc * (R nc + MP nc)
         else S_ nc' < NC.B nc * (R nc + MP nc)))
    by (intros Hc; eexists _, k; split; [reflexivity|];
        split; [destruct Hok; constructor; assumption|];
        split; [repeat split|]; split; [split; reflexivity|];
        unfold S_; nc_cbn; fold (S_ nc);
        rewrite Z.sub_diag, Z.pow_0_r, Z.mul_1_r;
        repeat split; try lia; destruct (NC.high_ok nc); lia).
  - destruct (if NC.high_ok nc then S_ nc <=? R nc + MP nc
              else S_ nc <? R nc + MP nc) eqn:Hc; [|exact (Hexit eq_refl)].
    exfalso. change (2 ^ Z.of_nat 0) with 1 in Hfuel.
    destruct (NC.high_ok nc); lia.
  - destruct (if NC.high_ok nc then S_ nc <=? R nc + MP nc
              else S_ nc <? R nc + MP nc) eqn:Hc; [|exact (Hexit eq_refl)].
    clear Hexit.
    set (nc1 := NC.set_s _ _).
    assert (Hok1 : nc_ok nc1).
    { constructor; subst nc1; unfold S_, MP, MM; nc_cbn.
      - apply (ok_r nc Hok).
      - exact Hws.
      - apply (ok_mp nc Hok).
      - apply (ok_mm nc Hok).
      - rewrite Hvs. nia.
      - exact Hmp.
      - apply (ok_mm_pos nc Hok).
      - exact HB. }
    assert (HS1 : S_ nc1 = S_ nc * NC.B nc) by exact Hvs.
    assert (HR1 : R nc1 = R nc) by reflexivity.
    assert (HM1 : MP nc1 = MP nc) by reflexivity.
    destruct (IH nc1 (k + 1) Hok1) as
      (nc' & k' & Heq & Hok' & Hpar & Hout & Hk & Hr & Hmp' & Hmm & HS & Hup & Hlow).
    { rewrite HS1, HR1, HM1. rewrite Nat2Z.inj_succ, Z.pow_succ_r in Hfuel by lia.
      assert (0 < 2 ^ Z.of_nat n) by (apply Z.pow_pos_nonneg; lia). nia. }
    exists nc', k'. split; [exact Heq|]. split; [exact Hok'|].
    split; [exact Hpar|]. split; [exact Hout|].
    change (NC.B nc1) with (NC.B nc) in *.
    change (NC.high_ok nc1) with (NC.high_ok nc) in *.
    rewrite HR1, HM1 in *. rewrite HS1 in HS.
    split; [lia|]. split; [exact Hr|]. split; [exact Hmp'|]. split; [exact Hmm|].
    split.
    { rewrite HS. replace (k' - k) with (Z.succ (k' - (k + 1))) by lia.
      rewrite Z.pow_succ_r by lia. ring. }
    split; [exact Hup|].
    intros _. destruct (Z.eq_dec k' (k + 1)) as [->|Hne].
    + rewrite Z.sub_diag, Z.pow_0_r, Z.mul_1_r in HS. rewrite HS.
      destruct (NC.high_ok nc); nia.
    + apply Hlow. lia.
Qed.


Lemma dragon4_scale_dec_eq fuel nc k :
  dragon4_scale_dec (S fuel) nc k =
    let nc := NC.set_t1 (bi_add (NC.r nc) (NC.mp nc)) nc in
    let nc := NC.set_t2 (bi_mul_small (NC.t1 nc) (wrap32 (NC.B nc))) nc in
    if bi_compare (NC.t2 nc) (NC.s nc) <=? (if NC.high_ok nc then -1 else 0)
    then
      let '(r', t) := bi_mul_small_copy (NC.r nc) (wrap32 (NC.B nc)) in
      let nc := NC.set_r r' (NC.set_t1 t nc) in
      let '(mp', t) := bi_mul_small_copy (NC.mp nc) (wrap32 (NC.B nc)) in
      let nc := NC.set_mp mp' (NC.set_t1 t nc) in
      let '(mm', t) := bi_mul_small_copy (NC.mm nc) (wrap32 (NC.B nc)) in
      let nc := NC.set_mm mm' (NC.set_t1 t nc) in
      dragon4_scale_dec fuel nc (k - 1)
    else Some (nc, k).
Proof. reflexivity. Qed.

Lemma scale_dec_spec n :
  forall nc k,
    nc_ok nc -> S_ nc < (R nc + MP nc) * 2 ^ (Z.of_nat n + 1) ->
    exists nc' k',
      dragon4_scale_dec (S n) nc k = Some (nc', k') /\
      nc_ok nc' /\ same_params nc nc' /\ same_out nc nc' /\
      k' <= k /\ NC.s nc' = NC.s nc /\
      R nc' = R nc * NC.B nc ^ (k - k') /\
      MP nc' = MP nc * NC.B nc ^ (k - k') /\
      MM nc' = MM nc * NC.B nc ^ (k - k') /\
      (if NC.high_ok nc then S_ nc <= NC.B nc * (R nc' + MP nc')
       else S_ nc < NC.B nc * (R nc' + MP nc')) /\
      ((if NC.high_ok nc then R nc + MP nc < S_ nc
        else R nc + MP nc <= S_ nc) ->
       (if NC.high_ok nc then R nc' + MP nc' < S_ nc
        else R nc' + MP nc' <= S_ nc)).
Proof.
  induction n as [|n IH]; intros nc k Hok Hfuel.
  all: pose proof (ok_B nc Hok) as HB;
    pose proof (ok_s_pos nc Hok) as Hs; pose proof (ok_mp_pos nc Hok) as Hmp;
    pose proof (ok_mm_pos nc Hok) as Hmm;
    pose proof (bi_val_range _ (proj1 (ok_r nc Hok))) as [Hr0 _];
    fold (R nc) in Hr0;
    pose proof (bi_add_wf _ _ (ok_r nc Hok) (ok_mp nc Hok)) as Hwt;
    pose proof (bi_add_val _ _ (proj1 (ok_r nc Hok)) (proj1 (ok_mp nc Hok))) as Hvt;
    pose proof (bi_mul_small_spec _ (NC.B nc) (proj1 Hwt)
                  (radix_limb nc Hok)) as (Hw2 & Hv2 & _);
    pose proof (bi_mul_small_spec (NC.r nc) (NC.B nc) (proj1 (ok_r nc Hok))
                  (radix_limb nc Hok)) as (Hwr & Hvr & _);
    pose proof (bi_mul_small_spec (NC.mp nc) (NC.B nc) (proj1 (ok_mp nc Hok))
                  (radix_limb nc Hok)) as (Hwp & Hvp & _);
    pose proof (bi_mul_small_spec (NC.mm nc) (NC.B nc) (proj1 (ok_mm nc Hok))
                  (radix_limb nc Hok)) as (Hwm & Hvm & _);
    rewrite dragon4_scale_dec_eq; cbn zeta; nc_cbn;
    unfold bi_mul_small_copy, bi_copy; nc_cbn;
    rewrite ?(wrap32_small _ (radix_limb nc Hok));
    rewrite Hvt in Hv2;
    fold (R nc) in Hvr, Hv2; fold (MP nc) in Hvp, Hv2; fold (MM nc) in Hvm.
  all: assert (Hcmp :
      (bi_compare (bi_mul_small (bi_add (NC.r nc) (NC.mp nc)) (NC.B nc)) (NC.s nc)
         <=? (if NC.high_ok nc then -1 else 0))
      = (if NC.high_ok nc then (R nc + MP nc) * NC.B nc <? S_ nc
         else (R nc + MP nc) * NC.B nc <=? S_ nc))
    by (destruct (NC.high_ok nc);
        [rewrite (bi_compare_lem1 _ _ Hw2 (ok_s nc Hok))
        | rewrite (bi_compare_le0 _ _ Hw2 (ok_s nc Hok))];
        rewrite Hv2; reflexivity);
    rewrite Hcmp.
  all: set (nc0 := NC.set_t2 _ (NC.set_t1 _ nc)).
  all: assert (Hexit :
      (if NC.high_ok nc then (R nc + MP nc) * NC.B nc <? S_ nc
       else (R nc + MP nc) * NC.B nc <=? S_ nc) = false ->
      exists nc' k',
        Some (nc0, k) = Some (nc', k') /\
        nc_ok nc' /\ same_params nc nc' /\ same_out nc nc' /\
        k' <= k /\ NC.s nc' = NC.s nc /\
        R nc' = R nc * NC.B nc ^ (k - k') /\
        MP nc' = MP nc * NC.B nc ^ (k - k') /\
        MM nc' = MM nc * NC.B nc ^ (k - k') /\
        (if NC.high_ok nc then S_ nc <= NC.B nc * (R nc' + MP nc')
         else S_ nc < NC.B nc * (R nc' + MP nc')) /\
        ((if NC.high_ok nc then R nc + MP nc < S_ nc
          else R nc + MP nc <= S_ nc) ->
         (if NC.high_ok nc then R nc' + MP nc' < S_ nc
          else R nc' + MP nc' <= S_ nc)))
    by (intros Hc; exists nc0, k; split; [reflexivity|];
        split; [destruct Hok; constructor; assumption|];
        split; [repeat split|]; split; [split; reflexivity|];
        change (R nc0) with (R nc); change (MP nc0) with (MP nc);
        change (MM nc0) with (MM nc);
        rewrite Z.sub_diag, Z.pow_0_r, !Z.mul_1_r;
        repeat split; try lia; try (intros H; exact H);
        destruct (NC.high_ok nc); lia).
  - destruct (if NC.high_ok nc then (R nc + MP nc) * NC.B nc <? S_ nc
              else (R nc + MP nc) * NC.B nc <=? S_ nc) eqn:Hc;
      [|exact (Hexit eq_refl)].
    exfalso. change (2 ^ (Z.of_nat 0 + 1)) with 2 in Hfuel.
    destruct (NC.high_ok nc); nia.
  - destruct (if NC.high_ok nc then (R nc + MP nc) * NC.B nc <? S_ nc
              else (R nc + MP nc) * NC.B nc <=? S_ nc) eqn:Hc;
      [|exact (Hexit eq_refl)].
    clear Hexit.
    set (nc1 := NC.set_mm _ _).
    assert (Hok1 : nc_ok nc1).
    { constructor; subst nc1; unfold S_, MP, MM; nc_cbn.
      - exact Hwr.
      - apply (ok_s nc Hok).
      - exact Hwp.
      - exact Hwm.
      - exact Hs.
      - rewrite Hvp. nia.
      - rewrite Hvm. nia.
      - exact HB. }
    assert (HR1 : R nc1 = R nc * NC.B nc) by exact Hvr.
    assert (HP1 : MP nc1 = MP nc * NC.B nc) by exact Hvp.
    assert (HM1 : MM nc1 = MM nc * NC.B nc) by exact Hvm.
    assert (HS1 : S_ nc1 = S_ nc) by reflexivity.
    destruct (IH nc1 (k - 1) Hok1) as
      (nc' & k' & Heq & Hok' & Hpar & Hout & Hk & Hs' & Hr' & Hmp' & Hmm' & Hlow & Hup).
    { rewrite HS1, HR1, HP1.
      replace (Z.of_nat (S n) + 1) with (Z.succ (Z.of_nat n + 1)) in Hfuel by lia.
      rewrite Z.pow_succ_r in Hfuel by lia.
      assert (0 < 2 ^ (Z.of_nat n + 1)) by (apply Z.pow_pos_nonneg; lia). nia. }
    exists nc', k'. split; [exact Heq|]. split; [exact Hok'|].
    split; [exact Hpar|]. split; [exact Hout|].
    change (NC.B nc1) with (NC.B nc) in *.
    change (NC.high_ok nc1) with (NC.high_ok nc) in *.
    change (NC.s nc1) with (NC.s nc) in *.
    rewrite HS1 in *.
    assert (Hpow : NC.B nc * NC.B nc ^ (k - 1 - k') = NC.B nc ^ (k - k')).
    { replace (k - k') with (Z.succ (k - 1 - k')) by lia.
      rewrite Z.pow_succ_r by lia. reflexivity. }
    split; [lia|]. split; [exact Hs'|].
    split; [rewrite Hr', HR1, <- Hpow; ring|].
    split; [rewrite Hmp', HP1, <- Hpow; ring|].
    split; [rewrite Hmm', HM1, <- Hpow; ring|].
    split; [exact Hlow|].
    intros _. apply Hup. rewrite HR1, HP1. destruct (NC.high_ok nc); lia.
Qed.


Lemma pow2_above a n : 0 <= a -> (Z.to_nat a <= n)%nat -> a < 2 ^ Z.of_nat n.
Proof.
  intros Ha Hn. pose proof (Z.pow_gt_lin_r 2 a ltac:(lia) Ha).
  pose proof (Z.pow_le_mono_r 2 a (Z.of_nat n) ltac:(lia) ltac:(lia)). lia.
Qed.

(** Scale finishes, and leaves the bounds of [scaled]. *)
Lemma dragon4_scale_spec nc :
  nc_ok nc ->
  exists n0, forall fuel, (n0 <= fuel)%nat ->
    exists nc',
      dragon4_scale fuel nc = Some nc' /\
      nc_ok nc' /\ same_params nc nc' /\ same_out nc nc' /\
      scaled nc' /\ scaled_from nc nc'.
Proof.
  intros Hok.
  pose proof (ok_s_pos nc Hok) as Hs. pose proof (ok_mp_pos nc Hok) as Hmp.
  pose proof (bi_val_range _ (proj1 (ok_r nc Hok))) as [Hr0 _].
  fold (R nc) in Hr0.
  exists (S (Z.to_nat (R nc + MP nc + S_ nc))). intros fuel Hfuel.
  destruct fuel as [|n]; [lia|].
  pose proof (pow2_above (R nc + MP nc + S_ nc) n ltac:(lia) ltac:(lia)) as Hpow.
  destruct (scale_inc_spec n nc 0 Hok ltac:(nia))
    as (nc1 & k1 & Heq1 & Hok1 & Hpar1 & Hout1 & Hk1 & Hr1 & Hmp1 & Hmm1 &
        HS1 & Hup1 & Hlow1).
  unfold dragon4_scale. rewrite Heq1.
  assert (HB1 : NC.B nc1 = NC.B nc) by apply Hpar1.
  assert (HH1 : NC.high_ok nc1 = NC.high_ok nc) by apply Hpar1.
  assert (HR1 : R nc1 = R nc) by (unfold R; rewrite Hr1; reflexivity).
  assert (HP1 : MP nc1 = MP nc) by (unfold MP; rewrite Hmp1; reflexivity).
  assert (HM1 : MM nc1 = MM nc) by (unfold MM; rewrite Hmm1; reflexivity).
  rewrite Z.sub_0_r in HS1.
  destruct (k1 >? 0) eqn:Ek.
  - exists (NC.set_k k1 nc1). split; [reflexivity|].
    split; [destruct Hok1; constructor; assumption|].
    split; [exact Hpar1|]. split; [exact Hout1|]. split.
    + unfold scaled. change (NC.high_ok (NC.set_k k1 nc1)) with (NC.high_ok nc1).
      change (R (NC.set_k k1 nc1)) with (R nc1).
      change (MP (NC.set_k k1 nc1)) with (MP nc1).
      change (S_ (NC.set_k k1 nc1)) with (S_ nc1).
      change (NC.B (NC.set_k k1 nc1)) with (NC.B nc1).
      rewrite HH1, HB1, HR1, HP1. specialize (Hlow1 ltac:(lia)).
      destruct (NC.high_ok nc); split; assumption.
    + left. change (NC.k (NC.set_k k1 nc1)) with k1.
      repeat split; try assumption. lia.
  - assert (k1 = 0) by lia. subst k1.
    rewrite Z.pow_0_r, Z.mul_1_r in HS1.
    destruct (scale_dec_spec n nc1 0 Hok1) as
      (nc2 & k2 & Heq2 & Hok2 & Hpar2 & Hout2 & Hk2 & Hs2 & Hr2 & Hmp2 & Hmm2 &
       Hlow2 & Hup2).
    { rewrite HS1, HR1, HP1. rewrite Z.pow_add_r by lia. nia. }
    rewrite Heq2. exists (NC.set_k k2 nc2). split; [reflexivity|].
    split; [destruct Hok2; constructor; assumption|].
    split; [exact (same_params_trans _ _ _ Hpar1 Hpar2)|].
    split; [exact (same_out_trans _ _ _ Hout1 Hout2)|].
    assert (HS2 : S_ nc2 = S_ nc) by (unfold S_ in *; rewrite Hs2; exact HS1).
    rewrite HH1, HB1, HS1, HR1, HP1, HM1, Z.sub_0_l in *.
    specialize (Hup2 Hup1).
    assert (HH2 : NC.high_ok nc2 = NC.high_ok nc)
      by (destruct Hpar2 as (_ & _ & -> & _); exact HH1).
    assert (HB2 : NC.B nc2 = NC.B nc)
      by (destruct Hpar2 as (-> & _); exact HB1).
    split.
    + unfold scaled. change (NC.high_ok (NC.set_k k2 nc2)) with (NC.high_ok nc2).
      change (R (NC.set_k k2 nc2)) with (R nc2).
      change (MP (NC.set_k k2 nc2)) with (MP nc2).
      change (S_ (NC.set_k k2 nc2)) with (S_ nc2).
      change (NC.B (NC.set_k k2 nc2)) with (NC.B nc2).
      rewrite HH2, HB2, HS2. destruct (NC.high_ok nc); split; assumption.
    + right. change (NC.k (NC.set_k k2 nc2)) with k2.
      change (R (NC.set_k k2 nc2)) with (R nc2).
      change (MP (NC.set_k k2 nc2)) with (MP nc2).
      change (MM (NC.set_k k2 nc2)) with (MM nc2).
      change (S_ (NC.set_k k2 nc2)) with (S_ nc2).
      repeat split; assumption.
Qed.

End Scale.

(** * More fuel gives the same result *)

Section Fuel.

Lemma dragon4_scale_inc_mono fuel :
  forall nc k res, dragon4_scale_inc fuel nc k = Some res ->
  forall fuel', (fuel <= fuel')%nat -> dragon4_scale_inc fuel' nc k = Some res.
Proof.
  induction fuel as [|fuel IH]; intros nc k res H fuel' Hle; [discriminate|].
  destruct fuel' as [|fuel']; [lia|].
  rewrite dragon4_scale_inc_eq in *. cbn zeta in *.
  destruct (bi_compare _ _ >=? _); [|exact H].
  destruct (bi_mul_small_copy _ _) as [s' t].
  apply (IH _ _ _ H). lia.
Qed.

Lemma dragon4_scale_dec_mono fuel :
  forall nc k res, dragon4_scale_dec fuel nc k = Some res ->
  forall fuel', (fuel <= fuel')%nat -> dragon4_scale_dec fuel' nc k = Some res.
Proof.
  induction fuel as [|fuel IH]; intros nc k res H fuel' Hle; [discriminate|].
  destruct fuel' as [|fuel']; [lia|].
  rewrite dragon4_scale_dec_eq in *. cbn zeta in *.
  destruct (bi_compare _ _ <=? _); [|exact H].
  unfold bi_mul_small_copy in *.
  apply (IH _ _ _ H). lia.
Qed.

Lemma dragon4_scale_mono fuel nc res :
  dragon4_scale fuel nc = Some res ->
  forall fuel', (fuel <= fuel')%nat -> dragon4_scale fuel' nc = Some res.
Proof.
  unfold dragon4_scale. intros H fuel' Hle.
  destruct (dragon4_scale_inc fuel nc 0) as [[nc1 k1]|] eqn:E1; [|discriminate].
  rewrite (dragon4_scale_inc_mono _ _ _ _ E1 fuel' Hle).
  destruct (k1 >? 0); [exact H|].
  destruct (dragon4_scale_dec fuel nc1 k1) as [[nc2 k2]|] eqn:E2; [|discriminate].
  rewrite (dragon4_scale_dec_mono _ _ _ _ E2 fuel' Hle). exact H.
Qed.

Lemma dragon4_divloop_eq fuel nc d :
  dragon4_divloop (S fuel) nc d =
    if bi_compare (NC.t1 nc) (NC.s nc) <? 0 then Some (nc, d)
    else
      let '(t1', t) := bi_sub_copy (NC.t1 nc) (NC.s nc) in
      let nc := NC.set_t1 t1' (NC.set_t2 t nc) in
      dragon4_divloop fuel nc (d + 1).
Proof. reflexivity. Qed.

Lemma dragon4_divloop_mono fuel :
  forall nc d res, dragon4_divloop fuel nc d = Some res ->
  forall fuel', (fuel <= fuel')%nat -> dragon4_divloop fuel' nc d = Some res.
Proof.
  induction fuel as [|fuel IH]; intros nc d res H fuel' Hle; [discriminate|].
  destruct fuel' as [|fuel']; [lia|].
  rewrite dragon4_divloop_eq in *.
  destruct (bi_compare _ _ <? 0); [exact H|].
  unfold bi_sub_copy in *. cbn zeta in *.
  apply (IH _ _ _ H). lia.
Qed.

Lemma dragon4_generate_round_mono fuel nc res :
  dragon4_generate_round fuel nc = Some res ->
  forall fuel', (fuel <= fuel')%nat -> dragon4_generate_round fuel' nc = Some res.
Proof.
  unfold dragon4_generate_round. intros H fuel' Hle.
  destruct (dragon4_divloop fuel _ 0) as [[nc1 d]|] eqn:E; [|discriminate].
  rewrite (dragon4_divloop_mono _ _ _ _ E fuel' Hle). exact H.
Qed.

Lemma dragon4_generate_loop_eq fuel nc count :
  dragon4_generate_loop (S fuel) nc count =
    match dragon4_generate_round (S fuel) nc with
    | None => None
    | Some (nc, d, tc1, tc2) =>
        if tc1 then
          if tc2 then
            let nc := NC.set_t1 (bi_mul_small (NC.r nc) 2) nc in
            if bi_compare (NC.t1 nc) (NC.s nc) <? 0 then
              Some (dragon4_output nc d count, count + 1, [(d, d)])
            else
              Some (dragon4_output nc (d + 1) count, count + 1, [(d, d + 1)])
          else
            Some (dragon4_output nc d count, count + 1, [(d, d)])
        else
          if tc2 then
            Some (dragon4_output nc (d + 1) count, count + 1, [(d, d + 1)])
          else
            let nc := dragon4_output nc d count in
            match dragon4_generate_loop fuel nc (count + 1) with
            | None => None
            | Some (nc, count, calls) => Some (nc, count, (d, d) :: calls)
            end
    end.
Proof. reflexivity. Qed.

Lemma dragon4_generate_loop_mono fuel :
  forall nc count res, dragon4_generate_loop fuel nc count = Some res ->
  forall fuel', (fuel <= fuel')%nat ->
    dragon4_generate_loop fuel' nc count = Some res.
Proof.
  induction fuel as [|fuel IH]; intros nc count res H fuel' Hle; [discriminate|].
  destruct fuel' as [|fuel']; [lia|].
  rewrite dragon4_generate_loop_eq in *.
  destruct (dragon4_generate_round (S fuel) nc) as [[[[nc1 d] tc1] tc2]|] eqn:E;
    [|discriminate].
  rewrite (dragon4_generate_round_mono _ _ _ E (S fuel') ltac:(lia)).
  destruct tc1, tc2; try exact H.
  cbn zeta in *.
  destruct (dragon4_generate_loop fuel _ _) as [[[nc2 c2] calls]|] eqn:E2;
    [|discriminate].
  rewrite (IH _ _ _ E2 fuel' ltac:(lia)). exact H.
Qed.

Lemma dragon4_generate_mono fuel nc res :
  dragon4_generate fuel nc = Some res ->
  forall fuel', (fuel <= fuel')%nat -> dragon4_generate fuel' nc = Some res.
Proof.
  unfold dragon4_generate. intros H fuel' Hle.
  destruct (dragon4_generate_loop fuel nc 0) as [[[nc1 c1] calls]|] eqn:E;
    [|discriminate].
  rewrite (dragon4_generate_loop_mono _ _ _ _ E fuel' Hle). exact H.
Qed.

End Fuel.

(** * Output and generate *)

Section Output.

Lemma same_but_out_refl nc : same_but_out nc nc.
Proof. repeat split. Qed.

Lemma same_but_out_trans a b c :
  same_but_out a b -> same_but_out b c -> same_but_out a c.
Proof.
  unfold same_but_out.
  intros (A1 & A2 & A3 & A4 & A5 & A6 & A7 & A8 & A9 & A10 & A11 & A12 & A13)
         (B1 & B2 & B3 & B4 & B5 & B6 & B7 & B8 & B9 & B10 & B11 & B12 & B13).
  repeat split; congruence.
Qed.

Lemma same_but_out_ok nc nc' : same_but_out nc nc' -> nc_ok nc -> nc_ok nc'.
Proof.
  intros (_ & Hr & Hs & Hmp & Hmm & _ & _ & _ & _ & HB & _) Hok.
  destruct Hok. unfold S_, MP, MM in *.
  constructor; unfold S_, MP, MM; rewrite ?Hr, ?Hs, ?Hmp, ?Hmm, ?HB; assumption.
Qed.

Lemma same_but_out_params nc nc' : same_but_out nc nc' -> same_params nc nc'.
Proof.
  intros (Hf & _ & _ & _ & _ & _ & _ & Hx & He & HB & _ & Hl & Hh).
  repeat split; assumption.
Qed.

Lemma same_but_out_nums nc nc' :
  same_but_out nc nc' ->
  R nc' = R nc /\ S_ nc' = S_ nc /\ MP nc' = MP nc /\ MM nc' = MM nc.
Proof.
  intros (_ & Hr & Hs & Hmp & Hmm & _). unfold R, S_, MP, MM.
  rewrite Hr, Hs, Hmp, Hmm. repeat split.
Qed.

Lemma out_cut_id l : (length l <= sizeof_out_buf)%nat -> out_cut l = l.
Proof. intros H. unfold out_cut. apply firstn_all2. exact H. Qed.

Lemma length_out_cut l : (length (out_cut l) <= sizeof_out_buf)%nat.
Proof. unfold out_cut. rewrite length_firstn. lia. Qed.

Lemma out_cut_idem l : out_cut (out_cut l) = out_cut l.
Proof. apply out_cut_id, length_out_cut. Qed.

Lemma out_cut_app l l' : out_cut (out_cut l ++ l') = out_cut (l ++ l').
Proof.
  unfold out_cut. rewrite !firstn_app, firstn_firstn, Nat.min_id, length_firstn.
  f_equal. f_equal. lia.
Qed.

(** A write lands in the array while the array is not full. *)
Lemma putchar_spec nc c :
  same_but_out nc (NUMCONV_PUTCHAR nc c) /\
  (forall L, NC.out_buf nc = out_cut L ->
             NC.out_buf (NUMCONV_PUTCHAR nc c) = out_cut (L ++ [c])) /\
  NC.out_first (NUMCONV_PUTCHAR nc c) = NC.out_first nc.
Proof.
  unfold NUMCONV_PUTCHAR, out_p_in_out_buf.
  destruct (length (NC.out_buf nc) <? sizeof_out_buf)%nat eqn:E.
  - split; [repeat split|]. split; [|reflexivity].
    intros L HL. cbn [NC.out_buf NC.set_out_buf]. apply Nat.ltb_lt in E.
    rewrite HL in *.
    assert (HlL : (length L < sizeof_out_buf)%nat)
      by (unfold out_cut in E; rewrite length_firstn in E; lia).
    rewrite !out_cut_id by (rewrite ?length_app; simpl; lia). reflexivity.
  - split; [repeat split|]. split; [|reflexivity].
    intros L HL. apply Nat.ltb_ge in E. rewrite HL in *.
    unfold out_cut in *. rewrite length_firstn in E.
    rewrite firstn_app.
    replace (sizeof_out_buf - length L)%nat with 0%nat by lia.
    cbn [firstn]. rewrite app_nil_r. reflexivity.
Qed.

Lemma putchar_buf nc c L :
  NC.out_buf nc = out_cut L ->
  NC.out_buf (NUMCONV_PUTCHAR nc c) = out_cut (L ++ [c]).
Proof. apply putchar_spec. Qed.

Lemma putchar_zeros_spec n nc :
  same_but_out nc (putchar_zeros n nc) /\
  (forall L, NC.out_buf nc = out_cut L ->
     NC.out_buf (putchar_zeros n nc) =
       out_cut (L ++ repeat "0"%char (Z.to_nat n))) /\
  NC.out_first (putchar_zeros n nc) = NC.out_first nc.
Proof.
  unfold putchar_zeros. induction (Z.to_nat n) as [|m IH].
  - simpl. split; [repeat split|]. split; [|reflexivity].
    intros L HL. rewrite app_nil_r. exact HL.
  - rewrite Nat.iter_succ. destruct IH as (Hs & Hb & Hf).
    set (nc1 := Nat.iter m _ nc) in *.
    destruct (putchar_spec nc1 "0"%char) as (Hs1 & Hb1 & Hf1).
    split; [apply (same_but_out_trans _ nc1); assumption|].
    split; [|congruence].
    intros L HL. rewrite (Hb1 _ (Hb L HL)), <- app_assoc. f_equal. f_equal.
    change ("0"%char :: repeat "0"%char m) with (["0"%char] ++ repeat "0"%char m).
    rewrite <- repeat_cons. reflexivity.
Qed.

Lemma Forall_repeat_zero n : Forall zero_or_dot (repeat "0"%char n).
Proof. induction n; simpl; constructor; [left; reflexivity | assumption]. Qed.

Lemma dragon4_output_spec nc d n :
  same_but_out nc (dragon4_output nc d n) /\
  exists pre,
    Forall zero_or_dot pre /\
    forall L, NC.out_buf nc = out_cut L ->
      NC.out_buf (dragon4_output nc d n) = out_cut (L ++ pre ++ [digits_at d]).
Proof.
  unfold dragon4_output.
  set (nc1 := if (NC.k nc - n <=? 0) && NC.out_first nc then _ else _).
  assert (H1 : same_but_out nc nc1 /\
               exists pre, Forall zero_or_dot pre /\
                 forall L, NC.out_buf nc = out_cut L ->
                   NC.out_buf nc1 = out_cut (L ++ pre)).
  { subst nc1. destruct ((NC.k nc - n <=? 0) && NC.out_first nc).
    - destruct (putchar_spec nc "0"%char) as (Ha & Hba & _).
      destruct (putchar_spec (NUMCONV_PUTCHAR nc "0") "."%char) as (Hc & Hbc & _).
      destruct (putchar_zeros_spec
                  (- NC.k (NUMCONV_PUTCHAR (NUMCONV_PUTCHAR nc "0") "."))
                  (NUMCONV_PUTCHAR (NUMCONV_PUTCHAR nc "0") "."))
        as (Hs & Hb & _).
      split.
      + exact (same_but_out_trans _ _ _ (same_but_out_trans _ _ _ Ha Hc) Hs).
      + eexists ("0"%char :: "."%char :: repeat "0"%char _).
        split.
        * constructor; [left; reflexivity|].
          constructor; [right; reflexivity|]. apply Forall_repeat_zero.
        * intros L HL. rewrite (Hb _ (Hbc _ (Hba L HL))).
          rewrite <- !app_assoc. reflexivity.
    - destruct (NC.k nc - n =? 0).
      + split; [apply putchar_spec|]. exists ["."%char]. split.
        * constructor; [right; reflexivity | constructor].
        * intros L HL. apply putchar_buf. exact HL.
      + split; [apply same_but_out_refl|]. exists []. split; [constructor|].
        intros L HL. rewrite app_nil_r. exact HL. }
  destruct H1 as (Hs & pre & Hpre & Hb).
  destruct (putchar_spec nc1 (digits_at d)) as (Hs1 & Hb1 & _).
  split.
  - apply (same_but_out_trans _ nc1); [exact Hs|].
    apply (same_but_out_trans _ _ _ Hs1). repeat split.
  - exists pre. split; [exact Hpre|].
    intros L HL. cbn [NC.out_buf NC.set_out_first].
    rewrite (Hb1 _ (Hb L HL)), <- app_assoc. reflexivity.
Qed.

End Output.

Section Generate.

Lemma same_but_scratch_trans a b c :
  same_but_scratch a b -> same_but_scratch b c -> same_but_scratch a c.
Proof.
  unfold same_but_scratch.
  intros (A1 & A2 & A3 & A4 & A5 & A6 & A7 & A8 & A9 & A10 & A11 & A12 & A13)
         (B1 & B2 & B3 & B4 & B5 & B6 & B7 & B8 & B9 & B10 & B11 & B12 & B13).
  repeat split; congruence.
Qed.

(** The subtraction loop divides [t1] by [s]. *)
Lemma dragon4_divloop_spec fuel :
  forall nc d,
    bi_wf (NC.t1 nc) -> bi_wf (NC.s nc) -> 0 < S_ nc ->
    bi_val (NC.t1 nc) / S_ nc < Z.of_nat fuel ->
    exists nc',
      dragon4_divloop fuel nc d = Some (nc', d + bi_val (NC.t1 nc) / S_ nc) /\
      bi_wf (NC.t1 nc') /\
      bi_val (NC.t1 nc') = bi_val (NC.t1 nc) mod S_ nc /\
      same_but_scratch nc nc'.
Proof.
  induction fuel as [|fuel IH]; intros nc d Ht Hs Hpos Hfuel.
  - pose proof (bi_val_range _ (proj1 Ht)) as [H0 _].
    pose proof (Z.div_pos _ (S_ nc) H0 Hpos). lia.
  - rewrite dragon4_divloop_eq, (bi_compare_lt0 _ _ Ht Hs). fold (S_ nc).
    pose proof (bi_val_range _ (proj1 Ht)) as [H0 _].
    destruct (bi_val (NC.t1 nc) <? S_ nc) eqn:E.
    + exists nc. rewrite Z.div_small, Z.mod_small, Z.add_0_r by lia.
      split; [reflexivity|]. split; [exact Ht|].
      split; [reflexivity | repeat split].
    + unfold bi_sub_copy, bi_copy. cbn zeta.
      destruct (bi_sub_spec _ _ Ht Hs ltac:(unfold S_ in *; lia)) as (Hw & Hv).
      set (nc1 := NC.set_t1 _ _).
      assert (Hdiv : (bi_val (NC.t1 nc) - S_ nc) / S_ nc
                     = bi_val (NC.t1 nc) / S_ nc - 1).
      { replace (bi_val (NC.t1 nc) - S_ nc)
          with (bi_val (NC.t1 nc) + (-1) * S_ nc) by ring.
        rewrite Z.div_add by lia. ring. }
      assert (Hmod : (bi_val (NC.t1 nc) - S_ nc) mod S_ nc
                     = bi_val (NC.t1 nc) mod S_ nc).
      { replace (bi_val (NC.t1 nc) - S_ nc)
          with (bi_val (NC.t1 nc) + (-1) * S_ nc) by ring.
        apply Z.mod_add. lia. }
      destruct (IH nc1 (d + 1)) as (nc' & Heq & Hw' & Hv' & Hsame).
      * exact Hw.
      * exact Hs.
      * exact Hpos.
      * change (bi_val (NC.t1 nc1)) with (bi_val (bi_sub (NC.t1 nc) (NC.s nc))).
        change (S_ nc1) with (S_ nc). rewrite Hv. fold (S_ nc). rewrite Hdiv. lia.
      * exists nc'.
        change (bi_val (NC.t1 nc1)) with (bi_val (bi_sub (NC.t1 nc) (NC.s nc))) in *.
        change (S_ nc1) with (S_ nc) in *. rewrite Hv in *. fold (S_ nc) in *.
        rewrite Hdiv in Heq. rewrite Hmod in Hv'.
        split; [rewrite Heq; f_equal; f_equal; lia|].
        split; [exact Hw'|]. split; [exact Hv'|].
        apply (same_but_scratch_trans _ nc1); [repeat split | exact Hsame].
Qed.

(** One round of generate: the quotient digit, the remainder, the
    scaled gaps and the two termination conditions. *)
Lemma dragon4_generate_round_spec fuel nc :
  nc_ok nc -> R nc < S_ nc -> (36 <= fuel)%nat ->
  exists nc' d tc1 tc2,
    dragon4_generate_round fuel nc = Some (nc', d, tc1, tc2) /\
    nc_ok nc' /\ same_params nc nc' /\ same_out nc nc' /\
    NC.k nc' = NC.k nc /\ S_ nc' = S_ nc /\
    d = R nc * NC.B nc / S_ nc /\ 0 <= d <= NC.B nc - 1 /\
    R nc' = (R nc * NC.B nc) mod S_ nc /\ R nc' < S_ nc /\
    MP nc' = MP nc * NC.B nc /\ MM nc' = MM nc * NC.B nc /\
    tc1 = (if NC.low_ok nc then R nc' <=? MM nc' else R nc' <? MM nc') /\
    tc2 = (S_ nc <=? R nc' + MP nc').
Proof.
  intros Hok Hlt Hfuel.
  pose proof (ok_B nc Hok) as HB. pose proof (ok_s_pos nc Hok) as Hs.
  pose proof (ok_mp_pos nc Hok) as Hmp. pose proof (ok_mm_pos nc Hok) as Hmm.
  pose proof (bi_val_range _ (proj1 (ok_r nc Hok))) as [Hr0 _]. fold (R nc) in Hr0.
  pose proof (bi_mul_small_spec (NC.r nc) (NC.B nc) (proj1 (ok_r nc Hok))
                (radix_limb nc Hok)) as (Hwr & Hvr & _).
  pose proof (bi_mul_small_spec (NC.mp nc) (NC.B nc) (proj1 (ok_mp nc Hok))
                (radix_limb nc Hok)) as (Hwp & Hvp & _).
  pose proof (bi_mul_small_spec (NC.mm nc) (NC.B nc) (proj1 (ok_mm nc Hok))
                (radix_limb nc Hok)) as (Hwm & Hvm & _).
  fold (R nc) in Hvr. fold (MP nc) in Hvp. fold (MM nc) in Hvm.
  assert (Hq : 0 <= R nc * NC.B nc / S_ nc <= NC.B nc - 1).
  { split; [apply Z.div_pos; nia|].
    assert (R nc * NC.B nc / S_ nc < NC.B nc); [|lia].
    apply Z.div_lt_upper_bound; nia. }
  pose proof (Z.mod_pos_bound (R nc * NC.B nc) (S_ nc) Hs) as Hrem.
  unfold dragon4_generate_round. rewrite (wrap32_small _ (radix_limb nc Hok)).
  set (nc0 := NC.set_t1 _ nc).
  destruct (dragon4_divloop_spec fuel nc0 0) as (nc1 & Heq & Hw1 & Hv1 & Hsame).
  { exact Hwr. }
  { apply (ok_s nc Hok). }
  { exact Hs. }
  { change (bi_val (NC.t1 nc0)) with (bi_val (bi_mul_small (NC.r nc) (NC.B nc))).
    change (S_ nc0) with (S_ nc). rewrite Hvr. lia. }
  change (bi_val (NC.t1 nc0)) with (bi_val (bi_mul_small (NC.r nc) (NC.B nc))) in *.
  change (S_ nc0) with (S_ nc) in *. rewrite Hvr, Z.add_0_l in *.
  rewrite Heq. unfold bi_mul_small_copy, bi_copy. cbn zeta. nc_cbn.
  destruct Hsame as (Sf & Sr & Ss & Smp & Smm & Sx & Se & SB & Sk & Sl & Sh & Sob & Sof).
  subst nc0. nc_cbn.
  rewrite Ss, Smp, Smm, SB, Sl. rewrite ?(wrap32_small _ (radix_limb nc Hok)).
  assert (Ht1 : bi_wf (bi_add (NC.t1 nc1) (bi_mul_small (NC.mp nc) (NC.B nc))))
    by (apply bi_add_wf; assumption).
  assert (Hvt : bi_val (bi_add (NC.t1 nc1) (bi_mul_small (NC.mp nc) (NC.B nc)))
                = (R nc * NC.B nc) mod S_ nc + MP nc * NC.B nc)
    by (rewrite bi_add_val, Hv1, Hvp by (apply Hw1 || apply Hwp); reflexivity).
  eexists _, _, _, _. split; [reflexivity|].
  split.
  { constructor; unfold S_, MP, MM; nc_cbn; rewrite ?Ss, ?SB.
    - exact Hw1.
    - apply (ok_s nc Hok).
    - exact Hwp.
    - exact Hwm.
    - exact Hs.
    - rewrite Hvp. nia.
    - rewrite Hvm. nia.
    - exact HB. }
  split; [repeat split; nc_cbn; assumption|].
  split; [split; nc_cbn; assumption|].
  unfold R, S_, MP, MM; nc_cbn. rewrite ?Ss, ?Hv1, ?Hvp, ?Hvm.
  fold (S_ nc) (R nc) (MP nc) (MM nc).
  repeat split; try assumption; try lia.
  - destruct (NC.low_ok nc).
    + rewrite (bi_compare_le0 _ _ Hw1 Hwm), Hv1, Hvm. reflexivity.
    + rewrite (bi_compare_lem1 _ _ Hw1 Hwm), Hv1, Hvm. reflexivity.
  - unfold addr_high_ok_nonnull.
    rewrite (bi_compare_ge0 _ _ Ht1 (ok_s nc Hok)), Hvt. reflexivity.
Qed.

End Generate.

Section GenerateLoop.

Lemma dragon4_divloop_frame fuel :
  forall nc d nc' d',
    dragon4_divloop fuel nc d = Some (nc', d') -> same_but_scratch nc nc'.
Proof.
  induction fuel as [|fuel IH]; intros nc d nc' d' H; [discriminate|].
  rewrite dragon4_divloop_eq in H.
  destruct (bi_compare _ _ <? 0).
  - injection H as <- _. repeat split.
  - unfold bi_sub_copy in H. cbn zeta in H. apply IH in H.
    apply (same_but_scratch_trans _ _ _ ltac:(repeat split) H).
Qed.

Lemma dragon4_generate_round_frame fuel nc nc' d tc1 tc2 :
  dragon4_generate_round fuel nc = Some (nc', d, tc1, tc2) ->
  same_out nc nc' /\ NC.k nc' = NC.k nc.
Proof.
  unfold dragon4_generate_round. intros H.
  destruct (dragon4_divloop fuel _ 0) as [[nc1 d1]|] eqn:E; [|discriminate].
  apply dragon4_divloop_frame in E.
  destruct E as (_ & _ & _ & _ & _ & _ & _ & _ & Sk & _ & _ & Sob & Sof).
  unfold bi_mul_small_copy in H. cbn zeta in H. injection H as <- _ _ _.
  nc_cbn. repeat split; assumption.
Qed.

Lemma dragon4_output_frame nc d n :
  NC.k (dragon4_output nc d n) = NC.k nc /\
  exists ext, forall L, NC.out_buf nc = out_cut L ->
    NC.out_buf (dragon4_output nc d n) = out_cut (L ++ ext).
Proof.
  destruct (dragon4_output_spec nc d n) as (Hs & pre & _ & Hb).
  split; [apply Hs|]. exists (pre ++ [digits_at d]). exact Hb.
Qed.

(** Each round calls [dragon4_output] once: [count] advances by the
    number of calls, of which there is at least one, and what the
    buffer holds stays in it. *)
Lemma dragon4_generate_loop_calls fuel :
  forall nc count nc' count' calls,
    dragon4_generate_loop fuel nc count = Some (nc', count', calls) ->
    calls <> [] /\ count' = count + Z.of_nat (length calls) /\
    NC.k nc' = NC.k nc /\
    exists ext, forall L, NC.out_buf nc = out_cut L ->
      NC.out_buf nc' = out_cut (L ++ ext).
Proof.
  induction fuel as [|fuel IH]; intros nc count nc' count' calls H;
    [discriminate|].
  rewrite dragon4_generate_loop_eq in H.
  destruct (dragon4_generate_round (S fuel) nc) as [[[[nc1 d] tc1] tc2]|] eqn:E;
    [|discriminate].
  apply dragon4_generate_round_frame in E. destruct E as ([Eb _] & Ek).
  assert (Hone : forall nc2 p,
            NC.out_buf nc2 = NC.out_buf nc1 -> NC.k nc2 = NC.k nc1 ->
            Some (dragon4_output nc2 p count, count + 1, [(d, p)])
              = Some (nc', count', calls) ->
            calls <> [] /\ count' = count + Z.of_nat (length calls) /\
            NC.k nc' = NC.k nc /\
            exists ext, forall L, NC.out_buf nc = out_cut L ->
              NC.out_buf nc' = out_cut (L ++ ext)).
  { intros nc2 p Hb2 Hk2 Heq. injection Heq as <- <- <-.
    destruct (dragon4_output_frame nc2 p count) as (Hk & ext & Hb).
    split; [discriminate|]. split; [simpl; lia|].
    split; [congruence|]. exists ext. intros L HL. apply Hb. congruence. }
  destruct tc1, tc2.
  - cbn zeta in H. destruct (bi_compare _ _ <? 0);
      refine (Hone _ _ _ _ H); reflexivity.
  - refine (Hone _ _ _ _ H); reflexivity.
  - refine (Hone _ _ _ _ H); reflexivity.
  - cbn zeta in H.
    destruct (dragon4_generate_loop fuel _ _) as [[[nc2 c2] calls2]|] eqn:E2;
      [|discriminate].
    injection H as <- <- <-.
    apply IH in E2. destruct E2 as (Hne & Hc & Hk & ext & Hb).
    destruct (dragon4_output_frame nc1 d count) as (Hk1 & ext1 & Hb1).
    split; [discriminate|]. split; [simpl length; lia|].
    split; [congruence|].
    exists (ext1 ++ ext). intros L HL. rewrite app_assoc.
    apply Hb, Hb1. congruence.
Qed.

(** Generate finishes from a context with [r < s], and every call it
    makes passes [d] or, in the last call only, possibly [d + 1]. *)
Lemma dragon4_generate_loop_spec n :
  forall nc count,
    nc_ok nc -> R nc < S_ nc -> S_ nc <= MM nc * 2 ^ (Z.of_nat n + 1) ->
    exists nc' count' calls,
      dragon4_generate_loop (n + 36) nc count = Some (nc', count', calls) /\
      Forall (call_ok (NC.B nc)) calls /\
      Forall call_plain (removelast calls) /\
      same_params nc nc'.
Proof.
  induction n as [|n IH]; intros nc count Hok Hlt Hfuel.
  all: cbn [Nat.add]; rewrite dragon4_generate_loop_eq.
  all: match goal with
       | |- context [dragon4_generate_round ?fuel ?c] =>
           destruct (dragon4_generate_round_spec fuel c Hok Hlt ltac:(lia))
             as (nc1 & d & tc1 & tc2 & Heq & Hok1 & Hpar & Hout & Hk & HS & Hd &
                 Hdr & HR & HRlt & HP & HM & Htc1 & Htc2)
       end; rewrite Heq.
  all: pose proof (ok_B nc Hok) as HB; pose proof (ok_mm_pos nc Hok) as Hmm;
    pose proof (ok_s_pos nc Hok) as Hs.
  all: assert (Hone : forall nc2 p, same_params nc1 nc2 ->
            (p = d \/ p = d + 1) ->
            exists nc' count' calls,
              Some (dragon4_output nc2 p count, count + 1, [(d, p)])
                = Some (nc', count', calls) /\
              Forall (call_ok (NC.B nc)) calls /\
              Forall call_plain (removelast calls) /\
              same_params nc nc')
    by (intros nc2 p Hp2 Hp; eexists _, _, _; split; [reflexivity|];
        split; [constructor; [split; [exact Hdr | exact Hp] | constructor]|];
        split; [constructor|];
        apply (same_params_trans _ _ _ Hpar);
        apply (same_params_trans _ _ _ Hp2);
        apply same_but_out_params, dragon4_output_spec).
  all: destruct tc1, tc2;
    [ cbn zeta; destruct (bi_compare _ _ <? 0);
      apply Hone; auto; repeat split
    | apply Hone; auto; repeat split
    | apply Hone; auto; repeat split
    | ].
  - exfalso. symmetry in Htc1.
    change (2 ^ (Z.of_nat 0 + 1)) with 2 in Hfuel.
    destruct (NC.low_ok nc); [apply Z.leb_gt in Htc1 | apply Z.ltb_ge in Htc1]; nia.
  - cbn zeta.
    destruct (dragon4_output_spec nc1 d count) as (Hso & _).
    pose proof (same_but_out_ok _ _ Hso Hok1) as Hok2.
    destruct (same_but_out_nums _ _ Hso) as (HR2 & HS2 & HP2 & HM2).
    set (nc2 := dragon4_output nc1 d count) in *.
    destruct (IH nc2 (count + 1) Hok2) as (nc' & count' & calls & Heq' & Hc & Hpl & Hpar').
    + rewrite HR2, HS2, HS. exact HRlt.
    + rewrite HS2, HM2, HS, HM.
      replace (Z.of_nat (S n) + 1) with (Z.succ (Z.of_nat n + 1)) in Hfuel by lia.
      rewrite Z.pow_succ_r in Hfuel by lia.
      assert (0 < 2 ^ (Z.of_nat n + 1)) by (apply Z.pow_pos_nonneg; lia). nia.
    + rewrite Heq'. eexists _, _, _. split; [reflexivity|].
      destruct (dragon4_generate_loop_calls _ _ _ _ _ _ Heq') as (Hne & _).
      assert (HB2 : NC.B nc2 = NC.B nc).
      { destruct Hso as (_ & _ & _ & _ & _ & _ & _ & _ & _ & -> & _).
        apply Hpar. }
      rewrite HB2 in Hc.
      split; [constructor; [split; [exact Hdr | left; reflexivity] | exact Hc]|].
      split.
      * destruct calls as [|c calls]; [congruence|].
        change (removelast ((d, d) :: c :: calls))
          with ((d, d) :: removelast (c :: calls)).
        constructor; [reflexivity | exact Hpl].
      * apply (same_params_trans _ _ _ Hpar).
        apply (same_params_trans _ nc2); [|exact Hpar'].
        apply same_but_out_params, Hso.
Qed.

End GenerateLoop.

(** * The first digit *)

Section FirstRound.

(** The first call of generate: an index [p = B] needs [r + m+ >= s]
    on entry; zeros and dots, then [digits[p]], are written. *)
Lemma dragon4_generate_loop_first fuel nc count nc' count' calls :
  nc_ok nc -> R nc < S_ nc -> (36 <= fuel)%nat ->
  dragon4_generate_loop fuel nc count = Some (nc', count', calls) ->
  exists d p rest pre ext,
    calls = (d, p) :: rest /\ 0 <= p <= NC.B nc /\
    (p = NC.B nc -> S_ nc <= R nc + MP nc) /\
    Forall zero_or_dot pre /\
    forall L, NC.out_buf nc = out_cut L ->
      NC.out_buf nc' = out_cut (L ++ pre ++ [digits_at p] ++ ext).
Proof.
  intros Hok Hlt Hfuel H.
  destruct fuel as [|fuel]; [lia|].
  rewrite dragon4_generate_loop_eq in H.
  destruct (dragon4_generate_round_spec (S fuel) nc Hok Hlt Hfuel)
    as (nc1 & d & tc1 & tc2 & Heq & Hok1 & Hpar & Hout & Hk & HS & Hd &
        Hdr & HR & HRlt & HP & HM & Htc1 & Htc2).
  rewrite Heq in H. clear Heq.
  pose proof (ok_B nc Hok) as HB. pose proof (ok_s_pos nc Hok) as Hs.
  pose proof (Z.div_mod (R nc * NC.B nc) (S_ nc) ltac:(lia)) as Hdm.
  rewrite <- Hd, <- HR in Hdm.
  assert (Hup : tc2 = true -> d + 1 = NC.B nc -> S_ nc <= R nc + MP nc).
  { intros -> Hd1. symmetry in Htc2. apply Z.leb_le in Htc2.
    rewrite HP in Htc2. nia. }
  assert (Hone : forall nc2 p,
            NC.out_buf nc2 = NC.out_buf nc1 ->
            (p = d \/ (p = d + 1 /\ tc2 = true)) ->
            Some (dragon4_output nc2 p count, count + 1, [(d, p)])
              = Some (nc', count', calls) ->
            exists d p rest pre ext,
              calls = (d, p) :: rest /\ 0 <= p <= NC.B nc /\
              (p = NC.B nc -> S_ nc <= R nc + MP nc) /\
              Forall zero_or_dot pre /\
              forall L, NC.out_buf nc = out_cut L ->
                NC.out_buf nc' = out_cut (L ++ pre ++ [digits_at p] ++ ext)).
  { intros nc2 p Hb2 Hp E. injection E as <- _ <-.
    destruct (dragon4_output_spec nc2 p count) as (_ & pre & Hpre & Hb).
    exists d, p, [], pre, []. split; [reflexivity|].
    split; [lia|]. split; [intros ->; destruct Hp as [?|[? ?]]; [lia | auto]|].
    split; [exact Hpre|].
    intros L HL. rewrite app_nil_r. apply Hb. rewrite Hb2, (proj1 Hout). exact HL. }
  destruct tc1, tc2.
  - cbn zeta in H. destruct (bi_compare _ _ <? 0);
      refine (Hone _ _ _ _ H); auto.
  - refine (Hone _ _ _ _ H); auto.
  - refine (Hone _ _ _ _ H); auto.
  - cbn zeta in H.
    destruct (dragon4_generate_loop fuel _ _) as [[[nc2 c2] calls2]|] eqn:E2;
      [|discriminate].
    injection H as <- _ <-.
    destruct (dragon4_generate_loop_calls _ _ _ _ _ _ E2) as (_ & _ & _ & ext & Hb).
    destruct (dragon4_output_spec nc1 d count) as (_ & pre & Hpre & Hb1).
    exists d, d, calls2, pre, ext. split; [reflexivity|].
    split; [lia|]. split; [lia|]. split; [exact Hpre|].
    intros L HL.
    replace (L ++ pre ++ [digits_at d] ++ ext)
      with ((L ++ pre ++ [digits_at d]) ++ ext)
      by (rewrite <- !app_assoc; reflexivity).
    apply Hb, Hb1. rewrite (proj1 Hout). exact HL.
Qed.

End FirstRound.

Section OddParts.

Lemma odd_part_le u v a b :
  0 <= a <= b -> u mod 2 = 1 -> u * 2 ^ a = v * 2 ^ b -> u = v.
Proof.
  intros Hab Hu H.
  replace b with (b - a + a) in H by lia.
  rewrite Z.pow_add_r, Z.mul_assoc in H by lia.
  apply Z.mul_reg_r in H; [|apply Z.pow_nonzero; lia].
  destruct (Z.eq_dec (b - a) 0) as [E|E].
  - rewrite E, Z.pow_0_r in H. lia.
  - exfalso. replace (b - a) with (Z.succ (b - a - 1)) in H by lia.
    rewrite Z.pow_succ_r in H by lia.
    rewrite H in Hu.
    replace (v * (2 * 2 ^ (b - a - 1))) with (v * 2 ^ (b - a - 1) * 2) in Hu by ring.
    rewrite Z.mod_mul in Hu by lia. discriminate.
Qed.

Lemma odd_part_unique u v a b :
  0 <= a -> 0 <= b -> u mod 2 = 1 -> v mod 2 = 1 ->
  u * 2 ^ a = v * 2 ^ b -> u = v.
Proof.
  intros Ha Hb Hu Hv H. destruct (Z.le_ge_cases a b).
  - apply (odd_part_le u v a b); auto.
  - symmetry. apply (odd_part_le v u b a); auto.
Qed.

Lemma pow9_mod4 n : 0 <= n -> 9 ^ n mod 4 = 1.
Proof.
  intros Hn. pattern n. apply natlike_ind; [reflexivity | | exact Hn].
  intros m Hm IH. rewrite Z.pow_succ_r by exact Hm.
  rewrite Z.mul_mod, IH by lia. reflexivity.
Qed.

Lemma pow36_split n : 0 <= n -> 36 ^ n = 9 ^ n * 2 ^ (2 * n).
Proof.
  intros Hn. change 36 with (9 * 2 ^ 2).
  rewrite Z.pow_mul_l, <- Z.pow_mul_r by lia. reflexivity.
Qed.

(** With radix 36 and an odd significand, [r + m+] never equals [s]. *)
Lemma no_tie_radix36 F nc :
  shape F nc -> NC.B nc = 36 -> Z.even F = false -> R nc + MP nc <> S_ nc.
Proof.
  intros (a & b & i & j & Ha & Hb & Hi & Hj & Hrm & Hs) HB HF Heq.
  rewrite Hrm, Hs, HB, !pow36_split in Heq by lia.
  assert (Hodd : ((2 * F + 1) * 9 ^ j) * 2 ^ (a + 2 * j)
                 = 9 ^ i * 2 ^ (b + 2 * i)).
  { rewrite !Z.pow_add_r by lia. lia. }
  pose proof (pow9_mod4 i Hi) as H9i. pose proof (pow9_mod4 j Hj) as H9j.
  assert (HF4 : (2 * F + 1) mod 4 = 3).
  { rewrite Zeven_mod in HF. apply Z.eqb_neq in HF.
    pose proof (Z.mod_pos_bound F 2 ltac:(lia)).
    pose proof (Z.div_mod F 2 ltac:(lia)).
    replace (2 * F + 1) with (3 + (F / 2) * 4) by lia.
    rewrite Z.mod_add by lia. reflexivity. }
  assert (Hl4 : ((2 * F + 1) * 9 ^ j) mod 4 = 3).
  { rewrite Z.mul_mod, HF4, H9j by lia. reflexivity. }
  apply odd_part_unique in Hodd; [rewrite Hodd in Hl4; lia | lia | lia | | ].
  - rewrite <- (Z.mod_mod_divide _ 4 2) by (exists 2; reflexivity).
    rewrite Hl4. reflexivity.
  - rewrite <- (Z.mod_mod_divide _ 4 2) by (exists 2; reflexivity).
    rewrite H9i. reflexivity.
Qed.

Lemma shape_scaled F nc0 nc :
  shape F nc0 -> scaled_from nc0 nc -> NC.B nc = NC.B nc0 -> shape F nc.
Proof.
  intros (a & b & i & j & Ha & Hb & Hi & Hj & Hrm & Hs) Hsc HB.
  unfold scaled_from in Hsc. cbn zeta in Hsc.
  destruct Hsc as [(Hk & HR & HP & _ & HS) | (Hk & HS & HR & HP & _)].
  - exists a, b, (i + NC.k nc), j. rewrite HB, HR, HP, HS, Hrm, Hs.
    rewrite Z.pow_add_r by lia. repeat split; lia.
  - exists a, b, i, (j + - NC.k nc). rewrite HB, HR, HP, HS, Hs.
    rewrite Z.pow_add_r by lia. repeat split; try lia.
Qed.

End OddParts.

Section Characters.

Lemma digits_at_in d : 0 <= d <= 35 -> In (digits_at d) digits.
Proof.
  intros Hd. unfold digits_at.
  destruct (d <? 0) eqn:E; [lia|].
  apply nth_In. change (length digits) with 36%nat. lia.
Qed.

Lemma digits_not_nul c : In c digits -> Ascii.eqb c "000"%char = false.
Proof.
  intros H. unfold digits in H. simpl in H.
  repeat (destruct H as [<-|H]; [reflexivity|]). contradiction.
Qed.

Lemma c_str_app pre rest :
  Forall (fun c => Ascii.eqb c "000"%char = false) pre ->
  c_str (pre ++ rest) = pre ++ c_str rest.
Proof.
  induction 1 as [|c pre Hc _ IH]; [reflexivity|].
  simpl. rewrite Hc, IH. reflexivity.
Qed.

Lemma c_str_cons c rest :
  Ascii.eqb c "000"%char = false -> c_str (c :: rest) = c :: c_str rest.
Proof. intros H. cbn [c_str]. rewrite H. reflexivity. Qed.

Lemma zero_or_dot_not_nul pre :
  Forall zero_or_dot pre ->
  Forall (fun c => Ascii.eqb c "000"%char = false) pre.
Proof.
  induction 1 as [|c pre Hc _ IH]; constructor; [|exact IH].
  destruct Hc as [->| ->]; reflexivity.
Qed.

Lemma fmt_u_loop_incl rounds :
  forall u acc c, In c acc -> In c (fmt_u_loop rounds u acc).
Proof.
  induction rounds as [|rounds IH]; intros u acc c H; simpl; [exact H|].
  destruct (u / 10 =? 0); [right; exact H|].
  apply IH. right. exact H.
Qed.

Lemma fmt_u_loop_digit rounds u acc :
  exists c, In c (fmt_u_loop (S rounds) u acc) /\ In c digits.
Proof.
  exists (digits_at (u mod 10)). split.
  - simpl. destruct (u / 10 =? 0); [left; reflexivity|].
    apply fmt_u_loop_incl. left. reflexivity.
  - apply digits_at_in. pose proof (Z.mod_pos_bound u 10 ltac:(lia)). lia.
Qed.

Lemma dragon4_finish_frame nc n :
  exists ext, forall L, NC.out_buf nc = out_cut L ->
    NC.out_buf (dragon4_finish nc n) = out_cut (L ++ ext).
Proof.
  unfold dragon4_finish. destruct (NC.k nc >=? 1).
  - eexists. apply putchar_zeros_spec.
  - exists []. intros L HL. rewrite app_nil_r. exact HL.
Qed.

End Characters.

(** * The whole conversion *)

Section GenerateTotal.

Lemma scaled_same nc nc' : same_but_out nc nc' -> scaled nc -> scaled nc'.
Proof.
  intros Hs. destruct (same_but_out_nums _ _ Hs) as (HR & HS & HP & _).
  destruct Hs as (_ & _ & _ & _ & _ & _ & _ & _ & _ & HB & _ & _ & Hh).
  unfold scaled. rewrite HR, HS, HP, HB, Hh. auto.
Qed.

Lemma shape_same F nc nc' : same_but_out nc nc' -> shape F nc -> shape F nc'.
Proof.
  intros Hs. destruct (same_but_out_nums _ _ Hs) as (HR & HS & HP & _).
  destruct Hs as (_ & _ & _ & _ & _ & _ & _ & _ & _ & HB & _).
  unfold shape. rewrite HR, HS, HP, HB. auto.
Qed.

Lemma scaled_lt nc : nc_ok nc -> scaled nc -> R nc < S_ nc.
Proof.
  intros Hok Hsc. pose proof (ok_mp_pos nc Hok). unfold scaled in Hsc.
  destruct (NC.high_ok nc); lia.
Qed.

(** From a scaled context generate finishes; its calls pass quotient
    digits, the last one possibly plus one; the first index denotes a
    table entry, and its character follows zeros and dots only. *)
Lemma dragon4_generate_total F nc :
  nc_ok nc -> scaled nc -> shape F nc -> NC.high_ok nc = Z.even F ->
  exists nc2 calls,
    (forall fuel, (Z.to_nat (S_ nc) + 36 <= fuel)%nat ->
       dragon4_generate fuel nc = Some (nc2, calls)) /\
    Forall (call_ok (NC.B nc)) calls /\
    Forall call_plain (removelast calls) /\
    exists d p rest pre ext,
      calls = (d, p) :: rest /\ in_table p /\ Forall zero_or_dot pre /\
      forall L, NC.out_buf nc = out_cut L ->
        NC.out_buf nc2 = out_cut (L ++ pre ++ [digits_at p] ++ ext).
Proof.
  intros Hok Hsc Hsh Hhigh.
  pose proof (scaled_lt nc Hok Hsc) as Hlt.
  pose proof (ok_s_pos nc Hok) as Hs. pose proof (ok_mm_pos nc Hok) as Hmm.
  pose proof (ok_B nc Hok) as HB.
  set (n := Z.to_nat (S_ nc)).
  destruct (dragon4_generate_loop_spec n nc 0 Hok Hlt)
    as (nc' & count' & calls & Heq & Hc & Hpl & Hpar).
  { pose proof (pow2_above (S_ nc) n ltac:(lia) (Nat.le_refl _)).
    rewrite Z.pow_add_r by lia. nia. }
  exists (dragon4_finish nc' count'), calls. split.
  { intros fuel Hfuel. unfold dragon4_generate.
    rewrite (dragon4_generate_loop_mono _ _ _ _ Heq fuel Hfuel). reflexivity. }
  split; [exact Hc|]. split; [exact Hpl|].
  destruct (dragon4_generate_loop_first (n + 36) nc 0 nc' count' calls
              Hok Hlt ltac:(lia) Heq)
    as (d & p & rest & pre & ext & -> & Hp & Hup & Hpre & Hb).
  destruct (dragon4_finish_frame nc' count') as (ext' & Hb').
  exists d, p, rest, pre, (ext ++ ext'). split; [reflexivity|].
  split; [|split; [exact Hpre|]].
  - unfold in_table. destruct (Z.eq_dec p 36) as [->|Hne]; [exfalso | lia].
    assert (HB36 : NC.B nc = 36) by lia.
    specialize (Hup (eq_sym HB36)).
    unfold scaled in Hsc. rewrite Hhigh in Hsc.
    destruct (Z.even F) eqn:Ev; [lia|].
    apply (no_tie_radix36 F nc Hsh HB36 Ev). lia.
  - intros L HL.
    replace (L ++ pre ++ [digits_at p] ++ ext ++ ext')
      with ((L ++ pre ++ [digits_at p] ++ ext) ++ ext')
      by (rewrite <- !app_assoc; reflexivity).
    apply Hb', Hb, HL.
Qed.

End GenerateTotal.

Section Sign.

Lemma land_bit63 y : 0 <= y < 2 ^ 63 -> Z.land y (Z.shiftl 1 63) = 0.
Proof.
  intros Hy. rewrite <- (Z.mod_small y (2 ^ 63)) by exact Hy.
  rewrite <- Z.land_ones by lia. rewrite <- Z.land_assoc.
  change (Z.land (Z.ones 63) (Z.shiftl 1 63)) with 0. apply Z.land_0_r.
Qed.

Lemma dbl_neg_high x : 2 ^ 63 <= x < 2 ^ 64 -> dbl_neg x = x - 2 ^ 63.
Proof.
  intros Hx. unfold dbl_neg.
  assert (Hy : 0 <= x - 2 ^ 63 < 2 ^ 63) by lia.
  pose proof (Z.add_nocarry_lxor _ _ (land_bit63 _ Hy)) as H.
  change (Z.shiftl 1 63) with (2 ^ 63) in *.
  replace (x - 2 ^ 63 + 2 ^ 63) with x in H by lia.
  rewrite H at 1. rewrite Z.lxor_assoc, Z.lxor_nilpotent, Z.lxor_0_r.
  reflexivity.
Qed.

Lemma dbl_fields_64 x :
  0 <= x < 2 ^ 64 ->
  dbl_sign x = x / 2 ^ 63 /\
  dbl_expfield x = (x / 2 ^ 52) mod 2 ^ 11 /\
  dbl_fraction x = x mod 2 ^ 52.
Proof.
  intros Hx. unfold dbl_sign, dbl_expfield, dbl_fraction.
  change 1 with (Z.ones 1) at 1. change 0x7ff with (Z.ones 11).
  change 0xfffffffffffff with (Z.ones 52).
  rewrite !Z.land_ones, !Z.shiftr_div_pow2 by lia.
  repeat split. apply Z.mod_small.
  split; [apply Z.div_pos; lia | apply Z.div_lt_upper_bound; lia].
Qed.

Lemma fpclassify_neg x :
  2 ^ 63 <= x < 2 ^ 64 -> fpclassify (x - 2 ^ 63) = fpclassify x.
Proof.
  intros Hx.
  destruct (dbl_fields_64 x ltac:(lia)) as (_ & He & Hf).
  destruct (dbl_fields_64 (x - 2 ^ 63) ltac:(lia)) as (_ & He' & Hf').
  unfold fpclassify. rewrite He, Hf, He', Hf'.
  replace (x - 2 ^ 63) with (x + (- 2 ^ 11) * 2 ^ 52) by lia.
  rewrite Z.div_add, Z.mod_add by lia.
  replace (x / 2 ^ 52 + - 2 ^ 11) with (x / 2 ^ 52 + (-1) * 2 ^ 11) by lia.
  rewrite Z.mod_add by lia. reflexivity.
Qed.

Variable x : dbl.
Hypothesis Hx : dbl_is_finite_nonzero x = true.

Lemma dbl_nonzero_range : 0 <= x < 2 ^ 64.
Proof.
  unfold dbl_is_finite_nonzero in Hx.
  apply andb_true_iff in Hx as [H _]. apply andb_true_iff in H as [H1 H2].
  lia.
Qed.

Lemma dbl_nonzero_class :
  fpclass_eqb (fpclassify x) FP_NORMAL
  || fpclass_eqb (fpclassify x) FP_SUBNORMAL = true.
Proof.
  unfold dbl_is_finite_nonzero in Hx.
  apply andb_true_iff in Hx as [_ H]. exact H.
Qed.

(** The sign test and the negation of [duk_numconv_stringify] leave a
    finite positive double. *)
Lemma dbl_sign_split :
  (dbl_ltb_zero x = false /\ dbl_is_finite_pos x = true) \/
  (dbl_ltb_zero x = true /\ dbl_is_finite_pos (dbl_neg x) = true /\
   fpclassify (dbl_neg x) = fpclassify x).
Proof.
  pose proof dbl_nonzero_range as Hr. pose proof dbl_nonzero_class as Hc.
  destruct (dbl_fields_64 x Hr) as (Hs & _ & _).
  assert (Hcls : negb (fpclass_eqb (fpclassify x) FP_NAN)
                 && negb (fpclass_eqb (fpclassify x) FP_ZERO) = true)
    by (destruct (fpclassify x); try discriminate; reflexivity).
  destruct (Z.lt_ge_cases x (2 ^ 63)) as [Hlt|Hge].
  - left. unfold dbl_ltb_zero, dbl_is_finite_pos. rewrite Hs, Hc.
    rewrite Z.div_small by lia. simpl.
    split; [reflexivity|].
    apply andb_true_iff. split; [|reflexivity].
    apply andb_true_iff. split; lia.
  - right. unfold dbl_ltb_zero, dbl_is_finite_pos.
    rewrite (dbl_neg_high x ltac:(lia)), (fpclassify_neg x ltac:(lia)), Hs, Hc.
    assert (Hd : x / 2 ^ 63 = 1).
    { symmetry. apply (Z.div_unique x (2 ^ 63) 1 (x - 2 ^ 63)); lia. }
    rewrite Hd. rewrite <- andb_assoc, Hcls. simpl.
    repeat split. apply andb_true_iff. split; [|reflexivity].
    apply andb_true_iff. split; lia.
Qed.

End Sign.

Section Pipeline.

Variables (x : dbl) (radix : Z).
Hypothesis Hx : dbl_is_finite_pos x = true.
Hypothesis Hradix : 2 <= radix <= 36.

(** Scale finishes on the prepared context of a finite positive
    double. *)
Lemma dragon4_scale_total :
  exists n0 nc1,
    (forall fuel, (n0 <= fuel)%nat ->
       dragon4_scale fuel (dragon4_start x radix) = Some nc1) /\
    nc_ok nc1 /\ scaled nc1 /\ scaled_from (dragon4_start x radix) nc1 /\
    shape (dbl_m x) nc1 /\ NC.high_ok nc1 = Z.even (dbl_m x) /\
    NC.B nc1 = radix /\ NC.out_buf nc1 = [] /\
    NC.high_ok (dragon4_start x radix) = NC.high_ok nc1.
Proof.
  destruct (prepare_spec x Hx radix Hradix)
    as (Hok & Hsh & Hh & Hl & HB & Hbuf & Hfirst).
  destruct (dragon4_scale_spec _ Hok) as (n0 & Hn0).
  destruct (Hn0 n0 (Nat.le_refl _))
    as (nc1 & Heq & Hok1 & Hpar & Hout & Hsc & Hfrom).
  exists n0, nc1. split.
  { intros fuel Hfuel. apply (dragon4_scale_mono _ _ _ Heq _ Hfuel). }
  destruct Hpar as (PB & Pl & Ph & _). destruct Hout as (Ob & _).
  split; [exact Hok1|]. split; [exact Hsc|]. split; [exact Hfrom|].
  split; [apply (shape_scaled _ _ _ Hsh Hfrom PB)|].
  repeat split; congruence.
Qed.

(** Scale and generate both finish, for either sign written first. *)
Lemma dragon4_total (neg : bool) :
  exists n0 nc1 nc2 calls,
    (forall fuel, (n0 <= fuel)%nat ->
       dragon4_scale fuel (dragon4_start x radix) = Some nc1 /\
       dragon4_generate fuel (if neg then NUMCONV_PUTCHAR nc1 "-" else nc1)
         = Some (nc2, calls)) /\
    Forall (call_ok radix) calls /\
    Forall call_plain (removelast calls) /\
    exists d p rest pre ext,
      calls = (d, p) :: rest /\ in_table p /\ Forall zero_or_dot pre /\
      NC.out_buf nc2 =
        out_cut ((if neg then ["-"%char] else []) ++
                 pre ++ [digits_at p] ++ ext).
Proof.
  destruct dragon4_scale_total
    as (n0 & nc1 & Hscale & Hok1 & Hsc & _ & Hsh & Hh & HB & Hbuf & _).
  set (nc1' := if neg then NUMCONV_PUTCHAR nc1 "-" else nc1).
  assert (Hsame : same_but_out nc1 nc1')
    by (subst nc1'; destruct neg;
        [apply putchar_spec | apply same_but_out_refl]).
  assert (Hbuf' : NC.out_buf nc1' = out_cut (if neg then ["-"%char] else []))
    by (subst nc1'; destruct neg;
        [apply (putchar_buf nc1 "-"%char []) | idtac]; rewrite Hbuf; reflexivity).
  assert (HB' : NC.B nc1' = radix)
    by (destruct Hsame as (_ & _ & _ & _ & _ & _ & _ & _ & _ & -> & _); exact HB).
  assert (Hh' : NC.high_ok nc1' = Z.even (dbl_m x))
    by (destruct Hsame as (_ & _ & _ & _ & _ & _ & _ & _ & _ & _ & _ & _ & ->);
        exact Hh).
  destruct (dragon4_generate_total (dbl_m x) nc1'
              (same_but_out_ok _ _ Hsame Hok1) (scaled_same _ _ Hsame Hsc)
              (shape_same _ _ _ Hsame Hsh) Hh')
    as (nc2 & calls & Hgen & Hc & Hpl & d & p & rest & pre & ext & Hcalls & Hp &
        Hpre & Hb).
  exists (Nat.max n0 (Z.to_nat (S_ nc1') + 36)), nc1, nc2, calls.
  split.
  { intros fuel Hfuel. split; [apply Hscale; lia | apply Hgen; lia]. }
  rewrite HB' in Hc. split; [exact Hc|]. split; [exact Hpl|].
  exists d, p, rest, pre, ext.
  split; [exact Hcalls|]. split; [exact Hp|]. split; [exact Hpre|].
  apply Hb, Hbuf'.
Qed.

End Pipeline.

Section Stringify.

Lemma dbl_abs_pos x :
  dbl_is_finite_nonzero x = true -> dbl_is_finite_pos (dbl_abs x) = true.
Proof.
  intros Hx. unfold dbl_abs.
  destruct (dbl_sign_split x Hx) as [[-> H]|[-> [H _]]]; exact H.
Qed.

Lemma putchar_nul_push nc :
  (if (length (NC.out_buf nc) <? sizeof_out_buf)%nat
   then Some (duk_push_string (NC.out_buf (NUMCONV_PUTCHAR nc "000"%char)))
   else None)
  = (if (length (NC.out_buf nc) <? sizeof_out_buf)%nat
     then Some (duk_push_string (NC.out_buf nc ++ ["000"%char]))
     else None).
Proof.
  unfold NUMCONV_PUTCHAR, out_p_in_out_buf.
  destruct (length (NC.out_buf nc) <? sizeof_out_buf)%nat; reflexivity.
Qed.

(** [duk_numconv_stringify] on a finite non-zero double: the fast path,
    or scale and generate on the magnitude, and the push of the buffer
    when the terminating NUL still fits. *)
Lemma stringify_finite fuel x radix digits_ :
  dbl_is_finite_nonzero x = true ->
  duk_numconv_stringify fuel x radix digits_ =
    match fast_path (dbl_abs x) radix with
    | Some uval => Some (duk_push_sprintf (dbl_ltb_zero x) uval)
    | None =>
        match dragon4_scale fuel (dragon4_start (dbl_abs x) radix) with
        | None => None
        | Some nc =>
            match dragon4_generate fuel
                    (if dbl_ltb_zero x then NUMCONV_PUTCHAR nc "-" else nc) with
            | None => None
            | Some (nc, _) =>
                if (length (NC.out_buf nc) <? sizeof_out_buf)%nat
                then Some (duk_push_string (NC.out_buf nc ++ ["000"%char]))
                else None
            end
        end
    end.
Proof.
  intros Hx. pose proof (dbl_nonzero_class x Hx) as Hc.
  unfold duk_numconv_stringify, dbl_abs, fast_path, dragon4_start.
  destruct (dbl_ltb_zero x); destruct (fpclassify x); try discriminate.
  all: destruct (if radix =? 10 then _ else _); [reflexivity|].
  all: destruct (dragon4_scale _ _); [|reflexivity].
  all: destruct (dragon4_generate _ _) as [[nc2 cs]|]; [|reflexivity].
  all: apply putchar_nul_push.
Qed.

Lemma dbl_neg_fields x :
  2 ^ 63 <= x < 2 ^ 64 ->
  dbl_expfield (dbl_neg x) = dbl_expfield x /\
  dbl_fraction (dbl_neg x) = dbl_fraction x.
Proof.
  intros Hx. rewrite (dbl_neg_high x Hx).
  destruct (dbl_fields_64 x ltac:(lia)) as (_ & He & Hf).
  destruct (dbl_fields_64 (x - 2 ^ 63) ltac:(lia)) as (_ & He' & Hf').
  rewrite He, Hf, He', Hf'.
  replace (x - 2 ^ 63) with (x + (- 2 ^ 11) * 2 ^ 52) by lia.
  rewrite Z.div_add, Z.mod_add by lia.
  replace (x / 2 ^ 52 + - 2 ^ 11) with (x / 2 ^ 52 + (-1) * 2 ^ 11) by lia.
  rewrite Z.mod_add by lia. split; reflexivity.
Qed.

Lemma dbl_abs_m_q x :
  dbl_is_finite_nonzero x = true ->
  dbl_m (dbl_abs x) = dbl_m x /\ dbl_q (dbl_abs x) = dbl_q x.
Proof.
  intros Hx. pose proof (dbl_nonzero_range x Hx) as Hr. unfold dbl_abs.
  destruct (dbl_ltb_zero x) eqn:E; [|split; reflexivity].
  assert (Hhi : 2 ^ 63 <= x).
  { destruct (Z.lt_ge_cases x (2 ^ 63)) as [Hlt|Hge]; [|exact Hge].
    destruct (dbl_fields_64 x Hr) as (Hs & _).
    unfold dbl_ltb_zero in E. rewrite Hs, Z.div_small in E by lia.
    discriminate. }
  destruct (dbl_neg_fields x ltac:(lia)) as (He & Hf).
  unfold dbl_m, dbl_q. rewrite He, Hf. split; reflexivity.
Qed.

(** A magnitude that is an integer below [2^32] takes the fast path. *)
Lemma fast_path_integer x uval :
  dbl_is_finite_nonzero x = true -> 0 <= uval < 2 ^ 32 ->
  dbl_abs_is x uval -> fast_path (dbl_abs x) 10 = Some uval.
Proof.
  intros Hx Hu Habs. destruct (dbl_abs_m_q x Hx) as (Hm & Hq).
  unfold fast_path, dbl_to_uint, dbl_trunc, uint_eq_dbl, dbl_abs_is in *.
  rewrite Hm, Hq. simpl (10 =? 10).
  destruct (0 <=? dbl_q x) eqn:E.
  - rewrite <- Habs. destruct (uval <? 2 ^ 32) eqn:E2; [|lia].
    rewrite Z.eqb_refl. reflexivity.
  - assert (Hpos : 0 < 2 ^ (- dbl_q x)) by (apply Z.pow_pos_nonneg; lia).
    rewrite <- Habs, Z.div_mul by lia.
    destruct (uval <? 2 ^ 32) eqn:E2; [|lia].
    rewrite Z.eqb_refl. reflexivity.
Qed.

End Stringify.

Section Decimal.

Lemma dec_digit_digits_at d : 0 <= d <= 9 -> dec_digit (digits_at d) = d.
Proof.
  intros Hd.
  assert (H : d = 0 \/ d = 1 \/ d = 2 \/ d = 3 \/ d = 4 \/ d = 5 \/ d = 6 \/
              d = 7 \/ d = 8 \/ d = 9) by lia.
  repeat (destruct H as [->|H]; [reflexivity|]). subst d. reflexivity.
Qed.

Lemma dec_val_snoc l c : dec_val (l ++ [c]) = 10 * dec_val l + dec_digit c.
Proof. unfold dec_val. rewrite fold_left_app. reflexivity. Qed.

(** The ["%u"] digits of [u]: decimal digit characters whose value is
    [u], the first of them not ['0'] unless [u] is [0]. *)
Lemma fmt_u_loop_spec rounds :
  forall u acc,
    0 <= u < 10 ^ Z.of_nat (S rounds) ->
    exists ds,
      fmt_u_loop (S rounds) u acc = ds ++ acc /\
      dec_val ds = u /\ Forall is_dec_digit ds /\ ds <> [] /\
      (0 < u -> dec_digit (hd "0"%char ds) <> 0).
Proof.
  induction rounds as [|rounds IH]; intros u acc Hu.
  all: pose proof (Z.mod_pos_bound u 10 ltac:(lia)) as Hmod;
    pose proof (Z.div_mod u 10 ltac:(lia)) as Hdm;
    pose proof (dec_digit_digits_at (u mod 10) ltac:(lia)) as Hdig.
  all: change (fmt_u_loop (S ?r) u acc) with
      (let acc' := digits_at (u mod 10) :: acc in
       if u / 10 =? 0 then acc' else fmt_u_loop r (u / 10) acc');
    cbn zeta.
  all: assert (Hlast : u / 10 = 0 ->
         exists ds, digits_at (u mod 10) :: acc = ds ++ acc /\
           dec_val ds = u /\ Forall is_dec_digit ds /\ ds <> [] /\
           (0 < u -> dec_digit (hd "0"%char ds) <> 0))
    by (intros H0; exists [digits_at (u mod 10)];
        split; [reflexivity|];
        split; [unfold dec_val; simpl; lia|];
        split; [constructor; [unfold is_dec_digit; lia | constructor]|];
        split; [discriminate|]; simpl; lia).
  - destruct (u / 10 =? 0) eqn:E; [apply Hlast; lia|].
    exfalso. change (10 ^ Z.of_nat 1) with 10 in Hu.
    assert (u / 10 = 0) by (apply Z.div_small; lia). lia.
  - destruct (u / 10 =? 0) eqn:E; [apply Hlast; lia|].
    destruct (IH (u / 10) (digits_at (u mod 10) :: acc)) as
      (ds & Heq & Hv & Hall & Hne & Hhd).
    { split; [apply Z.div_pos; lia|].
      apply Z.div_lt_upper_bound; [lia|].
      rewrite (Nat2Z.inj_succ (S rounds)), Z.pow_succ_r in Hu by lia. lia. }
    exists (ds ++ [digits_at (u mod 10)]).
    split; [rewrite Heq, <- app_assoc; reflexivity|].
    split; [rewrite dec_val_snoc, Hv; lia|].
    split; [apply Forall_app; split;
            [exact Hall | constructor; [unfold is_dec_digit; lia | constructor]]|].
    split; [destruct ds; discriminate|].
    intros _. destruct ds as [|c ds]; [congruence|].
    apply Hhd. assert (u / 10 <> 0) by lia.
    pose proof (Z.div_pos u 10 ltac:(lia) ltac:(lia)). lia.
Qed.

End Decimal.

Section Positive.

Lemma dbl_pos_nonzero x :
  dbl_is_finite_pos x = true ->
  dbl_is_finite_nonzero x = true /\ dbl_ltb_zero x = false /\ dbl_abs x = x.
Proof.
  intros Hx. pose proof (dbl_range x Hx) as Hr.
  assert (Hnz : dbl_is_finite_nonzero x = true).
  { unfold dbl_is_finite_pos in Hx. unfold dbl_is_finite_nonzero.
    apply andb_true_iff in Hx as [_ Hc]. rewrite Hc.
    apply andb_true_iff. split; [|reflexivity].
    apply andb_true_iff. split; lia. }
  assert (Hlt : dbl_ltb_zero x = false).
  { destruct (dbl_fields_64 x ltac:(lia)) as (Hs & _).
    unfold dbl_ltb_zero. rewrite Hs, Z.div_small by lia. reflexivity. }
  unfold dbl_abs. rewrite Hlt. repeat split. exact Hnz.
Qed.

Lemma fast_path_radix x radix uval :
  fast_path x radix = Some uval -> radix = 10.
Proof.
  unfold fast_path. destruct (radix =? 10) eqn:E; [lia | discriminate].
Qed.

End Positive.

Section Monotone.

(** More fuel does not change what [duk_numconv_stringify] returns. *)
Lemma duk_numconv_stringify_mono fuel x radix digits_ p :
  duk_numconv_stringify fuel x radix digits_ = Some p ->
  forall fuel', (fuel <= fuel')%nat ->
    duk_numconv_stringify fuel' x radix digits_ = Some p.
Proof.
  unfold duk_numconv_stringify. intros H fuel' Hf.
  destruct (dbl_ltb_zero x); cbv zeta iota beta in *;
    destruct (fpclassify x); try exact H;
    match goal with
    | H : match ?f with Some _ => _ | None => _ end = _ |- _ =>
        destruct f; [exact H|]
    end;
    (destruct (dragon4_scale fuel _) as [nc1|] eqn:Es; [|discriminate]);
    rewrite (dragon4_scale_mono _ _ _ Es _ Hf);
    (destruct (dragon4_generate fuel _) as [[nc2 calls]|] eqn:Eg;
       [|discriminate]);
    rewrite (dragon4_generate_mono _ _ _ Eg _ Hf); exact H.
Qed.

(** Once scale and generate have finished with the array full, no
    fuel gives a result. *)
Lemma stringify_overrun x radix digits_ n0 nc1 nc2 calls :
  dbl_is_finite_nonzero x = true -> fast_path (dbl_abs x) radix = None ->
  dragon4_scale n0 (dragon4_start (dbl_abs x) radix) = Some nc1 ->
  dragon4_generate n0 (if dbl_ltb_zero x then NUMCONV_PUTCHAR nc1 "-" else nc1)
    = Some (nc2, calls) ->
  (sizeof_out_buf <= length (NC.out_buf nc2))%nat ->
  forall fuel, duk_numconv_stringify fuel x radix digits_ = None.
Proof.
  intros Hx Hfast Hs Hg Hlen fuel.
  destruct (duk_numconv_stringify fuel x radix digits_) as [p|] eqn:E;
    [exfalso | reflexivity].
  apply (duk_numconv_stringify_mono _ _ _ _ _) with (fuel' := Nat.max fuel n0) in E;
    [|lia].
  rewrite (stringify_finite _ x radix digits_ Hx), Hfast in E.
  rewrite (dragon4_scale_mono _ _ _ Hs (Nat.max fuel n0)) in E by lia.
  rewrite (dragon4_generate_mono _ _ _ Hg (Nat.max fuel n0)) in E by lia.
  apply Nat.ltb_ge in Hlen. rewrite Hlen in E. discriminate.
Qed.

End Monotone.

(** ** Sample conversions *)

Example bi_mul_ex :
  bi_val (bi_mul [0xffffffff; 0xffffffff] [0xffffffff; 0xfffffffe; 7]) =
  bi_val [0xffffffff; 0xffffffff] * bi_val [0xffffffff; 0xfffffffe; 7].
Proof. vm_compute. reflexivity. Qed.

Example bi_sub_ex : bi_sub [0; 0; 1] [1] = [0xffffffff; 0xffffffff].
Proof. vm_compute. reflexivity. Qed.

Example bi_add_ex : bi_add [0xffffffff] [1; 0xffffffff] = [0; 0; 1].
Proof. vm_compute. reflexivity. Qed.

Example bi_twoexp_ex : bi_twoexp 52 = [0; 0x100000].
Proof. vm_compute. reflexivity. Qed.

Example stringify_0_1 :
  stringify_to_string 200 0x3FB999999999999A 10 = Some "0.1"%string.
Proof. vm_compute. reflexivity. Qed.

Example stringify_half_radix2 :
  stringify_to_string 200 0x3FE0000000000000 2 = Some "0.1"%string.
Proof. vm_compute. reflexivity. Qed.

Example stringify_255_radix16 :
  stringify_to_string 200 0x406FE00000000000 16 = Some "ff"%string.
Proof. vm_compute. reflexivity. Qed.

Example stringify_minus_42 :
  stringify_to_string 200 0xC045000000000000 10 = Some "-42"%string.
Proof. vm_compute. reflexivity. Qed.

Example stringify_1e23 :
  stringify_to_string 200 0x44B52D02C7E14AF6 10
  = Some "100000000000000000000000"%string.
Proof. vm_compute. reflexivity. Qed.

Example stringify_e :
  stringify_to_string 200 0x4005BF0A8B145769 10 = Some "2.718281828459045"%string.
Proof. vm_compute. reflexivity. Qed.

(** The scenarios of the specification not covered above. *)
Example stringify_special_values :
  stringify_to_string 0 0x0000000000000000 10 = Some "0"%string /\
  stringify_to_string 0 0x8000000000000000 10 = Some "0"%string /\
  stringify_to_string 0 0x7FF0000000000000 10 = Some "Infinity"%string /\
  stringify_to_string 0 0xFFF0000000000000 10 = Some "-Infinity"%string /\
  stringify_to_string 0 0x7FF8000000000000 10 = Some "NaN"%string /\
  stringify_to_string 0 0xFFF8000000000000 10 = Some "NaN"%string.
Proof. vm_compute. repeat split. Qed.

Example stringify_one :
  stringify_to_string 0 0x3FF0000000000000 10 = Some "1"%string /\
  stringify_to_string 200 0x3FF0000000000000 2 = Some "1"%string.
Proof. vm_compute. repeat split. Qed.

Example stringify_smallest_denormal :
  option_map pushed_chars (duk_numconv_stringify 400 1 10 0)
  = Some (["0"; "."]%char ++ repeat "0"%char 323 ++ ["5"%char]).
Proof. vm_compute. reflexivity. Qed.

(** [out_buf] has 512 bytes, and they do not hold every output: [2^1023]
    in radix 2 is a [1] and 1023 zeros, and the call has no result. *)
Example stringify_longer_than_out_buf :
  duk_numconv_stringify 1100 0x7FE0000000000000 2 0 = None.
Proof. vm_compute. reflexivity. Qed.

(** * The claims of the specification *)

(** C1.  The specification has [tc2] hold exactly when
    [compare(r + m+, s) >= (high_ok ? 0 : 1)].  The source tests
    [&nc_ctx->high_ok], so the bound is always [0]: for the double
    [11398895185373142] in radix 7, the first round of generate has
    [high_ok] false and [r + m+] equal to [s] (the comparison gives [0]),
    and [tc2] is true where the specification has it false.  In radix 10
    the same happens in round 16 for the double [18014398509481988],
    which is printed as [18014398509481990]. *)
Theorem C1_tc2_ignores_high_ok :
  exists nc1 nc2 d tc1 tc2,
    dragon4_scale 64 (dragon4_start tie_radix7 7) = Some nc1 /\
    dragon4_generate_round 64 nc1 = Some (nc2, d, tc1, tc2) /\
    NC.high_ok nc2 = false /\
    bi_compare (NC.t1 nc2) (NC.s nc2) = 0 /\
    tc2 = true /\
    (bi_compare (NC.t1 nc2) (NC.s nc2) >=? (if NC.high_ok nc2 then 0 else 1))
      = false /\
    stringify_to_string 64 0x4350000000000001 10
      = Some "18014398509481990"%string.
Proof.
  pose (o1 := dragon4_scale 64 (dragon4_start tie_radix7 7)).
  assert (E1 : dragon4_scale 64 (dragon4_start tie_radix7 7) = o1) by reflexivity.
  vm_compute in o1.
  match eval cbv delta [o1] in o1 with
  | Some ?nc1 =>
      pose (o2 := dragon4_generate_round 64 nc1);
      assert (E2 : dragon4_generate_round 64 nc1 = o2) by reflexivity;
      vm_compute in o2;
      match eval cbv delta [o2] in o2 with
      | Some (?nc2, ?d, ?tc1, ?tc2) => exists nc1, nc2, d, tc1, tc2
      end
  end.
  split; [exact E1|]. split; [exact E2|].
  repeat split; vm_compute; reflexivity.
Qed.

(** C2.  The specification selects the unequal-gaps case for [e < 0]
    exactly when [e > -1074] and [f = 2^52].  The source compares [e]
    with [IEEE_DOUBLE_EXP_MIN], which is [-1022], although the minimum of
    [e] is [IEEE_DOUBLE_EXP_MIN - 52]: for the double [2^-1019], with
    [f = 2^52] and [e = -1071], prepare selects the equal-gaps case
    ([r = f*2], [s = 2^(1-e)], [m+ = m- = 1]), and the digits produced in
    radix 10 are [1780059086805761] after [0.] and 306 zeros, one digit
    short of the [17800590868057611] that identifies this double. *)
Theorem C2_unequal_gaps_missed_below_minus_1022 :
  let nc := dragon4_start 0x0040000000000000 10 in
  dbl_is_finite_pos 0x0040000000000000 = true /\
  bi_val (NC.f nc) = 2 ^ 52 /\ NC.e nc = -1071 /\
  R nc = bi_val (NC.f nc) * 2 /\ S_ nc = 2 ^ (1 - NC.e nc) /\
  MP nc = 1 /\ MM nc = 1 /\
  option_map pushed_chars (duk_numconv_stringify 400 0x0040000000000000 10 0)
  = Some (["0"; "."]%char ++ repeat "0"%char 306
          ++ list_ascii_of_string "1780059086805761").
Proof. vm_compute. repeat split. Qed.

(** C3.  The specification has [f] normalized after double
    decomposition, denormals included.  The source sets [f.n = 2] and
    never normalizes: for the smallest positive denormal the top limb of
    [f] is zero, against the [DUK_ASSERT(bi_is_normalized(x))] of
    [bi_is_even], the next function called on [f]. *)
Theorem C3_denormal_f_not_normalized :
  let nc := dragon4_convert_double (nc_init 1 10) in
  dbl_is_finite_pos 1 = true /\ fpclassify 1 = FP_SUBNORMAL /\
  NC.f nc = [1; 0] /\ bi_is_normalized (NC.f nc) = false.
Proof. vm_compute. repeat split. Qed.

(** C4, as stated, fails: for the double [1.5] in radix 10 scale ends
    with [k = 1], [s = 10 * 2^53] and [r + m+ = 3 * 2^52 + 1], and
    [B^(k-1) * s <= r + m+] is false of these post-scale values. *)
Lemma C4_counterexample :
  exists nc1,
    dragon4_scale 64 (dragon4_start 0x3FF8000000000000 10) = Some nc1 /\
    NC.k nc1 = 1 /\
    ~ scale_bounds (NC.B nc1) (NC.k nc1) (NC.high_ok nc1)
        (R nc1 + MP nc1) (S_ nc1).
Proof.
  pose (o1 := dragon4_scale 64 (dragon4_start 0x3FF8000000000000 10)).
  assert (E1 : dragon4_scale 64 (dragon4_start 0x3FF8000000000000 10) = o1)
    by reflexivity.
  vm_compute in o1.
  match eval cbv delta [o1] in o1 with
  | Some ?nc1 => exists nc1
  end.
  split; [exact E1|]. split; [reflexivity|].
  vm_compute. intros [H _]. apply H. reflexivity.
Qed.

Lemma scaled_bounds_0 nc :
  nc_ok nc -> scaled nc ->
  scale_bounds (NC.B nc) 0 (NC.high_ok nc) (R nc + MP nc) (S_ nc).
Proof.
  intros Hok Hsc. unfold scaled, scale_bounds, pow_le, pow_lt, le_pow, lt_pow in *.
  change (Z.max 0 (0 - 1)) with 0. change (Z.max 0 (- (0 - 1))) with 1.
  change (Z.max 0 (- 0)) with 0. change (Z.max 0 0) with 0.
  rewrite Z.pow_0_r, Z.pow_1_r. destruct (NC.high_ok nc); lia.
Qed.

Lemma scaled_bounds_k nc0 nc :
  nc_ok nc -> scaled nc -> scaled_from nc0 nc -> NC.B nc = NC.B nc0 ->
  scale_bounds (NC.B nc) (NC.k nc) (NC.high_ok nc) (R nc0 + MP nc0) (S_ nc0).
Proof.
  intros Hok Hsc Hfrom HB. pose proof (ok_B nc Hok) as HBr.
  unfold scaled_from in Hfrom. cbn zeta in Hfrom. rewrite <- HB in Hfrom.
  unfold scaled in Hsc.
  unfold scale_bounds, pow_le, pow_lt, le_pow, lt_pow.
  destruct Hfrom as [(Hk & HR & HP & _ & HS) | (Hk & HS & HR & HP & _)].
  - rewrite HR, HP, HS in Hsc.
    replace (Z.max 0 (NC.k nc - 1)) with (NC.k nc - 1) by lia.
    replace (Z.max 0 (- (NC.k nc - 1))) with 0 by lia.
    replace (Z.max 0 (NC.k nc)) with (NC.k nc) by lia.
    replace (Z.max 0 (- NC.k nc)) with 0 by lia.
    rewrite Z.pow_0_r.
    assert (Hp : NC.B nc ^ NC.k nc = NC.B nc * NC.B nc ^ (NC.k nc - 1)).
    { rewrite <- Z.pow_succ_r by lia. f_equal. lia. }
    rewrite Hp in *.
    assert (0 < NC.B nc ^ (NC.k nc - 1)) by (apply Z.pow_pos_nonneg; lia).
    destruct (NC.high_ok nc); nia.
  - rewrite HR, HP, HS in Hsc.
    replace (Z.max 0 (NC.k nc - 1)) with 0 by lia.
    replace (Z.max 0 (- (NC.k nc - 1))) with (Z.succ (- NC.k nc)) by lia.
    replace (Z.max 0 (NC.k nc)) with 0 by lia.
    replace (Z.max 0 (- NC.k nc)) with (- NC.k nc) by lia.
    rewrite Z.pow_0_r, Z.pow_succ_r by lia.
    assert (0 < NC.B nc ^ (- NC.k nc)) by (apply Z.pow_pos_nonneg; lia).
    destruct (NC.high_ok nc); nia.
Qed.

(** C4, amended.  For every finite non-zero positive double and radix
    [2 <= B <= 36], scale completes with a [k] such that the values of
    [r], [s] and [m+] on entry to scale satisfy
    [B^(k-1) * s <= r + m+ < B^k * s], and the values it leaves satisfy
    the same with [k = 0], that is [s <= B * (r + m+)] and [r + m+ < s];
    when [high_ok] is false the lower comparisons are strict and the
    upper ones are not. *)
Theorem C4_scale_bounds x radix :
  dbl_is_finite_pos x = true -> 2 <= radix <= 36 ->
  exists fuel nc1,
    dragon4_scale fuel (dragon4_start x radix) = Some nc1 /\
    scale_bounds radix (NC.k nc1) (NC.high_ok (dragon4_start x radix))
      (R (dragon4_start x radix) + MP (dragon4_start x radix))
      (S_ (dragon4_start x radix)) /\
    scale_bounds radix 0 (NC.high_ok nc1) (R nc1 + MP nc1) (S_ nc1).
Proof.
  intros Hx Hradix.
  destruct (dragon4_scale_total x radix Hx Hradix)
    as (n0 & nc1 & Hscale & Hok1 & Hsc & Hfrom & _ & _ & HB & _ & Hh).
  destruct (prepare_spec x Hx radix Hradix) as (_ & _ & _ & _ & HB0 & _).
  exists n0, nc1. split; [apply Hscale; lia|].
  pose proof (scaled_bounds_k (dragon4_start x radix) nc1 Hok1 Hsc Hfrom
                ltac:(congruence)) as Hk.
  pose proof (scaled_bounds_0 nc1 Hok1 Hsc) as H0.
  rewrite HB in Hk, H0. rewrite Hh. split; assumption.
Qed.

Lemma C4_scale_bounds_witness :
  dbl_is_finite_pos 0x3FF8000000000000 = true /\ 2 <= 10 <= 36 /\
  exists fuel nc1,
    dragon4_scale fuel (dragon4_start 0x3FF8000000000000 10) = Some nc1 /\
    scale_bounds 10 (NC.k nc1)
      (NC.high_ok (dragon4_start 0x3FF8000000000000 10))
      (R (dragon4_start 0x3FF8000000000000 10)
       + MP (dragon4_start 0x3FF8000000000000 10))
      (S_ (dragon4_start 0x3FF8000000000000 10)) /\
    scale_bounds 10 0 (NC.high_ok nc1) (R nc1 + MP nc1) (S_ nc1).
Proof.
  split; [reflexivity|]. split; [lia|].
  apply (C4_scale_bounds 0x3FF8000000000000 10); [reflexivity | lia].
Defined.

(** C5.  The specification has the first digit of generate in
    [[1, B-1]].  For the double [11398895185373142] in radix 7, whose
    upper boundary [r + m+] is [7^19] and whose significand is odd, the
    only call of generate passes the index [7 = B] (the quotient digit
    [6] plus one), and the string produced is [7] followed by 18 zeros:
    a consequence of the address test of C1, without which this round
    would emit [6] and go on. *)
Theorem C5_first_digit_equals_radix :
  exists nc1 nc2,
    dragon4_scale 64 (dragon4_start tie_radix7 7) = Some nc1 /\
    dragon4_generate 64 nc1 = Some (nc2, [(6, 7)]) /\
    stringify_to_string 64 tie_radix7 7 = Some "7000000000000000000"%string.
Proof.
  pose (o1 := dragon4_scale 64 (dragon4_start tie_radix7 7)).
  assert (E1 : dragon4_scale 64 (dragon4_start tie_radix7 7) = o1) by reflexivity.
  vm_compute in o1.
  match eval cbv delta [o1] in o1 with
  | Some ?nc1 =>
      pose (o2 := dragon4_generate 64 nc1);
      assert (E2 : dragon4_generate 64 nc1 = o2) by reflexivity;
      vm_compute in o2;
      match eval cbv delta [o2] in o2 with
      | Some (?nc2, _) => exists nc1, nc2
      end
  end.
  split; [exact E1|]. split; [exact E2|]. vm_compute. reflexivity.
Qed.

(** C6.  For every finite non-zero positive double and radix
    [2 <= B <= 36] (with or without the sign written first), every call
    generate makes to [dragon4_output] has a quotient digit [d] in
    [[0, B-1]] and passes [d] or [d + 1], so an index in [[0, B]]; and
    every call but the last passes [d] itself. *)
Theorem C6_digit_indices x radix (neg : bool) :
  dbl_is_finite_pos x = true -> 2 <= radix <= 36 ->
  exists fuel nc1 nc2 calls,
    dragon4_scale fuel (dragon4_start x radix) = Some nc1 /\
    dragon4_generate fuel (if neg then NUMCONV_PUTCHAR nc1 "-" else nc1)
      = Some (nc2, calls) /\
    Forall (fun c => 0 <= fst c <= radix - 1 /\
                     (snd c = fst c \/ snd c = fst c + 1) /\
                     0 <= snd c <= radix) calls /\
    Forall (fun c => snd c = fst c) (removelast calls).
Proof.
  intros Hx Hradix.
  destruct (dragon4_total x radix Hx Hradix neg)
    as (n0 & nc1 & nc2 & calls & Hrun & Hc & Hpl & _).
  destruct (Hrun n0 (Nat.le_refl _)) as (Hs & Hg).
  exists n0, nc1, nc2, calls. split; [exact Hs|]. split; [exact Hg|].
  split; [|exact Hpl].
  clear -Hc. induction Hc as [|c calls [Hd Hp] _ IH]; constructor; [|exact IH].
  split; [exact Hd|]. split; [exact Hp|]. lia.
Qed.

Lemma C6_digit_indices_witness :
  dbl_is_finite_pos 0x3FB999999999999A = true /\ 2 <= 10 <= 36 /\
  exists fuel nc1 nc2 calls,
    dragon4_scale fuel (dragon4_start 0x3FB999999999999A 10) = Some nc1 /\
    dragon4_generate fuel (if false then NUMCONV_PUTCHAR nc1 "-" else nc1)
      = Some (nc2, calls) /\
    Forall (fun c => 0 <= fst c <= 10 - 1 /\
                     (snd c = fst c \/ snd c = fst c + 1) /\
                     0 <= snd c <= 10) calls /\
    Forall (fun c => snd c = fst c) (removelast calls).
Proof.
  split; [reflexivity|]. split; [lia|].
  apply (C6_digit_indices 0x3FB999999999999A 10 false); [reflexivity | lia].
Defined.

(** C7.  For every radix and every bit pattern, [duk_numconv_stringify]
    pushes a fixed literal for a special value, whatever the fuel: [NaN]
    for a NaN of either sign bit, [Infinity] or [-Infinity] for an
    infinity by its sign, [0] for a zero of either sign. *)
Theorem C7_special_values fuel x radix digits_ :
  match fpclassify x with
  | FP_NAN =>
      option_map pushed_string (duk_numconv_stringify fuel x radix digits_)
      = Some "NaN"%string
  | FP_INFINITE =>
      option_map pushed_string (duk_numconv_stringify fuel x radix digits_)
      = Some (if dbl_sign x =? 1 then "-Infinity"%string else "Infinity"%string)
  | FP_ZERO =>
      option_map pushed_string (duk_numconv_stringify fuel x radix digits_)
      = Some "0"%string
  | FP_SUBNORMAL | FP_NORMAL => True
  end.
Proof.
  unfold duk_numconv_stringify, dbl_ltb_zero.
  destruct (fpclassify x) eqn:Ec; try exact I.
  - destruct (dbl_sign x =? 1); reflexivity.
  - destruct (dbl_sign x =? 1); reflexivity.
  - destruct (dbl_sign x =? 1); reflexivity.
Qed.

(** C8.  When the radix is 10 and the magnitude of a finite non-zero
    double is an integer [uval] below [2^32], [duk_numconv_stringify]
    pushes through the formatted push with [uval] and the sign, with any
    fuel (none is needed: scale and generate do not run); the string is
    [-] exactly when the input is negative, followed by decimal digits
    whose value is [uval], the first not [0]. *)
Theorem C8_fast_path fuel x digits_ uval :
  dbl_is_finite_nonzero x = true -> 0 <= uval < 2 ^ 32 -> dbl_abs_is x uval ->
  duk_numconv_stringify fuel x 10 digits_
    = Some (duk_push_sprintf (dbl_ltb_zero x) uval) /\
  exists ds,
    pushed_chars (duk_push_sprintf (dbl_ltb_zero x) uval)
      = (if dbl_ltb_zero x then ["-"%char] else []) ++ ds /\
    dec_val ds = uval /\ Forall is_dec_digit ds /\
    dec_digit (hd "0"%char ds) <> 0.
Proof.
  intros Hx Hu Habs.
  rewrite (stringify_finite fuel x 10 digits_ Hx).
  rewrite (fast_path_integer x uval Hx Hu Habs). split; [reflexivity|].
  destruct (fmt_u_loop_spec 9 uval []) as (ds & Heq & Hv & Hall & _ & Hhd).
  { change (10 ^ Z.of_nat 10) with 10000000000. lia. }
  rewrite app_nil_r in Heq.
  exists ds. unfold pushed_chars, fmt_su. rewrite Heq.
  split; [reflexivity|]. split; [exact Hv|]. split; [exact Hall|].
  apply Hhd.
  destruct (dbl_m_q_range _ (dbl_abs_pos x Hx)) as (Hm & Hq).
  destruct (dbl_abs_m_q x Hx) as (Em & Eq). rewrite Em, Eq in *.
  unfold dbl_abs_is in Habs. destruct (0 <=? dbl_q x) eqn:E.
  - assert (0 < 2 ^ dbl_q x) by (apply Z.pow_pos_nonneg; lia). nia.
  - assert (0 < 2 ^ (- dbl_q x)) by (apply Z.pow_pos_nonneg; lia). nia.
Qed.

Lemma C8_fast_path_witness :
  dbl_is_finite_nonzero 0xC045000000000000 = true /\ 0 <= 42 < 2 ^ 32 /\
  dbl_abs_is 0xC045000000000000 42 /\
  duk_numconv_stringify 0 0xC045000000000000 10 0
    = Some (duk_push_sprintf (dbl_ltb_zero 0xC045000000000000) 42) /\
  exists ds,
    pushed_chars (duk_push_sprintf (dbl_ltb_zero 0xC045000000000000) 42)
      = (if dbl_ltb_zero 0xC045000000000000 then ["-"%char] else []) ++ ds /\
    dec_val ds = 42 /\ Forall is_dec_digit ds /\
    dec_digit (hd "0"%char ds) <> 0.
Proof.
  split; [reflexivity|]. split; [lia|]. split; [reflexivity|].
  apply (C8_fast_path 0 0xC045000000000000 0 42); [reflexivity | lia | reflexivity].
Defined.

(** C9.  The loops of scale and generate finish, but the call does not
    always return: what is written through [out_p] need not fit the 512
    bytes of [out_buf].  For the double [2^1023] in radix 2, scale finds
    [k = 1024], generate stops after one round with the digit [1], and
    [dragon4_finish] pads it with 1023 zeros: 1024 characters for an
    array of 512.  From the 513th on the [DUK_ASSERT] of
    [NUMCONV_PUTCHAR] fails and the write is past the end of the array;
    the call has no result, whatever the fuel. *)
Theorem C9_out_buf_overrun :
  dbl_is_finite_pos 0x7FE0000000000000 = true /\
  exists nc1 nc2,
    dragon4_scale 1100 (dragon4_start 0x7FE0000000000000 2) = Some nc1 /\
    NC.k nc1 = 1024 /\
    dragon4_generate 1100 nc1 = Some (nc2, [(1, 1)]) /\
    digits_layout (NC.k nc1) (call_chars [(1, 1)])
      = "1"%char :: repeat "0"%char 1023 /\
    (sizeof_out_buf
     < length (digits_layout (NC.k nc1) (call_chars [(1%Z, 1%Z)])))%nat /\
    forall fuel, duk_numconv_stringify fuel 0x7FE0000000000000 2 0 = None.
Proof.
  split; [reflexivity|].
  let v1 := eval vm_compute in
    (dragon4_scale 1100 (dragon4_start 0x7FE0000000000000 2)) in
  match v1 with
  | Some ?nc1 =>
      let v2 := eval vm_compute in (dragon4_generate 1100 nc1) in
      match v2 with
      | Some (?nc2, _) =>
          exists nc1, nc2;
          assert (E1 : dragon4_scale 1100 (dragon4_start 0x7FE0000000000000 2)
                       = Some nc1)
            by (vm_compute; reflexivity);
          assert (E2 : dragon4_generate 1100 nc1 = Some (nc2, [(1, 1)]))
            by (vm_compute; reflexivity)
      end
  end.
  split; [exact E1|]. split; [reflexivity|]. split; [exact E2|].
  split; [vm_compute; reflexivity|].
  split; [apply Nat.ltb_lt; vm_compute; reflexivity|].
  apply (stringify_overrun 0x7FE0000000000000 2 0 1100 _ _ _
           eq_refl eq_refl E1 E2).
  apply Nat.leb_le. vm_compute. reflexivity.
Qed.

(** C10.  Generate calls [dragon4_output] in every round, but the string
    with its digit is not always produced.  For the smallest denormal,
    [2^-1074], in radix 2, scale finds [k = -1073] and the only round of
    generate passes the digit [1]; before it [dragon4_output] writes
    [0.] and 1073 zeros.  The 512 bytes of [out_buf] are full after
    [0.] and 510 zeros: the digit and the terminating NUL are written
    past the end of the array, and the call has no result, whatever
    the fuel.  The defect is that of C9. *)
Theorem C10_digit_past_out_buf :
  dbl_is_finite_pos 1 = true /\
  exists nc1 nc2,
    dragon4_scale 1100 (dragon4_start 1 2) = Some nc1 /\
    NC.k nc1 = -1073 /\
    dragon4_generate 1100 nc1 = Some (nc2, [(1, 1)]) /\
    digits_layout (NC.k nc1) (call_chars [(1, 1)])
      = ["0"; "."]%char ++ repeat "0"%char 1073 ++ ["1"%char] /\
    (sizeof_out_buf < length (["0"; "."]%char ++ repeat "0"%char 1073))%nat /\
    forall fuel, duk_numconv_stringify fuel 1 2 0 = None.
Proof.
  split; [reflexivity|].
  let v1 := eval vm_compute in (dragon4_scale 1100 (dragon4_start 1 2)) in
  match v1 with
  | Some ?nc1 =>
      let v2 := eval vm_compute in (dragon4_generate 1100 nc1) in
      match v2 with
      | Some (?nc2, _) =>
          exists nc1, nc2;
          assert (E1 : dragon4_scale 1100 (dragon4_start 1 2) = Some nc1)
            by (vm_compute; reflexivity);
          assert (E2 : dragon4_generate 1100 nc1 = Some (nc2, [(1, 1)]))
            by (vm_compute; reflexivity)
      end
  end.
  split; [exact E1|]. split; [reflexivity|]. split; [exact E2|].
  split; [vm_compute; reflexivity|].
  split; [apply Nat.ltb_lt; vm_compute; reflexivity|].
  apply (stringify_overrun 1 2 0 1100 _ _ _ eq_refl eq_refl E1 E2).
  apply Nat.leb_le. vm_compute. reflexivity.
Qed.

(** * Further properties of the bigint operations *)

Section Canonical.

(** Limbs are the digits of the value in base [2^32]. *)
Lemma limbs_val_inj x :
  forall y, length x = length y -> limbs_ok x -> limbs_ok y ->
    bi_val x = bi_val y -> x = y.
Proof.
  induction x as [|a x IH]; intros [|b y] Hl Hx Hy Hv; try discriminate.
  - reflexivity.
  - apply limbs_ok_cons in Hx as [Ha Hx]. apply limbs_ok_cons in Hy as [Hb Hy].
    cbn [bi_val] in Hv. change (2 ^ 32) with 4294967296 in *.
    assert (a = b) by lia. subst b.
    f_equal. apply IH; [now injection Hl | assumption | assumption | lia].
Qed.

(** A number has one normalized representation. *)
Lemma bi_wf_inj x y : bi_wf x -> bi_wf y -> bi_val x = bi_val y -> x = y.
Proof.
  intros Hx Hy Hv.
  pose proof (bi_wf_val_le_length x y Hx Hy ltac:(lia)).
  pose proof (bi_wf_val_le_length y x Hy Hx ltac:(lia)).
  apply limbs_val_inj; [lia | apply Hx | apply Hy | exact Hv].
Qed.

Lemma bi_normalize_loop_id x i :
  length x = S i -> limb x i <> 0 -> bi_normalize_loop x (length x) = length x.
Proof.
  intros Hl Hn. rewrite Hl. cbn [bi_normalize_loop].
  destruct (limb x i =? 0) eqn:E; [lia | reflexivity].
Qed.

Lemma bi_normalize_id x : bi_is_normalized x = true -> bi_normalize x = x.
Proof.
  intros Hn. unfold bi_normalize.
  destruct (length x) as [|i] eqn:Hl.
  - destruct x; [reflexivity | discriminate].
  - rewrite <- Hl.
    rewrite (bi_normalize_loop_id x i Hl).
    + apply firstn_all.
    + rewrite (normalized_top x i Hl) in Hn.
      destruct (limb x i =? 0) eqn:E; [discriminate | lia].
Qed.

Lemma bi_wf_length x : bi_wf x -> wt (length x - 1) <= bi_val x \/ x = [].
Proof.
  intros Hx. destruct (length x) as [|i] eqn:Hl.
  - right. destruct x; [reflexivity | discriminate].
  - left. replace (S i - 1)%nat with i by lia. apply bi_wf_lower; assumption.
Qed.

End Canonical.

(** * Further properties of decomposition and prepare *)

Section PrepareValues.
Variable x : dbl.
Hypothesis Hx : dbl_is_finite_pos x = true.
Variable radix : Z.

(** The case prepare selects for a non-negative exponent: unequal gaps
    exactly when [f = 2^52]. *)
Lemma prepare_nonneg_exponent :
  0 <= dbl_q x ->
  let nc := dragon4_start x radix in
  if dbl_m x =? 2 ^ 52
  then R nc = dbl_m x * 2 ^ (dbl_q x + 2) /\ S_ nc = 4 /\
       MP nc = 2 ^ (dbl_q x + 1) /\ MM nc = 2 ^ dbl_q x
  else R nc = dbl_m x * 2 ^ (dbl_q x + 1) /\ S_ nc = 2 /\
       MP nc = 2 ^ dbl_q x /\ MM nc = 2 ^ dbl_q x.
Proof.
  intros Hq.
  destruct (convert_double_spec x Hx radix) as (Hf & Hfv & He & _).
  pose proof (convert_double_length x radix) as Hlen.
  unfold dragon4_start, dragon4_prepare.
  set (nc0 := dragon4_convert_double (nc_init x radix)) in *.
  set (nc1 := if bi_is_even (NC.f nc0) then _ else _).
  assert (H1 : NC.f nc1 = NC.f nc0 /\ NC.e nc1 = NC.e nc0)
    by (subst nc1; destruct (bi_is_even (NC.f nc0)); split; reflexivity).
  destruct H1 as (E1 & E2).
  rewrite E1, E2, He, (bi_is_2to52_val _ Hf Hlen), Hfv.
  destruct (dbl_q x >=? 0) eqn:Ge; [|lia].
  destruct (dbl_m x =? 2 ^ 52);
    unfold R, S_, MP, MM; nc_cbn; rewrite ?E1, ?E2, ?He.
  - pose proof (bi_twoexp_wf (dbl_q x + 2) ltac:(lia)) as (Ht & _).
    destruct (bi_mul_spec (NC.f nc0) (bi_twoexp (dbl_q x + 2)) Hf Ht)
      as (_ & Mv & _).
    rewrite Mv, Hfv, !bi_twoexp_val by lia. repeat split.
  - pose proof (bi_twoexp_wf (dbl_q x + 1) ltac:(lia)) as (Ht & _).
    destruct (bi_mul_spec (NC.f nc0) (bi_twoexp (dbl_q x + 1)) Hf Ht)
      as (_ & Mv & _).
    unfold bi_copy. rewrite Mv, Hfv, !bi_twoexp_val by lia. repeat split.
Qed.

(** Prepare reads and writes nothing but the bigints and the two
    rounding flags. *)
Lemma prepare_frame :
  let nc := dragon4_start x radix in
  NC.B nc = radix /\ NC.out_buf nc = [] /\ NC.out_first nc = true /\
  NC.e nc = dbl_q x /\ bi_val (NC.f nc) = dbl_m x /\
  NC.low_ok nc = Z.even (dbl_m x) /\ NC.high_ok nc = Z.even (dbl_m x).
Proof.
  destruct (convert_double_spec x Hx radix) as (Hf & Hfv & He & HB & Ho & Hof & _).
  unfold dragon4_start, dragon4_prepare.
  set (nc0 := dragon4_convert_double (nc_init x radix)) in *.
  rewrite (bi_is_even_spec _ Hf), Hfv.
  destruct (Z.even (dbl_m x));
    nc_cbn;
    destruct (NC.e nc0 >=? 0); destruct (bi_is_2to52 (NC.f nc0));
    try destruct (NC.e nc0 >? IEEE_DOUBLE_EXP_MIN);
    cbn [andb]; nc_cbn; repeat split; assumption.
Qed.

(** The four bigints prepare leaves are normalized. *)
Lemma prepare_wf :
  let nc := dragon4_start x radix in
  bi_wf (NC.r nc) /\ bi_wf (NC.s nc) /\ bi_wf (NC.mp nc) /\ bi_wf (NC.mm nc).
Proof.
  destruct (convert_double_spec x Hx radix) as (Hf & Hfv & He & _).
  destruct (dbl_m_q_range x Hx) as (Hm & Hq).
  unfold dragon4_start, dragon4_prepare.
  set (nc0 := dragon4_convert_double (nc_init x radix)) in *.
  set (nc1 := if bi_is_even (NC.f nc0) then _ else _).
  assert (H1 : NC.f nc1 = NC.f nc0 /\ NC.e nc1 = NC.e nc0)
    by (subst nc1; destruct (bi_is_even (NC.f nc0)); split; reflexivity).
  destruct H1 as (E1 & E2).
  rewrite E1, E2, He.
  destruct (dbl_q x >=? 0) eqn:Ge.
  - destruct (bi_is_2to52 (NC.f nc0)); nc_cbn; rewrite ?E1, ?E2, ?He;
      unfold bi_copy;
      repeat split;
      try (apply bi_twoexp_wf; lia);
      try (apply bi_set_small_wf; lia);
      try (apply bi_mul_spec; [exact Hf | apply bi_twoexp_wf; lia]).
  - destruct ((dbl_q x >? IEEE_DOUBLE_EXP_MIN) && bi_is_2to52 (NC.f nc0));
      nc_cbn; rewrite ?E1, ?E2, ?He;
      repeat split;
      try (apply bi_twoexp_wf; lia);
      try (apply bi_set_small_wf; lia);
      try (apply bi_mul_small_spec; [exact Hf | lia]).
Qed.

(** The ratios prepare sets up: [r / s = m * 2^q] and
    [m+ / s = 2^q / 2], with [m-] equal to [m+] or half of it. *)
Lemma prepare_ratios :
  let nc := dragon4_start x radix in
  R nc * 2 ^ Z.max 0 (- dbl_q x) = dbl_m x * 2 ^ Z.max 0 (dbl_q x) * S_ nc /\
  2 * MP nc * 2 ^ Z.max 0 (- dbl_q x) = 2 ^ Z.max 0 (dbl_q x) * S_ nc /\
  MM nc = (if (dbl_m x =? 2 ^ 52) &&
              ((0 <=? dbl_q x) || (dbl_q x >? IEEE_DOUBLE_EXP_MIN))
           then MP nc / 2 else MP nc) /\
  0 < MM nc.
Proof.
  intros nc.
  destruct (dbl_m_q_range x Hx) as (Hm & Hq).
  unfold IEEE_DOUBLE_EXP_MIN.
  destruct (Z_lt_le_dec (dbl_q x) 0) as [Hneg | Hpos].
  - pose proof (prepare_negative_exponent x Hx radix Hneg) as H.
    cbv zeta in H. fold nc in H.
    replace (Z.max 0 (- dbl_q x)) with (- dbl_q x) by lia.
    replace (Z.max 0 (dbl_q x)) with 0 by lia.
    replace (0 <=? dbl_q x) with false by (symmetry; apply Z.leb_gt; lia).
    cbn [orb]. rewrite (andb_comm (dbl_m x =? 2 ^ 52)).
    destruct ((dbl_q x >? -1022) && (dbl_m x =? 2 ^ 52));
      destruct H as (-> & -> & -> & ->).
    + replace (2 - dbl_q x) with (2 + - dbl_q x) by lia.
      rewrite Z.pow_add_r by lia. change (2 / 2) with 1.
      repeat split; lia.
    + replace (1 - dbl_q x) with (1 + - dbl_q x) by lia.
      rewrite Z.pow_add_r by lia.
      repeat split; lia.
  - pose proof (prepare_nonneg_exponent Hpos) as H.
    cbv zeta in H. fold nc in H.
    replace (Z.max 0 (- dbl_q x)) with 0 by lia.
    replace (Z.max 0 (dbl_q x)) with (dbl_q x) by lia.
    replace (0 <=? dbl_q x) with true by (symmetry; apply Z.leb_le; lia).
    cbn [orb]. rewrite andb_true_r.
    assert (0 < 2 ^ dbl_q x) by (apply Z.pow_pos_nonneg; lia).
    destruct (dbl_m x =? 2 ^ 52); destruct H as (-> & -> & -> & ->).
    + rewrite !Z.pow_add_r by lia.
      replace (2 ^ dbl_q x * 2 ^ 1 / 2) with (2 ^ dbl_q x)
        by (change (2 ^ 1) with 2; rewrite Z.div_mul by lia; reflexivity).
      repeat split; lia.
    + rewrite !Z.pow_add_r by lia.
      repeat split; lia.
Qed.

(** [m+] is [m-] or twice [m-], and [r] is [2 * m] times [m+]. *)
Lemma prepare_gaps :
  let nc := dragon4_start x radix in
  (MP nc = MM nc \/ MP nc = 2 * MM nc) /\ R nc = 2 * dbl_m x * MP nc /\
  0 < MP nc.
Proof.
  intros nc.
  destruct (dbl_m_q_range x Hx) as (Hm & Hq).
  destruct (Z_lt_le_dec (dbl_q x) 0) as [Hneg | Hpos].
  - pose proof (prepare_negative_exponent x Hx radix Hneg) as H.
    cbv zeta in H. fold nc in H.
    destruct ((dbl_q x >? -1022) && (dbl_m x =? 2 ^ 52));
      destruct H as (-> & _ & -> & ->); lia.
  - pose proof (prepare_nonneg_exponent Hpos) as H.
    cbv zeta in H. fold nc in H.
    assert (0 < 2 ^ dbl_q x) by (apply Z.pow_pos_nonneg; lia).
    destruct (dbl_m x =? 2 ^ 52); destruct H as (-> & _ & -> & ->).
    + rewrite !Z.pow_add_r by lia. change (2 ^ 2) with 4.
      change (2 ^ 1) with 2. lia.
    + rewrite !Z.pow_add_r by lia. change (2 ^ 1) with 2. lia.
Qed.

End PrepareValues.

(** * The rounds of generate *)

Section Rounds.

(** What a round that has returned did, read off its result. *)
Lemma dragon4_generate_round_facts fuel nc nc1 d tc1 tc2 :
  dragon4_generate_round fuel nc = Some (nc1, d, tc1, tc2) ->
  nc_ok nc -> R nc < S_ nc ->
  nc_ok nc1 /\ same_params nc nc1 /\ same_out nc nc1 /\
  NC.k nc1 = NC.k nc /\ S_ nc1 = S_ nc /\
  d = R nc * NC.B nc / S_ nc /\ 0 <= d <= NC.B nc - 1 /\
  R nc1 = (R nc * NC.B nc) mod S_ nc /\ R nc1 < S_ nc /\
  MP nc1 = MP nc * NC.B nc /\ MM nc1 = MM nc * NC.B nc /\
  tc1 = (if NC.low_ok nc then R nc1 <=? MM nc1 else R nc1 <? MM nc1) /\
  tc2 = (S_ nc <=? R nc1 + MP nc1).
Proof.
  intros H Hok Hlt.
  pose proof (dragon4_generate_round_mono _ _ _ H (fuel + 36)%nat ltac:(lia))
    as H'.
  destruct (dragon4_generate_round_spec (fuel + 36) nc Hok Hlt ltac:(lia))
    as (nc1' & d' & tc1' & tc2' & Heq & Hrest).
  rewrite H' in Heq. injection Heq as <- <- <- <-. exact Hrest.
Qed.

Lemma digits_val_cons B d l :
  digits_val B (d :: l) = d * B ^ Z.of_nat (length l) + digits_val B l.
Proof. reflexivity. Qed.

Lemma digits_val_single B d : digits_val B [d] = d.
Proof. cbn [digits_val length]. change (B ^ Z.of_nat 0) with 1. lia. Qed.

(** The numbers of the context that ends a round, after the digit has
    been written. *)
Lemma round_end_nums nc1 nc2 p count :
  NC.r nc2 = NC.r nc1 -> NC.s nc2 = NC.s nc1 ->
  NC.mp nc2 = NC.mp nc1 -> NC.mm nc2 = NC.mm nc1 -> NC.B nc2 = NC.B nc1 ->
  NC.low_ok nc2 = NC.low_ok nc1 -> NC.high_ok nc2 = NC.high_ok nc1 ->
  NC.x nc2 = NC.x nc1 -> NC.e nc2 = NC.e nc1 -> NC.f nc2 = NC.f nc1 ->
  nc_ok nc1 ->
  let nc' := dragon4_output nc2 p count in
  nc_ok nc' /\ same_params nc1 nc' /\
  R nc' = R nc1 /\ S_ nc' = S_ nc1 /\ MP nc' = MP nc1 /\ MM nc' = MM nc1.
Proof.
  intros Er Es Emp Emm EB El Eh Ex Ee Ef Hok nc'.
  destruct (dragon4_output_spec nc2 p count) as (Hso & _). fold nc' in Hso.
  destruct Hso as (Sf & Sr & Ss & Smp & Smm & _ & _ & Sx & Se & SB & _ & Sl & Sh).
  assert (Hn : R nc' = R nc1 /\ S_ nc' = S_ nc1 /\
               MP nc' = MP nc1 /\ MM nc' = MM nc1)
    by (unfold R, S_, MP, MM; rewrite Sr, Ss, Smp, Smm, Er, Es, Emp, Emm;
        repeat split).
  destruct Hn as (HR & HS & HP & HM).
  split.
  { destruct Hok as [o1 o2 o3 o4 o5 o6 o7 o8].
    constructor; unfold S_, MP, MM in *;
      rewrite ?Sr, ?Ss, ?Smp, ?Smm, ?SB, ?Er, ?Es, ?Emp, ?Emm, ?EB;
      assumption. }
  split; [repeat split; congruence|].
  repeat split; assumption.
Qed.

End Rounds.

Section Run.

(** What the loop of generate has done when it returns: the quotient
    digits are the leading digits of [r / s] in radix [B], [r] is the
    remainder left, [m+] and [m-] have been multiplied by [B] once per
    digit, and the last index passed is the last quotient digit, or
    that digit plus one. *)
Lemma dragon4_generate_loop_run fuel :
  forall nc count nc' count' calls,
    dragon4_generate_loop fuel nc count = Some (nc', count', calls) ->
    nc_ok nc -> R nc < S_ nc ->
    let B := NC.B nc in
    let n := Z.of_nat (length calls) in
    let D := digits_val B (map fst calls) in
    let P := digits_val B (map snd calls) in
    nc_ok nc' /\ same_params nc nc' /\ S_ nc' = S_ nc /\
    R nc * B ^ n = D * S_ nc + R nc' /\ 0 <= R nc' < S_ nc /\
    MP nc' = MP nc * B ^ n /\ MM nc' = MM nc * B ^ n /\
    (P = D \/ P = D + 1) /\
    (P = D -> low_end (NC.low_ok nc) (R nc') (MM nc')) /\
    (P = D + 1 -> S_ nc <= R nc' + MP nc') /\
    (low_end (NC.low_ok nc) (R nc') (MM nc') -> S_ nc <= R nc' + MP nc' ->
     P = if 2 * R nc' <? S_ nc then D else D + 1) /\
    (2 <= n -> MM nc * B ^ (n - 1) < S_ nc).
Proof.
  induction fuel as [|fuel IH]; intros nc count nc' count' calls H Hok Hlt;
    [discriminate|].
  rewrite dragon4_generate_loop_eq in H.
  destruct (dragon4_generate_round (S fuel) nc) as [[[[nc1 d] tc1] tc2]|] eqn:E;
    [|discriminate].
  destruct (dragon4_generate_round_facts _ _ _ _ _ _ E Hok Hlt)
    as (Hok1 & Hpar & _ & _ & HS & Hd & Hdr & HR & HRlt & HP & HM & Htc1 & Htc2).
  pose proof (ok_s_pos nc Hok) as Hs.
  pose proof (ok_B nc Hok) as HB.
  pose proof (Z.div_mod (R nc * NC.B nc) (S_ nc) ltac:(lia)) as Hdm.
  pose proof (Z.mod_pos_bound (R nc * NC.B nc) (S_ nc) Hs) as Hmb.
  rewrite <- Hd, <- HR in Hdm. rewrite <- HR in Hmb.
  assert (Hl1 : tc1 = true -> low_end (NC.low_ok nc) (R nc1) (MM nc1)).
  { intros ->. unfold low_end. destruct (NC.low_ok nc); symmetry in Htc1;
      [apply Z.leb_le in Htc1 | apply Z.ltb_lt in Htc1]; exact Htc1. }
  assert (Hl0 : tc1 = false -> ~ low_end (NC.low_ok nc) (R nc1) (MM nc1)).
  { intros ->. unfold low_end. destruct (NC.low_ok nc); symmetry in Htc1;
      [apply Z.leb_gt in Htc1 | apply Z.ltb_ge in Htc1]; lia. }
  assert (Hh1 : tc2 = true -> S_ nc <= R nc1 + MP nc1).
  { intros ->. symmetry in Htc2. apply Z.leb_le in Htc2. exact Htc2. }
  assert (Hh0 : tc2 = false -> R nc1 + MP nc1 < S_ nc).
  { intros ->. symmetry in Htc2. apply Z.leb_gt in Htc2. exact Htc2. }
  assert (Hone : forall nc2 p,
    NC.r nc2 = NC.r nc1 -> NC.s nc2 = NC.s nc1 ->
    NC.mp nc2 = NC.mp nc1 -> NC.mm nc2 = NC.mm nc1 -> NC.B nc2 = NC.B nc1 ->
    NC.low_ok nc2 = NC.low_ok nc1 -> NC.high_ok nc2 = NC.high_ok nc1 ->
    NC.x nc2 = NC.x nc1 -> NC.e nc2 = NC.e nc1 -> NC.f nc2 = NC.f nc1 ->
    (p = d /\ tc1 = true \/ p = d + 1 /\ tc2 = true) ->
    (tc1 = true -> tc2 = true ->
     p = if 2 * R nc1 <? S_ nc then d else d + 1) ->
    Some (dragon4_output nc2 p count, count + 1, [(d, p)])
      = Some (nc', count', calls) ->
    let B := NC.B nc in
    let n := Z.of_nat (length calls) in
    let D := digits_val B (map fst calls) in
    let P := digits_val B (map snd calls) in
    nc_ok nc' /\ same_params nc nc' /\ S_ nc' = S_ nc /\
    R nc * B ^ n = D * S_ nc + R nc' /\ 0 <= R nc' < S_ nc /\
    MP nc' = MP nc * B ^ n /\ MM nc' = MM nc * B ^ n /\
    (P = D \/ P = D + 1) /\
    (P = D -> low_end (NC.low_ok nc) (R nc') (MM nc')) /\
    (P = D + 1 -> S_ nc <= R nc' + MP nc') /\
    (low_end (NC.low_ok nc) (R nc') (MM nc') -> S_ nc <= R nc' + MP nc' ->
     P = if 2 * R nc' <? S_ nc then D else D + 1) /\
    (2 <= n -> MM nc * B ^ (n - 1) < S_ nc)).
  { intros nc2 p Er Es Emp Emm EB El Eh Ex Ee Ef Hp Hboth Heq.
    injection Heq as <- <- <-.
    destruct (round_end_nums nc1 nc2 p count Er Es Emp Emm EB El Eh Ex Ee Ef Hok1)
      as (Hok' & Hpar' & HR' & HS' & HP' & HM').
    cbv zeta. cbn [length map fst snd]. rewrite !digits_val_single.
    change (Z.of_nat 1) with 1. rewrite Z.pow_1_r.
    rewrite HR', HS', HP', HM', HS.
    split; [exact Hok'|].
    split; [exact (same_params_trans _ _ _ Hpar Hpar')|].
    split; [reflexivity|]. split; [lia|]. split; [lia|].
    split; [exact HP|]. split; [exact HM|].
    split; [destruct Hp as [[-> _] | [-> _]]; [left | right]; reflexivity|].
    split.
    { intros Ep. destruct Hp as [[_ Ht] | [-> _]]; [auto | lia]. }
    split.
    { intros Ep. destruct Hp as [[-> _] | [_ Ht]]; [lia | auto]. }
    split; [|lia].
    intros Hl Hh.
    destruct tc1; [|exfalso; apply (Hl0 eq_refl), Hl].
    destruct tc2; [|specialize (Hh0 eq_refl); lia].
    apply Hboth; reflexivity. }
  destruct tc1, tc2.
  - cbn zeta in H.
    assert (Hcmp : (bi_compare
                      (NC.t1 (NC.set_t1 (bi_mul_small (NC.r nc1) 2) nc1))
                      (NC.s (NC.set_t1 (bi_mul_small (NC.r nc1) 2) nc1)) <? 0)
                   = (2 * R nc1 <? S_ nc)).
    { nc_cbn.
      destruct (bi_mul_small_spec (NC.r nc1) 2 (proj1 (ok_r nc1 Hok1))
                  ltac:(lia)) as (Hw & Hv & _).
      rewrite (bi_compare_lt0 _ _ Hw (ok_s nc1 Hok1)), Hv.
      fold (R nc1). fold (S_ nc1). rewrite HS.
      f_equal. lia. }
    rewrite Hcmp in H.
    destruct (2 * R nc1 <? S_ nc) eqn:E2;
      refine (Hone _ _ _ _ _ _ _ _ _ _ _ _ _ _ H);
      try reflexivity; try (intros _ _; reflexivity); auto.
  - refine (Hone _ _ _ _ _ _ _ _ _ _ _ _ _ _ H);
      try reflexivity; try discriminate; auto.
  - refine (Hone _ _ _ _ _ _ _ _ _ _ _ _ _ _ H);
      try reflexivity; try discriminate; auto.
  - cbn zeta in H.
    destruct (dragon4_generate_loop fuel _ _) as [[[nc3 c3] calls3]|] eqn:E3;
      [|discriminate].
    injection H as <- <- <-.
    destruct (round_end_nums nc1 nc1 d count) as (Hok2 & Hpar2 & HR2 & HS2 & HP2 & HM2);
      try reflexivity; [exact Hok1|].
    set (nc2 := dragon4_output nc1 d count) in *.
    destruct (dragon4_generate_loop_calls _ _ _ _ _ _ E3) as (Hne & _).
    assert (Hlen : 1 <= Z.of_nat (length calls3))
      by (destruct calls3; [congruence | cbn [length]; lia]).
    assert (EB : NC.B nc2 = NC.B nc)
      by (destruct Hpar as (Ea & _); destruct Hpar2 as (Eb & _); congruence).
    assert (ELo : NC.low_ok nc2 = NC.low_ok nc)
      by (destruct Hpar as (_ & Ea & _); destruct Hpar2 as (_ & Eb & _);
          congruence).
    specialize (IH nc2 (count + 1) nc3 c3 calls3 E3 Hok2
                  ltac:(rewrite HR2, HS2, HS; exact HRlt)).
    cbv zeta in IH. rewrite EB, ELo, HR2, HS2, HP2, HM2, HS, HP, HM in IH.
    destruct IH as (Hok3 & Hpar3 & HS3 & HRn & HRr & HPn & HMn & HPD & HlowE &
                    HhighE & Hboth & Hmm).
    cbv zeta. cbn [length map fst snd]. rewrite !digits_val_cons.
    rewrite !length_map.
    rewrite Nat2Z.inj_succ, Z.pow_succ_r by lia.
    set (Bn := NC.B nc ^ Z.of_nat (length calls3)) in *.
    set (D3 := digits_val (NC.B nc) (map fst calls3)) in *.
    set (P3 := digits_val (NC.B nc) (map snd calls3)) in *.
    split; [exact Hok3|].
    split.
    { apply (same_params_trans _ _ _ Hpar).
      apply (same_params_trans _ _ _ Hpar2). exact Hpar3. }
    split; [exact HS3|].
    split; [lia|]. split; [exact HRr|].
    split; [lia|]. split; [lia|].
    split; [lia|].
    split; [intros Ep; apply HlowE; lia|].
    split; [intros Ep; apply HhighE; lia|].
    split.
    { intros Hl Hh. specialize (Hboth Hl Hh).
      destruct (2 * R nc3 <? S_ nc); lia. }
    intros _.
    replace (Z.succ (Z.of_nat (length calls3)) - 1)
      with (Z.of_nat (length calls3)) by lia.
    destruct (Z.eq_dec (Z.of_nat (length calls3)) 1) as [E1 | E1].
    + rewrite E1, Z.pow_1_r.
      specialize (Hl0 eq_refl). unfold low_end in Hl0.
      destruct (NC.low_ok nc); lia.
    + specialize (Hmm ltac:(lia)).
      replace (NC.B nc ^ Z.of_nat (length calls3))
        with (NC.B nc * NC.B nc ^ (Z.of_nat (length calls3) - 1));
        [lia|].
      rewrite <- Z.pow_succ_r by lia. f_equal. lia.
Qed.

(** The number whose digits generate passed lies within the gaps:
    [(r - m-) * B^n <= P * s <= (r + m+) * B^n]. *)
Lemma dragon4_generate_loop_interval fuel nc count nc' count' calls :
  dragon4_generate_loop fuel nc count = Some (nc', count', calls) ->
  nc_ok nc -> R nc < S_ nc ->
  let B := NC.B nc in
  let n := Z.of_nat (length calls) in
  let P := digits_val B (map snd calls) in
  (R nc - MM nc) * B ^ n <= P * S_ nc /\
  P * S_ nc <= (R nc + MP nc) * B ^ n.
Proof.
  intros H Hok Hlt.
  destruct (dragon4_generate_loop_run _ _ _ _ _ _ H Hok Hlt)
    as (Hok' & _ & _ & HRn & HRr & HPn & HMn & HPD & Hlow & Hhigh & _).
  cbv zeta in *.
  pose proof (ok_mp_pos nc' Hok') as Hmp. pose proof (ok_mm_pos nc' Hok') as Hmm.
  set (Bn := NC.B nc ^ Z.of_nat (length calls)) in *.
  set (D := digits_val (NC.B nc) (map fst calls)) in *.
  set (P := digits_val (NC.B nc) (map snd calls)) in *.
  destruct HPD as [E | E].
  - specialize (Hlow E). unfold low_end in Hlow. rewrite E.
    destruct (NC.low_ok nc); split; lia.
  - specialize (Hhigh E). rewrite E. split; lia.
Qed.

(** With [low_ok] false the lower gap is not reached. *)
Lemma dragon4_generate_loop_interval_strict fuel nc count nc' count' calls :
  dragon4_generate_loop fuel nc count = Some (nc', count', calls) ->
  nc_ok nc -> R nc < S_ nc -> NC.low_ok nc = false ->
  let B := NC.B nc in
  let n := Z.of_nat (length calls) in
  let P := digits_val B (map snd calls) in
  (R nc - MM nc) * B ^ n < P * S_ nc.
Proof.
  intros H Hok Hlt Hlow0.
  destruct (dragon4_generate_loop_run _ _ _ _ _ _ H Hok Hlt)
    as (Hok' & _ & _ & HRn & HRr & HPn & HMn & HPD & Hlow & Hhigh & _).
  cbv zeta in *.
  pose proof (ok_mp_pos nc' Hok') as Hmp. pose proof (ok_mm_pos nc' Hok') as Hmm.
  set (Bn := NC.B nc ^ Z.of_nat (length calls)) in *.
  set (D := digits_val (NC.B nc) (map fst calls)) in *.
  set (P := digits_val (NC.B nc) (map snd calls)) in *.
  destruct HPD as [E | E].
  - specialize (Hlow E). unfold low_end in Hlow. rewrite Hlow0 in Hlow.
    rewrite E. lia.
  - rewrite E. lia.
Qed.

(** While the loop went on, neither the quotient digits so far nor
    their successor were within the gaps. *)
Lemma dragon4_generate_loop_prefixes fuel :
  forall nc count nc' count' calls,
    dragon4_generate_loop fuel nc count = Some (nc', count', calls) ->
    nc_ok nc -> R nc < S_ nc ->
    forall j, (1 <= j < length calls)%nat ->
      let B := NC.B nc in
      let Dj := digits_val B (firstn j (map fst calls)) in
      let Rj := R nc * B ^ Z.of_nat j - Dj * S_ nc in
      0 <= Rj < S_ nc /\
      ~ low_end (NC.low_ok nc) Rj (MM nc * B ^ Z.of_nat j) /\
      Rj + MP nc * B ^ Z.of_nat j < S_ nc.
Proof.
  induction fuel as [|fuel IH]; intros nc count nc' count' calls H Hok Hlt j Hj;
    [discriminate|].
  rewrite dragon4_generate_loop_eq in H.
  destruct (dragon4_generate_round (S fuel) nc) as [[[[nc1 d] tc1] tc2]|] eqn:E;
    [|discriminate].
  destruct (dragon4_generate_round_facts _ _ _ _ _ _ E Hok Hlt)
    as (Hok1 & Hpar & _ & _ & HS & Hd & Hdr & HR & HRlt & HP & HM & Htc1 & Htc2).
  pose proof (ok_s_pos nc Hok) as Hs.
  pose proof (ok_B nc Hok) as HB.
  pose proof (Z.div_mod (R nc * NC.B nc) (S_ nc) ltac:(lia)) as Hdm.
  pose proof (Z.mod_pos_bound (R nc * NC.B nc) (S_ nc) Hs) as Hmb.
  rewrite <- Hd, <- HR in Hdm. rewrite <- HR in Hmb.
  assert (Hone : forall nc2 p,
            Some (dragon4_output nc2 p count, count + 1, [(d, p)])
              = Some (nc', count', calls) -> False).
  { intros nc2 p Heq. injection Heq as <- <- <-. cbn [length] in Hj. lia. }
  destruct tc1, tc2.
  - cbn zeta in H. destruct (bi_compare _ _ <? 0);
      exfalso; exact (Hone _ _ H).
  - exfalso; exact (Hone _ _ H).
  - exfalso; exact (Hone _ _ H).
  - cbn zeta in H.
    destruct (dragon4_generate_loop fuel _ _) as [[[nc3 c3] calls3]|] eqn:E3;
      [|discriminate].
    injection H as <- <- <-.
    destruct (round_end_nums nc1 nc1 d count)
      as (Hok2 & Hpar2 & HR2 & HS2 & HP2 & HM2);
      try reflexivity; [exact Hok1|].
    set (nc2 := dragon4_output nc1 d count) in *.
    assert (EB : NC.B nc2 = NC.B nc)
      by (destruct Hpar as (Ea & _); destruct Hpar2 as (Eb & _); congruence).
    assert (ELo : NC.low_ok nc2 = NC.low_ok nc)
      by (destruct Hpar as (_ & Ea & _); destruct Hpar2 as (_ & Eb & _);
          congruence).
    cbn [length] in Hj. cbv zeta. cbn [map fst].
    destruct j as [|[|j]]; [lia | |].
    + cbn [firstn]. rewrite digits_val_single.
      change (Z.of_nat 1) with 1. rewrite Z.pow_1_r.
      replace (R nc * NC.B nc - d * S_ nc) with (R nc1) by lia.
      rewrite <- HM, <- HP.
      split; [lia|]. split.
      * unfold low_end. symmetry in Htc1.
        destruct (NC.low_ok nc);
          [apply Z.leb_gt in Htc1 | apply Z.ltb_ge in Htc1]; lia.
      * symmetry in Htc2. apply Z.leb_gt in Htc2. exact Htc2.
    + specialize (IH nc2 (count + 1) nc3 c3 calls3 E3 Hok2
                    ltac:(rewrite HR2, HS2, HS; exact HRlt) (S j) ltac:(lia)).
      cbv zeta in IH. rewrite EB, ELo, HR2, HS2, HP2, HM2, HS, HP, HM in IH.
      change (firstn (S (S j)) (d :: map fst calls3))
        with (d :: firstn (S j) (map fst calls3)).
      rewrite digits_val_cons.
      rewrite firstn_length_le by (rewrite length_map; lia).
      set (Dj := digits_val (NC.B nc) (firstn (S j) (map fst calls3))) in *.
      replace (Z.of_nat (S (S j))) with (Z.succ (Z.of_nat (S j))) by lia.
      rewrite Z.pow_succ_r by lia.
      set (Bj := NC.B nc ^ Z.of_nat (S j)) in *.
      replace (R nc * (NC.B nc * Bj) - (d * Bj + Dj) * S_ nc)
        with (R nc1 * Bj - Dj * S_ nc) by lia.
      replace (MM nc * (NC.B nc * Bj)) with (MM nc * NC.B nc * Bj) by lia.
      replace (MP nc * (NC.B nc * Bj)) with (MP nc * NC.B nc * Bj) by lia.
      exact IH.
Qed.

End Run.

Section Indices.

(** From [r + m+ < s] no round passes an index above [B - 1]. *)
Lemma dragon4_generate_loop_below_radix fuel :
  forall nc count nc' count' calls,
    dragon4_generate_loop fuel nc count = Some (nc', count', calls) ->
    nc_ok nc -> R nc + MP nc < S_ nc ->
    Forall (fun c => 0 <= snd c <= NC.B nc - 1) calls.
Proof.
  induction fuel as [|fuel IH]; intros nc count nc' count' calls H Hok Hlt;
    [discriminate|].
  pose proof (ok_mp_pos nc Hok) as Hmp.
  assert (Hr : R nc < S_ nc) by lia.
  rewrite dragon4_generate_loop_eq in H.
  destruct (dragon4_generate_round (S fuel) nc) as [[[[nc1 d] tc1] tc2]|] eqn:E;
    [|discriminate].
  destruct (dragon4_generate_round_facts _ _ _ _ _ _ E Hok Hr)
    as (Hok1 & Hpar & _ & _ & HS & Hd & Hdr & HR & HRlt & HP & HM & Htc1 & Htc2).
  pose proof (ok_s_pos nc Hok) as Hs.
  pose proof (ok_B nc Hok) as HB.
  pose proof (Z.div_mod (R nc * NC.B nc) (S_ nc) ltac:(lia)) as Hdm.
  rewrite <- Hd, <- HR in Hdm.
  assert (Hup : tc2 = true -> d + 1 <= NC.B nc - 1).
  { intros ->. symmetry in Htc2. apply Z.leb_le in Htc2. nia. }
  assert (Hone : forall nc2 p,
    (p = d \/ p = d + 1 /\ tc2 = true) ->
    Some (dragon4_output nc2 p count, count + 1, [(d, p)])
      = Some (nc', count', calls) ->
    Forall (fun c => 0 <= snd c <= NC.B nc - 1) calls).
  { intros nc2 p Hp Heq. injection Heq as <- <- <-.
    constructor; [|constructor]. cbn [snd].
    destruct Hp as [-> | [-> Ht]]; [lia | specialize (Hup Ht); lia]. }
  destruct tc1, tc2.
  - cbn zeta in H. destruct (bi_compare _ _ <? 0);
      refine (Hone _ _ _ H); auto.
  - refine (Hone _ _ _ H); auto.
  - refine (Hone _ _ _ H); auto.
  - cbn zeta in H.
    destruct (dragon4_generate_loop fuel _ _) as [[[nc3 c3] calls3]|] eqn:E3;
      [|discriminate].
    injection H as <- <- <-.
    destruct (round_end_nums nc1 nc1 d count)
      as (Hok2 & Hpar2 & HR2 & HS2 & HP2 & HM2);
      try reflexivity; [exact Hok1|].
    set (nc2 := dragon4_output nc1 d count) in *.
    assert (EB : NC.B nc2 = NC.B nc)
      by (destruct Hpar as (Ea & _); destruct Hpar2 as (Eb & _); congruence).
    symmetry in Htc2. apply Z.leb_gt in Htc2.
    specialize (IH nc2 (count + 1) nc3 c3 calls3 E3 Hok2
                  ltac:(rewrite HR2, HS2, HP2, HS; exact Htc2)).
    rewrite EB in IH.
    constructor; [cbn [snd]; lia | exact IH].
Qed.

(** From [r + m+ <= s], as scale leaves it, only the first round can
    pass the index [B], and only when [r + m+ = s]. *)
Lemma dragon4_generate_loop_indices fuel nc count nc' count' calls :
  dragon4_generate_loop fuel nc count = Some (nc', count', calls) ->
  nc_ok nc -> R nc < S_ nc -> R nc + MP nc <= S_ nc ->
  exists d p rest,
    calls = (d, p) :: rest /\ 0 <= p <= NC.B nc /\
    (p = NC.B nc -> R nc + MP nc = S_ nc) /\
    Forall (fun c => 0 <= snd c <= NC.B nc - 1) rest.
Proof.
  intros H Hok Hr Hle.
  destruct fuel as [|fuel]; [discriminate|].
  rewrite dragon4_generate_loop_eq in H.
  destruct (dragon4_generate_round (S fuel) nc) as [[[[nc1 d] tc1] tc2]|] eqn:E;
    [|discriminate].
  destruct (dragon4_generate_round_facts _ _ _ _ _ _ E Hok Hr)
    as (Hok1 & Hpar & _ & _ & HS & Hd & Hdr & HR & HRlt & HP & HM & Htc1 & Htc2).
  pose proof (ok_s_pos nc Hok) as Hs.
  pose proof (ok_B nc Hok) as HB.
  pose proof (Z.div_mod (R nc * NC.B nc) (S_ nc) ltac:(lia)) as Hdm.
  rewrite <- Hd, <- HR in Hdm.
  assert (Hup : tc2 = true -> d + 1 = NC.B nc -> R nc + MP nc = S_ nc).
  { intros ->. symmetry in Htc2. apply Z.leb_le in Htc2. nia. }
  assert (Hone : forall nc2 p,
    (p = d \/ p = d + 1 /\ tc2 = true) ->
    Some (dragon4_output nc2 p count, count + 1, [(d, p)])
      = Some (nc', count', calls) ->
    exists d p rest,
      calls = (d, p) :: rest /\ 0 <= p <= NC.B nc /\
      (p = NC.B nc -> R nc + MP nc = S_ nc) /\
      Forall (fun c => 0 <= snd c <= NC.B nc - 1) rest).
  { intros nc2 p Hp Heq. injection Heq as <- <- <-.
    exists d, p, []. split; [reflexivity|].
    destruct Hp as [-> | [-> Ht]].
    - split; [lia|]. split; [lia | constructor].
    - split; [lia|]. split; [apply Hup, Ht | constructor]. }
  destruct tc1, tc2.
  - cbn zeta in H. destruct (bi_compare _ _ <? 0);
      refine (Hone _ _ _ H); auto.
  - refine (Hone _ _ _ H); auto.
  - refine (Hone _ _ _ H); auto.
  - cbn zeta in H.
    destruct (dragon4_generate_loop fuel _ _) as [[[nc3 c3] calls3]|] eqn:E3;
      [|discriminate].
    injection H as <- <- <-.
    destruct (round_end_nums nc1 nc1 d count)
      as (Hok2 & Hpar2 & HR2 & HS2 & HP2 & HM2);
      try reflexivity; [exact Hok1|].
    set (nc2 := dragon4_output nc1 d count) in *.
    assert (EB : NC.B nc2 = NC.B nc)
      by (destruct Hpar as (Ea & _); destruct Hpar2 as (Eb & _); congruence).
    symmetry in Htc2. apply Z.leb_gt in Htc2.
    pose proof (dragon4_generate_loop_below_radix _ _ _ _ _ _ E3 Hok2
                  ltac:(rewrite HR2, HS2, HP2, HS; exact Htc2)) as Hrest.
    rewrite EB in Hrest.
    exists d, d, calls3. split; [reflexivity|]. split; [lia|].
    split; [lia | exact Hrest].
Qed.

(** With [s <= B * (r + m+)], as scale leaves it, and [m- < r], the
    first index passed is not zero. *)
Lemma dragon4_generate_loop_first_nonzero fuel nc count nc' count' calls :
  dragon4_generate_loop fuel nc count = Some (nc', count', calls) ->
  nc_ok nc -> R nc < S_ nc ->
  S_ nc <= NC.B nc * (R nc + MP nc) -> MM nc < R nc ->
  exists d p rest, calls = (d, p) :: rest /\ 1 <= p.
Proof.
  intros H Hok Hr Hsc Hmm.
  destruct fuel as [|fuel]; [discriminate|].
  rewrite dragon4_generate_loop_eq in H.
  destruct (dragon4_generate_round (S fuel) nc) as [[[[nc1 d] tc1] tc2]|] eqn:E;
    [|discriminate].
  destruct (dragon4_generate_round_facts _ _ _ _ _ _ E Hok Hr)
    as (Hok1 & Hpar & _ & _ & HS & Hd & Hdr & HR & HRlt & HP & HM & Htc1 & Htc2).
  pose proof (ok_s_pos nc Hok) as Hs.
  pose proof (ok_B nc Hok) as HB.
  pose proof (Z.div_mod (R nc * NC.B nc) (S_ nc) ltac:(lia)) as Hdm.
  rewrite <- Hd, <- HR in Hdm.
  assert (Hlow : tc1 = true -> 1 <= d).
  { intros ->. symmetry in Htc1.
    destruct (Z.eq_dec d 0) as [E0 | E0]; [exfalso | lia].
    subst d.
    destruct (NC.low_ok nc);
      [apply Z.leb_le in Htc1 | apply Z.ltb_lt in Htc1]; nia. }
  assert (Hone : forall nc2 p,
    (p = d /\ tc1 = true \/ p = d + 1) ->
    Some (dragon4_output nc2 p count, count + 1, [(d, p)])
      = Some (nc', count', calls) ->
    exists d p rest, calls = (d, p) :: rest /\ 1 <= p).
  { intros nc2 p Hp Heq. injection Heq as <- <- <-.
    exists d, p, []. split; [reflexivity|].
    destruct Hp as [[-> Ht] | ->]; [apply Hlow, Ht | lia]. }
  destruct tc1, tc2.
  - cbn zeta in H. destruct (bi_compare _ _ <? 0);
      refine (Hone _ _ _ H); auto.
  - refine (Hone _ _ _ H); auto.
  - refine (Hone _ _ _ H); auto.
  - cbn zeta in H.
    destruct (dragon4_generate_loop fuel _ _) as [[[nc3 c3] calls3]|] eqn:E3;
      [|discriminate].
    injection H as <- <- <-.
    exists d, d, calls3. split; [reflexivity|].
    destruct (Z.eq_dec d 0) as [E0 | E0]; [exfalso | lia].
    subst d. symmetry in Htc2. apply Z.leb_gt in Htc2. nia.
Qed.

End Indices.

(** * The layout of the output buffer *)

Section Layout.

Lemma same_but_out_k nc nc' : same_but_out nc nc' -> NC.k nc' = NC.k nc.
Proof. intros (_ & _ & _ & _ & _ & _ & _ & _ & _ & _ & Hk & _). exact Hk. Qed.

(** What one call of [dragon4_output] writes. *)
Lemma dragon4_output_buf nc d n :
  (forall L, NC.out_buf nc = out_cut L ->
     NC.out_buf (dragon4_output nc d n) =
       out_cut (L ++
         (if (NC.k nc - n <=? 0) && NC.out_first nc
          then ["0"; "."]%char ++ repeat "0"%char (Z.to_nat (- NC.k nc))
          else if NC.k nc - n =? 0 then ["."%char] else []) ++
         [digits_at d])) /\
  NC.out_first (dragon4_output nc d n) = false /\
  NC.k (dragon4_output nc d n) = NC.k nc.
Proof.
  split; [|split; [reflexivity | apply same_but_out_k, dragon4_output_spec]].
  unfold dragon4_output. cbv zeta. intros L HL.
  cbn [NC.out_buf NC.set_out_first].
  destruct ((NC.k nc - n <=? 0) && NC.out_first nc).
  - destruct (putchar_spec nc "0"%char) as (Sa & Ba & _).
    destruct (putchar_spec (NUMCONV_PUTCHAR nc "0") "."%char) as (Sb & Bb & _).
    set (nc2 := NUMCONV_PUTCHAR (NUMCONV_PUTCHAR nc "0") ".") in *.
    destruct (putchar_zeros_spec (- NC.k nc2) nc2) as (_ & Bz & _).
    assert (Hk2 : NC.k nc2 = NC.k nc)
      by (rewrite (same_but_out_k _ _ Sb); apply (same_but_out_k _ _ Sa)).
    rewrite (putchar_buf _ _ _ (Bz _ (Bb _ (Ba L HL)))), Hk2.
    rewrite <- !app_assoc. reflexivity.
  - destruct (NC.k nc - n =? 0).
    + rewrite (putchar_buf _ _ _ (putchar_buf _ _ _ HL)).
      rewrite <- !app_assoc. reflexivity.
    + rewrite (putchar_buf _ _ _ HL). reflexivity.
Qed.

Lemma digits_point_cons pos c cs :
  digits_point pos (c :: cs) =
    (if pos =? 0 then ["."%char] else []) ++ c :: digits_point (pos - 1) cs.
Proof.
  unfold digits_point. cbn [length]. rewrite Nat2Z.inj_succ.
  destruct (pos <? 0) eqn:E0.
  - apply Z.ltb_lt in E0.
    replace (pos =? 0) with false by (symmetry; apply Z.eqb_neq; lia).
    replace (pos - 1 <? 0) with true by (symmetry; apply Z.ltb_lt; lia).
    reflexivity.
  - apply Z.ltb_ge in E0.
    destruct (pos =? 0) eqn:E1.
    + apply Z.eqb_eq in E1. subst pos.
      replace (0 - 1 <? 0) with true by reflexivity.
      replace (0 <? Z.succ (Z.of_nat (length cs))) with true
        by (symmetry; apply Z.ltb_lt; lia).
      reflexivity.
    + apply Z.eqb_neq in E1.
      replace (pos - 1 <? 0) with false by (symmetry; apply Z.ltb_ge; lia).
      replace (Z.to_nat pos) with (S (Z.to_nat (pos - 1))) by lia.
      cbn [firstn skipn app].
      replace (pos <? Z.succ (Z.of_nat (length cs)))
        with (pos - 1 <? Z.of_nat (length cs)); [reflexivity|].
      destruct (pos - 1 <? Z.of_nat (length cs)) eqn:E2; symmetry;
        [apply Z.ltb_lt in E2; apply Z.ltb_lt | apply Z.ltb_ge in E2; apply Z.ltb_ge];
        lia.
Qed.

Lemma digits_point_nil pos : digits_point pos [] = [].
Proof.
  unfold digits_point. cbn [length]. change (Z.of_nat 0) with 0.
  destruct (pos <? 0); [reflexivity|]. rewrite firstn_nil. reflexivity.
Qed.

Lemma digits_point_single pos c :
  digits_point pos [c] = (if pos =? 0 then ["."%char] else []) ++ [c].
Proof. rewrite digits_point_cons, digits_point_nil. reflexivity. Qed.

Lemma call_chars_cons d p calls :
  call_chars ((d, p) :: calls) = digits_at p :: call_chars calls.
Proof. reflexivity. Qed.

Lemma length_call_chars calls : length (call_chars calls) = length calls.
Proof. apply length_map. Qed.

(** After the first call, or with digits still to come before the
    point, the loop of generate writes the digits with the point where
    [k] puts it. *)
Lemma dragon4_generate_loop_buf fuel :
  forall nc count nc' count' calls,
    dragon4_generate_loop fuel nc count = Some (nc', count', calls) ->
    NC.out_first nc = false \/ 0 < NC.k nc - count ->
    forall L, NC.out_buf nc = out_cut L ->
      NC.out_buf nc' =
        out_cut (L ++ digits_point (NC.k nc - count) (call_chars calls)).
Proof.
  induction fuel as [|fuel IH]; intros nc count nc' count' calls H Hfirst;
    [discriminate|].
  rewrite dragon4_generate_loop_eq in H.
  destruct (dragon4_generate_round (S fuel) nc) as [[[[nc1 d] tc1] tc2]|] eqn:E;
    [|discriminate].
  apply dragon4_generate_round_frame in E. destruct E as ([Eb Ef] & Ek).
  assert (Hcond : forall nc2,
            NC.out_first nc2 = NC.out_first nc1 -> NC.k nc2 = NC.k nc1 ->
            (NC.k nc2 - count <=? 0) && NC.out_first nc2 = false).
  { intros nc2 Ef2 Ek2. rewrite Ef2, Ek2, Ef, Ek.
    destruct Hfirst as [-> | Hpos]; [apply andb_false_r|].
    replace (NC.k nc - count <=? 0) with false; [reflexivity|].
    symmetry. apply Z.leb_gt. exact Hpos. }
  assert (Hone : forall nc2 p,
            NC.out_buf nc2 = NC.out_buf nc1 ->
            NC.out_first nc2 = NC.out_first nc1 -> NC.k nc2 = NC.k nc1 ->
            Some (dragon4_output nc2 p count, count + 1, [(d, p)])
              = Some (nc', count', calls) ->
            forall L, NC.out_buf nc = out_cut L ->
              NC.out_buf nc' =
                out_cut (L ++
                  digits_point (NC.k nc - count) (call_chars calls))).
  { intros nc2 p Eb2 Ef2 Ek2 Heq L HL. injection Heq as <- <- <-.
    destruct (dragon4_output_buf nc2 p count) as (Hb & _).
    rewrite (Hb L) by congruence.
    rewrite (Hcond nc2 Ef2 Ek2), Ek2, Ek.
    rewrite call_chars_cons. change (call_chars []) with (@nil ascii).
    rewrite digits_point_single. reflexivity. }
  destruct tc1, tc2.
  - cbn zeta in H. destruct (bi_compare _ _ <? 0);
      refine (Hone _ _ _ _ _ H); reflexivity.
  - refine (Hone _ _ _ _ _ H); reflexivity.
  - refine (Hone _ _ _ _ _ H); reflexivity.
  - cbn zeta in H.
    destruct (dragon4_generate_loop fuel _ _) as [[[nc3 c3] calls3]|] eqn:E3;
      [|discriminate].
    injection H as <- <- <-.
    destruct (dragon4_output_buf nc1 d count) as (Hb & Hf & Hk).
    intros L HL.
    rewrite (IH _ _ _ _ _ E3 (or_introl Hf) _ (Hb L ltac:(congruence))).
    rewrite Hk, (Hcond nc1 eq_refl eq_refl), Ek.
    rewrite call_chars_cons, digits_point_cons.
    replace (NC.k nc - (count + 1)) with (NC.k nc - count - 1) by lia.
    rewrite <- !app_assoc. reflexivity.
Qed.

Lemma digits_point_written pos cs : pos < 0 -> digits_point pos cs = cs.
Proof.
  intros H. unfold digits_point.
  replace (pos <? 0) with true by (symmetry; apply Z.ltb_lt; exact H).
  reflexivity.
Qed.

(** From the first call on: with [k <= 0] the loop starts with [0.]
    and [-k] zeros. *)
Lemma dragon4_generate_loop_buf0 fuel nc nc' count' calls :
  dragon4_generate_loop fuel nc 0 = Some (nc', count', calls) ->
  NC.out_first nc = true ->
  forall L, NC.out_buf nc = out_cut L ->
    NC.out_buf nc' =
      out_cut (L ++
        (if NC.k nc <=? 0
         then ["0"; "."]%char ++ repeat "0"%char (Z.to_nat (- NC.k nc))
              ++ call_chars calls
         else digits_point (NC.k nc) (call_chars calls))).
Proof.
  intros H Hfirst.
  destruct (NC.k nc <=? 0) eqn:Ek0.
  2: { apply Z.leb_gt in Ek0. intros L HL.
       rewrite (dragon4_generate_loop_buf _ _ _ _ _ _ H ltac:(right; lia) L HL).
       rewrite Z.sub_0_r. reflexivity. }
  apply Z.leb_le in Ek0.
  destruct fuel as [|fuel]; [discriminate|].
  rewrite dragon4_generate_loop_eq in H.
  destruct (dragon4_generate_round (S fuel) nc) as [[[[nc1 d] tc1] tc2]|] eqn:E;
    [|discriminate].
  apply dragon4_generate_round_frame in E. destruct E as ([Eb Ef] & Ek).
  assert (Hcond : forall nc2,
            NC.out_first nc2 = NC.out_first nc1 -> NC.k nc2 = NC.k nc1 ->
            (NC.k nc2 - 0 <=? 0) && NC.out_first nc2 = true).
  { intros nc2 Ef2 Ek2. rewrite Ef2, Ek2, Ef, Ek, Hfirst, Z.sub_0_r.
    rewrite andb_true_r. apply Z.leb_le. exact Ek0. }
  assert (Hone : forall nc2 p,
            NC.out_buf nc2 = NC.out_buf nc1 ->
            NC.out_first nc2 = NC.out_first nc1 -> NC.k nc2 = NC.k nc1 ->
            Some (dragon4_output nc2 p 0, 0 + 1, [(d, p)])
              = Some (nc', count', calls) ->
            forall L, NC.out_buf nc = out_cut L ->
              NC.out_buf nc' =
                out_cut (L ++
                  ["0"; "."]%char ++ repeat "0"%char (Z.to_nat (- NC.k nc))
                  ++ call_chars calls)).
  { intros nc2 p Eb2 Ef2 Ek2 Heq L HL. injection Heq as <- <- <-.
    destruct (dragon4_output_buf nc2 p 0) as (Hb & _).
    rewrite (Hb L) by congruence.
    rewrite (Hcond nc2 Ef2 Ek2), Ek2, Ek.
    rewrite call_chars_cons. change (call_chars []) with (@nil ascii).
    rewrite <- !app_assoc. reflexivity. }
  destruct tc1, tc2.
  - cbn zeta in H. destruct (bi_compare _ _ <? 0);
      refine (Hone _ _ _ _ _ H); reflexivity.
  - refine (Hone _ _ _ _ _ H); reflexivity.
  - refine (Hone _ _ _ _ _ H); reflexivity.
  - cbn zeta in H.
    destruct (dragon4_generate_loop fuel _ _) as [[[nc3 c3] calls3]|] eqn:E3;
      [|discriminate].
    injection H as <- <- <-.
    destruct (dragon4_output_buf nc1 d 0) as (Hb & Hf & Hk).
    intros L HL.
    rewrite (dragon4_generate_loop_buf _ _ _ _ _ _ E3 (or_introl Hf)
               _ (Hb L ltac:(congruence))).
    rewrite Hk, (Hcond nc1 eq_refl eq_refl), Ek.
    rewrite digits_point_written by lia.
    rewrite call_chars_cons. rewrite <- !app_assoc. reflexivity.
Qed.

Lemma digits_point_layout k cs :
  0 < k ->
  digits_point k cs ++ repeat "0"%char (Z.to_nat (k - Z.of_nat (length cs)))
    = digits_layout k cs.
Proof.
  intros Hk. unfold digits_point, digits_layout.
  replace (k <? 0) with false by (symmetry; apply Z.ltb_ge; lia).
  replace (k <=? 0) with false by (symmetry; apply Z.leb_gt; lia).
  destruct (Z.of_nat (length cs) <=? k) eqn:E.
  - apply Z.leb_le in E.
    replace (k <? Z.of_nat (length cs)) with false
      by (symmetry; apply Z.ltb_ge; lia).
    rewrite firstn_all2 by lia. rewrite app_nil_r. reflexivity.
  - apply Z.leb_gt in E.
    replace (k <? Z.of_nat (length cs)) with true
      by (symmetry; apply Z.ltb_lt; lia).
    replace (Z.to_nat (k - Z.of_nat (length cs))) with 0%nat by lia.
    cbn [repeat]. rewrite app_nil_r. reflexivity.
Qed.

(** The buffer generate leaves: of what was written before and the
    digits it passed to [dragon4_output], laid out with [k] digits
    before the point, the part that lies within the array. *)
Lemma dragon4_generate_buf fuel nc nc2 calls :
  dragon4_generate fuel nc = Some (nc2, calls) ->
  NC.out_first nc = true ->
  forall L, NC.out_buf nc = out_cut L ->
    NC.out_buf nc2 =
      out_cut (L ++ digits_layout (NC.k nc) (call_chars calls)).
Proof.
  unfold dragon4_generate. intros H Hfirst L HL.
  destruct (dragon4_generate_loop fuel nc 0) as [[[nc1 c1] calls1]|] eqn:E;
    [|discriminate].
  injection H as <- <-.
  destruct (dragon4_generate_loop_calls _ _ _ _ _ _ E) as (_ & Hc & Hk & _).
  pose proof (dragon4_generate_loop_buf0 _ _ _ _ _ E Hfirst L HL) as Hb.
  unfold dragon4_finish. rewrite Hk.
  destruct (NC.k nc >=? 1) eqn:E1.
  - destruct (putchar_zeros_spec (NC.k nc - c1) nc1) as (_ & Hz & _).
    rewrite (Hz _ Hb).
    replace (NC.k nc <=? 0) with false by (symmetry; apply Z.leb_gt; lia).
    rewrite <- app_assoc. f_equal. f_equal.
    rewrite <- digits_point_layout by lia.
    rewrite length_call_chars. do 3 f_equal. lia.
  - rewrite Hb.
    replace (NC.k nc <=? 0) with true by (symmetry; apply Z.leb_le; lia).
    unfold digits_layout.
    replace (NC.k nc <=? 0) with true by (symmetry; apply Z.leb_le; lia).
    reflexivity.
Qed.

End Layout.

(** * Generate does not read the output buffer *)

Section Prepend.
Variable pre : list ascii.

Lemma putchar_prepend nc c :
  NUMCONV_PUTCHAR (prepend pre nc) c = prepend pre (NUMCONV_PUTCHAR nc c).
Proof.
  unfold NUMCONV_PUTCHAR, out_p_in_out_buf, prepend. cbn [NC.out_buf NC.set_out_buf].
  assert (Hlen : length (out_cut (pre ++ NC.out_buf nc))
                 = Nat.min sizeof_out_buf (length pre + length (NC.out_buf nc)))
    by (unfold out_cut; rewrite length_firstn, length_app; reflexivity).
  destruct (Nat.ltb_spec (length (NC.out_buf nc)) sizeof_out_buf) as [Hb|Hb];
    destruct (Nat.ltb_spec (length (out_cut (pre ++ NC.out_buf nc)))
                sizeof_out_buf) as [Hp|Hp];
    unfold NC.set_out_buf; cbn [NC.f NC.r NC.s NC.mp NC.mm NC.t1 NC.t2 NC.x
      NC.e NC.B NC.k NC.low_ok NC.high_ok NC.out_buf NC.out_first];
    f_equal; try lia.
  - rewrite app_assoc, !out_cut_id; [reflexivity | |];
      rewrite ?length_app; cbn [length]; lia.
  - rewrite app_assoc. unfold out_cut. rewrite (firstn_app _ (pre ++ _)).
    replace (sizeof_out_buf - length (pre ++ NC.out_buf nc))%nat with 0%nat
      by (rewrite length_app; lia).
    cbn [firstn]. rewrite app_nil_r. reflexivity.
Qed.

Lemma putchar_zeros_prepend n nc :
  putchar_zeros n (prepend pre nc) = prepend pre (putchar_zeros n nc).
Proof.
  unfold putchar_zeros. induction (Z.to_nat n) as [|m IH].
  - reflexivity.
  - rewrite !Nat.iter_succ, IH. apply putchar_prepend.
Qed.

Lemma dragon4_output_prepend nc d n :
  dragon4_output (prepend pre nc) d n = prepend pre (dragon4_output nc d n).
Proof.
  unfold dragon4_output. cbv zeta.
  change (NC.k (prepend pre nc)) with (NC.k nc).
  change (NC.out_first (prepend pre nc)) with (NC.out_first nc).
  destruct ((NC.k nc - n <=? 0) && NC.out_first nc).
  - rewrite !putchar_prepend.
    change (NC.k (prepend pre (NUMCONV_PUTCHAR (NUMCONV_PUTCHAR nc "0") ".")))
      with (NC.k (NUMCONV_PUTCHAR (NUMCONV_PUTCHAR nc "0") ".")).
    rewrite putchar_zeros_prepend, putchar_prepend. reflexivity.
  - destruct (NC.k nc - n =? 0); rewrite !putchar_prepend; reflexivity.
Qed.

Lemma dragon4_finish_prepend nc n :
  dragon4_finish (prepend pre nc) n = prepend pre (dragon4_finish nc n).
Proof.
  unfold dragon4_finish.
  change (NC.k (prepend pre nc)) with (NC.k nc).
  destruct (NC.k nc >=? 1); [apply putchar_zeros_prepend | reflexivity].
Qed.

Lemma dragon4_divloop_prepend fuel :
  forall nc d,
    dragon4_divloop fuel (prepend pre nc) d =
      match dragon4_divloop fuel nc d with
      | Some (nc', d') => Some (prepend pre nc', d')
      | None => None
      end.
Proof.
  induction fuel as [|fuel IH]; intros nc d; [reflexivity|].
  rewrite !dragon4_divloop_eq.
  change (NC.t1 (prepend pre nc)) with (NC.t1 nc).
  change (NC.s (prepend pre nc)) with (NC.s nc).
  destruct (bi_compare (NC.t1 nc) (NC.s nc) <? 0); [reflexivity|].
  unfold bi_sub_copy. cbv zeta.
  exact (IH (NC.set_t1 (bi_copy (bi_sub (NC.t1 nc) (NC.s nc)))
               (NC.set_t2 (bi_sub (NC.t1 nc) (NC.s nc)) nc)) (d + 1)).
Qed.

Lemma dragon4_generate_round_prepend fuel nc :
  dragon4_generate_round fuel (prepend pre nc) =
    match dragon4_generate_round fuel nc with
    | Some (nc', d, tc1, tc2) => Some (prepend pre nc', d, tc1, tc2)
    | None => None
    end.
Proof.
  unfold dragon4_generate_round. cbv zeta.
  change (NC.set_t1 (bi_mul_small (NC.r (prepend pre nc))
                       (wrap32 (NC.B (prepend pre nc))))
            (prepend pre nc))
    with (prepend pre (NC.set_t1 (bi_mul_small (NC.r nc) (wrap32 (NC.B nc))) nc)).
  rewrite dragon4_divloop_prepend.
  destruct (dragon4_divloop fuel _ 0) as [[nc1 d1]|]; reflexivity.
Qed.

Lemma dragon4_generate_loop_prepend fuel :
  forall nc count,
    dragon4_generate_loop fuel (prepend pre nc) count =
      match dragon4_generate_loop fuel nc count with
      | Some (nc', count', calls) => Some (prepend pre nc', count', calls)
      | None => None
      end.
Proof.
  induction fuel as [|fuel IH]; intros nc count; [reflexivity|].
  rewrite !dragon4_generate_loop_eq, dragon4_generate_round_prepend.
  destruct (dragon4_generate_round (S fuel) nc) as [[[[nc1 d] tc1] tc2]|];
    [|reflexivity].
  destruct tc1, tc2; cbv zeta.
  - change (NC.t1 (NC.set_t1 (bi_mul_small (NC.r (prepend pre nc1)) 2)
                     (prepend pre nc1)))
      with (NC.t1 (NC.set_t1 (bi_mul_small (NC.r nc1) 2) nc1)).
    change (NC.s (NC.set_t1 (bi_mul_small (NC.r (prepend pre nc1)) 2)
                    (prepend pre nc1)))
      with (NC.s (NC.set_t1 (bi_mul_small (NC.r nc1) 2) nc1)).
    change (NC.set_t1 (bi_mul_small (NC.r (prepend pre nc1)) 2)
              (prepend pre nc1))
      with (prepend pre (NC.set_t1 (bi_mul_small (NC.r nc1) 2) nc1)).
    destruct (bi_compare _ _ <? 0); rewrite dragon4_output_prepend;
      reflexivity.
  - rewrite dragon4_output_prepend. reflexivity.
  - rewrite dragon4_output_prepend. reflexivity.
  - rewrite dragon4_output_prepend, IH.
    destruct (dragon4_generate_loop fuel _ _) as [[[nc3 c3] calls3]|];
      reflexivity.
Qed.

Lemma dragon4_generate_prepend fuel nc :
  dragon4_generate fuel (prepend pre nc) =
    match dragon4_generate fuel nc with
    | Some (nc', calls) => Some (prepend pre nc', calls)
    | None => None
    end.
Proof.
  unfold dragon4_generate. rewrite dragon4_generate_loop_prepend.
  destruct (dragon4_generate_loop fuel nc 0) as [[[nc1 c1] calls1]|];
    [|reflexivity].
  rewrite dragon4_finish_prepend. reflexivity.
Qed.

End Prepend.

Section ScaleFrame.

Lemma scale_inc_out fuel :
  forall nc k nc' k',
    dragon4_scale_inc fuel nc k = Some (nc', k') ->
    NC.out_buf nc' = NC.out_buf nc.
Proof.
  induction fuel as [|fuel IH]; intros nc k nc' k' H; [discriminate|].
  rewrite dragon4_scale_inc_eq in H. cbv zeta in H.
  destruct (bi_compare _ _ >=? _).
  - unfold bi_mul_small_copy in H. cbv zeta in H.
    apply IH in H. exact H.
  - injection H as <- _. reflexivity.
Qed.

Lemma scale_dec_out fuel :
  forall nc k nc' k',
    dragon4_scale_dec fuel nc k = Some (nc', k') ->
    NC.out_buf nc' = NC.out_buf nc.
Proof.
  induction fuel as [|fuel IH]; intros nc k nc' k' H; [discriminate|].
  rewrite dragon4_scale_dec_eq in H. cbv zeta in H.
  destruct (bi_compare _ _ <=? _).
  - unfold bi_mul_small_copy in H. cbv zeta in H.
    apply IH in H. exact H.
  - injection H as <- _. reflexivity.
Qed.

(** Scale does not touch the output buffer. *)
Lemma dragon4_scale_out fuel nc nc' :
  dragon4_scale fuel nc = Some nc' -> NC.out_buf nc' = NC.out_buf nc.
Proof.
  unfold dragon4_scale. intros H.
  destruct (dragon4_scale_inc fuel nc 0) as [[nca ka]|] eqn:Ei; [|discriminate].
  apply scale_inc_out in Ei.
  destruct (ka >? 0).
  - injection H as <-. exact Ei.
  - destruct (dragon4_scale_dec fuel nca ka) as [[ncb kb]|] eqn:Ed;
      [|discriminate].
    apply scale_dec_out in Ed. injection H as <-.
    cbn [NC.out_buf NC.set_k]. congruence.
Qed.

End ScaleFrame.

(** * From the double to the digits *)

Section Arithmetic.

Lemma pow_cancel B n k X Y :
  0 < B -> 0 <= n -> 0 <= k ->
  (X * B ^ n <= Y * B ^ k <->
   X * B ^ Z.max 0 (n - k) <= Y * B ^ Z.max 0 (k - n)).
Proof.
  intros HB Hn Hk.
  destruct (Z_le_gt_dec k n) as [Hle | Hgt].
  - replace (Z.max 0 (n - k)) with (n - k) by lia.
    replace (Z.max 0 (k - n)) with 0 by lia.
    replace n with ((n - k) + k) at 1 by lia.
    rewrite Z.pow_add_r, Z.pow_0_r by lia.
    assert (0 < B ^ k) by (apply Z.pow_pos_nonneg; lia).
    rewrite Z.mul_assoc, Z.mul_1_r.
    split; intros H1.
    + apply (Z.mul_le_mono_pos_r _ _ (B ^ k)); assumption.
    + apply Z.mul_le_mono_pos_r; assumption.
  - replace (Z.max 0 (n - k)) with 0 by lia.
    replace (Z.max 0 (k - n)) with (k - n) by lia.
    replace k with ((k - n) + n) at 1 by lia.
    rewrite Z.pow_add_r, Z.pow_0_r by lia.
    assert (0 < B ^ n) by (apply Z.pow_pos_nonneg; lia).
    rewrite Z.mul_assoc, Z.mul_1_r.
    split; intros H1.
    + apply (Z.mul_le_mono_pos_r _ _ (B ^ n)); assumption.
    + apply Z.mul_le_mono_pos_r; assumption.
Qed.

(** From the gaps against [s] to half a unit in the last place. *)
Lemma half_ulp_arith R0 S0 MP0 MM0 m a b P U V :
  0 < S0 -> 0 < a -> 0 < b -> 0 <= U ->
  R0 * b = m * a * S0 -> 2 * MP0 * b = a * S0 -> 0 < MM0 <= MP0 ->
  (R0 - MM0) * U <= P * S0 * V -> P * S0 * V <= (R0 + MP0) * U ->
  (2 * m - 1) * a * U <= 2 * P * b * V /\
  2 * P * b * V <= (2 * m + 1) * a * U.
Proof.
  intros HS Ha Hb HU E1 E2 HM Hlo Hhi.
  assert (L1 : 2 * b * ((R0 - MM0) * U) <= 2 * b * (P * S0 * V))
    by (apply Z.mul_le_mono_nonneg_l; lia).
  assert (L2 : 2 * b * (P * S0 * V) <= 2 * b * ((R0 + MP0) * U))
    by (apply Z.mul_le_mono_nonneg_l; lia).
  assert (M1 : 2 * b * MM0 * U <= 2 * b * MP0 * U).
  { apply Z.mul_le_mono_nonneg_r; [lia|].
    apply Z.mul_le_mono_nonneg_l; lia. }
  assert (A1 : S0 * ((2 * m - 1) * a * U) <= S0 * (2 * P * b * V)).
  { replace (S0 * ((2 * m - 1) * a * U))
      with (2 * (m * a * S0) * U - (a * S0) * U) by ring.
    rewrite <- E1, <- E2.
    replace (S0 * (2 * P * b * V)) with (2 * b * (P * S0 * V)) by ring.
    replace (2 * b * ((R0 - MM0) * U))
      with (2 * (R0 * b) * U - 2 * b * MM0 * U) in L1 by ring.
    replace (2 * MP0 * b * U) with (2 * b * MP0 * U) by ring.
    lia. }
  assert (A2 : S0 * (2 * P * b * V) <= S0 * ((2 * m + 1) * a * U)).
  { replace (S0 * ((2 * m + 1) * a * U))
      with (2 * (m * a * S0) * U + (a * S0) * U) by ring.
    rewrite <- E1, <- E2.
    replace (S0 * (2 * P * b * V)) with (2 * b * (P * S0 * V)) by ring.
    replace (2 * b * ((R0 + MP0) * U))
      with (2 * (R0 * b) * U + 2 * MP0 * b * U) in L2 by ring.
    lia. }
  split; apply (Z.mul_le_mono_pos_l _ _ S0); assumption.
Qed.

Lemma pow_cancel_lt B n k X Y :
  0 < B -> 0 <= n -> 0 <= k ->
  (X * B ^ n < Y * B ^ k <->
   X * B ^ Z.max 0 (n - k) < Y * B ^ Z.max 0 (k - n)).
Proof.
  intros HB Hn Hk.
  destruct (Z_le_gt_dec k n) as [Hle | Hgt].
  - replace (Z.max 0 (n - k)) with (n - k) by lia.
    replace (Z.max 0 (k - n)) with 0 by lia.
    replace n with ((n - k) + k) at 1 by lia.
    rewrite Z.pow_add_r, Z.pow_0_r by lia.
    assert (0 < B ^ k) by (apply Z.pow_pos_nonneg; lia).
    rewrite Z.mul_assoc, Z.mul_1_r.
    split; intros H1.
    + apply (Z.mul_lt_mono_pos_r (B ^ k)); assumption.
    + apply Z.mul_lt_mono_pos_r; assumption.
  - replace (Z.max 0 (n - k)) with 0 by lia.
    replace (Z.max 0 (k - n)) with (k - n) by lia.
    replace k with ((k - n) + n) at 1 by lia.
    rewrite Z.pow_add_r, Z.pow_0_r by lia.
    assert (0 < B ^ n) by (apply Z.pow_pos_nonneg; lia).
    rewrite Z.mul_assoc, Z.mul_1_r.
    split; intros H1.
    + apply (Z.mul_lt_mono_pos_r (B ^ n)); assumption.
    + apply Z.mul_lt_mono_pos_r; assumption.
Qed.

Lemma half_ulp_arith_lt R0 S0 MP0 MM0 m a b P U V :
  0 < S0 -> 0 < a -> 0 < b -> 0 <= U ->
  R0 * b = m * a * S0 -> 2 * MP0 * b = a * S0 -> 0 < MM0 <= MP0 ->
  (R0 - MM0) * U < P * S0 * V ->
  (2 * m - 1) * a * U < 2 * P * b * V.
Proof.
  intros HS Ha Hb HU E1 E2 HM Hlo.
  assert (L1 : 2 * b * ((R0 - MM0) * U) < 2 * b * (P * S0 * V))
    by (apply Z.mul_lt_mono_pos_l; lia).
  assert (M1 : 2 * b * MM0 * U <= 2 * b * MP0 * U).
  { apply Z.mul_le_mono_nonneg_r; [lia|].
    apply Z.mul_le_mono_nonneg_l; lia. }
  assert (A1 : S0 * ((2 * m - 1) * a * U) < S0 * (2 * P * b * V)).
  { replace (S0 * ((2 * m - 1) * a * U))
      with (2 * (m * a * S0) * U - (a * S0) * U) by ring.
    rewrite <- E1, <- E2.
    replace (S0 * (2 * P * b * V)) with (2 * b * (P * S0 * V)) by ring.
    replace (2 * b * ((R0 - MM0) * U))
      with (2 * (R0 * b) * U - 2 * b * MM0 * U) in L1 by ring.
    replace (2 * MP0 * b * U) with (2 * b * MP0 * U) by ring.
    lia. }
  apply (Z.mul_lt_mono_pos_l S0); assumption.
Qed.

End Arithmetic.

Section Digits.

Variables (x : dbl) (radix : Z).
Hypothesis Hx : dbl_is_finite_pos x = true.
Hypothesis Hradix : 2 <= radix <= 36.

(** The whole slow path on a finite positive double: scale and
    generate finish; the buffer holds the sign and the digits laid out
    by [k]; the indices denote table entries, all but possibly the
    first below the radix; the number the digits denote is within half
    a unit in the last place of the double. *)
Lemma dragon4_digits (neg : bool) :
  exists n0 nc1 nc2 nc' count' calls,
    (forall fuel, (n0 <= fuel)%nat ->
       dragon4_scale fuel (dragon4_start x radix) = Some nc1 /\
       dragon4_generate_loop fuel
         (if neg then NUMCONV_PUTCHAR nc1 "-" else nc1) 0
         = Some (nc', count', calls) /\
       dragon4_generate fuel (if neg then NUMCONV_PUTCHAR nc1 "-" else nc1)
         = Some (nc2, calls)) /\
    (nc_ok nc1 /\ scaled nc1 /\ scaled_from (dragon4_start x radix) nc1 /\
     NC.B nc1 = radix /\ NC.out_buf nc1 = [] /\ NC.out_first nc1 = true /\
     NC.high_ok nc1 = Z.even (dbl_m x) /\ NC.low_ok nc1 = Z.even (dbl_m x)) /\
    NC.out_buf nc2 =
      out_cut ((if neg then ["-"%char] else []) ++
               digits_layout (NC.k nc1) (call_chars calls)) /\
    (exists d p rest,
       calls = (d, p) :: rest /\ 0 <= p <= radix /\ in_table p /\
       (p = radix -> R nc1 + MP nc1 = S_ nc1) /\
       Forall (fun c => 0 <= snd c <= radix - 1) rest) /\
    within_half_ulp (dbl_m x) (dbl_q x) radix
      (digits_val radix (map snd calls))
      (NC.k nc1 - Z.of_nat (length calls)) /\
    (Z.even (dbl_m x) = false ->
     let j := NC.k nc1 - Z.of_nat (length calls) in
     (2 * dbl_m x - 1) * 2 ^ Z.max 0 (dbl_q x) * radix ^ Z.max 0 (- j)
     < 2 * digits_val radix (map snd calls) * 2 ^ Z.max 0 (- dbl_q x)
       * radix ^ Z.max 0 j).
Proof.
  destruct (prepare_spec x Hx radix Hradix)
    as (Hok0 & Hsh0 & Hh0 & Hl0 & HB0 & Hbuf0 & Hfirst0).
  destruct (dragon4_scale_spec _ Hok0) as (n0 & Hn0).
  destruct (Hn0 n0 (Nat.le_refl _))
    as (nc1 & Heq1 & Hok1 & Hpar & Hout & Hsc & Hfrom).
  destruct Hpar as (PB & Pl & Ph & _). destruct Hout as (Ob & Of).
  assert (HB : NC.B nc1 = radix) by congruence.
  assert (Hbuf : NC.out_buf nc1 = []) by congruence.
  assert (Hfirst : NC.out_first nc1 = true) by congruence.
  assert (Hh : NC.high_ok nc1 = Z.even (dbl_m x)) by congruence.
  pose proof (shape_scaled _ _ _ Hsh0 Hfrom PB) as Hsh.
  set (nc1' := if neg then NUMCONV_PUTCHAR nc1 "-" else nc1).
  assert (Hsame : same_but_out nc1 nc1')
    by (subst nc1'; destruct neg;
        [apply putchar_spec | apply same_but_out_refl]).
  assert (Hbuf' : NC.out_buf nc1' = out_cut (if neg then ["-"%char] else []))
    by (subst nc1'; destruct neg;
        [apply (putchar_buf nc1 "-"%char []) | idtac]; rewrite Hbuf; reflexivity).
  assert (Hfirst' : NC.out_first nc1' = true)
    by (subst nc1'; destruct neg;
        [rewrite (proj2 (proj2 (putchar_spec nc1 "-"%char)))|]; exact Hfirst).
  destruct (same_but_out_nums _ _ Hsame) as (ER & ES & EP & EM).
  assert (HB' : NC.B nc1' = radix)
    by (destruct Hsame as (_ & _ & _ & _ & _ & _ & _ & _ & _ & -> & _); exact HB).
  assert (Hk' : NC.k nc1' = NC.k nc1)
    by (destruct Hsame as (_ & _ & _ & _ & _ & _ & _ & _ & _ & _ & -> & _);
        reflexivity).
  pose proof (same_but_out_ok _ _ Hsame Hok1) as Hok1'.
  pose proof (scaled_same _ _ Hsame Hsc) as Hsc'.
  pose proof (scaled_lt nc1' Hok1' Hsc') as Hlt'.
  pose proof (ok_s_pos nc1' Hok1') as Hs'.
  pose proof (ok_mm_pos nc1' Hok1') as Hmm'.
  set (n := Z.to_nat (S_ nc1')).
  destruct (dragon4_generate_loop_spec n nc1' 0 Hok1' Hlt')
    as (nc' & count' & calls & Heq & _).
  { pose proof (pow2_above (S_ nc1') n ltac:(lia) (Nat.le_refl _)).
    rewrite Z.pow_add_r by lia. nia. }
  assert (Hgen : dragon4_generate (n + 36) nc1'
                 = Some (dragon4_finish nc' count', calls))
    by (unfold dragon4_generate; rewrite Heq; reflexivity).
  exists (Nat.max n0 (n + 36)), nc1, (dragon4_finish nc' count'), nc', count',
    calls.
  split.
  { intros fuel Hfuel.
    split; [apply (dragon4_scale_mono _ _ _ Heq1); lia|].
    split; [apply (dragon4_generate_loop_mono _ _ _ _ Heq); lia|].
    apply (dragon4_generate_mono _ _ _ Hgen); lia. }
  assert (Hlw : NC.low_ok nc1 = Z.even (dbl_m x)) by congruence.
  split; [exact (conj Hok1 (conj Hsc (conj Hfrom (conj HB (conj Hbuf
                  (conj Hfirst (conj Hh Hlw)))))))|].
  split.
  { rewrite (dragon4_generate_buf _ _ _ _ Hgen Hfirst' _ Hbuf'), Hk'.
    reflexivity. }
  assert (Hle' : R nc1' + MP nc1' <= S_ nc1')
    by (unfold scaled in Hsc'; destruct (NC.high_ok nc1'); lia).
  split.
  { destruct (dragon4_generate_loop_indices _ _ _ _ _ _ Heq Hok1' Hlt' Hle')
      as (d & p & rest & Hc & Hp & Htie & Hrest).
    rewrite HB' in Hp, Htie, Hrest. rewrite ER, EP, ES in Htie.
    exists d, p, rest. split; [exact Hc|]. split; [exact Hp|].
    split; [|split; [exact Htie | exact Hrest]].
    unfold in_table. destruct (Z.eq_dec p 36) as [->|Hne]; [exfalso | lia].
    assert (HB36 : NC.B nc1 = 36) by lia.
    assert (E36 : 36 = radix) by lia.
    specialize (Htie E36).
    unfold scaled in Hsc. rewrite Hh in Hsc.
    destruct (Z.even (dbl_m x)) eqn:Ev; [lia|].
    apply (no_tie_radix36 (dbl_m x) nc1 Hsh HB36 Ev). exact Htie. }
  destruct (dragon4_generate_loop_interval _ _ _ _ _ _ Heq Hok1' Hlt')
    as (Hlo & Hhi).
  assert (Hlw' : NC.low_ok nc1' = Z.even (dbl_m x))
    by (destruct Hsame as (_ & _ & _ & _ & _ & _ & _ & _ & _ & _ & _ & -> & _);
        exact Hlw).
  pose proof (fun H : Z.even (dbl_m x) = false =>
                dragon4_generate_loop_interval_strict _ _ _ _ _ _ Heq Hok1' Hlt'
                  (eq_trans Hlw' H)) as Hst.
  cbv zeta in Hlo, Hhi, Hst. rewrite HB', ER, ES, EP, EM in *.
  destruct (prepare_ratios x Hx radix) as (E1 & E2 & E3 & E4).
  destruct (dbl_m_q_range x Hx) as (Hm & Hq).
  pose proof (ok_s_pos _ Hok0) as HS0. pose proof (ok_mp_pos _ Hok0) as HMP0.
  set (nc0 := dragon4_start x radix) in *.
  assert (HMle : 0 < MM nc0 <= MP nc0).
  { split; [exact E4|]. rewrite E3.
    destruct ((dbl_m x =? 2 ^ 52) && _); [|lia].
    apply Z.div_le_upper_bound; lia. }
  assert (Ha : 0 < 2 ^ Z.max 0 (dbl_q x)) by (apply Z.pow_pos_nonneg; lia).
  assert (Hb : 0 < 2 ^ Z.max 0 (- dbl_q x)) by (apply Z.pow_pos_nonneg; lia).
  set (P := digits_val radix (map snd calls)) in *.
  set (nn := Z.of_nat (length calls)) in *.
  assert (Hnn : 0 <= nn) by (subst nn; lia).
  unfold scaled_from in Hfrom. cbv zeta in Hfrom. rewrite HB0 in Hfrom.
  unfold within_half_ulp.
  destruct Hfrom as [(Hk & HR & HP & HM & HS) | (Hk & HS & HR & HP & HM)];
    rewrite HR, HP, HM, HS in *.
  - destruct (half_ulp_arith (R nc0) (S_ nc0) (MP nc0) (MM nc0) (dbl_m x)
                (2 ^ Z.max 0 (dbl_q x)) (2 ^ Z.max 0 (- dbl_q x)) P
                (radix ^ nn) (radix ^ NC.k nc1))
      as (A1 & A2); try assumption.
    + apply Z.pow_nonneg; lia.
    + replace (P * S_ nc0 * radix ^ NC.k nc1)
        with (P * (S_ nc0 * radix ^ NC.k nc1)) by ring. exact Hlo.
    + replace (P * S_ nc0 * radix ^ NC.k nc1)
        with (P * (S_ nc0 * radix ^ NC.k nc1)) by ring. exact Hhi.
    + cbv zeta. replace (- (NC.k nc1 - nn)) with (nn - NC.k nc1) by lia.
      split; [split|].
      * apply (pow_cancel radix nn (NC.k nc1)); [lia | lia | lia | exact A1].
      * apply (pow_cancel radix (NC.k nc1) nn); [lia | lia | lia | exact A2].
      * intros Hodd. specialize (Hst Hodd).
        apply (pow_cancel_lt radix nn (NC.k nc1)); [lia | lia | lia|].
        apply (half_ulp_arith_lt (R nc0) (S_ nc0) (MP nc0) (MM nc0));
          try assumption.
        -- apply Z.pow_nonneg; lia.
        -- replace (P * S_ nc0 * radix ^ NC.k nc1)
             with (P * (S_ nc0 * radix ^ NC.k nc1)) by ring. exact Hst.
  - cbv zeta.
    replace (Z.max 0 (- (NC.k nc1 - nn))) with (- NC.k nc1 + nn) by lia.
    replace (Z.max 0 (NC.k nc1 - nn)) with 0 by lia.
    rewrite Z.pow_0_r, Z.pow_add_r by lia.
    destruct (half_ulp_arith (R nc0) (S_ nc0) (MP nc0) (MM nc0) (dbl_m x)
                (2 ^ Z.max 0 (dbl_q x)) (2 ^ Z.max 0 (- dbl_q x)) P
                (radix ^ (- NC.k nc1) * radix ^ nn) 1)
      as (A1 & A2); try assumption.
    + apply Z.mul_nonneg_nonneg; apply Z.pow_nonneg; lia.
    + replace ((R nc0 - MM nc0) * (radix ^ (- NC.k nc1) * radix ^ nn))
        with ((R nc0 * radix ^ (- NC.k nc1) - MM nc0 * radix ^ (- NC.k nc1))
              * radix ^ nn) by ring.
      lia.
    + replace ((R nc0 + MP nc0) * (radix ^ (- NC.k nc1) * radix ^ nn))
        with ((R nc0 * radix ^ (- NC.k nc1) + MP nc0 * radix ^ (- NC.k nc1))
              * radix ^ nn) by ring.
      lia.
    + split; [split; [exact A1 | exact A2]|].
      intros Hodd. specialize (Hst Hodd).
      apply (half_ulp_arith_lt (R nc0) (S_ nc0) (MP nc0) (MM nc0));
        try assumption.
      * apply Z.mul_nonneg_nonneg; apply Z.pow_nonneg; lia.
      * replace ((R nc0 - MM nc0) * (radix ^ (- NC.k nc1) * radix ^ nn))
          with ((R nc0 * radix ^ (- NC.k nc1) - MM nc0 * radix ^ (- NC.k nc1))
                * radix ^ nn) by ring.
        lia.
Qed.

End Digits.

Section Returns.

(** From a context with [r < s] generate finishes, and more fuel does
    not change what it returns. *)
Lemma dragon4_generate_returns nc :
  nc_ok nc -> R nc < S_ nc ->
  exists nc' count' calls,
    forall fuel, (Z.to_nat (S_ nc) + 36 <= fuel)%nat ->
      dragon4_generate_loop fuel nc 0 = Some (nc', count', calls) /\
      dragon4_generate fuel nc = Some (dragon4_finish nc' count', calls).
Proof.
  intros Hok Hlt.
  pose proof (ok_s_pos nc Hok) as Hs. pose proof (ok_mm_pos nc Hok) as Hmm.
  set (n := Z.to_nat (S_ nc)).
  destruct (dragon4_generate_loop_spec n nc 0 Hok Hlt)
    as (nc' & count' & calls & Heq & _).
  { pose proof (pow2_above (S_ nc) n ltac:(lia) (Nat.le_refl _)).
    rewrite Z.pow_add_r by lia. nia. }
  exists nc', count', calls. intros fuel Hfuel.
  pose proof (dragon4_generate_loop_mono _ _ _ _ Heq fuel Hfuel) as Heq'.
  split; [exact Heq'|].
  unfold dragon4_generate. rewrite Heq'. reflexivity.
Qed.

Lemma digits_layout_forall (Q : ascii -> Prop) k ds :
  Q "0"%char -> Q "."%char -> Forall Q ds -> Forall Q (digits_layout k ds).
Proof.
  intros H0 Hd Hds. unfold digits_layout.
  assert (Hz : forall n, Forall Q (repeat "0"%char n))
    by (induction n; constructor; assumption).
  destruct (k <=? 0).
  - repeat (apply Forall_app; split); auto.
  - destruct (Z.of_nat (length ds) <=? k).
    + apply Forall_app; split; auto.
    + repeat (apply Forall_app; split); auto.
      * apply Forall_take, Hds.
      * apply Forall_drop, Hds.
Qed.

Lemma c_str_terminated buf :
  Forall (fun c => Ascii.eqb c "000"%char = false) buf ->
  c_str (buf ++ ["000"%char]) = buf.
Proof.
  intros H. rewrite (c_str_app _ _ H). cbn [c_str Ascii.eqb].
  apply app_nil_r.
Qed.

End Returns.

(** * Scale with a radix below 2 *)

Section Stuck.

(** With [B] 0 or 1 the first loop of scale, once entered, goes on:
    multiplying [s] by [B] does not make it larger. *)
Lemma scale_inc_stuck fuel :
  forall nc k,
    bi_wf (NC.r nc) -> bi_wf (NC.mp nc) -> bi_wf (NC.s nc) ->
    0 <= NC.B nc <= 1 ->
    (if NC.high_ok nc then S_ nc <= R nc + MP nc else S_ nc < R nc + MP nc) ->
    dragon4_scale_inc fuel nc k = None.
Proof.
  induction fuel as [|fuel IH]; intros nc k Hr Hmp Hs HB Hc; [reflexivity|].
  rewrite dragon4_scale_inc_eq. cbv zeta. nc_cbn.
  rewrite ?(wrap32_small (NC.B nc)) by lia.
  pose proof (bi_add_wf _ _ Hr Hmp) as Hw.
  pose proof (bi_add_val _ _ (proj1 Hr) (proj1 Hmp)) as Hv.
  assert (Hgo : (bi_compare (bi_add (NC.r nc) (NC.mp nc)) (NC.s nc)
                 >=? (if NC.high_ok nc then 0 else 1)) = true).
  { destruct (NC.high_ok nc).
    - rewrite (bi_compare_ge0 _ _ Hw Hs), Hv. apply Z.leb_le. exact Hc.
    - rewrite (bi_compare_ge1 _ _ Hw Hs), Hv. apply Z.ltb_lt. exact Hc. }
  rewrite Hgo. unfold bi_mul_small_copy, bi_copy. cbv zeta.
  destruct (bi_mul_small_spec (NC.s nc) (NC.B nc) (proj1 Hs) ltac:(lia))
    as (Hw' & Hv' & _).
  pose proof (bi_val_range _ (proj1 Hs)) as Hrange.
  apply IH; nc_cbn; try assumption.
  unfold S_, R, MP in *. nc_cbn. rewrite Hv'.
  assert (bi_val (NC.s nc) * NC.B nc <= bi_val (NC.s nc)) by nia.
  destruct (NC.high_ok nc); lia.
Qed.

(** With [B] 0 or 1 the second loop of scale, once entered, goes on:
    multiplying [r] and [m+] by [B] does not make them larger. *)
Lemma scale_dec_stuck fuel :
  forall nc k,
    bi_wf (NC.r nc) -> bi_wf (NC.mp nc) -> bi_wf (NC.s nc) ->
    0 <= NC.B nc <= 1 ->
    (if NC.high_ok nc then (R nc + MP nc) * NC.B nc < S_ nc
     else (R nc + MP nc) * NC.B nc <= S_ nc) ->
    dragon4_scale_dec fuel nc k = None.
Proof.
  induction fuel as [|fuel IH]; intros nc k Hr Hmp Hs HB Hc; [reflexivity|].
  rewrite dragon4_scale_dec_eq. cbv zeta. nc_cbn.
  rewrite ?(wrap32_small (NC.B nc)) by lia.
  pose proof (bi_add_wf _ _ Hr Hmp) as Hw.
  pose proof (bi_add_val _ _ (proj1 Hr) (proj1 Hmp)) as Hv.
  destruct (bi_mul_small_spec _ (NC.B nc) (proj1 Hw) ltac:(lia))
    as (Hw2 & Hv2 & _).
  rewrite Hv in Hv2.
  assert (Hgo : (bi_compare
                   (bi_mul_small (bi_add (NC.r nc) (NC.mp nc)) (NC.B nc))
                   (NC.s nc)
                 <=? (if NC.high_ok nc then -1 else 0)) = true).
  { destruct (NC.high_ok nc).
    - rewrite (bi_compare_lem1 _ _ Hw2 Hs), Hv2. apply Z.ltb_lt. exact Hc.
    - rewrite (bi_compare_le0 _ _ Hw2 Hs), Hv2. apply Z.leb_le. exact Hc. }
  rewrite Hgo. unfold bi_mul_small_copy, bi_copy. cbv zeta. nc_cbn.
  destruct (bi_mul_small_spec (NC.r nc) (NC.B nc) (proj1 Hr) ltac:(lia))
    as (Hwr & Hvr & _).
  destruct (bi_mul_small_spec (NC.mp nc) (NC.B nc) (proj1 Hmp) ltac:(lia))
    as (Hwp & Hvp & _).
  pose proof (bi_val_range _ (proj1 Hr)) as Hrr.
  pose proof (bi_val_range _ (proj1 Hmp)) as Hrp.
  apply IH; nc_cbn; try assumption.
  unfold S_, R, MP in *. nc_cbn. rewrite Hvr, Hvp.
  assert ((bi_val (NC.r nc) * NC.B nc + bi_val (NC.mp nc) * NC.B nc) * NC.B nc
          <= (bi_val (NC.r nc) + bi_val (NC.mp nc)) * NC.B nc) by nia.
  destruct (NC.high_ok nc); lia.
Qed.

(** So scale never finishes with such a radix. *)
Lemma dragon4_scale_stuck fuel nc :
  bi_wf (NC.r nc) -> bi_wf (NC.mp nc) -> bi_wf (NC.s nc) ->
  0 <= NC.B nc <= 1 ->
  dragon4_scale fuel nc = None.
Proof.
  intros Hr Hmp Hs HB. unfold dragon4_scale.
  destruct fuel as [|fuel]; [reflexivity|].
  rewrite dragon4_scale_inc_eq. cbv zeta. nc_cbn.
  rewrite ?(wrap32_small (NC.B nc)) by lia.
  pose proof (bi_add_wf _ _ Hr Hmp) as Hw.
  pose proof (bi_add_val _ _ (proj1 Hr) (proj1 Hmp)) as Hv.
  destruct (bi_compare (bi_add (NC.r nc) (NC.mp nc)) (NC.s nc)
            >=? (if NC.high_ok nc then 0 else 1)) eqn:Hgo.
  - unfold bi_mul_small_copy, bi_copy. cbv zeta.
    destruct (bi_mul_small_spec (NC.s nc) (NC.B nc) (proj1 Hs) ltac:(lia))
      as (Hw' & Hv' & _).
    pose proof (bi_val_range _ (proj1 Hs)) as Hrange.
    rewrite scale_inc_stuck; [reflexivity | | | | |]; nc_cbn; try assumption.
    unfold S_, R, MP in *. nc_cbn. rewrite Hv'.
    assert (bi_val (NC.s nc) * NC.B nc <= bi_val (NC.s nc)) by nia.
    destruct (NC.high_ok nc).
    + rewrite (bi_compare_ge0 _ _ Hw Hs), Hv in Hgo. apply Z.leb_le in Hgo. lia.
    + rewrite (bi_compare_ge1 _ _ Hw Hs), Hv in Hgo. apply Z.ltb_lt in Hgo. lia.
  - change (0 >? 0) with false. cbv iota.
    rewrite scale_dec_stuck; [reflexivity | | | | |]; nc_cbn; try assumption.
    unfold S_, R, MP in *. nc_cbn.
    pose proof (bi_val_range _ (proj1 Hr)) as Hrr.
    pose proof (bi_val_range _ (proj1 Hmp)) as Hrp.
    assert ((bi_val (NC.r nc) + bi_val (NC.mp nc)) * NC.B nc
            <= bi_val (NC.r nc) + bi_val (NC.mp nc)) by nia.
    destruct (NC.high_ok nc).
    + rewrite (bi_compare_ge0 _ _ Hw Hs), Hv in Hgo. apply Z.leb_gt in Hgo. lia.
    + rewrite (bi_compare_ge1 _ _ Hw Hs), Hv in Hgo. apply Z.ltb_ge in Hgo. lia.
Qed.

End Stuck.

(** * How much is written to the output buffer *)

Section Sizes.

Lemma pow_index_bound b0 B j c J :
  0 < b0 <= B -> 0 <= J -> B ^ j < c -> c <= b0 ^ J -> j < J.
Proof.
  intros HB HJ Hlt Hc.
  destruct (Z_lt_le_dec j J) as [H | H]; [exact H | exfalso].
  assert (b0 ^ J <= b0 ^ j) by (apply Z.pow_le_mono_r; lia).
  assert (b0 ^ j <= B ^ j) by (apply Z.pow_le_mono_l; lia).
  lia.
Qed.

Lemma length_digits_layout k cs :
  Z.of_nat (length (digits_layout k cs)) =
    if k <=? 0 then 2 + - k + Z.of_nat (length cs)
    else if Z.of_nat (length cs) <=? k then k
    else Z.of_nat (length cs) + 1.
Proof.
  unfold digits_layout.
  destruct (k <=? 0) eqn:E0.
  - apply Z.leb_le in E0.
    rewrite !length_app, repeat_length. cbn [length]. lia.
  - apply Z.leb_gt in E0.
    destruct (Z.of_nat (length cs) <=? k) eqn:E1.
    + apply Z.leb_le in E1. rewrite length_app, repeat_length. lia.
    + apply Z.leb_gt in E1.
      rewrite !length_app, length_take, length_drop. cbn [length]. lia.
Qed.

End Sizes.

Section Bounds.

Variables (x : dbl) (radix : Z).
Hypothesis Hx : dbl_is_finite_pos x = true.
Hypothesis Hradix : 2 <= radix <= 36.

Variable nc1 : NC.ctx.
Hypothesis Hok1 : nc_ok nc1.
Hypothesis Hsc : scaled nc1.
Hypothesis Hfrom : scaled_from (dragon4_start x radix) nc1.
Hypothesis HB : NC.B nc1 = radix.

Lemma scaled_weak :
  S_ nc1 <= radix * (R nc1 + MP nc1) /\ R nc1 + MP nc1 <= S_ nc1.
Proof.
  unfold scaled in Hsc. rewrite HB in Hsc.
  destruct (NC.high_ok nc1); lia.
Qed.

(** The integer part has at most [1 + log_B 2^1024] digits. *)
Lemma scale_k_upper : 0 < NC.k nc1 -> radix ^ (NC.k nc1 - 1) < 2 ^ 1024.
Proof.
  intros Hk.
  destruct scaled_weak as (Hlo & _).
  destruct (prepare_spec x Hx radix Hradix) as (Hok0 & _ & _ & _ & HB0 & _).
  destruct (prepare_gaps x Hx radix) as (_ & HR0 & HMP0).
  destruct (prepare_ratios x Hx radix) as (_ & E2 & _).
  destruct (dbl_m_q_range x Hx) as (Hm & Hq).
  pose proof (ok_s_pos _ Hok0) as HS0.
  unfold scaled_from in Hfrom. cbv zeta in Hfrom. rewrite HB0 in Hfrom.
  set (nc0 := dragon4_start x radix) in *.
  destruct Hfrom as [(_ & HR & HP & _ & HS) | (Hk' & _)]; [|lia].
  rewrite HR, HP, HS, HR0 in Hlo.
  replace (NC.k nc1) with (Z.succ (NC.k nc1 - 1)) in Hlo by lia.
  rewrite Z.pow_succ_r in Hlo by lia.
  set (X := radix ^ (NC.k nc1 - 1)) in *.
  assert (HX : 0 <= X) by (apply Z.pow_nonneg; lia).
  set (a := 2 ^ Z.max 0 (dbl_q x)) in *.
  set (b := 2 ^ Z.max 0 (- dbl_q x)) in *.
  assert (Ha : 0 < a <= 2 ^ 971).
  { split; [apply Z.pow_pos_nonneg; lia|].
    apply Z.pow_le_mono_r; lia. }
  assert (Hb : 1 <= b).
  { change 1 with (2 ^ 0). apply Z.pow_le_mono_r; lia. }
  assert (L1 : S_ nc0 * X <= (2 * dbl_m x + 1) * MP nc0) by nia.
  assert (L2 : a * (S_ nc0 * X) <= a * ((2 * dbl_m x + 1) * MP nc0))
    by (apply Z.mul_le_mono_nonneg_l; lia).
  replace (a * (S_ nc0 * X)) with ((a * S_ nc0) * X) in L2 by ring.
  rewrite <- E2 in L2.
  assert (L3 : MP nc0 * (2 * b * X) <= MP nc0 * (a * (2 * dbl_m x + 1)))
    by (replace (MP nc0 * (2 * b * X)) with (2 * MP nc0 * b * X) by ring;
        replace (MP nc0 * (a * (2 * dbl_m x + 1)))
          with (a * ((2 * dbl_m x + 1) * MP nc0)) by ring; exact L2).
  apply Z.mul_le_mono_pos_l in L3; [|exact HMP0].
  assert (L4 : 2 * X <= 2 * b * X).
  { apply Z.mul_le_mono_nonneg_r; [exact HX | lia]. }
  assert (L5 : a * (2 * dbl_m x + 1) <= 2 ^ 971 * (2 * dbl_m x + 1))
    by (apply Z.mul_le_mono_nonneg_r; lia).
  change (2 ^ 1024) with (2 ^ 971 * 2 ^ 53). lia.
Qed.

(** The leading zeros of a fraction number at most [log_B 2^1074]. *)
Lemma scale_k_lower : NC.k nc1 <= 0 -> radix ^ (- NC.k nc1) < 2 ^ 1074.
Proof.
  intros Hk.
  destruct scaled_weak as (_ & Hhi).
  destruct (prepare_spec x Hx radix Hradix) as (Hok0 & _ & _ & _ & HB0 & _).
  destruct (prepare_gaps x Hx radix) as (_ & HR0 & HMP0).
  destruct (prepare_ratios x Hx radix) as (_ & E2 & _).
  destruct (dbl_m_q_range x Hx) as (Hm & Hq).
  pose proof (ok_s_pos _ Hok0) as HS0.
  unfold scaled_from in Hfrom. cbv zeta in Hfrom. rewrite HB0 in Hfrom.
  set (nc0 := dragon4_start x radix) in *.
  destruct Hfrom as [(Hk' & _) | (_ & HS & HR & HP & _)]; [lia|].
  rewrite HR, HP, HS, HR0 in Hhi.
  set (Y := radix ^ (- NC.k nc1)) in *.
  assert (HY : 0 < Y) by (apply Z.pow_pos_nonneg; lia).
  set (a := 2 ^ Z.max 0 (dbl_q x)) in *.
  set (b := 2 ^ Z.max 0 (- dbl_q x)) in *.
  assert (Ha : 1 <= a).
  { change 1 with (2 ^ 0). apply Z.pow_le_mono_r; lia. }
  assert (Hb : 0 < b <= 2 ^ 1074).
  { split; [apply Z.pow_pos_nonneg; lia|].
    apply Z.pow_le_mono_r; lia. }
  assert (L1 : (2 * dbl_m x + 1) * MP nc0 * Y <= S_ nc0) by nia.
  assert (L2 : a * ((2 * dbl_m x + 1) * MP nc0 * Y) <= a * S_ nc0)
    by (apply Z.mul_le_mono_nonneg_l; lia).
  rewrite <- E2 in L2.
  assert (L3 : MP nc0 * (a * (2 * dbl_m x + 1) * Y) <= MP nc0 * (2 * b))
    by (replace (MP nc0 * (a * (2 * dbl_m x + 1) * Y))
          with (a * ((2 * dbl_m x + 1) * MP nc0 * Y)) by ring;
        replace (MP nc0 * (2 * b)) with (2 * MP nc0 * b) by ring; exact L2).
  apply Z.mul_le_mono_pos_l in L3; [|exact HMP0].
  assert (L4 : 3 * Y <= a * (2 * dbl_m x + 1) * Y).
  { apply Z.mul_le_mono_nonneg_r; [lia|].
    replace 3 with (1 * 3) by reflexivity.
    apply Z.mul_le_mono_nonneg; lia. }
  lia.
Qed.

(** The digits number at most [2 + log_B 2^55]. *)
Lemma digits_count fuel nc1' nc' count' calls :
  same_but_out nc1 nc1' ->
  dragon4_generate_loop fuel nc1' 0 = Some (nc', count', calls) ->
  2 <= Z.of_nat (length calls) ->
  radix ^ (Z.of_nat (length calls) - 2) < 2 ^ 55.
Proof.
  intros Hsame Heq Hn.
  destruct scaled_weak as (Hlo & Hhi).
  destruct (same_but_out_nums _ _ Hsame) as (ER & ES & EP & EM).
  assert (HB' : NC.B nc1' = radix)
    by (destruct Hsame as (_ & _ & _ & _ & _ & _ & _ & _ & _ & -> & _); exact HB).
  pose proof (same_but_out_ok _ _ Hsame Hok1) as Hok1'.
  pose proof (scaled_lt nc1 Hok1 Hsc) as Hlt.
  destruct (dragon4_generate_loop_run _ _ _ _ _ _ Heq Hok1'
              ltac:(rewrite ER, ES; exact Hlt))
    as (_ & _ & _ & _ & _ & _ & _ & _ & _ & _ & _ & Hmm).
  cbv zeta in Hmm. specialize (Hmm Hn). rewrite HB', EM, ES in Hmm.
  destruct (prepare_spec x Hx radix Hradix) as (Hok0 & _ & _ & _ & HB0 & _).
  destruct (prepare_gaps x Hx radix) as (HG & HR0 & HMP0).
  destruct (dbl_m_q_range x Hx) as (Hm & Hq).
  pose proof (ok_mm_pos _ Hok0) as HMM0.
  unfold scaled_from in Hfrom. cbv zeta in Hfrom. rewrite HB0 in Hfrom.
  set (nc0 := dragon4_start x radix) in *.
  replace (Z.of_nat (length calls) - 1)
    with (Z.succ (Z.of_nat (length calls) - 2)) in Hmm by lia.
  rewrite Z.pow_succ_r in Hmm by lia.
  set (W := radix ^ (Z.of_nat (length calls) - 2)) in *.
  assert (HW : 0 <= W) by (apply Z.pow_nonneg; lia).
  assert (L1 : radix * (MM nc1 * W) < radix * (R nc1 + MP nc1)) by lia.
  apply Z.mul_lt_mono_pos_l in L1; [|lia].
  assert (L2 : MM nc0 * W < (2 * dbl_m x + 1) * MP nc0).
  { destruct Hfrom as [(_ & HR & HP & HM & _) | (Hk & _ & HR & HP & HM)];
      rewrite HR, HP, HM, HR0 in L1.
    - lia.
    - set (Y := radix ^ (- NC.k nc1)) in *.
      assert (HY : 0 < Y) by (apply Z.pow_pos_nonneg; lia).
      apply (Z.mul_lt_mono_pos_l Y); [exact HY|]. lia. }
  assert (L3 : MM nc0 * W < MM nc0 * (2 * (2 * dbl_m x + 1)))
    by (destruct HG as [E | E]; rewrite E in L2; nia).
  apply Z.mul_lt_mono_pos_l in L3; [|exact HMM0].
  change (2 ^ 55) with 36028797018963968.
  change (2 ^ 53) with 9007199254740992 in Hm. lia.
Qed.

End Bounds.

(** * A bound on the iterations *)

Section Iterations.

Variables (x : dbl) (radix : Z).
Hypothesis Hx : dbl_is_finite_pos x = true.
Hypothesis Hradix : 2 <= radix <= 36.

(** The prepared [r + m+] against [s]: between [2^-1074] and
    [2^1024]. *)
Lemma prepared_range :
  let nc := dragon4_start x radix in
  R nc + MP nc < S_ nc * 2 ^ 1024 /\ S_ nc < (R nc + MP nc) * 2 ^ 1074.
Proof.
  intros nc.
  destruct (prepare_spec x Hx radix Hradix) as (Hok0 & _).
  destruct (prepare_gaps x Hx radix) as (_ & HR0 & HMP0).
  destruct (prepare_ratios x Hx radix) as (_ & E2 & _).
  destruct (dbl_m_q_range x Hx) as (Hm & Hq).
  pose proof (ok_s_pos _ Hok0) as HS0.
  fold nc in Hok0, HR0, HMP0, E2, HS0.
  set (a := 2 ^ Z.max 0 (dbl_q x)) in *.
  set (b := 2 ^ Z.max 0 (- dbl_q x)) in *.
  assert (Ha : 1 <= a <= 2 ^ 971).
  { split; [change 1 with (2 ^ 0)|]; apply Z.pow_le_mono_r; lia. }
  assert (Hb : 1 <= b <= 2 ^ 1074).
  { split; [change 1 with (2 ^ 0)|]; apply Z.pow_le_mono_r; lia. }
  rewrite HR0.
  replace (2 * dbl_m x * MP nc + MP nc) with ((2 * dbl_m x + 1) * MP nc)
    by ring.
  split.
  - apply (Z.mul_lt_mono_pos_l a); [lia|].
    replace (a * (S_ nc * 2 ^ 1024)) with ((a * S_ nc) * 2 ^ 1024) by ring.
    rewrite <- E2.
    replace (a * ((2 * dbl_m x + 1) * MP nc))
      with (MP nc * (a * (2 * dbl_m x + 1))) by ring.
    replace (2 * MP nc * b * 2 ^ 1024) with (MP nc * (2 * b * 2 ^ 1024))
      by ring.
    apply Z.mul_lt_mono_pos_l; [exact HMP0|].
    assert (a * (2 * dbl_m x + 1) <= 2 ^ 971 * (2 * dbl_m x + 1))
      by (apply Z.mul_le_mono_nonneg_r; lia).
    assert (2 * 1 * 2 ^ 1024 <= 2 * b * 2 ^ 1024)
      by (apply Z.mul_le_mono_nonneg_r; lia).
    change (2 ^ 1024) with (2 ^ 971 * 2 ^ 53) in *. lia.
  - apply (Z.mul_lt_mono_pos_l a); [lia|].
    rewrite <- E2.
    replace (a * ((2 * dbl_m x + 1) * MP nc * 2 ^ 1074))
      with (MP nc * (a * (2 * dbl_m x + 1) * 2 ^ 1074)) by ring.
    replace (2 * MP nc * b) with (MP nc * (2 * b)) by ring.
    apply Z.mul_lt_mono_pos_l; [exact HMP0|].
    assert (1 * 3 <= a * (2 * dbl_m x + 1))
      by (apply Z.mul_le_mono_nonneg; lia).
    assert (3 * 2 ^ 1074 <= a * (2 * dbl_m x + 1) * 2 ^ 1074)
      by (apply Z.mul_le_mono_nonneg_r; lia).
    lia.
Qed.

(** Scale needs at most 1100 iterations of either loop. *)
Lemma dragon4_scale_within :
  exists nc1, dragon4_scale 1100 (dragon4_start x radix) = Some nc1.
Proof.
  destruct (prepare_spec x Hx radix Hradix) as (Hok0 & _).
  destruct prepared_range as (Hup & Hlo). cbv zeta in Hup, Hlo.
  set (nc0 := dragon4_start x radix) in *.
  pose proof (ok_s_pos _ Hok0) as HS0. pose proof (ok_mp_pos _ Hok0) as HMP0.
  pose proof (bi_val_range _ (proj1 (ok_r _ Hok0))) as [HR0 _].
  fold (R nc0) in HR0.
  destruct (scale_inc_spec 1099 nc0 0 Hok0) as
    (nca & ka & Heqa & Hoka & Hpara & _ & Hka & Hra & Hmpa & _ & HSa & _).
  { change (Z.of_nat 1099) with 1099.
    assert (S_ nc0 * 2 ^ 1024 <= S_ nc0 * 2 ^ 1099)
      by (apply Z.mul_le_mono_nonneg_l; [lia|];
          apply Z.pow_le_mono_r; lia).
    lia. }
  unfold dragon4_scale.
  change 1100%nat with (S 1099). rewrite Heqa.
  destruct (ka >? 0) eqn:Ek; [eexists; reflexivity|].
  assert (ka = 0) by lia. subst ka.
  rewrite Z.sub_0_r, Z.pow_0_r, Z.mul_1_r in HSa.
  destruct (scale_dec_spec 1099 nca 0 Hoka) as (ncb & kb & Heqb & _).
  { unfold R, MP. rewrite Hra, Hmpa. fold (R nc0). fold (MP nc0).
    rewrite HSa. change (Z.of_nat 1099 + 1) with 1100.
    assert ((R nc0 + MP nc0) * 2 ^ 1074 <= (R nc0 + MP nc0) * 2 ^ 1100)
      by (apply Z.mul_le_mono_nonneg_l; [lia|];
          apply Z.pow_le_mono_r; lia).
    lia. }
  rewrite Heqb. eexists. reflexivity.
Qed.

Variable nc1 : NC.ctx.
Hypothesis Hok1 : nc_ok nc1.
Hypothesis Hsc : scaled nc1.
Hypothesis Hfrom : scaled_from (dragon4_start x radix) nc1.
Hypothesis HB : NC.B nc1 = radix.

(** After scale [s] is below [2^61] times [m-]. *)
Lemma scaled_gap : S_ nc1 <= MM nc1 * 2 ^ 61.
Proof.
  destruct (scaled_weak radix nc1 Hsc HB) as (Hlo & _).
  destruct (prepare_spec x Hx radix Hradix) as (Hok0 & _ & _ & _ & HB0 & _).
  destruct (prepare_gaps x Hx radix) as (HG & HR0 & HMP0).
  destruct (dbl_m_q_range x Hx) as (Hm & _).
  pose proof (ok_mm_pos _ Hok0) as HMM0.
  pose proof (ok_mm_pos _ Hok1) as HMM1.
  unfold scaled_from in Hfrom. cbv zeta in Hfrom. rewrite HB0 in Hfrom.
  set (nc0 := dragon4_start x radix) in *.
  assert (H0 : R nc0 + MP nc0 <= MM nc0 * (2 * (2 * dbl_m x + 1))).
  { rewrite HR0. destruct HG as [E | E]; rewrite E; nia. }
  assert (H1 : R nc1 + MP nc1 <= MM nc1 * (2 * (2 * dbl_m x + 1))).
  { destruct Hfrom as [(_ & HR & HP & HM & _) | (Hk & _ & HR & HP & HM)];
      rewrite HR, HP, HM.
    - exact H0.
    - set (Y := radix ^ (- NC.k nc1)) in *.
      assert (HY : 0 <= Y) by (apply Z.pow_nonneg; lia).
      replace (R nc0 * Y + MP nc0 * Y) with ((R nc0 + MP nc0) * Y) by ring.
      replace (MM nc0 * Y * (2 * (2 * dbl_m x + 1)))
        with (MM nc0 * (2 * (2 * dbl_m x + 1)) * Y) by ring.
      apply Z.mul_le_mono_nonneg_r; assumption. }
  assert (H2 : radix * (R nc1 + MP nc1)
               <= 36 * (MM nc1 * (2 * (2 * dbl_m x + 1))))
    by (apply Z.mul_le_mono_nonneg; lia).
  assert (H3 : MM nc1 * (36 * (2 * (2 * dbl_m x + 1))) <= MM nc1 * 2 ^ 61).
  { apply Z.mul_le_mono_nonneg_l; [lia|].
    change (2 ^ 61) with 2305843009213693952.
    change (2 ^ 53) with 9007199254740992 in Hm. lia. }
  lia.
Qed.

(** Generate needs at most 96 iterations of either loop. *)
Lemma dragon4_generate_within nc1' :
  same_but_out nc1 nc1' ->
  exists nc2 calls, dragon4_generate 96 nc1' = Some (nc2, calls).
Proof.
  intros Hsame.
  destruct (same_but_out_nums _ _ Hsame) as (ER & ES & EP & EM).
  pose proof (same_but_out_ok _ _ Hsame Hok1) as Hok1'.
  pose proof (scaled_lt nc1 Hok1 Hsc) as Hlt.
  destruct (dragon4_generate_loop_spec 60 nc1' 0 Hok1')
    as (nc' & count' & calls & Heq & _).
  - rewrite ER, ES. exact Hlt.
  - rewrite ES, EM. change (Z.of_nat 60 + 1) with 61. exact scaled_gap.
  - exists (dragon4_finish nc' count'), calls.
    unfold dragon4_generate. change 96%nat with (60 + 36)%nat.
    rewrite Heq. reflexivity.
Qed.

End Iterations.

(** * The push of the output buffer *)

Section Push.

(** What the call does once scale and generate have finished: it
    pushes the characters written and the NUL when they fit the array,
    and has no result otherwise. *)
Lemma stringify_of_digits x radix digits_ n0 nc1 nc2 calls chars :
  dbl_is_finite_nonzero x = true -> fast_path (dbl_abs x) radix = None ->
  (forall fuel, (n0 <= fuel)%nat ->
     dragon4_scale fuel (dragon4_start (dbl_abs x) radix) = Some nc1 /\
     dragon4_generate fuel
       (if dbl_ltb_zero x then NUMCONV_PUTCHAR nc1 "-" else nc1)
       = Some (nc2, calls)) ->
  NC.out_buf nc2 = out_cut chars ->
  forall fuel, (n0 <= fuel)%nat ->
    duk_numconv_stringify fuel x radix digits_ =
      if (length chars <? sizeof_out_buf)%nat
      then Some (duk_push_string (chars ++ ["000"%char]))
      else None.
Proof.
  intros Hx Hfast Hrun Hbuf fuel Hfuel.
  rewrite (stringify_finite fuel x radix digits_ Hx), Hfast.
  destruct (Hrun fuel Hfuel) as (Hs & Hg). rewrite Hs, Hg, Hbuf.
  destruct (Nat.ltb_spec (length chars) sizeof_out_buf) as [H | H].
  - rewrite out_cut_id by lia.
    replace (length chars <? sizeof_out_buf)%nat with true
      by (symmetry; apply Nat.ltb_lt; exact H).
    reflexivity.
  - replace (length (out_cut chars) <? sizeof_out_buf)%nat with false;
      [reflexivity|].
    symmetry. apply Nat.ltb_ge. unfold out_cut. rewrite length_firstn. lia.
Qed.

(** With a radix of 5 or more, the sign, the digits as laid out and
    the NUL take 492 bytes at most. *)
Lemma written_fits x radix nc1 fuel nc1' nc' count' calls sign :
  dbl_is_finite_pos x = true -> 5 <= radix <= 36 ->
  nc_ok nc1 -> scaled nc1 -> scaled_from (dragon4_start x radix) nc1 ->
  NC.B nc1 = radix -> same_but_out nc1 nc1' ->
  dragon4_generate_loop fuel nc1' 0 = Some (nc', count', calls) ->
  (length sign <= 1)%nat ->
  (length (sign ++ digits_layout (NC.k nc1) (call_chars calls)) <= 491)%nat.
Proof.
  intros Hpos Hradix Hok1 Hsc Hfrom HB Hsame Hl Hsign.
  assert (Hradix' : 2 <= radix <= 36) by lia.
  rewrite length_app.
  pose proof (length_digits_layout (NC.k nc1) (call_chars calls)) as HL.
  rewrite length_call_chars in HL.
  assert (Hn : Z.of_nat (length calls) <= 25).
  { destruct (Z_lt_le_dec (Z.of_nat (length calls)) 2) as [H | H]; [lia|].
    pose proof (digits_count x radix Hpos Hradix' nc1 Hok1 Hsc Hfrom HB
                  _ _ _ _ _ Hsame Hl H) as Hc.
    assert (Hp : 2 ^ 55 <= 5 ^ 24) by (apply Z.leb_le; vm_compute; reflexivity).
    pose proof (pow_index_bound 5 radix _ _ 24 ltac:(lia) ltac:(lia) Hc Hp).
    lia. }
  assert (Hk : - 462 <= NC.k nc1 <= 442).
  { destruct (Z_lt_le_dec 0 (NC.k nc1)) as [H | H].
    - pose proof (scale_k_upper x radix Hpos Hradix' nc1 Hsc Hfrom HB H) as Hc.
      assert (Hp : 2 ^ 1024 <= 5 ^ 442)
        by (apply Z.leb_le; vm_compute; reflexivity).
      pose proof (pow_index_bound 5 radix _ _ 442 ltac:(lia) ltac:(lia) Hc Hp).
      lia.
    - pose proof (scale_k_lower x radix Hpos Hradix' nc1 Hsc Hfrom HB H) as Hc.
      assert (Hp : 2 ^ 1074 <= 5 ^ 463)
        by (apply Z.leb_le; vm_compute; reflexivity).
      pose proof (pow_index_bound 5 radix _ _ 463 ltac:(lia) ltac:(lia) Hc Hp).
      lia. }
  destruct (NC.k nc1 <=? 0) eqn:E0.
  - apply Z.leb_le in E0. lia.
  - apply Z.leb_gt in E0.
    destruct (Z.of_nat (length calls) <=? NC.k nc1); lia.
Qed.

Lemma sign_length (neg : bool) :
  (length (if neg then ["-"%char] else []) <= 1)%nat.
Proof. destruct neg; cbn [length]; lia. Qed.

Lemma sign_not_nul (neg : bool) :
  Forall (fun c => Ascii.eqb c "000"%char = false)
    (if neg then ["-"%char] else []).
Proof. destruct neg; repeat constructor. Qed.

(** What the buffer holds stays in it through generate. *)
Lemma dragon4_generate_frame fuel nc nc2 calls :
  dragon4_generate fuel nc = Some (nc2, calls) ->
  exists ext, forall L, NC.out_buf nc = out_cut L ->
    NC.out_buf nc2 = out_cut (L ++ ext).
Proof.
  unfold dragon4_generate. intros H.
  destruct (dragon4_generate_loop fuel nc 0) as [[[nc1 c1] calls1]|] eqn:E;
    [|discriminate].
  injection H as <- <-.
  destruct (dragon4_generate_loop_calls _ _ _ _ _ _ E) as (_ & _ & _ & ext & Hb).
  destruct (dragon4_finish_frame nc1 c1) as (ext' & Hb').
  exists (ext ++ ext'). intros L HL. rewrite app_assoc. apply Hb', Hb, HL.
Qed.

(** With a radix of 5 or more the call returns. *)
Lemma stringify_returns_from_radix_5 x radix digits_ :
  dbl_is_finite_nonzero x = true -> 5 <= radix <= 36 ->
  exists n0 p, forall fuel, (n0 <= fuel)%nat ->
    duk_numconv_stringify fuel x radix digits_ = Some p.
Proof.
  intros Hx Hradix.
  pose proof (dbl_abs_pos x Hx) as Hpos.
  assert (Hradix' : 2 <= radix <= 36) by lia.
  destruct (fast_path (dbl_abs x) radix) as [uval|] eqn:Hfast.
  { exists 0%nat, (duk_push_sprintf (dbl_ltb_zero x) uval). intros fuel _.
    rewrite (stringify_finite fuel x radix digits_ Hx), Hfast. reflexivity. }
  destruct (dragon4_digits (dbl_abs x) radix Hpos Hradix' (dbl_ltb_zero x))
    as (n0 & nc1 & nc2 & nc' & count' & calls & Hrun &
        (Hok1 & Hsc & Hfrom & HB & _) & Hbuf & _ & _).
  destruct (Hrun n0 (Nat.le_refl _)) as (_ & Hl & _).
  assert (Hsame : same_but_out nc1
            (if dbl_ltb_zero x then NUMCONV_PUTCHAR nc1 "-" else nc1))
    by (destruct (dbl_ltb_zero x);
        [apply putchar_spec | apply same_but_out_refl]).
  pose proof (written_fits (dbl_abs x) radix nc1 _ _ _ _ calls
                (if dbl_ltb_zero x then ["-"%char] else [])
                Hpos Hradix Hok1 Hsc Hfrom HB Hsame Hl (sign_length _)) as Hfit.
  eexists n0, _. intros fuel Hfuel.
  rewrite (stringify_of_digits x radix digits_ n0 nc1 nc2 calls _ Hx Hfast
             ltac:(intros f Hf; destruct (Hrun f Hf) as (Hs & _ & Hg);
                   split; assumption) Hbuf fuel Hfuel).
  replace (length _ <? sizeof_out_buf)%nat with true
    by (symmetry; apply Nat.ltb_lt; unfold sizeof_out_buf; lia).
  reflexivity.
Qed.

End Push.

(** * What the bigint operations guarantee *)

Lemma skipn_zeros x n :
  (forall i, (n <= i < length x)%nat -> limb x i = 0) ->
  skipn n x = repeat 0 (length x - n).
Proof.
  revert n. induction x as [|a x IH]; intros n H.
  - destruct n; reflexivity.
  - destruct n as [|n].
    + cbn [skipn length Nat.sub repeat].
      assert (Ha : a = 0) by (apply (H 0%nat); cbn [length]; lia).
      assert (Hx : skipn 0 x = repeat 0 (length x - 0)).
      { apply IH. intros i Hi. apply (H (S i)). cbn [length]. lia. }
      rewrite Nat.sub_0_r in Hx. cbn [skipn] in Hx. rewrite <- Hx, Ha.
      reflexivity.
    + cbn [skipn length Nat.sub]. apply IH.
      intros i Hi. apply (H (S i)). cbn [length]. lia.
Qed.

(** X1.  [bi_normalize] only drops zero limbs from the top: its result is
    normalized, stands for the same number, and an already normalized
    bigint is returned unchanged (so normalizing twice is normalizing
    once); a bigint of zero limbs only becomes the empty bigint
    ([n = 0]). *)
Theorem bi_normalize_drops_top_zeros x :
  bi_is_normalized (bi_normalize x) = true /\
  bi_val (bi_normalize x) = bi_val x /\
  x = bi_normalize x ++ repeat 0 (length x - length (bi_normalize x)) /\
  bi_normalize (bi_normalize x) = bi_normalize x /\
  bi_normalize (repeat 0 (length x)) = [].
Proof.
  split; [apply bi_normalize_normalized|].
  split; [apply bi_normalize_val|].
  assert (Hz : bi_normalize (repeat 0 (length x)) = []).
  { apply bi_wf_zero.
    - apply bi_normalize_wf, limbs_ok_repeat.
    - rewrite bi_normalize_val. apply bi_val_repeat. }
  split; [|split; [apply bi_normalize_id, bi_normalize_normalized | exact Hz]].
  rewrite length_bi_normalize. unfold bi_normalize.
  rewrite <- skipn_zeros.
  - symmetry. apply firstn_skipn.
  - intros i Hi. apply (bi_normalize_loop_zeros x (length x)). lia.
Qed.

(** X2.  On normalized operands with 32-bit limbs, [bi_add] gives the
    normalized bigint of the sum (the carry out of the top limb becomes a
    new limb), and the order of the operands does not matter. *)
Theorem bi_add_sum x y :
  bi_wf x -> bi_wf y ->
  bi_wf (bi_add x y) /\
  bi_val (bi_add x y) = bi_val x + bi_val y /\
  (Nat.max (length x) (length y) <= length (bi_add x y)
     <= S (Nat.max (length x) (length y)))%nat /\
  bi_add x y = bi_add y x.
Proof.
  intros Hx Hy.
  pose proof (bi_add_wf x y Hx Hy) as Hw.
  pose proof (bi_add_wf y x Hy Hx) as Hw'.
  destruct (bi_add_spec x y (proj1 Hx) (proj1 Hy)) as (_ & Hv & Hl).
  pose proof (bi_add_val y x (proj1 Hy) (proj1 Hx)) as Hv'.
  split; [exact Hw|]. split; [exact Hv|]. split; [lia|].
  apply bi_wf_inj; [exact Hw | exact Hw' | lia].
Qed.

Lemma bi_add_sum_witness :
  bi_wf [0xffffffff] /\ bi_wf [1; 0xffffffff] /\
  bi_wf (bi_add [0xffffffff] [1; 0xffffffff]) /\
  bi_val (bi_add [0xffffffff] [1; 0xffffffff])
    = bi_val [0xffffffff] + bi_val [1; 0xffffffff] /\
  (Nat.max (length [0xffffffff]%Z) (length [1; 0xffffffff]%Z)
     <= length (bi_add [0xffffffff]%Z [1; 0xffffffff]%Z)
     <= S (Nat.max (length [0xffffffff]%Z) (length [1; 0xffffffff]%Z)))%nat /\
  bi_add [0xffffffff] [1; 0xffffffff] = bi_add [1; 0xffffffff] [0xffffffff].
Proof.
  assert (H1 : bi_wf [0xffffffff])
    by (split; [repeat (constructor; [lia|]); constructor | reflexivity]).
  assert (H2 : bi_wf [1; 0xffffffff])
    by (split; [repeat (constructor; [lia|]); constructor | reflexivity]).
  split; [exact H1|]. split; [exact H2|].
  exact (bi_add_sum [0xffffffff] [1; 0xffffffff] H1 H2).
Defined.

(** X3.  On normalized operands with [y <= x], [bi_sub] gives the
    normalized bigint of the difference; equal operands cancel to the
    empty bigint ([n = 0]). *)
Theorem bi_sub_difference x y :
  bi_wf x -> bi_wf y -> bi_val y <= bi_val x ->
  bi_wf (bi_sub x y) /\
  bi_val (bi_sub x y) = bi_val x - bi_val y /\
  (length (bi_sub x y) <= length x)%nat /\
  (bi_val y = bi_val x -> bi_sub x y = []).
Proof.
  intros Hx Hy Hle.
  destruct (bi_sub_spec x y Hx Hy Hle) as (Hw & Hv).
  split; [exact Hw|]. split; [exact Hv|]. split.
  - apply bi_wf_val_le_length; [exact Hw | exact Hx|].
    pose proof (bi_val_range y (proj1 Hy)). lia.
  - intros E. apply bi_wf_zero; [exact Hw | lia].
Qed.

Lemma bi_sub_difference_witness :
  bi_wf [0; 0; 1] /\ bi_wf [1] /\ bi_val [1] <= bi_val [0; 0; 1] /\
  bi_wf (bi_sub [0; 0; 1] [1]) /\
  bi_val (bi_sub [0; 0; 1] [1]) = bi_val [0; 0; 1] - bi_val [1] /\
  (length (bi_sub [0; 0; 1]%Z [1]%Z) <= length [0; 0; 1]%Z)%nat /\
  (bi_val [1] = bi_val [0; 0; 1] -> bi_sub [0; 0; 1] [1] = []).
Proof.
  assert (H1 : bi_wf [0; 0; 1])
    by (split; [repeat (constructor; [lia|]); constructor | reflexivity]).
  assert (H2 : bi_wf [1])
    by (split; [repeat (constructor; [lia|]); constructor | reflexivity]).
  assert (H3 : bi_val [1] <= bi_val [0; 0; 1]) by (vm_compute; discriminate).
  split; [exact H1|]. split; [exact H2|]. split; [exact H3|].
  exact (bi_sub_difference [0; 0; 1] [1] H1 H2 H3).
Defined.

(** X4.  When the requirement [x >= y] of [bi_sub] is broken (with [y] no
    longer than [x]), nothing fails: the borrow out of the top limb is
    dropped and the result stands for [x - y + 2^(32 * n)], [n] the
    number of limbs of [x]. *)
Theorem bi_sub_wraps_below_zero x y :
  limbs_ok x -> limbs_ok y -> (length y <= length x)%nat ->
  bi_val x < bi_val y ->
  bi_wf (bi_sub x y) /\
  bi_val (bi_sub x y) = bi_val x - bi_val y + wt (length x).
Proof.
  intros Hx Hy Hl Hlt.
  destruct (bi_sub_loop_spec x y Hx Hy Hl (length x) 0%nat 0 [])
    as (z & tmp & E & Hlz & Hz & Htmp & Hv);
    [reflexivity | lia | lia | apply limbs_ok_nil |].
  unfold bi_sub. rewrite E. cbn [fst].
  split; [apply bi_normalize_wf, Hz|].
  rewrite bi_normalize_val.
  change (skipn 0 x) with x in Hv. change (skipn 0 y) with y in Hv.
  cbn [bi_val] in Hv. rewrite wt_0 in Hv.
  pose proof (bi_val_range z Hz) as Hr. rewrite Hlz in Hr.
  pose proof (wt_pos (length x)).
  assert (Ht : tmp = -1 \/ tmp = 0) by lia.
  destruct Ht as [-> | ->]; lia.
Qed.

Lemma bi_sub_wraps_below_zero_witness :
  limbs_ok [1; 2] /\ limbs_ok [2; 2] /\
  (length [2; 2]%Z <= length [1; 2]%Z)%nat /\ bi_val [1; 2] < bi_val [2; 2] /\
  bi_wf (bi_sub [1; 2] [2; 2]) /\
  bi_val (bi_sub [1; 2] [2; 2])
    = bi_val [1; 2] - bi_val [2; 2] + wt (length [1; 2]).
Proof.
  assert (H1 : limbs_ok [1; 2]) by (repeat (constructor; [lia|]); constructor).
  assert (H2 : limbs_ok [2; 2]) by (repeat (constructor; [lia|]); constructor).
  assert (H3 : (length [2; 2]%Z <= length [1; 2]%Z)%nat) by (cbn; lia).
  assert (H4 : bi_val [1; 2] < bi_val [2; 2]) by reflexivity.
  split; [exact H1|]. split; [exact H2|]. split; [exact H3|].
  split; [exact H4|].
  exact (bi_sub_wraps_below_zero [1; 2] [2; 2] H1 H2 H3 H4).
Defined.

(** X5.  Subtraction undoes addition: on normalized operands,
    [bi_sub (bi_add x y) y] is [x] again, limb for limb. *)
Theorem bi_sub_bi_add x y :
  bi_wf x -> bi_wf y -> bi_sub (bi_add x y) y = x.
Proof.
  intros Hx Hy.
  pose proof (bi_add_wf x y Hx Hy) as Hw.
  pose proof (bi_add_val x y (proj1 Hx) (proj1 Hy)) as Hv.
  pose proof (bi_val_range x (proj1 Hx)).
  destruct (bi_sub_spec (bi_add x y) y Hw Hy ltac:(lia)) as (Hw' & Hv').
  apply bi_wf_inj; [exact Hw' | exact Hx | lia].
Qed.

Lemma bi_sub_bi_add_witness :
  bi_wf [0xffffffff] /\ bi_wf [1; 0xffffffff] /\
  bi_sub (bi_add [0xffffffff] [1; 0xffffffff]) [1; 0xffffffff] = [0xffffffff].
Proof.
  assert (H1 : bi_wf [0xffffffff])
    by (split; [repeat (constructor; [lia|]); constructor | reflexivity]).
  assert (H2 : bi_wf [1; 0xffffffff])
    by (split; [repeat (constructor; [lia|]); constructor | reflexivity]).
  split; [exact H1|]. split; [exact H2|].
  exact (bi_sub_bi_add [0xffffffff] [1; 0xffffffff] H1 H2).
Defined.

(** X6.  On operands with 32-bit limbs, [bi_mul] gives the normalized
    bigint of the product, of at most [x->n + y->n] limbs, whatever the
    order of the operands; a zero operand gives the empty bigint. *)
Theorem bi_mul_product x y :
  limbs_ok x -> limbs_ok y ->
  bi_wf (bi_mul x y) /\
  bi_val (bi_mul x y) = bi_val x * bi_val y /\
  (length (bi_mul x y) <= length x + length y)%nat /\
  bi_mul x y = bi_mul y x /\
  (bi_val x = 0 \/ bi_val y = 0 -> bi_mul x y = []).
Proof.
  intros Hx Hy.
  destruct (bi_mul_spec x y Hx Hy) as (Hw & Hv & Hl).
  destruct (bi_mul_spec y x Hy Hx) as (Hw' & Hv' & _).
  split; [exact Hw|]. split; [exact Hv|]. split; [exact Hl|]. split.
  - apply bi_wf_inj; [exact Hw | exact Hw' | lia].
  - intros H0. apply bi_wf_zero; [exact Hw | nia].
Qed.

Lemma bi_mul_product_witness :
  limbs_ok [0xffffffff; 0xffffffff] /\ limbs_ok [0xffffffff; 7] /\
  bi_wf (bi_mul [0xffffffff; 0xffffffff] [0xffffffff; 7]) /\
  bi_val (bi_mul [0xffffffff; 0xffffffff] [0xffffffff; 7])
    = bi_val [0xffffffff; 0xffffffff] * bi_val [0xffffffff; 7] /\
  (length (bi_mul [0xffffffff; 0xffffffff]%Z [0xffffffff; 7]%Z)
     <= length [0xffffffff; 0xffffffff]%Z + length [0xffffffff; 7]%Z)%nat /\
  bi_mul [0xffffffff; 0xffffffff] [0xffffffff; 7]
    = bi_mul [0xffffffff; 7] [0xffffffff; 0xffffffff] /\
  (bi_val [0xffffffff; 0xffffffff] = 0 \/ bi_val [0xffffffff; 7] = 0 ->
   bi_mul [0xffffffff; 0xffffffff] [0xffffffff; 7] = []).
Proof.
  assert (H1 : limbs_ok [0xffffffff; 0xffffffff])
    by (repeat (constructor; [lia|]); constructor).
  assert (H2 : limbs_ok [0xffffffff; 7])
    by (repeat (constructor; [lia|]); constructor).
  split; [exact H1|]. split; [exact H2|].
  exact (bi_mul_product [0xffffffff; 0xffffffff] [0xffffffff; 7] H1 H2).
Defined.

(** X7.  [bi_mul_small] multiplies by a [uint32_t]: the result is the
    normalized bigint of [x * y], with at most one limb more than [x];
    [y = 0] gives the empty bigint. *)
Theorem bi_mul_small_product x v :
  limbs_ok x -> 0 <= v < 2 ^ 32 ->
  bi_wf (bi_mul_small x v) /\
  bi_val (bi_mul_small x v) = bi_val x * v /\
  (length (bi_mul_small x v) <= S (length x))%nat /\
  (v = 0 -> bi_mul_small x v = []).
Proof.
  intros Hx Hv.
  destruct (bi_mul_small_spec x v Hx Hv) as (Hw & Hval & Hl).
  split; [exact Hw|]. split; [exact Hval|]. split; [exact Hl|].
  intros E. apply bi_wf_zero; [exact Hw | nia].
Qed.

Lemma bi_mul_small_product_witness :
  limbs_ok [0xffffffff; 0xffffffff] /\ 0 <= 36 < 2 ^ 32 /\
  bi_wf (bi_mul_small [0xffffffff; 0xffffffff] 36) /\
  bi_val (bi_mul_small [0xffffffff; 0xffffffff] 36)
    = bi_val [0xffffffff; 0xffffffff] * 36 /\
  (length (bi_mul_small [0xffffffff; 0xffffffff]%Z 36%Z)
     <= S (length [0xffffffff; 0xffffffff]%Z))%nat /\
  (36 = 0 -> bi_mul_small [0xffffffff; 0xffffffff] 36 = []).
Proof.
  assert (H1 : limbs_ok [0xffffffff; 0xffffffff])
    by (repeat (constructor; [lia|]); constructor).
  assert (H2 : 0 <= 36 < 2 ^ 32) by lia.
  split; [exact H1|]. split; [exact H2|].
  exact (bi_mul_small_product [0xffffffff; 0xffffffff] 36 H1 H2).
Defined.

(** X8.  On normalized operands [bi_compare] is the sign of [x - y]:
    [-1], [0] or [1]; it answers [0] only on identical bigints, and
    swapping the operands negates it. *)
Theorem bi_compare_sign x y :
  bi_wf x -> bi_wf y ->
  bi_compare x y = Z.sgn (bi_val x - bi_val y) /\
  (bi_compare x y = 0 <-> x = y) /\
  bi_compare y x = - bi_compare x y.
Proof.
  intros Hx Hy.
  assert (H1 : bi_compare x y = Z.sgn (bi_val x - bi_val y))
    by (destruct (bi_compare_spec x y Hx Hy) as [[E H]|[[E H]|[E H]]];
        rewrite E; lia).
  assert (H2 : bi_compare y x = Z.sgn (bi_val y - bi_val x))
    by (destruct (bi_compare_spec y x Hy Hx) as [[E H]|[[E H]|[E H]]];
        rewrite E; lia).
  split; [exact H1|]. split; [|lia].
  split.
  - intros E. apply bi_wf_inj; [exact Hx | exact Hy | lia].
  - intros ->. lia.
Qed.

Lemma bi_compare_sign_witness :
  bi_wf [5; 1] /\ bi_wf [0xffffffff] /\
  bi_compare [5; 1] [0xffffffff]
    = Z.sgn (bi_val [5; 1] - bi_val [0xffffffff]) /\
  (bi_compare [5; 1] [0xffffffff] = 0 <-> [5; 1] = [0xffffffff]) /\
  bi_compare [0xffffffff] [5; 1] = - bi_compare [5; 1] [0xffffffff].
Proof.
  assert (H1 : bi_wf [5; 1])
    by (split; [repeat (constructor; [lia|]); constructor | reflexivity]).
  assert (H2 : bi_wf [0xffffffff])
    by (split; [repeat (constructor; [lia|]); constructor | reflexivity]).
  split; [exact H1|]. split; [exact H2|].
  exact (bi_compare_sign [5; 1] [0xffffffff] H1 H2).
Defined.

(** X9.  The tests decide what their names say: on 32-bit limbs
    [bi_is_even] tells whether the number is even, normalized or not;
    on a normalized bigint [bi_is_zero] tells whether it is zero and
    [bi_is_2to52] whether it is [2^52]. *)
Theorem bi_tests_decide x :
  limbs_ok x ->
  bi_is_even x = Z.even (bi_val x) /\
  (bi_is_normalized x = true ->
   bi_is_zero x = (bi_val x =? 0) /\
   bi_is_2to52 x = (bi_val x =? 2 ^ 52)).
Proof.
  intros Hl. split; [apply bi_is_even_spec, Hl|].
  intros Hn. assert (Hx : bi_wf x) by (split; assumption).
  split.
  - unfold bi_is_zero. destruct x as [|a x'].
    + reflexivity.
    + pose proof (bi_wf_pos _ Hx ltac:(discriminate)).
      cbn [length Nat.eqb]. symmetry. apply Z.eqb_neq. lia.
  - destruct (Nat.eq_dec (length x) 2%nat) as [E|E].
    + apply bi_is_2to52_val; [apply Hx | exact E].
    + assert (F : bi_is_2to52 x = false).
      { unfold bi_is_2to52. apply Nat.eqb_neq in E. rewrite E. reflexivity. }
      rewrite F. symmetry. apply Z.eqb_neq. intros Hv.
      apply E.
      assert (H2 : bi_wf [0; 1048576])
        by (split; [repeat (constructor; [lia|]); constructor | reflexivity]).
      rewrite (bi_wf_inj x [0; 1048576] Hx H2); [reflexivity|].
      rewrite Hv. reflexivity.
Qed.

Lemma bi_tests_decide_witness :
  limbs_ok [0; 0x100000] /\
  bi_is_even [0; 0x100000] = Z.even (bi_val [0; 0x100000]) /\
  (bi_is_normalized [0; 0x100000] = true ->
   bi_is_zero [0; 0x100000] = (bi_val [0; 0x100000] =? 0) /\
   bi_is_2to52 [0; 0x100000] = (bi_val [0; 0x100000] =? 2 ^ 52)).
Proof.
  assert (H1 : limbs_ok [0; 0x100000])
    by (repeat (constructor; [lia|]); constructor).
  split; [exact H1|].
  exact (bi_tests_decide [0; 0x100000] H1).
Defined.

(** X10.  For [y >= 0], [bi_twoexp] gives the normalized bigint of [2^y]:
    [y / 32 + 1] limbs, all zero but the top one, which is
    [2^(y mod 32)]. *)
Theorem bi_twoexp_power y :
  0 <= y ->
  bi_wf (bi_twoexp y) /\ bi_val (bi_twoexp y) = 2 ^ y /\
  Z.of_nat (length (bi_twoexp y)) = y / 32 + 1 /\
  bi_twoexp y = repeat 0 (Z.to_nat (y / 32)) ++ [2 ^ (y mod 32)].
Proof.
  intros Hy.
  split; [apply bi_twoexp_wf, Hy|]. split; [apply bi_twoexp_val, Hy|].
  rewrite length_bi_twoexp by exact Hy.
  rewrite Z.quot_div_nonneg by lia.
  assert (0 <= y / 32) by (apply Z.div_pos; lia).
  split; [lia|].
  rewrite twoexp_shape by exact Hy. rewrite Z.quot_div_nonneg by lia.
  generalize (Z.to_nat (y / 32)) as n. intros n.
  induction n as [|n IH].
  - reflexivity.
  - change (repeat 0 (S (S n))) with (0 :: repeat 0 (S n)).
    change (<[S n := 2 ^ (y mod 32)]> (0 :: repeat 0 (S n)))
      with (0 :: <[n := 2 ^ (y mod 32)]> (repeat 0 (S n))).
    rewrite IH. reflexivity.
Qed.

Lemma bi_twoexp_power_witness :
  0 <= 52 /\
  bi_wf (bi_twoexp 52) /\ bi_val (bi_twoexp 52) = 2 ^ 52 /\
  Z.of_nat (length (bi_twoexp 52)) = 52 / 32 + 1 /\
  bi_twoexp 52 = repeat 0 (Z.to_nat (52 / 32)) ++ [2 ^ (52 mod 32)].
Proof.
  assert (H : 0 <= 52) by lia.
  split; [exact H|]. exact (bi_twoexp_power 52 H).
Defined.

(** * What decomposition, prepare and scale guarantee *)

Lemma fpclassify_finite_pos x :
  dbl_is_finite_pos x = true ->
  (fpclassify x = FP_NORMAL /\ dbl_expfield x <> 0) \/
  (fpclassify x = FP_SUBNORMAL /\ dbl_expfield x = 0).
Proof.
  intros Hx. unfold dbl_is_finite_pos in Hx.
  apply andb_prop in Hx as [_ Hc]. unfold fpclassify in *.
  destruct (dbl_expfield x =? 2047) eqn:E1.
  - destruct (dbl_fraction x =? 0); discriminate.
  - destruct (dbl_expfield x =? 0) eqn:E2.
    + destruct (dbl_fraction x =? 0); [discriminate|].
      right. split; [reflexivity | lia].
    + left. split; [reflexivity | lia].
Qed.

(** X11.  For a finite non-zero positive double, [dragon4_convert_double]
    leaves [0 < f < 2^53] and [-1074 <= e <= 971]: a normal number has
    the hidden bit set ([f >= 2^52], and [f] is then normalized), a
    denormal has [f < 2^52] and [e = -1074].  Nothing is lost: the bit
    pattern of the double is recovered from [f] and [e]. *)
Theorem dragon4_convert_double_parts x radix :
  dbl_is_finite_pos x = true ->
  let nc := dragon4_convert_double (nc_init x radix) in
  let f := bi_val (NC.f nc) in
  0 < f < 2 ^ 53 /\ -1074 <= NC.e nc <= 971 /\
  (fpclassify x = FP_NORMAL -> 2 ^ 52 <= f /\ bi_wf (NC.f nc)) /\
  (fpclassify x = FP_SUBNORMAL -> f < 2 ^ 52 /\ NC.e nc = -1074) /\
  x = (if f <? 2 ^ 52 then f else (NC.e nc + 1075) * 2 ^ 52 + (f - 2 ^ 52)).
Proof.
  intros Hx nc f.
  destruct (convert_double_spec x Hx radix) as (Hf & Hfv & He & _).
  pose proof (convert_double_length x radix) as Hlen.
  destruct (dbl_m_q_range x Hx) as (Hm & Hq).
  destruct (dbl_fields x Hx) as (_ & _ & Hfr & Hex).
  destruct (dbl_class x Hx) as (Hexr & _).
  pose proof (dbl_range x Hx) as Hr.
  fold nc in Hf, Hfv, He, Hlen. subst f. rewrite Hfv, He.
  pose proof (Z.mod_pos_bound x (2 ^ 52) ltac:(lia)) as Hmod.
  pose proof (Z.div_mod x (2 ^ 52) ltac:(lia)) as Hdm.
  unfold dbl_m, dbl_q in *. rewrite Hfr, Hex in *.
  split; [exact Hm|]. split; [exact Hq|].
  destruct (fpclassify_finite_pos x Hx) as [(Ec & Hn) | (Ec & Hn)];
    rewrite Ec; rewrite Hex in Hn.
  - apply Z.eqb_neq in Hn. rewrite Hn in *.
    split; [intros _|]. 2: split; [discriminate|].
    + split; [lia|].
      apply (limbs_lower_wf _ 1%nat Hf Hlen).
      rewrite Hfv. change (wt 1) with (2 ^ 32). lia.
    + destruct (x mod 2 ^ 52 + 2 ^ 52 <? 2 ^ 52) eqn:E; lia.
  - rewrite Hn in *. change (0 =? 0) with true in *. cbv iota in *.
    split; [discriminate|]. split; [intros _; lia|].
    destruct (x mod 2 ^ 52 <? 2 ^ 52) eqn:E; lia.
Qed.

Lemma dragon4_convert_double_parts_witness :
  dbl_is_finite_pos 0x3FF8000000000000 = true /\
  let nc := dragon4_convert_double (nc_init 0x3FF8000000000000 10) in
  let f := bi_val (NC.f nc) in
  0 < f < 2 ^ 53 /\ -1074 <= NC.e nc <= 971 /\
  (fpclassify 0x3FF8000000000000 = FP_NORMAL -> 2 ^ 52 <= f /\ bi_wf (NC.f nc)) /\
  (fpclassify 0x3FF8000000000000 = FP_SUBNORMAL ->
   f < 2 ^ 52 /\ NC.e nc = -1074) /\
  0x3FF8000000000000
    = (if f <? 2 ^ 52 then f else (NC.e nc + 1075) * 2 ^ 52 + (f - 2 ^ 52)).
Proof.
  split; [reflexivity|].
  exact (dragon4_convert_double_parts 0x3FF8000000000000 10 eq_refl).
Defined.

(** X12.  For a finite non-zero positive double [m * 2^q],
    [dragon4_prepare] leaves normalized [r], [s], [m+], [m-] with
    [r / s = m * 2^q] and [m+ / s = 2^q / 2] exactly; [m-] is [m+], or
    half of it exactly when [m = 2^52] and the exponent is non-negative
    or above [IEEE_DOUBLE_EXP_MIN]; both rounding flags say whether [m]
    is even; the radix and the empty output buffer are left alone. *)
Theorem dragon4_prepare_values x radix :
  dbl_is_finite_pos x = true ->
  let nc := dragon4_start x radix in
  let m := dbl_m x in
  let q := dbl_q x in
  (bi_wf (NC.r nc) /\ bi_wf (NC.s nc) /\ bi_wf (NC.mp nc) /\ bi_wf (NC.mm nc)) /\
  R nc * 2 ^ Z.max 0 (- q) = m * 2 ^ Z.max 0 q * S_ nc /\
  2 * MP nc * 2 ^ Z.max 0 (- q) = 2 ^ Z.max 0 q * S_ nc /\
  MM nc = (if (m =? 2 ^ 52) && ((0 <=? q) || (q >? IEEE_DOUBLE_EXP_MIN))
           then MP nc / 2 else MP nc) /\
  0 < MM nc /\
  NC.low_ok nc = Z.even m /\ NC.high_ok nc = Z.even m /\
  NC.B nc = radix /\ NC.out_buf nc = [] /\ NC.out_first nc = true.
Proof.
  intros Hx nc m q.
  destruct (prepare_frame x Hx radix) as (HB & Ho & Hof & _ & _ & Hl & Hh).
  destruct (dbl_m_q_range x Hx) as (Hm & Hq).
  split; [apply prepare_wf, Hx|].
  fold nc in HB, Ho, Hof, Hl, Hh. subst m q.
  pose proof (prepare_ratios x Hx radix) as Hv. cbv zeta in Hv. fold nc in Hv.
  destruct Hv as (H1 & H2 & H3 & H4).
  repeat split; assumption.
Qed.

Lemma dragon4_prepare_values_witness :
  dbl_is_finite_pos 0x3FF0000000000000 = true /\
  let nc := dragon4_start 0x3FF0000000000000 10 in
  let m := dbl_m 0x3FF0000000000000 in
  let q := dbl_q 0x3FF0000000000000 in
  (bi_wf (NC.r nc) /\ bi_wf (NC.s nc) /\ bi_wf (NC.mp nc) /\ bi_wf (NC.mm nc)) /\
  R nc * 2 ^ Z.max 0 (- q) = m * 2 ^ Z.max 0 q * S_ nc /\
  2 * MP nc * 2 ^ Z.max 0 (- q) = 2 ^ Z.max 0 q * S_ nc /\
  MM nc = (if (m =? 2 ^ 52) && ((0 <=? q) || (q >? IEEE_DOUBLE_EXP_MIN))
           then MP nc / 2 else MP nc) /\
  0 < MM nc /\
  NC.low_ok nc = Z.even m /\ NC.high_ok nc = Z.even m /\
  NC.B nc = 10 /\ NC.out_buf nc = [] /\ NC.out_first nc = true.
Proof.
  split; [reflexivity|].
  exact (dragon4_prepare_values 0x3FF0000000000000 10 eq_refl).
Defined.

(** X13.  For a finite non-zero positive double and radix [2 <= B <= 36],
    [dragon4_scale] finishes and moves [k] in one direction only: either
    [k > 0] and it has multiplied [s] by [B^k], leaving [r], [m+], [m-]
    alone, or [k <= 0] and it has multiplied [r], [m+] and [m-] by
    [B^(-k)], leaving [s] alone.  Either way [r / s], [m+ / s] and
    [m- / s] are the prepared ones divided by [B^k].  The bigints stay
    normalized, and [f], [e], the radix, the flags and the output buffer
    are untouched. *)
Theorem dragon4_scale_rescales x radix :
  dbl_is_finite_pos x = true -> 2 <= radix <= 36 ->
  let nc0 := dragon4_start x radix in
  exists fuel0 nc1,
    (forall fuel, (fuel0 <= fuel)%nat -> dragon4_scale fuel nc0 = Some nc1) /\
    (let k := NC.k nc1 in
     (0 < k /\ S_ nc1 = S_ nc0 * radix ^ k /\
      R nc1 = R nc0 /\ MP nc1 = MP nc0 /\ MM nc1 = MM nc0) \/
     (k <= 0 /\ S_ nc1 = S_ nc0 /\ R nc1 = R nc0 * radix ^ (- k) /\
      MP nc1 = MP nc0 * radix ^ (- k) /\ MM nc1 = MM nc0 * radix ^ (- k))) /\
    (bi_wf (NC.r nc1) /\ bi_wf (NC.s nc1) /\
     bi_wf (NC.mp nc1) /\ bi_wf (NC.mm nc1)) /\
    NC.f nc1 = NC.f nc0 /\ NC.e nc1 = NC.e nc0 /\ NC.B nc1 = radix /\
    NC.low_ok nc1 = NC.low_ok nc0 /\ NC.high_ok nc1 = NC.high_ok nc0 /\
    NC.out_buf nc1 = [] /\ NC.out_first nc1 = true.
Proof.
  intros Hx Hradix nc0.
  destruct (prepare_spec x Hx radix Hradix) as (Hok & _ & _ & _ & HB & Ho & Hof).
  fold nc0 in Hok, HB, Ho, Hof.
  destruct (dragon4_scale_spec nc0 Hok) as (n0 & Hrun).
  destruct (Hrun n0 (Nat.le_refl _))
    as (nc1 & Hs & Hok1 & Hpar & Hout & _ & Hfrom).
  exists n0, nc1.
  split. { intros fuel Hfuel. exact (dragon4_scale_mono _ _ _ Hs _ Hfuel). }
  destruct Hpar as (EB & El & Eh & _ & Ee & Ef).
  destruct Hout as (Eo & Eof).
  split.
  { unfold scaled_from in Hfrom. cbv zeta in *. rewrite HB in Hfrom.
    destruct Hfrom as [(Hk & HR & HP & HM & HS) | (Hk & HS & HR & HP & HM)];
      [left | right]; repeat split; assumption. }
  split. { repeat split; apply Hok1. }
  repeat split; congruence.
Qed.

Lemma dragon4_scale_rescales_witness :
  dbl_is_finite_pos 0x3FB999999999999A = true /\ 2 <= 10 <= 36 /\
  let nc0 := dragon4_start 0x3FB999999999999A 10 in
  exists fuel0 nc1,
    (forall fuel, (fuel0 <= fuel)%nat -> dragon4_scale fuel nc0 = Some nc1) /\
    (let k := NC.k nc1 in
     (0 < k /\ S_ nc1 = S_ nc0 * 10 ^ k /\
      R nc1 = R nc0 /\ MP nc1 = MP nc0 /\ MM nc1 = MM nc0) \/
     (k <= 0 /\ S_ nc1 = S_ nc0 /\ R nc1 = R nc0 * 10 ^ (- k) /\
      MP nc1 = MP nc0 * 10 ^ (- k) /\ MM nc1 = MM nc0 * 10 ^ (- k))) /\
    (bi_wf (NC.r nc1) /\ bi_wf (NC.s nc1) /\
     bi_wf (NC.mp nc1) /\ bi_wf (NC.mm nc1)) /\
    NC.f nc1 = NC.f nc0 /\ NC.e nc1 = NC.e nc0 /\ NC.B nc1 = 10 /\
    NC.low_ok nc1 = NC.low_ok nc0 /\ NC.high_ok nc1 = NC.high_ok nc0 /\
    NC.out_buf nc1 = [] /\ NC.out_first nc1 = true.
Proof.
  split; [reflexivity|]. split; [lia|].
  exact (dragon4_scale_rescales 0x3FB999999999999A 10 eq_refl ltac:(lia)).
Defined.

(** * What generate guarantees *)

Lemma third_ctx_ok : nc_ok third_ctx.
Proof.
  constructor;
    try (split; [repeat (constructor; [lia|]); constructor | reflexivity]);
    try reflexivity.
  cbn. lia.
Qed.

(** X14.  From a context with normalized bigints, [0 < s], [m+], [m-],
    radix [2 <= B <= 36] and [r < s], [dragon4_generate] finishes after
    [n >= 1] rounds.  The quotient digits of the rounds, each in
    [[0, B-1]], are the first [n] digits of [r / s] in radix [B]; the
    number [P] whose digits were passed to [dragon4_output] is that
    number or the next one, and lies within the gaps:
    [(r - m-) * B^n <= P * s <= (r + m+) * B^n]. *)
Theorem dragon4_generate_within_gaps nc :
  nc_ok nc -> R nc < S_ nc ->
  exists fuel0 nc2 calls,
    (forall fuel, (fuel0 <= fuel)%nat ->
       dragon4_generate fuel nc = Some (nc2, calls)) /\
    let B := NC.B nc in
    let n := Z.of_nat (length calls) in
    let D := digits_val B (map fst calls) in
    let P := digits_val B (map snd calls) in
    1 <= n /\
    Forall (fun c => 0 <= fst c <= B - 1) calls /\
    D = R nc * B ^ n / S_ nc /\
    (P = D \/ P = D + 1) /\
    (R nc - MM nc) * B ^ n <= P * S_ nc /\
    P * S_ nc <= (R nc + MP nc) * B ^ n.
Proof.
  intros Hok Hlt.
  destruct (dragon4_generate_returns nc Hok Hlt) as (nc' & count' & calls & Hrun).
  exists (Z.to_nat (S_ nc) + 36)%nat, (dragon4_finish nc' count'), calls.
  split; [intros fuel Hfuel; apply Hrun, Hfuel|].
  destruct (Hrun _ (Nat.le_refl _)) as (Heq & _).
  destruct (dragon4_generate_loop_calls _ _ _ _ _ _ Heq) as (Hne & _).
  destruct (dragon4_generate_loop_run _ _ _ _ _ _ Heq Hok Hlt)
    as (_ & _ & _ & HRn & HRr & _ & _ & HPD & _).
  destruct (dragon4_generate_loop_interval _ _ _ _ _ _ Heq Hok Hlt) as (Hlo & Hhi).
  destruct (dragon4_generate_loop_spec (Z.to_nat (S_ nc)) nc 0 Hok Hlt)
    as (nc'' & count'' & calls'' & Heq'' & Hc & _).
  { pose proof (ok_s_pos nc Hok). pose proof (ok_mm_pos nc Hok).
    pose proof (pow2_above (S_ nc) (Z.to_nat (S_ nc)) ltac:(lia) (Nat.le_refl _)).
    rewrite Z.pow_add_r by lia. nia. }
  rewrite Heq in Heq''. injection Heq'' as <- <- <-.
  cbv zeta in *.
  split; [destruct calls; [congruence | cbn [length]; lia]|].
  split.
  { clear -Hc. induction Hc as [|c l [H _] _ IH]; constructor; assumption. }
  split; [|split; [exact HPD | split; [exact Hlo | exact Hhi]]].
  pose proof (ok_s_pos nc Hok).
  apply (Z.div_unique_pos _ _ _ (R nc')); lia.
Qed.

Lemma dragon4_generate_within_gaps_witness :
  nc_ok third_ctx /\ R third_ctx < S_ third_ctx /\
  exists fuel0 nc2 calls,
    (forall fuel, (fuel0 <= fuel)%nat ->
       dragon4_generate fuel third_ctx = Some (nc2, calls)) /\
    let B := NC.B third_ctx in
    let n := Z.of_nat (length calls) in
    let D := digits_val B (map fst calls) in
    let P := digits_val B (map snd calls) in
    1 <= n /\
    Forall (fun c => 0 <= fst c <= B - 1) calls /\
    D = R third_ctx * B ^ n / S_ third_ctx /\
    (P = D \/ P = D + 1) /\
    (R third_ctx - MM third_ctx) * B ^ n <= P * S_ third_ctx /\
    P * S_ third_ctx <= (R third_ctx + MP third_ctx) * B ^ n.
Proof.
  split; [exact third_ctx_ok|]. split; [reflexivity|].
  exact (dragon4_generate_within_gaps third_ctx third_ctx_ok eq_refl).
Defined.

(** X15.  Generate stops at the first round it can: for every shorter
    length [j], no number [V] of [j] digits is within the gaps, that is
    none has [(r - m-) * B^j <= V * s <= (r + m+) * B^j] (the lower
    comparison strict when [low_ok] is false). *)
Theorem dragon4_generate_shortest nc :
  nc_ok nc -> R nc < S_ nc ->
  exists fuel0 nc2 calls,
    (forall fuel, (fuel0 <= fuel)%nat ->
       dragon4_generate fuel nc = Some (nc2, calls)) /\
    forall j V, 1 <= j < Z.of_nat (length calls) ->
      ~ ((if NC.low_ok nc
          then (R nc - MM nc) * NC.B nc ^ j <= V * S_ nc
          else (R nc - MM nc) * NC.B nc ^ j < V * S_ nc) /\
         V * S_ nc <= (R nc + MP nc) * NC.B nc ^ j).
Proof.
  intros Hok Hlt.
  destruct (dragon4_generate_returns nc Hok Hlt) as (nc' & count' & calls & Hrun).
  exists (Z.to_nat (S_ nc) + 36)%nat, (dragon4_finish nc' count'), calls.
  split; [intros fuel Hfuel; apply Hrun, Hfuel|].
  destruct (Hrun _ (Nat.le_refl _)) as (Heq & _).
  intros j V Hj [Hlo Hhi].
  destruct (dragon4_generate_loop_prefixes _ _ _ _ _ _ Heq Hok Hlt (Z.to_nat j)
              ltac:(lia)) as (Hr & Hnl & Hnh).
  cbv zeta in *. rewrite Z2Nat.id in * by lia.
  pose proof (ok_s_pos nc Hok) as Hs.
  set (Dj := digits_val (NC.B nc) (firstn (Z.to_nat j) (map fst calls))) in *.
  set (Bj := NC.B nc ^ j) in *.
  destruct (Z_le_gt_dec V Dj) as [Hle | Hgt].
  - assert (V * S_ nc <= Dj * S_ nc) by (apply Z.mul_le_mono_nonneg_r; lia).
    apply Hnl. unfold low_end. destruct (NC.low_ok nc); lia.
  - assert ((Dj + 1) * S_ nc <= V * S_ nc)
      by (apply Z.mul_le_mono_nonneg_r; lia).
    lia.
Qed.

Lemma dragon4_generate_shortest_witness :
  nc_ok third_ctx /\ R third_ctx < S_ third_ctx /\
  exists fuel0 nc2 calls,
    (forall fuel, (fuel0 <= fuel)%nat ->
       dragon4_generate fuel third_ctx = Some (nc2, calls)) /\
    forall j V, 1 <= j < Z.of_nat (length calls) ->
      ~ ((if NC.low_ok third_ctx
          then (R third_ctx - MM third_ctx) * NC.B third_ctx ^ j
               <= V * S_ third_ctx
          else (R third_ctx - MM third_ctx) * NC.B third_ctx ^ j
               < V * S_ third_ctx) /\
         V * S_ third_ctx <= (R third_ctx + MP third_ctx) * NC.B third_ctx ^ j).
Proof.
  split; [exact third_ctx_ok|]. split; [reflexivity|].
  exact (dragon4_generate_shortest third_ctx third_ctx_ok eq_refl).
Defined.

(** X16.  From [r + m+ <= s], as scale leaves it, every index generate
    passes to [dragon4_output] after the first is at most [B - 1]; the
    first is at most [B], and is [B] only when [r + m+ = s]. *)
Theorem dragon4_generate_indices_below_radix nc :
  nc_ok nc -> R nc < S_ nc -> R nc + MP nc <= S_ nc ->
  exists fuel0 nc2 d p rest,
    (forall fuel, (fuel0 <= fuel)%nat ->
       dragon4_generate fuel nc = Some (nc2, (d, p) :: rest)) /\
    0 <= p <= NC.B nc /\
    (p = NC.B nc -> R nc + MP nc = S_ nc) /\
    Forall (fun c => 0 <= snd c <= NC.B nc - 1) rest.
Proof.
  intros Hok Hlt Hle.
  destruct (dragon4_generate_returns nc Hok Hlt) as (nc' & count' & calls & Hrun).
  destruct (Hrun _ (Nat.le_refl _)) as (Heq & _).
  destruct (dragon4_generate_loop_indices _ _ _ _ _ _ Heq Hok Hlt Hle)
    as (d & p & rest & -> & Hp & Htie & Hrest).
  exists (Z.to_nat (S_ nc) + 36)%nat, (dragon4_finish nc' count'), d, p, rest.
  split; [intros fuel Hfuel; apply Hrun, Hfuel|].
  split; [exact Hp|]. split; [exact Htie | exact Hrest].
Qed.

Lemma dragon4_generate_indices_below_radix_witness :
  nc_ok third_ctx /\ R third_ctx < S_ third_ctx /\
  R third_ctx + MP third_ctx <= S_ third_ctx /\
  exists fuel0 nc2 d p rest,
    (forall fuel, (fuel0 <= fuel)%nat ->
       dragon4_generate fuel third_ctx = Some (nc2, (d, p) :: rest)) /\
    0 <= p <= NC.B third_ctx /\
    (p = NC.B third_ctx -> R third_ctx + MP third_ctx = S_ third_ctx) /\
    Forall (fun c => 0 <= snd c <= NC.B third_ctx - 1) rest.
Proof.
  assert (H : R third_ctx + MP third_ctx <= S_ third_ctx)
    by (vm_compute; discriminate).
  split; [exact third_ctx_ok|]. split; [reflexivity|]. split; [exact H|].
  exact (dragon4_generate_indices_below_radix third_ctx third_ctx_ok eq_refl H).
Defined.

(** X17.  From a context with [r < s] whose [out_first] flag is set,
    generate writes the digits it passed to [dragon4_output] in fixed
    notation with [k] digits before the point: [0.], [-k] zeros and the
    digits when [k <= 0]; the digits padded with zeros to [k] places
    when there are at most [k]; the digits with a point after the first
    [k] otherwise.  There is no exponent notation.  When what the array
    held and these characters fit its 512 bytes, that is what the array
    holds afterwards. *)
Theorem dragon4_generate_layout nc :
  nc_ok nc -> R nc < S_ nc -> NC.out_first nc = true ->
  exists fuel0 nc2 calls,
    (forall fuel, (fuel0 <= fuel)%nat ->
       dragon4_generate fuel nc = Some (nc2, calls)) /\
    let written :=
      NC.out_buf nc ++ digits_layout (NC.k nc) (call_chars calls) in
    ((length written <= sizeof_out_buf)%nat -> NC.out_buf nc2 = written).
Proof.
  intros Hok Hlt Hfirst.
  destruct (dragon4_generate_returns nc Hok Hlt) as (nc' & count' & calls & Hrun).
  exists (Z.to_nat (S_ nc) + 36)%nat, (dragon4_finish nc' count'), calls.
  split; [intros fuel Hfuel; apply Hrun, Hfuel|].
  destruct (Hrun _ (Nat.le_refl _)) as (_ & Hgen).
  cbv zeta. intros Hfit.
  assert (Hlen : (length (NC.out_buf nc) <= sizeof_out_buf)%nat)
    by (rewrite length_app in Hfit; lia).
  rewrite (dragon4_generate_buf _ _ _ _ Hgen Hfirst (NC.out_buf nc)
             (eq_sym (out_cut_id _ Hlen))).
  apply out_cut_id, Hfit.
Qed.

Lemma dragon4_generate_layout_witness :
  nc_ok third_ctx /\ R third_ctx < S_ third_ctx /\
  NC.out_first third_ctx = true /\
  exists fuel0 nc2 calls,
    (forall fuel, (fuel0 <= fuel)%nat ->
       dragon4_generate fuel third_ctx = Some (nc2, calls)) /\
    let written :=
      NC.out_buf third_ctx
      ++ digits_layout (NC.k third_ctx) (call_chars calls) in
    ((length written <= sizeof_out_buf)%nat -> NC.out_buf nc2 = written).
Proof.
  split; [exact third_ctx_ok|]. split; [reflexivity|]. split; [reflexivity|].
  exact (dragon4_generate_layout third_ctx third_ctx_ok eq_refl eq_refl).
Defined.



(** X19.  For a finite non-zero positive double and radix
    [2 <= B <= 36], the first index generate passes to [dragon4_output]
    after scale is never zero (there is no leading zero digit), is an
    entry of the digit table, and is at most [B]; it is [B] only when
    the significand is odd and [r + m+ = s] after scale. *)
Theorem dragon4_first_digit x radix :
  dbl_is_finite_pos x = true -> 2 <= radix <= 36 ->
  exists fuel0 nc1 nc2 d p rest,
    (forall fuel, (fuel0 <= fuel)%nat ->
       dragon4_scale fuel (dragon4_start x radix) = Some nc1 /\
       dragon4_generate fuel nc1 = Some (nc2, (d, p) :: rest)) /\
    1 <= p <= radix /\ p <= 35 /\
    (p = radix -> Z.even (dbl_m x) = false /\ R nc1 + MP nc1 = S_ nc1).
Proof.
  intros Hx Hradix.
  destruct (dragon4_digits x radix Hx Hradix false)
    as (n0 & nc1 & nc2 & nc' & count' & calls & Hrun &
        (Hok1 & Hsc & Hfrom & HB & _ & _ & Hh & _) & _ &
        (d & p & rest & Hc & Hp & Htab & Htie & Hrest) & _).
  subst calls.
  exists n0, nc1, nc2, d, p, rest.
  split.
  { intros fuel Hfuel. destruct (Hrun fuel Hfuel) as (Hs & _ & Hg).
    split; assumption. }
  destruct (Hrun n0 (Nat.le_refl _)) as (_ & Hl & _).
  pose proof (scaled_lt nc1 Hok1 Hsc) as Hlt.
  assert (Hlo : S_ nc1 <= NC.B nc1 * (R nc1 + MP nc1))
    by (unfold scaled in Hsc; destruct (NC.high_ok nc1); lia).
  assert (Hmm : MM nc1 < R nc1).
  { destruct (prepare_spec x Hx radix Hradix) as (Hok0 & _ & _ & _ & HB0 & _).
    destruct (prepare_gaps x Hx radix) as (HG & HR0 & HMP0).
    destruct (dbl_m_q_range x Hx) as (Hm & _).
    pose proof (ok_mm_pos _ Hok0) as HMM0.
    unfold scaled_from in Hfrom. cbv zeta in Hfrom. rewrite HB0 in Hfrom.
    set (nc0 := dragon4_start x radix) in *.
    assert (H0 : MM nc0 < R nc0) by (destruct HG as [E | E]; nia).
    destruct Hfrom as [(_ & HR & _ & HM & _) | (Hk & _ & HR & _ & HM)];
      rewrite HR, HM.
    - exact H0.
    - apply Z.mul_lt_mono_pos_r; [apply Z.pow_pos_nonneg; lia | exact H0]. }
  destruct (dragon4_generate_loop_first_nonzero _ _ _ _ _ _ Hl Hok1 Hlt Hlo Hmm)
    as (d' & p' & rest' & Hc' & Hp').
  injection Hc' as <- <- <-.
  split; [lia|]. split; [unfold in_table in Htab; lia|].
  intros E. specialize (Htie E). split; [|exact Htie].
  unfold scaled in Hsc. rewrite Hh in Hsc.
  destruct (Z.even (dbl_m x)); [lia | reflexivity].
Qed.

Lemma dragon4_first_digit_witness :
  dbl_is_finite_pos tie_radix7 = true /\ 2 <= 7 <= 36 /\
  exists fuel0 nc1 nc2 d p rest,
    (forall fuel, (fuel0 <= fuel)%nat ->
       dragon4_scale fuel (dragon4_start tie_radix7 7) = Some nc1 /\
       dragon4_generate fuel nc1 = Some (nc2, (d, p) :: rest)) /\
    1 <= p <= 7 /\ p <= 35 /\
    (p = 7 -> Z.even (dbl_m tie_radix7) = false /\ R nc1 + MP nc1 = S_ nc1).
Proof.
  split; [reflexivity|]. split; [lia|].
  exact (dragon4_first_digit tie_radix7 7 eq_refl ltac:(lia)).
Defined.

(** * What the exposed conversion guarantees *)

(** X20.  For a finite non-zero double [x] of magnitude [m * 2^q] and a
    radix [2 <= B <= 36], off the fast path, scale and generate give an
    exponent [k] and digits [ps].  When the sign, the digits laid out in
    fixed notation with [k] digits before the point, and the NUL fit
    the 512 bytes of [out_buf], [duk_numconv_stringify] pushes that
    string; otherwise it has no result.  They fit for every radix from
    5 on.  Every digit is an entry of the digit table, all but possibly
    the first are below the radix, and the number printed, [ps] read in
    radix [B] times [B^(k - n)] for [n] digits, is within half a unit
    in the last place of the magnitude:
    [(m - 1/2) * 2^q <= P * B^(k-n) <= (m + 1/2) * 2^q].  When [m] is
    odd the lower bound is not reached (the upper one can be). *)
Theorem duk_numconv_stringify_within_half_ulp x radix digits_ :
  dbl_is_finite_nonzero x = true -> 2 <= radix <= 36 ->
  fast_path (dbl_abs x) radix = None ->
  exists fuel0 k ps,
    let chars := (if dbl_ltb_zero x then ["-"%char] else []) ++
                 digits_layout k (map digits_at ps) in
    (forall fuel, (fuel0 <= fuel)%nat ->
       duk_numconv_stringify fuel x radix digits_ =
         if (length chars <? sizeof_out_buf)%nat
         then Some (duk_push_string (chars ++ ["000"%char]))
         else None) /\
    pushed_chars (duk_push_string (chars ++ ["000"%char])) = chars /\
    (5 <= radix -> (length chars < sizeof_out_buf)%nat) /\
    ps <> [] /\ Forall in_table ps /\
    Forall (fun p => 0 <= p <= radix - 1) (tl ps) /\
    within_half_ulp (dbl_m x) (dbl_q x) radix (digits_val radix ps)
      (k - Z.of_nat (length ps)) /\
    (Z.even (dbl_m x) = false ->
     let j := k - Z.of_nat (length ps) in
     (2 * dbl_m x - 1) * 2 ^ Z.max 0 (dbl_q x) * radix ^ Z.max 0 (- j)
     < 2 * digits_val radix ps * 2 ^ Z.max 0 (- dbl_q x) * radix ^ Z.max 0 j).
Proof.
  intros Hx Hradix Hfast.
  pose proof (dbl_abs_pos x Hx) as Hpos.
  destruct (dragon4_digits (dbl_abs x) radix Hpos Hradix (dbl_ltb_zero x))
    as (n0 & nc1 & nc2 & nc' & count' & calls & Hrun &
        (Hok1 & Hsc & Hfrom & HB & _) & Hbuf &
        (d & p & rest & Hc & Hp & Htab & _ & Hrest) & Hulp & Hst).
  destruct (dbl_abs_m_q x Hx) as (Em & Eq). rewrite Em, Eq in Hulp, Hst.
  assert (Hall : Forall (fun c => in_table (snd c)) calls).
  { subst calls. constructor; [exact Htab|].
    apply (Forall_impl _ _ _ Hrest). intros c Hcc. unfold in_table. lia. }
  assert (Hchars : map digits_at (map snd calls) = call_chars calls)
    by (unfold call_chars; rewrite map_map; reflexivity).
  exists n0, (NC.k nc1), (map snd calls). cbv zeta. rewrite Hchars.
  split.
  { apply (stringify_of_digits x radix digits_ n0 nc1 nc2 calls _ Hx Hfast);
      [|exact Hbuf].
    intros fuel Hfuel. destruct (Hrun fuel Hfuel) as (Hs & _ & Hg).
    split; assumption. }
  split.
  { cbn [pushed_chars]. apply c_str_terminated.
    apply Forall_app. split; [apply sign_not_nul|].
    apply digits_layout_forall; [reflexivity | reflexivity|].
    unfold call_chars. apply Forall_map.
    apply (Forall_impl _ _ _ Hall). intros c Hcc.
    apply digits_not_nul, digits_at_in, Hcc. }
  split.
  { intros H5. destruct (Hrun n0 (Nat.le_refl _)) as (_ & Hl & _).
    assert (Hsame : same_but_out nc1
              (if dbl_ltb_zero x then NUMCONV_PUTCHAR nc1 "-" else nc1))
      by (destruct (dbl_ltb_zero x);
          [apply putchar_spec | apply same_but_out_refl]).
    pose proof (written_fits (dbl_abs x) radix nc1 _ _ _ _ calls
                  (if dbl_ltb_zero x then ["-"%char] else [])
                  Hpos ltac:(lia) Hok1 Hsc Hfrom HB Hsame Hl
                  (sign_length _)) as Hfit.
    unfold sizeof_out_buf. lia. }
  split; [subst calls; discriminate|].
  split; [apply Forall_map; exact Hall|].
  split.
  { subst calls. cbn [map tl]. apply Forall_map. exact Hrest. }
  rewrite length_map. split; [exact Hulp | exact Hst].
Qed.

Lemma duk_numconv_stringify_within_half_ulp_witness :
  dbl_is_finite_nonzero 0xBFD3333333333333 = true /\ 2 <= 10 <= 36 /\
  fast_path (dbl_abs 0xBFD3333333333333) 10 = None /\
  exists fuel0 k ps,
    let chars := (if dbl_ltb_zero 0xBFD3333333333333 then ["-"%char] else []) ++
                 digits_layout k (map digits_at ps) in
    (forall fuel, (fuel0 <= fuel)%nat ->
       duk_numconv_stringify fuel 0xBFD3333333333333 10 0 =
         if (length chars <? sizeof_out_buf)%nat
         then Some (duk_push_string (chars ++ ["000"%char]))
         else None) /\
    pushed_chars (duk_push_string (chars ++ ["000"%char])) = chars /\
    (5 <= 10 -> (length chars < sizeof_out_buf)%nat) /\
    ps <> [] /\ Forall in_table ps /\
    Forall (fun p => 0 <= p <= 10 - 1) (tl ps) /\
    within_half_ulp (dbl_m 0xBFD3333333333333) (dbl_q 0xBFD3333333333333) 10
      (digits_val 10 ps) (k - Z.of_nat (length ps)) /\
    (Z.even (dbl_m 0xBFD3333333333333) = false ->
     let j := k - Z.of_nat (length ps) in
     (2 * dbl_m 0xBFD3333333333333 - 1)
       * 2 ^ Z.max 0 (dbl_q 0xBFD3333333333333) * 10 ^ Z.max 0 (- j)
     < 2 * digits_val 10 ps * 2 ^ Z.max 0 (- dbl_q 0xBFD3333333333333)
       * 10 ^ Z.max 0 j).
Proof.
  split; [reflexivity|]. split; [lia|]. split; [reflexivity|].
  exact (duk_numconv_stringify_within_half_ulp 0xBFD3333333333333 10 0
           eq_refl ltac:(lia) eq_refl).
Defined.

(** X21.  The sign only adds a leading [-].  For a finite non-zero
    negative double and a radix [2 <= B <= 36], with any fuel: when the
    call has no result for the negated double it has none for the
    double; when it pushes a string for the negated double, it pushes
    [-] followed by that string for the double, unless the string and
    its NUL filled the 512 bytes of [out_buf], in which case the [-]
    pushes the NUL past the end of the array and the call has no
    result. *)
Theorem duk_numconv_stringify_negative fuel x radix digits_ :
  dbl_is_finite_nonzero x = true -> dbl_ltb_zero x = true ->
  2 <= radix <= 36 ->
  match duk_numconv_stringify fuel (dbl_neg x) radix digits_ with
  | None => duk_numconv_stringify fuel x radix digits_ = None
  | Some p' =>
      match duk_numconv_stringify fuel x radix digits_ with
      | Some p => pushed_chars p = "-"%char :: pushed_chars p'
      | None => exists buf, p' = duk_push_string buf /\
                            length buf = sizeof_out_buf
      end
  end.
Proof.
  intros Hx Hneg Hradix.
  destruct (dbl_sign_split x Hx) as [(Hf & _) | (_ & Hpos & _)]; [congruence|].
  destruct (dbl_pos_nonzero _ Hpos) as (Hnz & Hneg' & Habs').
  assert (Habs : dbl_abs x = dbl_neg x) by (unfold dbl_abs; rewrite Hneg; reflexivity).
  rewrite (stringify_finite fuel x radix digits_ Hx).
  rewrite (stringify_finite fuel (dbl_neg x) radix digits_ Hnz).
  rewrite Hneg, Hneg', Habs, Habs'.
  destruct (fast_path (dbl_neg x) radix) as [uval|]; [reflexivity|].
  destruct (dragon4_scale fuel (dragon4_start (dbl_neg x) radix)) as [nc1|] eqn:Es;
    [|reflexivity].
  assert (Hbuf : NC.out_buf nc1 = []).
  { rewrite (dragon4_scale_out _ _ _ Es).
    apply (prepare_frame (dbl_neg x) Hpos radix). }
  assert (Hpre : NUMCONV_PUTCHAR nc1 "-" = prepend ["-"%char] nc1)
    by (unfold NUMCONV_PUTCHAR, out_p_in_out_buf, prepend; rewrite Hbuf; reflexivity).
  rewrite Hpre, dragon4_generate_prepend.
  destruct (dragon4_generate fuel nc1) as [[nc2 calls]|] eqn:Eg; [|reflexivity].
  assert (Hcut : NC.out_buf nc2 = out_cut (NC.out_buf nc2)).
  { destruct (dragon4_generate_frame _ _ _ _ Eg) as (ext & Hext).
    rewrite (Hext [] ltac:(rewrite Hbuf; reflexivity)).
    symmetry. apply out_cut_idem. }
  assert (Hle : (length (NC.out_buf nc2) <= sizeof_out_buf)%nat)
    by (rewrite Hcut; apply length_out_cut).
  change (NC.out_buf (prepend ["-"%char] nc2))
    with (out_cut ("-"%char :: NC.out_buf nc2)).
  assert (Hlen : length (out_cut ("-"%char :: NC.out_buf nc2))
                 = Nat.min sizeof_out_buf (S (length (NC.out_buf nc2))))
    by (unfold out_cut; rewrite length_firstn; reflexivity).
  destruct (Nat.ltb_spec (length (NC.out_buf nc2)) sizeof_out_buf) as [H1 | H1].
  - destruct (Nat.ltb_spec (length (out_cut ("-"%char :: NC.out_buf nc2)))
                sizeof_out_buf) as [H2 | H2].
    + rewrite out_cut_id by (cbn [length]; lia).
      cbn [pushed_chars c_str Ascii.eqb app]. reflexivity.
    + exists (NC.out_buf nc2 ++ ["000"%char]). split; [reflexivity|].
      rewrite length_app. cbn [length]. lia.
  - destruct (Nat.ltb_spec (length (out_cut ("-"%char :: NC.out_buf nc2)))
                sizeof_out_buf) as [H2 | H2]; [lia | reflexivity].
Qed.

Lemma duk_numconv_stringify_negative_witness :
  dbl_is_finite_nonzero 0xC005BF0A8B145769 = true /\
  dbl_ltb_zero 0xC005BF0A8B145769 = true /\ 2 <= 10 <= 36 /\
  match duk_numconv_stringify 200 (dbl_neg 0xC005BF0A8B145769) 10 0 with
  | None => duk_numconv_stringify 200 0xC005BF0A8B145769 10 0 = None
  | Some p' =>
      match duk_numconv_stringify 200 0xC005BF0A8B145769 10 0 with
      | Some p => pushed_chars p = "-"%char :: pushed_chars p'
      | None => exists buf, p' = duk_push_string buf /\
                            length buf = sizeof_out_buf
      end
  end.
Proof.
  split; [reflexivity|]. split; [reflexivity|]. split; [lia|].
  exact (duk_numconv_stringify_negative 200 0xC005BF0A8B145769 10 0
           eq_refl eq_refl ltac:(lia)).
Defined.

(** X22.  The radix is not checked: with radix 0 or 1 the loops of
    [dragon4_scale] multiply by the radix without getting anywhere;
    scale does not finish, and for every finite non-zero double
    [duk_numconv_stringify] does not return, whatever the bound on the
    iterations. *)
Theorem duk_numconv_stringify_radix_below_2 fuel x radix digits_ :
  dbl_is_finite_nonzero x = true -> 0 <= radix <= 1 ->
  dragon4_scale fuel (dragon4_start (dbl_abs x) radix) = None /\
  duk_numconv_stringify fuel x radix digits_ = None.
Proof.
  intros Hx Hradix.
  rewrite (stringify_finite fuel x radix digits_ Hx).
  pose proof (dbl_abs_pos x Hx) as Hpos.
  assert (Hfast : fast_path (dbl_abs x) radix = None).
  { unfold fast_path. replace (radix =? 10) with false; [reflexivity|].
    symmetry. apply Z.eqb_neq. lia. }
  rewrite Hfast.
  destruct (prepare_wf (dbl_abs x) Hpos radix) as (Hr & Hs & Hmp & _).
  destruct (prepare_frame (dbl_abs x) Hpos radix) as (HB & _).
  rewrite dragon4_scale_stuck; [split; reflexivity | | | |]; try assumption.
  rewrite HB. exact Hradix.
Qed.

Lemma duk_numconv_stringify_radix_below_2_witness :
  dbl_is_finite_nonzero 0x3FF8000000000000 = true /\ 0 <= 1 <= 1 /\
  dragon4_scale 1000 (dragon4_start (dbl_abs 0x3FF8000000000000) 1) = None /\
  duk_numconv_stringify 1000 0x3FF8000000000000 1 0 = None.
Proof.
  split; [reflexivity|]. split; [lia|].
  exact (duk_numconv_stringify_radix_below_2 1000 0x3FF8000000000000 1 0
           eq_refl ltac:(lia)).
Defined.

(** X23.  For a radix from 5 to 36 the conversion stays within
    [out_buf]: for every finite non-zero double, what
    [duk_numconv_stringify] has written when it pushes the buffer, the
    sign and the terminating NUL included, is at most 492 characters, of
    the 512 the buffer has.  (The fast path does not use the buffer.) *)
Theorem duk_numconv_stringify_fits_out_buf x radix digits_ :
  dbl_is_finite_nonzero x = true -> 5 <= radix <= 36 ->
  exists fuel0, forall fuel, (fuel0 <= fuel)%nat ->
    match duk_numconv_stringify fuel x radix digits_ with
    | Some (duk_push_string buf) => (length buf <= 492)%nat
    | Some _ => True
    | None => False
    end.
Proof.
  intros Hx Hradix.
  pose proof (dbl_abs_pos x Hx) as Hpos.
  assert (Hradix' : 2 <= radix <= 36) by lia.
  destruct (fast_path (dbl_abs x) radix) as [uval|] eqn:Hfast.
  { exists 0%nat. intros fuel _.
    rewrite (stringify_finite fuel x radix digits_ Hx), Hfast. exact I. }
  destruct (dragon4_digits (dbl_abs x) radix Hpos Hradix' (dbl_ltb_zero x))
    as (n0 & nc1 & nc2 & nc' & count' & calls & Hrun &
        (Hok1 & Hsc & Hfrom & HB & _) & Hbuf & _ & _).
  exists n0. intros fuel Hfuel.
  rewrite (stringify_of_digits x radix digits_ n0 nc1 nc2 calls _ Hx Hfast
             ltac:(intros f Hf; destruct (Hrun f Hf) as (Hs & _ & Hg);
                   split; assumption) Hbuf fuel Hfuel).
  destruct (Hrun n0 (Nat.le_refl _)) as (_ & Hl & _).
  assert (Hsame : same_but_out nc1
            (if dbl_ltb_zero x then NUMCONV_PUTCHAR nc1 "-" else nc1))
    by (destruct (dbl_ltb_zero x);
        [apply putchar_spec | apply same_but_out_refl]).
  pose proof (written_fits (dbl_abs x) radix nc1 _ _ _ _ calls
                (if dbl_ltb_zero x then ["-"%char] else [])
                Hpos Hradix Hok1 Hsc Hfrom HB Hsame Hl (sign_length _)) as Hfit.
  replace (length _ <? sizeof_out_buf)%nat with true
    by (symmetry; apply Nat.ltb_lt; unfold sizeof_out_buf; lia).
  rewrite length_app. cbn [length]. lia.
Qed.

Lemma duk_numconv_stringify_fits_out_buf_witness :
  dbl_is_finite_nonzero 0x0000000000000001 = true /\ 5 <= 5 <= 36 /\
  exists fuel0, forall fuel, (fuel0 <= fuel)%nat ->
    match duk_numconv_stringify fuel 0x0000000000000001 5 0 with
    | Some (duk_push_string buf) => (length buf <= 492)%nat
    | Some _ => True
    | None => False
    end.
Proof.
  split; [reflexivity|]. split; [lia|].
  exact (duk_numconv_stringify_fits_out_buf 0x0000000000000001 5 0
           eq_refl ltac:(lia)).
Defined.

(** X24.  The loops are bounded uniformly: for every finite non-zero
    double and radix [2 <= B <= 36], 1100 iterations of each loop of
    scale and generate are enough for both to finish, and more change
    nothing: the call does with more what it does with 1100.  With a
    radix from 5 on, what it does is return. *)
Theorem duk_numconv_stringify_iterations x radix digits_ :
  dbl_is_finite_nonzero x = true -> 2 <= radix <= 36 ->
  (exists nc1 nc2 calls, forall fuel, (1100 <= fuel)%nat ->
     dragon4_scale fuel (dragon4_start (dbl_abs x) radix) = Some nc1 /\
     dragon4_generate fuel
       (if dbl_ltb_zero x then NUMCONV_PUTCHAR nc1 "-" else nc1)
       = Some (nc2, calls)) /\
  (forall fuel, (1100 <= fuel)%nat ->
     duk_numconv_stringify fuel x radix digits_
     = duk_numconv_stringify 1100 x radix digits_) /\
  (5 <= radix ->
   exists p, forall fuel, (1100 <= fuel)%nat ->
     duk_numconv_stringify fuel x radix digits_ = Some p).
Proof.
  intros Hx Hradix.
  pose proof (dbl_abs_pos x Hx) as Hpos.
  destruct (dragon4_digits (dbl_abs x) radix Hpos Hradix (dbl_ltb_zero x))
    as (n0 & nc1 & nc2' & nc' & count' & calls' & Hrun &
        (Hok1 & Hsc & Hfrom & HB & _) & _).
  destruct (dragon4_scale_within (dbl_abs x) radix Hpos Hradix) as (r & Hr).
  destruct (Hrun (Nat.max 1100 n0) ltac:(lia)) as (Hs & _).
  rewrite (dragon4_scale_mono _ _ _ Hr (Nat.max 1100 n0) ltac:(lia)) in Hs.
  injection Hs as Er. subst r.
  destruct (dragon4_generate_within (dbl_abs x) radix Hpos Hradix nc1 Hok1 Hsc
              Hfrom HB (if dbl_ltb_zero x then NUMCONV_PUTCHAR nc1 "-" else nc1))
    as (nc2 & calls & Hg).
  { destruct (dbl_ltb_zero x); [apply putchar_spec | apply same_but_out_refl]. }
  assert (Hloops : forall fuel, (1100 <= fuel)%nat ->
            dragon4_scale fuel (dragon4_start (dbl_abs x) radix) = Some nc1 /\
            dragon4_generate fuel
              (if dbl_ltb_zero x then NUMCONV_PUTCHAR nc1 "-" else nc1)
              = Some (nc2, calls)).
  { intros fuel Hfuel. split.
    - apply (dragon4_scale_mono _ _ _ Hr). exact Hfuel.
    - apply (dragon4_generate_mono _ _ _ Hg). lia. }
  assert (Hsame : forall fuel, (1100 <= fuel)%nat ->
            duk_numconv_stringify fuel x radix digits_
            = duk_numconv_stringify 1100 x radix digits_).
  { intros fuel Hfuel.
    rewrite !(stringify_finite _ x radix digits_ Hx).
    destruct (fast_path (dbl_abs x) radix); [reflexivity|].
    destruct (Hloops fuel Hfuel) as (-> & ->).
    destruct (Hloops 1100%nat (Nat.le_refl _)) as (-> & ->). reflexivity. }
  split; [exists nc1, nc2, calls; exact Hloops|].
  split; [exact Hsame|].
  intros H5.
  destruct (stringify_returns_from_radix_5 x radix digits_ Hx ltac:(lia))
    as (m0 & p & Hp).
  exists p. intros fuel Hfuel.
  rewrite (Hsame fuel Hfuel), <- (Hsame (Nat.max 1100 m0) ltac:(lia)).
  apply Hp. lia.
Qed.

Lemma duk_numconv_stringify_iterations_witness :
  dbl_is_finite_nonzero 0x7FEFFFFFFFFFFFFF = true /\ 2 <= 5 <= 36 /\
  (exists nc1 nc2 calls, forall fuel, (1100 <= fuel)%nat ->
     dragon4_scale fuel (dragon4_start (dbl_abs 0x7FEFFFFFFFFFFFFF) 5) = Some nc1 /\
     dragon4_generate fuel
       (if dbl_ltb_zero 0x7FEFFFFFFFFFFFFF
        then NUMCONV_PUTCHAR nc1 "-" else nc1)
       = Some (nc2, calls)) /\
  (forall fuel, (1100 <= fuel)%nat ->
     duk_numconv_stringify fuel 0x7FEFFFFFFFFFFFFF 5 0
     = duk_numconv_stringify 1100 0x7FEFFFFFFFFFFFFF 5 0) /\
  (5 <= 5 ->
   exists p, forall fuel, (1100 <= fuel)%nat ->
     duk_numconv_stringify fuel 0x7FEFFFFFFFFFFFFF 5 0 = Some p).
Proof.
  split; [reflexivity|]. split; [lia|].
  exact (duk_numconv_stringify_iterations 0x7FEFFFFFFFFFFFFF 5 0
           eq_refl ltac:(lia)).
Defined.

(** X25.  How long the output can get.  For a finite non-zero positive
    double and radix [2 <= B <= 36], with [k] the exponent scale finds
    and [n] the number of digits generate produces:
    [B^(k-1) < 2^1024] when [k > 0], [B^(-k) < 2^1074] when [k <= 0],
    and [B^(n-2) < 2^55] when [n >= 2].  So [-1073 <= k <= 1024] and
    [n <= 56] for every radix, and [-323 <= k <= 309] and [n <= 18] in
    radix 10. *)
Theorem dragon4_sizes x radix :
  dbl_is_finite_pos x = true -> 2 <= radix <= 36 ->
  exists fuel0 nc1 nc2 calls,
    (forall fuel, (fuel0 <= fuel)%nat ->
       dragon4_scale fuel (dragon4_start x radix) = Some nc1 /\
       dragon4_generate fuel nc1 = Some (nc2, calls)) /\
    let k := NC.k nc1 in
    let n := Z.of_nat (length calls) in
    (0 < k -> radix ^ (k - 1) < 2 ^ 1024) /\
    (k <= 0 -> radix ^ (- k) < 2 ^ 1074) /\
    (2 <= n -> radix ^ (n - 2) < 2 ^ 55) /\
    (- 1073 <= k <= 1024 /\ 1 <= n <= 56) /\
    (radix = 10 -> - 323 <= k <= 309 /\ n <= 18).
Proof.
  intros Hx Hradix.
  destruct (dragon4_digits x radix Hx Hradix false)
    as (n0 & nc1 & nc2 & nc' & count' & calls & Hrun &
        (Hok1 & Hsc & Hfrom & HB & _) & _ & (d & p & rest & Hc & _) & _).
  exists n0, nc1, nc2, calls.
  split.
  { intros fuel Hfuel. destruct (Hrun fuel Hfuel) as (Hs & _ & Hg).
    split; assumption. }
  destruct (Hrun n0 (Nat.le_refl _)) as (_ & Hl & _).
  pose proof (scale_k_upper x radix Hx Hradix nc1 Hsc Hfrom HB) as Hup.
  pose proof (scale_k_lower x radix Hx Hradix nc1 Hsc Hfrom HB) as Hlo.
  pose proof (digits_count x radix Hx Hradix nc1 Hok1 Hsc Hfrom HB _ nc1 _ _ _
                (same_but_out_refl nc1) Hl) as Hn.
  cbv zeta.
  assert (Hn1 : 1 <= Z.of_nat (length calls))
    by (subst calls; cbn [length]; lia).
  split; [exact Hup|]. split; [exact Hlo|]. split; [exact Hn|].
  split.
  - split; [split|split; [exact Hn1|]].
    + destruct (Z_lt_le_dec 0 (NC.k nc1)) as [H | H]; [lia|].
      pose proof (pow_index_bound 2 radix _ _ 1074 ltac:(lia) ltac:(lia)
                    (Hlo H) (Z.le_refl _)). lia.
    + destruct (Z_lt_le_dec 0 (NC.k nc1)) as [H | H]; [|lia].
      pose proof (pow_index_bound 2 radix _ _ 1024 ltac:(lia) ltac:(lia)
                    (Hup H) (Z.le_refl _)). lia.
    + destruct (Z_lt_le_dec (Z.of_nat (length calls)) 2) as [H | H]; [lia|].
      pose proof (pow_index_bound 2 radix _ _ 55 ltac:(lia) ltac:(lia)
                    (Hn H) (Z.le_refl _)). lia.
  - intros ->. split; [split|].
    + destruct (Z_lt_le_dec 0 (NC.k nc1)) as [H | H]; [lia|].
      assert (Hp : 2 ^ 1074 <= 10 ^ 324)
        by (apply Z.leb_le; vm_compute; reflexivity).
      pose proof (pow_index_bound 10 10 _ _ 324 ltac:(lia) ltac:(lia)
                    (Hlo H) Hp). lia.
    + destruct (Z_lt_le_dec 0 (NC.k nc1)) as [H | H]; [|lia].
      assert (Hp : 2 ^ 1024 <= 10 ^ 309)
        by (apply Z.leb_le; vm_compute; reflexivity).
      pose proof (pow_index_bound 10 10 _ _ 309 ltac:(lia) ltac:(lia)
                    (Hup H) Hp). lia.
    + destruct (Z_lt_le_dec (Z.of_nat (length calls)) 2) as [H | H]; [lia|].
      assert (Hp : 2 ^ 55 <= 10 ^ 17)
        by (apply Z.leb_le; vm_compute; reflexivity).
      pose proof (pow_index_bound 10 10 _ _ 17 ltac:(lia) ltac:(lia)
                    (Hn H) Hp). lia.
Qed.

Lemma dragon4_sizes_witness :
  dbl_is_finite_pos 0x7FEFFFFFFFFFFFFF = true /\ 2 <= 10 <= 36 /\
  exists fuel0 nc1 nc2 calls,
    (forall fuel, (fuel0 <= fuel)%nat ->
       dragon4_scale fuel (dragon4_start 0x7FEFFFFFFFFFFFFF 10) = Some nc1 /\
       dragon4_generate fuel nc1 = Some (nc2, calls)) /\
    let k := NC.k nc1 in
    let n := Z.of_nat (length calls) in
    (0 < k -> 10 ^ (k - 1) < 2 ^ 1024) /\
    (k <= 0 -> 10 ^ (- k) < 2 ^ 1074) /\
    (2 <= n -> 10 ^ (n - 2) < 2 ^ 55) /\
    (- 1073 <= k <= 1024 /\ 1 <= n <= 56) /\
    (10 = 10 -> - 323 <= k <= 309 /\ n <= 18).
Proof.
  split; [reflexivity|]. split; [lia|].
  exact (dragon4_sizes 0x7FEFFFFFFFFFFFFF 10 eq_refl ltac:(lia)).
Defined.
